(* ===== verification/_CoqProject ===== *)
-Q . S2P
Prelude.v
GoStd.v
Registry.v
RegistryInv.v
RegistryDiscover.v
RegistrySpec.v
RegistryLoop.v
RegistryLww.v
RegistryProps.v
Breaker.v
BreakerProps.v
BreakerRegistry.v
BreakerRegistryProps.v
GoMatch.v
GoMux.v
Policy.v
PolicyProps.v
Namespace.v
NamespaceProps.v
Proto.v
RegistryGrpc.v
RegistryGrpcProps.v
Federation.v
FederationServer.v
FederationRound.v
FederationPull.v
FederationLoop.v
FederationPush.v
FederationProps.v
TwoRelays.v
Http.v
HttpServer.v
Api.v
ApiControl.v
ApiProps.v
ControlProps.v
ApiServer.v
ApiServerProps.v
Mcp.v
McpProps.v
McpServer.v
HealthServer.v
Telemetry.v
Main.v
MainProps.v
System.v
SystemProps.v
Startup.v
StartupProps.v
