(* ===== verification/Prelude.v ===== *)
(** * agentanycast-relay: verification development (root file)

    The program is the relay server of AgentAnycast: a libp2p circuit relay with
    a skill registry that agents register with and are discovered through, a
    federation of such registries across relays, and a control plane (policies,
    namespaces, circuit breakers) served over gRPC, a REST API, MCP tools and a
    health endpoint.  The development models the relay's own Go code as pure
    functions on explicit states and proves what its components promise.

    ** Parts of the program and where they are modelled

    - the language and its library: [GoStd.v] (64- and 32-bit integers, time,
      [range] over maps, string order, [sort.Slice]), [GoMatch.v]
      ([filepath.Match]), [GoMux.v] (the [ServeMux] of [net/http]: path cleaning,
      percent-decoding, method patterns), [Http.v] ([ResponseWriter],
      [strconv.Atoi]);
    - the skill registry, [internal/registry/registry.go]: [Registry.v]; one
      definition per method, over the two maps, the two inverted indexes, the
      counters and the metrics.  [RegistryInv.v] has the invariant [wf], the
      operations [op] and the histories [reachable]; [RegistryDiscover.v] the
      search against a plain scan; [RegistrySpec.v] the abstract registry without
      indexes and the simulation; [RegistryLoop.v] the eviction goroutine with its
      ticker; [RegistryLww.v] the merging of federated updates; [RegistryProps.v]
      the theorems;
    - its gRPC service, [internal/registry/grpc_server.go]: [RegistryGrpc.v] over
      the messages of [Proto.v], theorems in [RegistryGrpcProps.v];
    - circuit breakers, [internal/resilience]: [Breaker.v] the state machine,
      [BreakerRegistry.v] the named breakers as pointers into a heap, with the
      two critical sections of [Get] interleaved between threads; theorems in
      [BreakerProps.v] and [BreakerRegistryProps.v];
    - the policy engine, [internal/policy]: [Policy.v], [PolicyProps.v];
    - namespaces, [internal/namespace]: [Namespace.v], [NamespaceProps.v];
    - federation, [internal/federation]: [Federation.v] (federation.go and
      gossip.go), [FederationServer.v] (grpc_server.go), [FederationRound.v] (the
      interleavings of a round), [FederationPull.v] (client and server of two
      relays put together), [FederationLoop.v] ([Start], the sync loop, [Stop]),
      [FederationPush.v] (the goroutines of [PushLocal] and their semaphore),
      [FederationProps.v]; [TwoRelays.v] has the theorems about two whole relays;
    - the REST API, [internal/api]: [Api.v] (handlers.go and the CORS middleware
      of server.go), [ApiControl.v] (handlers_policy.go, handlers_namespace.go,
      handlers_resilience.go), [ApiServer.v] (the routes of [New], embed.go, and
      the handler of a whole request), [HttpServer.v] ([Start] and [Close], also of
      the health server); [ApiProps.v] on the directory, CORS and the breaker
      reset, [ControlProps.v] on policies and namespaces, [ApiServerProps.v] on
      routing and answers;
    - the MCP server and the health server, [internal/mcp] and [internal/health]:
      [Mcp.v] and [McpProps.v] (tools and health report), [McpServer.v] (server.go),
      [HealthServer.v] (the routes of health.go);
    - tracing, [internal/telemetry]: [Telemetry.v];
    - the main program, [cmd/relay/main.go]: [Main.v] and [MainProps.v] (what it
      decides itself), [Startup.v] and [StartupProps.v] ([main] from its flags to
      its exit);
    - the running relay: [System.v] puts the parts together as [main] does, with
      one event for every critical section that changes something; [SystemProps.v]
      has the theorems about all runs.

    This file holds the scope, the hint database, the tactics and the generic
    lemmas that all of them share.

    ** How the parts interact, and how that is modelled

    Every method of the registry, the policy engine, the namespace manager and a
    breaker holds its component's lock from its first access to its last, so a
    method is one step and a concurrent run is a sequence of steps; theorems
    quantify over all sequences.  Where no lock is held throughout, the steps are
    the critical sections: [BreakerRegistry.Get] (a read section, then a write
    section), the goroutines of a federation round ([interleaving] of the
    [sync_action]s of all peers), those of a push ([push_step]), and handlers that
    call the registry twice (two [RegRead]s).

    Goroutines that live on are step relations of their own, closed under
    everything the rest of the process may do in between: [proc_step] (the
    eviction loop, with a clock that a due tick holds back by at most [lag]),
    [fed_step] (the sync loop, callers of [Start] and [Stop], users of the
    registry), [http_step] and [mcp_step] (the serving goroutines, clients and
    callers of [Close]).  [Startup.main] records that it starts the eviction loop and
    the sync loop and whether their tickers panic, and [process] is the relation of
    the ways in which [main] and they can end the process.  Progress is stated for each: the steps that remain once
    nothing new is begun decrease a measure, and where none is possible the result
    is there.

    The gRPC client of a peer relay is a function; [FederationPull.client_of] plugs
    the modelled server into the modelled client.  The federation, the API and the
    MCP tools use the registry through its operations; the API's control plane
    uses the engine, the manager and the breaker registry through theirs; a whole
    HTTP request goes through [ApiServer.serve].  [System.v] has all critical
    sections that change something as events of one transition system ([sys_step]);
    [sync_round_run] and [push_run] show that whole rounds and whole pushes are
    runs of it, and [sys_run_ops] that every run is a history of registry
    operations, so that the registry's theorems apply to it.  [Startup.startup]
    ends in [System.sys_init] ([main_runs]).

    ** Parameters

    - [RangeOrder]: the order in which [range] visits a map, any enumeration of
      the keys; [SortSlice]: any function that returns a sorted permutation;
    - clock readings are arguments, one per call of [time.Now()];
    - [Timestamps]: protobuf timestamps, of which only [AsTime (New t) = t] is
      used;
    - the conversion of an out-of-range [float64] to [int64], which Go leaves to
      the implementation ([conv_oob]);
    - JSON decoding and [%q] quoting in the API, the embedded files and the file
      server behind it, the Prometheus handler;
    - libp2p (key functions, host, relay, event bus), [net.Listen], the
      OpenTelemetry exporter, resource and provider.

    Each class and record has an instance, and the theorems are applied to
    concrete inputs in their witnesses.

    ** What the theorems show

    - Registry: every history runs without a panic and refines the index-free
      abstract registry, statistics included; the indexes are exact; capacities
      hold; search equals the scan and is sound; eviction is exact, and in time
      while the goroutine runs; the lifetime of a registration; what unregistering
      removes; local priority; the behaviour at the expiry instant; federated
      updates converge.
    - gRPC service: exact error codes, the round trip from registering to
      discovering, heartbeats.
    - Breakers: the legal edges and counter bounds in every history, when a
      breaker trips, blocks and recovers; one shared breaker per name under all
      interleavings.
    - Policies: refinement of a map; a decision has least priority number; glob
      patterns.  Namespaces: invariant and sorted listing.
    - Federation: the backoff schedule, and where its arithmetic wraps; one
      outcome per round; what one pull transfers; exact responses; which
      registrations incremental pulls miss; the accounting of pushes and their
      termination; the life of the manager; an agent registered on one relay is
      discovered on another; no peer is given up.
    - The whole: in every run a registration survives what the others do, and
      capacities, completeness of registrations, federation state, policies,
      namespaces and breakers satisfy one invariant.
    - API: routing and its inverse, the status and shape of every answer, what the
      directory lists and its pages and counts, the policy and namespace endpoints
      refine two maps for every sequence of requests, CORS.  The servers: their lives from [Start] to [Close].
    - MCP tools, health report and routes, tracing setup.
    - The main program: the identity key; the first failing check and the flags for
      which a goroutine panics decide how the process can end; one that starts and
      does not panic sets up the modelled relay, closes what it opened and runs what
      it deferred.

    ** Fuel

    Only [filepath.Match] and [strings.TrimSpace] run on fuel, the length of the
    pattern plus one and the length of the text; [GoMatch.Match_total] and
    [MainProps.trim_front_clean] show that it suffices.

    ** Not modelled

    Logging other than what [main] and the servers report, metrics other than the
    registry's, the spans of a federation round, the transport itself (libp2p,
    gRPC, HTTP connections, MCP sessions), JSON encoding, and the parsing of flags:
    they are I/O or library calls and do not feed back into the state modelled
    here.  A panic in a goroutine ends the process: [Registry_spawn] and [fed_start]
    say when it happens, [Startup.process] what it does to the process, and
    [System.v] describes a process that goes on, for which no goroutine panics.
    [int] counters of the registry are unbounded integers, as they are bounded by
    the sizes of maps in memory. *)
From stdpp Require Import gmap strings list sorting fin_maps.
From Stdlib Require Import ZArith Lia.

#[global] Set Default Goal Selector "!".

(** ** Scope, hint database and tactics shared by every file *)

Declare Scope relay_scope.
Delimit Scope relay_scope with relay.

Create HintDb relay discriminated.

(** Case analysis on every [match] and [if] of the goal and of the hypotheses,
    closing what the equations refute. *)
Ltac go_cases := repeat (case_match; simplify_eq/=); try done.

(** Turns boolean comparisons on [Z] and on booleans into propositions. *)
Ltac bool_to_prop :=
  repeat match goal with
  | H : (_ <? _)%Z = true |- _ => apply Z.ltb_lt in H
  | H : (_ <? _)%Z = false |- _ => apply Z.ltb_ge in H
  | H : (_ <=? _)%Z = true |- _ => apply Z.leb_le in H
  | H : (_ <=? _)%Z = false |- _ => apply Z.leb_gt in H
  | H : (_ =? _)%Z = true |- _ => apply Z.eqb_eq in H
  | H : (_ =? _)%Z = false |- _ => apply Z.eqb_neq in H
  | H : (_ >? _)%Z = _ |- _ => rewrite Z.gtb_ltb in H
  | H : (_ >=? _)%Z = _ |- _ => rewrite Z.geb_leb in H
  | H : (_ && _)%bool = true |- _ => apply andb_true_iff in H as [??]
  | H : (_ || _)%bool = false |- _ => apply orb_false_iff in H as [??]
  | H : negb _ = true |- _ => apply negb_true_iff in H
  | H : negb _ = false |- _ => apply negb_false_iff in H
  | H : String.eqb _ _ = true |- _ => apply String.eqb_eq in H
  | H : String.eqb _ _ = false |- _ => apply String.eqb_neq in H
  | H : bool_decide _ = true |- _ => apply bool_decide_eq_true_1 in H
  | H : bool_decide _ = false |- _ => apply bool_decide_eq_false_1 in H
  end.

(** Case analysis on a boolean condition of the goal, recording it. *)
Ltac case_if H :=
  match goal with |- context [if ?b then _ else _] => destruct b eqn:H end.
Ltac case_ifs := repeat (let H := fresh "Hif" in case_if H).

(** Splits a handler into its branches and leaves arithmetic to [lia]. *)
Ltac go_solve := go_cases; bool_to_prop; simplify_eq/=; eauto with relay; try lia.

(** ** Generic lemmas *)

(** Inserting the pairs of a list one after another builds the map of the list. *)
Lemma foldl_insert_list_to_map `{Countable K} {V} (l : list (K * V)) (acc : gmap K V) :
  NoDup l.*1 →
  foldl (λ m kv, <[kv.1 := kv.2]> m) acc l = list_to_map l ∪ acc.
Proof.
  revert acc. induction l as [|[k v] l IH]; intros acc Hnd; simpl.
  - by rewrite (left_id_L ∅ (∪)).
  - apply NoDup_cons in Hnd as [Hk Hnd]. rewrite IH by done.
    rewrite <- insert_union_l, insert_union_r; [done|].
    by apply not_elem_of_list_to_map_1.
Qed.

Lemma foldl_map_to_list `{Countable K} {V} (m : gmap K V) :
  foldl (λ acc kv, <[kv.1 := kv.2]> acc) ∅ (map_to_list m) = m.
Proof.
  rewrite foldl_insert_list_to_map by apply NoDup_fst_map_to_list.
  by rewrite list_to_map_to_list, (right_id_L ∅ (∪)).
Qed.

Lemma bool_decide_is_Some {A} (o : option A) :
  bool_decide (is_Some o) = match o with Some _ => true | None => false end.
Proof. destruct o; case_bool_decide as H; [done| |by destruct H|done]. by destruct H. Qed.

(** [omap] by a partial function with a left inverse keeps lists duplicate-free. *)
Lemma NoDup_omap_inv {A B} (f : A → option B) (g : B → A) (l : list A) :
  (∀ x y, f x = Some y → g y = x) → NoDup l → NoDup (omap f l).
Proof.
  intros Hg. induction 1 as [|x l Hx Hl IH]; simpl; [constructor|].
  destruct (f x) as [y|] eqn:E; [|done]. constructor; [|done].
  intros (x' & Hx' & E')%list_elem_of_omap. apply Hg in E, E'. by subst.
Qed.

Lemma NoDup_fmap_omap_inv {A B} (f : A → option B) (g : B → A) (l : list A) :
  (∀ x y, f x = Some y → g y = x) → NoDup l → NoDup (g <$> omap f l).
Proof.
  intros Hg. induction 1 as [|x l Hx Hl IH]; simpl; [constructor|].
  destruct (f x) as [y|] eqn:E; [|done]. simpl. constructor; [|done].
  rewrite (Hg _ _ E). intros (y' & -> & (x' & Hx' & E')%list_elem_of_omap)%list_elem_of_fmap.
  apply Hg in E'. by rewrite E' in Hx.
Qed.

Lemma omap_cons {A B} (f : A → option B) x (l : list A) :
  omap f (x :: l) = match f x with Some y => y :: omap f l | None => omap f l end.
Proof. done. Qed.

(** What [partial_alter] does, by the value of the function at the key. *)
Section partial_alter.
Context `{Countable K} {V : Type} (f : option V → option V) (k : K) (m : gmap K V).

Lemma partial_alter_to_insert v : f (m !! k) = Some v → partial_alter f k m = <[k := v]> m.
Proof.
  intros Hf. apply map_eq. intros j. destruct (decide (k = j)) as [<-|].
  - by rewrite lookup_partial_alter_eq, lookup_insert_eq.
  - by rewrite lookup_partial_alter_ne, lookup_insert_ne.
Qed.

Lemma partial_alter_to_delete : f (m !! k) = None → partial_alter f k m = delete k m.
Proof.
  intros Hf. apply map_eq. intros j. destruct (decide (k = j)) as [<-|].
  - by rewrite lookup_partial_alter_eq, lookup_delete_eq.
  - by rewrite lookup_partial_alter_ne, lookup_delete_ne.
Qed.

Lemma partial_alter_same : f (m !! k) = m !! k → partial_alter f k m = m.
Proof.
  intros Hf. apply map_eq. intros j. destruct (decide (k = j)) as [<-|].
  - by rewrite lookup_partial_alter_eq.
  - by rewrite lookup_partial_alter_ne.
Qed.
End partial_alter.

(** A list lookup after an update: the new element or an old one. *)
Lemma list_insert_lookup_cases {A} (l : list A) i j x y :
  <[i := x]> l !! j = Some y → x = y ∨ l !! j = Some y.
Proof. intros [(-> & -> & _)|[_ Hj]]%list_lookup_insert_Some; auto. Qed.

Lemma length_omap_le {A B} (f : A → option B) (l : list A) : length (omap f l) ≤ length l.
Proof. induction l as [|x l IH]; [done|]. rewrite omap_cons. destruct (f x); simpl; lia. Qed.

(** A filter that drops something is shorter. *)
Lemma filter_shorter {A} (P : A → bool) (l : list A) :
  (Z.of_nat (length (filter (λ x, P x) l)) < Z.of_nat (length l))%Z ↔ ∃ x, x ∈ l ∧ P x = false.
Proof.
  induction l as [|x l IH].
  - simpl. split; [lia|]. by intros (? & ?%elem_of_nil & _).
  - pose proof (length_filter (λ x, P x) l) as Hle. rewrite filter_cons. destruct (P x) eqn:Hx; simpl.
    + split.
      * intros Hlt. destruct (proj1 IH) as (y & Hy & ?); [lia|]. exists y. split; [by right|done].
      * intros (y & [->|Hy]%elem_of_cons & Hp); [congruence|].
        enough (Z.of_nat (length (filter (λ x, P x) l)) < Z.of_nat (length l))%Z by lia.
        apply IH. eauto.
    + split; [|lia]. intros _. exists x. split; [left|done].
Qed.

(** ** Step relations *)

(** A measure that every step decreases bounds the number of steps. *)
Lemma nsteps_measure {A} (R : relation A) (m : A → nat) n x y :
  (∀ a b, R a b → m b < m a) → nsteps R n x y → n + m y ≤ m x.
Proof.
  intros Hm. induction 1 as [x|n x y z Hxy _ IH]; [done|]. apply Hm in Hxy. lia.
Qed.

(** An invariant of the steps holds of what they reach. *)
Lemma rtc_preserves {A} (R : relation A) (P : A → Prop) x y :
  (∀ a b, P a → R a b → P b) → P x → rtc R x y → P y.
Proof. intros Hstep Hx Hxy. induction Hxy; eauto. Qed.
