(* ===== verification/GoStd.v ===== *)
(** * The parts of Go and of its standard library that the relay relies on

    Machine integers, [time.Time], multi-valued results, the nondeterministic
    iteration order of [range] over a map, string order and [sort.Slice]. *)
From stdpp Require Import gmap strings list sorting fin_maps.
From Stdlib Require Import ZArith Lia.
From S2P Require Import Prelude.

Local Open Scope Z_scope.

(** ** Machine integers *)

(** Conversion to [uint64] and to [int64] (two's complement wrap-around). *)
Definition uint64 (z : Z) : Z := z mod 2 ^ 64.
Definition int64 (z : Z) : Z := (z + 2 ^ 63) mod 2 ^ 64 - 2 ^ 63.

Definition int32 (z : Z) : Z := (z + 2 ^ 31) mod 2 ^ 32 - 2 ^ 31.

Definition min_int64 : Z := - 2 ^ 63.
Definition max_int64 : Z := 2 ^ 63 - 1.

Lemma uint64_small z : 0 <= z < 2 ^ 64 → uint64 z = z.
Proof. intros ?. unfold uint64. by rewrite Z.mod_small. Qed.

Lemma int64_small z : min_int64 <= z <= max_int64 → int64 z = z.
Proof.
  unfold int64, min_int64, max_int64. intros ?.
  rewrite Z.mod_small; lia.
Qed.

Lemma int32_small z : 0 <= z < 2 ^ 31 → int32 z = z.
Proof. unfold int32. intros ?. rewrite Z.mod_small; lia. Qed.

Lemma int64_range z : min_int64 <= int64 z <= max_int64.
Proof.
  unfold int64, min_int64, max_int64.
  pose proof (Z.mod_pos_bound (z + 2 ^ 63) (2 ^ 64)). lia.
Qed.

Lemma uint64_range z : 0 <= uint64 z < 2 ^ 64.
Proof. apply Z.mod_pos_bound. lia. Qed.

(** ** [time.Time] and [time.Duration]

    A [time.Time] is its number of nanoseconds since the Unix epoch; the zero
    value is January 1, year 1, 00:00:00 UTC.  Every reading of [time.Now()] is
    an argument of the definition that makes it. *)
Definition Second : Z := 1000000000.
Definition Minute : Z := 60 * Second.
Definition zero_time : Z := - 62135596800 * Second.

Definition IsZero (t : Z) : bool := t =? zero_time.
Definition After (t u : Z) : bool := u <? t.
Definition Before (t u : Z) : bool := t <? u.
Definition Equal (t u : Z) : bool := t =? u.
Definition Add (t d : Z) : Z := t + d.

(** [t.UnixNano()] is an [int64]. *)
Definition UnixNano (t : Z) : Z := int64 t.

Lemma uint64_UnixNano t : uint64 (UnixNano t) = uint64 t.
Proof.
  unfold uint64, UnixNano, int64.
  rewrite Zminus_mod_idemp_l. f_equal. lia.
Qed.

(** ** Lengths *)

Definition len {A} (l : list A) : Z := Z.of_nat (length l).
Definition map_len {A} (m : gmap string A) : Z := Z.of_nat (size m).
Definition set_len (s : gset string) : Z := Z.of_nat (size s).

Lemma len_nil {A} : len (@nil A) = 0.
Proof. done. Qed.
Lemma len_cons {A} (x : A) l : len (x :: l) = len l + 1.
Proof. unfold len; simpl; lia. Qed.
Lemma len_app {A} (l k : list A) : len (l ++ k) = len l + len k.
Proof. unfold len. rewrite length_app. lia. Qed.
Lemma len_nonneg {A} (l : list A) : 0 <= len l.
Proof. unfold len; lia. Qed.

Lemma len_zero_inv {A} (l : list A) : len l = 0 → l = [].
Proof. unfold len. destruct l; simpl; [done|lia]. Qed.

(** Linear arithmetic over lengths. *)
Ltac len_lia :=
  unfold len in *; repeat rewrite length_app in *; simpl length in *; lia.

(** ** [range] over a map

    Go leaves the order in which [range] visits the keys of a map open.  An
    iteration takes an argument of this type: any function that lists every key
    exactly once.  Statements that quantify over it hold for every order. *)
Record RangeOrder := mkRangeOrder {
  range_keys :> gset string → list string;
  range_keys_perm : ∀ s, range_keys s ≡ₚ elements s
}.

Program Definition canonical_order : RangeOrder :=
  {| range_keys := elements |}.
Next Obligation. done. Qed.

Program Definition reversed_order : RangeOrder :=
  {| range_keys := λ s, reverse (elements s) |}.
Next Obligation. intros s. by rewrite reverse_Permutation. Qed.

Section range_order.
Context (ord : RangeOrder).

Lemma elem_of_range s x : x ∈ ord s ↔ x ∈ s.
Proof. by rewrite range_keys_perm, elem_of_elements. Qed.

Lemma NoDup_range s : NoDup (ord s).
Proof. rewrite range_keys_perm. apply NoDup_elements. Qed.

Lemma length_range s : length (ord s) = size s.
Proof. by rewrite range_keys_perm. Qed.
End range_order.

#[export] Hint Resolve NoDup_range : relay.

(** The values of a map in iteration order. *)
Definition range_values {A} (ord : RangeOrder) (m : gmap string A) : list A :=
  omap (λ k, m !! k) (ord (dom m)).

Lemma omap_lookup_dom_perm {A} (m : gmap string A) :
  omap (λ k, m !! k) (elements (dom m)) ≡ₚ (map_to_list m).*2.
Proof.
  induction m as [|k x m Hk IH] using map_ind.
  - by rewrite dom_empty_L, map_to_list_empty.
  - rewrite dom_insert_L, elements_disj_union, elements_singleton
      by (apply not_elem_of_dom in Hk; set_solver).
    rewrite map_to_list_insert by done. simpl. rewrite lookup_insert_eq.
    simpl. constructor. rewrite <- IH.
    apply reflexive_eq, list_omap_ext, Forall2_same_length_lookup_2; [done|].
    intros i y z Hy Hz. simplify_eq.
    apply list_elem_of_lookup_2 in Hy. rewrite elem_of_elements, elem_of_dom in Hy.
    rewrite lookup_insert_ne; [done|]. intros ->. by destruct Hy as [? ?]; simplify_eq.
Qed.

Lemma range_values_perm {A} (ord : RangeOrder) (m : gmap string A) :
  range_values ord m ≡ₚ (map_to_list m).*2.
Proof.
  unfold range_values. rewrite <- omap_lookup_dom_perm. by rewrite range_keys_perm.
Qed.

Lemma length_range_values {A} (ord : RangeOrder) (m : gmap string A) :
  length (range_values ord m) = size m.
Proof. by rewrite range_values_perm, length_fmap, length_map_to_list. Qed.

Lemma elem_of_range_values {A} (ord : RangeOrder) (m : gmap string A) x :
  x ∈ range_values ord m ↔ ∃ k, m !! k = Some x.
Proof.
  rewrite range_values_perm, list_elem_of_fmap. split.
  - intros ([k y] & -> & Hin). apply elem_of_map_to_list in Hin. eauto.
  - intros [k Hk]. exists (k, x). split; [done|]. by apply elem_of_map_to_list.
Qed.

(** ** String order: Go compares strings bytewise *)

Definition str_lt (a b : string) : bool := String.ltb a b.
Definition str_le (a b : string) : bool := String.leb a b.

Lemma str_le_spec a b : str_le a b = true ↔ (a ≤ b)%string.
Proof. unfold str_le, String.le. by rewrite Is_true_true. Qed.

Lemma str_lt_le a b : str_lt a b = negb (str_le b a).
Proof.
  unfold str_lt, str_le, String.ltb, String.leb.
  rewrite (String.compare_antisym b a). by destruct (String.compare a b).
Qed.

Lemma str_le_refl a : str_le a a = true.
Proof. by apply str_le_spec. Qed.

Lemma str_le_trans a b c : str_le a b = true → str_le b c = true → str_le a c = true.
Proof. rewrite !str_le_spec. apply String.le_po. Qed.

Lemma str_le_antisym a b : str_le a b = true → str_le b a = true → a = b.
Proof. rewrite !str_le_spec. apply String.le_po. Qed.

Lemma str_le_total a b : str_le a b = true ∨ str_le b a = true.
Proof. rewrite !str_le_spec. apply String.le_total. Qed.

Lemma str_lt_trans a b c : str_lt a b = true → str_lt b c = true → str_lt a c = true.
Proof.
  rewrite !str_lt_le, !negb_true_iff. intros Hab Hbc.
  destruct (str_le c a) eqn:Hca; [|done].
  destruct (str_le_total a b) as [H|H]; [|congruence].
  by rewrite (str_le_trans _ _ _ Hca H) in Hbc.
Qed.

Lemma str_lt_irrefl a : str_lt a a = false.
Proof. by rewrite str_lt_le, str_le_refl. Qed.

(** ** [sort.Slice]

    The documentation asks that [less] be a strict weak order and promises a
    sorted permutation; it does not promise stability.  Clients are verified
    against this interface. *)
Record strict_weak {A} (less : A → A → bool) : Prop := {
  sw_irrefl x : less x x = false;
  sw_trans x y z : less x y = true → less y z = true → less x z = true;
  sw_incomp x y z : less x y = false → less y z = false → less x z = false
}.

Definition sorted_by {A} (less : A → A → bool) (l : list A) : Prop :=
  StronglySorted (λ x y, less y x = false) l.

Class SortSlice := {
  sort_slice {A} : (A → A → bool) → list A → list A;
  sort_slice_perm {A} (less : A → A → bool) l : sort_slice less l ≡ₚ l;
  sort_slice_sorted {A} (less : A → A → bool) l :
    strict_weak less → sorted_by less (sort_slice less l)
}.

Lemma strict_weak_Z {A} (f : A → Z) : strict_weak (λ x y, f x <? f y).
Proof. split; intros; bool_to_prop; (apply Z.ltb_lt || apply Z.ltb_ge); lia. Qed.

Lemma strict_weak_str {A} (f : A → string) : strict_weak (λ x y, str_lt (f x) (f y)).
Proof.
  split.
  - intros x. apply str_lt_irrefl.
  - intros x y z. apply str_lt_trans.
  - intros x y z. rewrite !str_lt_le, !negb_false_iff. eauto using str_le_trans.
Qed.

#[export] Hint Resolve strict_weak_Z strict_weak_str : relay.

(** Two sorted lists with the same elements and pairwise different keys are
    equal, whatever algorithm produced them. *)
Lemma sorted_by_str_unique {A} (f : A → string) (l k : list A) :
  sorted_by (λ x y, str_lt (f x) (f y)) l →
  sorted_by (λ x y, str_lt (f x) (f y)) k →
  l ≡ₚ k → NoDup (f <$> l) → l = k.
Proof.
  intros Hl Hk Hp Hnd. unfold sorted_by in *.
  eapply (StronglySorted_unique_strong _ l k); [|eassumption..].
  intros x y Hx Hy Hyx Hxy. simpl in *. rewrite str_lt_le, negb_false_iff in Hyx, Hxy.
  assert (f x = f y) as Hf by eauto using str_le_antisym.
  apply list_elem_of_lookup in Hx as [i Hi].
  assert (y ∈ l) as [j Hj]%list_elem_of_lookup by by rewrite Hp.
  assert (i = j) as ->.
  { apply (NoDup_lookup (f <$> l) i j (f x)); [done|..];
      rewrite list_lookup_fmap, ?Hi, ?Hj; simpl; congruence. }
  by simplify_eq.
Qed.

Lemma StronglySorted_reverse {A} (R : relation A) l :
  StronglySorted R l → StronglySorted (flip R) (reverse l).
Proof.
  induction 1 as [|x l Hl IH Hall]; [constructor|].
  rewrite reverse_cons. apply StronglySorted_app_2; [|done|repeat constructor].
  intros y z Hy Hz. rewrite elem_of_reverse in Hy. apply list_elem_of_singleton in Hz as ->.
  unfold flip. rewrite Forall_forall in Hall. by apply Hall.
Qed.

(** Sorted without duplicates is strictly sorted. *)
Lemma sorted_by_strict {A} (f : A → string) l :
  sorted_by (λ x y, str_lt (f x) (f y)) l → NoDup (f <$> l) →
  StronglySorted (λ x y, str_lt (f x) (f y) = true) l.
Proof.
  unfold sorted_by. intros Hs Hnd. induction Hs as [|a l Hs IH Hall]; [constructor|].
  rewrite fmap_cons in Hnd. apply NoDup_cons in Hnd as [Ha Hnd]. constructor; [by apply IH|].
  rewrite Forall_forall in *. intros b Hb. specialize (Hall b Hb).
  rewrite str_lt_le, negb_false_iff in Hall. rewrite str_lt_le, negb_true_iff.
  destruct (str_le (f b) (f a)) eqn:Hba; [|done].
  destruct Ha. rewrite (str_le_antisym _ _ Hall Hba). by apply list_elem_of_fmap_2.
Qed.

Lemma StronglySorted_impl {A} (R S : relation A) l :
  StronglySorted R l → (∀ x y, R x y → S x y) → StronglySorted S l.
Proof.
  intros Hl Hi. induction Hl as [|x l Hl IH Hall]; constructor; [done|].
  eapply Forall_impl; [exact Hall|]. apply Hi.
Qed.

(** What [sort.Slice] runs on at most twelve elements: insertion sort. *)
Section insertion_sort.
Context {A : Type} (less : A → A → bool).

(** Inserts [x] into a prefix kept in reverse (largest element first). *)
Fixpoint insert_back (x : A) (racc : list A) : list A :=
  match racc with
  | [] => [x]
  | y :: ys => if less x y then y :: insert_back x ys else x :: y :: ys
  end.

Definition insertion_sort (l : list A) : list A :=
  reverse (foldl (λ racc x, insert_back x racc) [] l).

Lemma insert_back_perm x racc : insert_back x racc ≡ₚ x :: racc.
Proof.
  induction racc as [|y ys IH]; simpl; [done|].
  case_match; [|done]. rewrite IH. apply Permutation_swap.
Qed.

Lemma insertion_sort_perm l : insertion_sort l ≡ₚ l.
Proof.
  unfold insertion_sort. rewrite reverse_Permutation.
  cut (∀ acc, foldl (λ racc x, insert_back x racc) acc l ≡ₚ acc ++ l).
  { intros H. apply (H []). }
  induction l as [|x l IH]; intros acc; simpl; [by rewrite app_nil_r|].
  rewrite IH, insert_back_perm. by rewrite <- Permutation_middle.
Qed.

Lemma insert_back_sorted (Hw : strict_weak less) x racc :
  StronglySorted (λ a b, less a b = false) racc →
  StronglySorted (λ a b, less a b = false) (insert_back x racc).
Proof.
  induction 1 as [|y ys Hys IH Hall]; simpl; [repeat constructor|].
  case_match eqn:Hxy.
  - constructor; [done|]. rewrite insert_back_perm. constructor; [|done].
    destruct (less y x) eqn:Hyx; [|done].
    pose proof (sw_trans _ Hw _ _ _ Hxy Hyx). by rewrite (sw_irrefl _ Hw) in *.
  - constructor; [by constructor|]. constructor; [done|].
    eapply Forall_impl; [exact Hall|]. intros z Hz. by eapply (sw_incomp _ Hw).
Qed.

Lemma insertion_sort_sorted l : strict_weak less → sorted_by less (insertion_sort l).
Proof.
  intros Hw. unfold sorted_by, insertion_sort.
  cut (∀ acc, StronglySorted (λ a b, less a b = false) acc →
    StronglySorted (λ a b, less a b = false) (foldl (λ racc x, insert_back x racc) acc l)).
  { intros H. apply (StronglySorted_reverse _ _ (H [] ltac:(constructor))). }
  induction l as [|x l IH]; intros acc Hacc; simpl; [done|].
  by apply IH, insert_back_sorted.
Qed.
End insertion_sort.

#[export] Instance insertion_sort_slice : SortSlice := {|
  sort_slice := @insertion_sort;
  sort_slice_perm := @insertion_sort_perm;
  sort_slice_sorted := @insertion_sort_sorted
|}.
