(* ===== verification/Registry.v ===== *)
(** * internal/registry/registry.go: the skill registry

    The in-memory store of local and federated registrations with its two
    inverted indexes, its atomic counters and its Prometheus gauges.  One
    definition per Go function; readings of the clock and iteration orders of
    [range] are arguments. *)
From stdpp Require Import gmap strings list fin_maps.
From Stdlib Require Import ZArith Lia.
From S2P Require Import Prelude GoStd.

Local Open Scope Z_scope.

(** ** Constants *)
Definition DefaultTTL : Z := 30 * Second.
Definition DefaultMaxRegistrations : Z := 4096.
Definition DefaultMaxFederatedRegistrations : Z := 8192.
Definition DefaultDiscoverLimit : Z := 100.
Definition MaxDiscoverLimit : Z := 1000.

Inductive registry_error := ErrRegistryFull | ErrFederatedRegistryFull.

#[export] Instance registry_error_eq_dec : EqDecision registry_error.
Proof. solve_decision. Defined.

(** ** Data

    A nil [Tags] map and an empty one read the same and are both [∅]. *)
Record SkillInfo := mkSkillInfo {
  SkillID : string;
  Description : string;
  Tags : gmap string string
}.

#[export] Instance SkillInfo_eq_dec : EqDecision SkillInfo.
Proof. solve_decision. Defined.

Record Registration := mkRegistration {
  PeerID : string;
  Skills : list SkillInfo;
  AgentName : string;
  AgentDescription : string;
  RegisteredAt : Z;
  ExpiresAt : Z;
  Origin : string;
  Version : Z
}.

#[export] Instance Registration_eq_dec : EqDecision Registration.
Proof. solve_decision. Defined.

Record Config := mkConfig {
  TTL : Z;
  MaxRegistrations : Z;
  MaxFederatedRegistrations : Z;
  CleanupInterval : Z
}.

(** [map[string]map[string]struct{}]: skill ID to the set of peer IDs. *)
Abbreviation Index := (gmap string (gset string)).

Record Metrics := mkMetrics {
  metricLocalCount : Z;
  metricFederatedCount : Z;
  metricEvictionsTotal : Z
}.

(** [stopCh] is [true] once closed; [closeOnce] is [true] once it has run. *)
Record Registry := mkRegistry {
  entries : gmap string Registration;
  federated : gmap string Registration;
  skillIndex : Index;
  fedSkillIndex : Index;
  localCount : Z;
  federatedCount : Z;
  config : Config;
  stopCh : bool;
  closeOnce : bool;
  metrics : Metrics
}.

(** Replaces the local (resp. federated) part of the registry. *)
Definition with_local (r : Registry) (es : gmap string Registration) (idx : Index)
    (n : Z) (g : Z) : Registry :=
  {| entries := es; federated := federated r; skillIndex := idx;
     fedSkillIndex := fedSkillIndex r; localCount := n;
     federatedCount := federatedCount r; config := config r;
     stopCh := stopCh r; closeOnce := closeOnce r;
     metrics := mkMetrics g (metricFederatedCount (metrics r))
                          (metricEvictionsTotal (metrics r)) |}.

Definition with_federated (r : Registry) (es : gmap string Registration) (idx : Index)
    (n : Z) (g : Z) : Registry :=
  {| entries := entries r; federated := es; skillIndex := skillIndex r;
     fedSkillIndex := idx; localCount := localCount r;
     federatedCount := n; config := config r;
     stopCh := stopCh r; closeOnce := closeOnce r;
     metrics := mkMetrics (metricLocalCount (metrics r)) g
                          (metricEvictionsTotal (metrics r)) |}.

Definition with_metrics (r : Registry) (m : Metrics) : Registry :=
  {| entries := entries r; federated := federated r; skillIndex := skillIndex r;
     fedSkillIndex := fedSkillIndex r; localCount := localCount r;
     federatedCount := federatedCount r; config := config r;
     stopCh := stopCh r; closeOnce := closeOnce r; metrics := m |}.

(** ** Construction *)

(** The defaults [New] fills in.  [cfg.TTL / 2] is Go's truncated division. *)
Definition Config_defaults (cfg : Config) : Config :=
  let ttl := if TTL cfg =? 0 then DefaultTTL else TTL cfg in
  {| TTL := ttl;
     MaxRegistrations :=
       if MaxRegistrations cfg =? 0 then DefaultMaxRegistrations else MaxRegistrations cfg;
     MaxFederatedRegistrations :=
       if MaxFederatedRegistrations cfg =? 0 then DefaultMaxFederatedRegistrations
       else MaxFederatedRegistrations cfg;
     CleanupInterval :=
       if CleanupInterval cfg =? 0 then Z.quot ttl 2 else CleanupInterval cfg |}.

(** The gauges and the counter are package variables, zero when the process starts. *)
Definition Registry_New (cfg : Config) : Registry :=
  {| entries := ∅; federated := ∅; skillIndex := ∅; fedSkillIndex := ∅;
     localCount := 0; federatedCount := 0; config := Config_defaults cfg;
     stopCh := false; closeOnce := false; metrics := mkMetrics 0 0 0 |}.

(** ** Skills and their inverted index *)

Definition copyTags (tags : gmap string string) : gmap string string :=
  if map_len tags >? 0
  then foldl (λ acc kv, <[kv.1 := kv.2]> acc) ∅ (map_to_list tags)
  else ∅.

Definition copySkills (skills : list SkillInfo) : list SkillInfo :=
  map (λ s, mkSkillInfo (SkillID s) (Description s) (copyTags (Tags s))) skills.

Fixpoint addToSkillIndex (index : Index) (peerID : string) (skills : list SkillInfo) : Index :=
  match skills with
  | [] => index
  | s :: skills =>
    let index := match index !! SkillID s with
                 | Some _ => index
                 | None => <[SkillID s := ∅]> index
                 end in
    let peers := default ∅ (index !! SkillID s) in
    addToSkillIndex (<[SkillID s := {[peerID]} ∪ peers]> index) peerID skills
  end.

(** The body of both removal loops: drop [peerID] from one skill's set, and the
    skill itself when its set becomes empty. *)
Definition dropFromSkill (index : Index) (peerID skillID : string) : Index :=
  match index !! skillID with
  | Some peers =>
    let peers := peers ∖ {[peerID]} in
    if set_len peers =? 0 then delete skillID index else <[skillID := peers]> index
  | None => index
  end.

Fixpoint removeFromSkillIndex (index : Index) (peerID : string) (skills : list SkillInfo) : Index :=
  match skills with
  | [] => index
  | s :: skills => removeFromSkillIndex (dropFromSkill index peerID (SkillID s)) peerID skills
  end.

(** ** Operations on local registrations *)

(** Go's [(expiresAt, err)] is a pair; the error case returns the zero time. *)
Definition Register (r : Registry) (now : Z) (peerID : string) (skills : list SkillInfo)
    (agentName agentDesc : string) : Registry * (Z * option registry_error) :=
  let existing := entries r !! peerID in
  if negb (bool_decide (is_Some existing)) && (map_len (entries r) >=? MaxRegistrations (config r))
  then (r, (zero_time, Some ErrRegistryFull))
  else
    let expiresAt := Add now (TTL (config r)) in
    let copiedSkills := copySkills skills in
    let idx := match existing with
               | Some e => removeFromSkillIndex (skillIndex r) peerID (Skills e)
               | None => skillIndex r
               end in
    let idx := addToSkillIndex idx peerID copiedSkills in
    let reg := {| PeerID := peerID; Skills := copiedSkills; AgentName := agentName;
                  AgentDescription := agentDesc; RegisteredAt := now;
                  ExpiresAt := expiresAt; Origin := "";
                  Version := uint64 (UnixNano now) |} in
    let n := match existing with Some _ => localCount r | None => localCount r + 1 end in
    let g := match existing with Some _ => metricLocalCount (metrics r) | None => n end in
    (with_local r (<[peerID := reg]> (entries r)) idx n g, (expiresAt, None)).

(** Deletes the whole entry of a peer that is registered. *)
Definition dropPeer (r : Registry) (peerID : string) (reg : Registration) : Registry :=
  with_local r (delete peerID (entries r))
    (removeFromSkillIndex (skillIndex r) peerID (Skills reg))
    (localCount r - 1) (localCount r - 1).

(** The index loop of [Unregister]: only the skills being removed. *)
Fixpoint removeSelected (index : Index) (peerID : string) (remove : gset string)
    (skills : list SkillInfo) : Index :=
  match skills with
  | [] => index
  | s :: skills =>
    let index := if bool_decide (SkillID s ∈ remove)
                 then dropFromSkill index peerID (SkillID s) else index in
    removeSelected index peerID remove skills
  end.

Definition set_Skills (reg : Registration) (skills : list SkillInfo) : Registration :=
  {| PeerID := PeerID reg; Skills := skills; AgentName := AgentName reg;
     AgentDescription := AgentDescription reg; RegisteredAt := RegisteredAt reg;
     ExpiresAt := ExpiresAt reg; Origin := Origin reg; Version := Version reg |}.

Definition set_ExpiresAt (reg : Registration) (t : Z) : Registration :=
  {| PeerID := PeerID reg; Skills := Skills reg; AgentName := AgentName reg;
     AgentDescription := AgentDescription reg; RegisteredAt := RegisteredAt reg;
     ExpiresAt := t; Origin := Origin reg; Version := Version reg |}.

Definition Unregister (r : Registry) (peerID : string) (skillIDs : list string) : Registry :=
  if len skillIDs =? 0 then
    match entries r !! peerID with
    | Some reg => dropPeer r peerID reg
    | None => r
    end
  else
    match entries r !! peerID with
    | None => r
    | Some reg =>
      let remove : gset string := list_to_set skillIDs in
      let idx := removeSelected (skillIndex r) peerID remove (Skills reg) in
      let filtered := filter (λ s, SkillID s ∉ remove) (Skills reg) in
      if len filtered =? 0
      then with_local r (delete peerID (entries r)) idx (localCount r - 1) (localCount r - 1)
      else with_local r (<[peerID := set_Skills reg filtered]> (entries r)) idx
             (localCount r) (metricLocalCount (metrics r))
    end.

Definition Heartbeat (r : Registry) (now : Z) (peerID : string) : Registry * Z :=
  match entries r !! peerID with
  | None => (r, zero_time)
  | Some reg =>
    let expiresAt := Add now (TTL (config r)) in
    (with_local r (<[peerID := set_ExpiresAt reg expiresAt]> (entries r)) (skillIndex r)
       (localCount r) (metricLocalCount (metrics r)), expiresAt)
  end.

Definition RemovePeer (r : Registry) (peerID : string) : Registry :=
  match entries r !! peerID with
  | Some reg => dropPeer r peerID reg
  | None => r
  end.

(** ** Eviction of expired registrations

    One iteration of either loop of [evictExpired] on (map, index, counter,
    evicted).  Go deletes the current key while it ranges over the map, which
    the language allows and which leaves the other keys to be visited once. *)
Definition evict_step (now : Z) (st : gmap string Registration * Index * Z * Z)
    (peerID : string) : gmap string Registration * Index * Z * Z :=
  let '(m, idx, n, evicted) := st in
  match m !! peerID with
  | Some reg =>
    if After now (ExpiresAt reg)
    then (delete peerID m, removeFromSkillIndex idx peerID (Skills reg), n - 1, evicted + 1)
    else st
  | None => st
  end.

Definition evict_loop (ord : RangeOrder) (now : Z) (m : gmap string Registration)
    (idx : Index) (n : Z) : gmap string Registration * Index * Z * Z :=
  foldl (evict_step now) (m, idx, n, 0) (ord (dom m)).

Definition evictExpired (r : Registry) (ord ordF : RangeOrder) (now : Z) : Registry :=
  let '(es, idx, n, evicted) :=
    evict_loop ord now (entries r) (skillIndex r) (localCount r) in
  let '(fs, fidx, fn, fedEvicted) :=
    evict_loop ordF now (federated r) (fedSkillIndex r) (federatedCount r) in
  let totalEvicted := evicted + fedEvicted in
  {| entries := es; federated := fs; skillIndex := idx; fedSkillIndex := fidx;
     localCount := n; federatedCount := fn; config := config r;
     stopCh := stopCh r; closeOnce := closeOnce r;
     metrics := if totalEvicted >? 0
                then mkMetrics n fn (metricEvictionsTotal (metrics r) + totalEvicted)
                else metrics r |}.

(** ** Federated registrations *)

Definition RegisterFederated (r : Registry) (peerID originRelayID : string)
    (skills : list SkillInfo) (agentName agentDesc : string)
    (registeredAt expiresAt version : Z) : Registry * option registry_error :=
  let reg := {| PeerID := peerID; Skills := copySkills skills; AgentName := agentName;
                AgentDescription := agentDesc; RegisteredAt := registeredAt;
                ExpiresAt := expiresAt; Origin := originRelayID; Version := version |} in
  match federated r !! peerID with
  | Some existing =>
    if Version existing >? version then (r, None)
    else if (Version existing =? version) && str_le (Origin existing) originRelayID
    then (r, None)
    else
      let idx := removeFromSkillIndex (fedSkillIndex r) peerID (Skills existing) in
      let idx := addToSkillIndex idx peerID (copySkills skills) in
      (with_federated r (<[peerID := reg]> (federated r)) idx
         (federatedCount r) (metricFederatedCount (metrics r)), None)
  | None =>
    if map_len (federated r) >=? MaxFederatedRegistrations (config r)
    then (r, Some ErrFederatedRegistryFull)
    else
      let idx := addToSkillIndex (fedSkillIndex r) peerID (copySkills skills) in
      (with_federated r (<[peerID := reg]> (federated r)) idx
         (federatedCount r + 1) (federatedCount r + 1), None)
  end.

(** ** Discovery *)

(** [skillTags[k]] is the empty string when the key is absent. *)
Definition matchTags (skillTags filterTags : gmap string string) : bool :=
  bool_decide (map_Forall (λ k v, default "" (skillTags !! k) = v) filterTags).

Fixpoint hasSkill_loop (skills : list SkillInfo) (skillID : string)
    (tags : gmap string string) : bool :=
  match skills with
  | [] => false
  | s :: skills =>
    if negb (String.eqb (SkillID s) skillID) then hasSkill_loop skills skillID tags
    else if matchTags (Tags s) tags then true
    else hasSkill_loop skills skillID tags
  end.

Definition hasSkill (reg : Registration) (skillID : string) (tags : gmap string string) : bool :=
  hasSkill_loop (Skills reg) skillID tags.

(** The clamping of the [limit] argument. *)
Definition clampLimit (limit : Z) : Z :=
  if limit <=? 0 then DefaultDiscoverLimit
  else if limit >? MaxDiscoverLimit then MaxDiscoverLimit
  else limit.

(** The loop over the local peers; the boolean is [true] when the function
    returned from inside the loop. *)
Fixpoint discoverLocal (es : gmap string Registration) (now : Z) (skillID : string)
    (tags : gmap string string) (limit : Z) (peerIDs : list string)
    (results : list Registration) (localPeers : gset string)
    : bool * list Registration * gset string :=
  match peerIDs with
  | [] => (false, results, localPeers)
  | peerID :: peerIDs =>
    match es !! peerID with
    | None => discoverLocal es now skillID tags limit peerIDs results localPeers
    | Some reg =>
      if After now (ExpiresAt reg)
      then discoverLocal es now skillID tags limit peerIDs results localPeers
      else if hasSkill reg skillID tags then
        let results := results ++ [reg] in
        let localPeers := {[PeerID reg]} ∪ localPeers in
        if len results >=? limit then (true, results, localPeers)
        else discoverLocal es now skillID tags limit peerIDs results localPeers
      else discoverLocal es now skillID tags limit peerIDs results localPeers
    end
  end.

(** The loop over the federated peers. *)
Fixpoint discoverFederated (fs : gmap string Registration) (now : Z) (skillID : string)
    (tags : gmap string string) (limit : Z) (localPeers : gset string)
    (fedPeerIDs : list string) (results : list Registration) : list Registration :=
  match fedPeerIDs with
  | [] => results
  | peerID :: peerIDs =>
    if bool_decide (peerID ∈ localPeers)
    then discoverFederated fs now skillID tags limit localPeers peerIDs results
    else
      match fs !! peerID with
      | None => discoverFederated fs now skillID tags limit localPeers peerIDs results
      | Some reg =>
        if After now (ExpiresAt reg)
        then discoverFederated fs now skillID tags limit localPeers peerIDs results
        else if hasSkill reg skillID tags then
          let results := results ++ [reg] in
          if len results >=? limit then results
          else discoverFederated fs now skillID tags limit localPeers peerIDs results
        else discoverFederated fs now skillID tags limit localPeers peerIDs results
      end
  end.

Definition DiscoverBySkill (r : Registry) (ord ordF : RangeOrder) (now : Z)
    (skillID : string) (tags : gmap string string) (limit : Z) (includeFederated : bool)
    : list Registration :=
  let limit := clampLimit limit in
  let '(returned, results, localPeers) :=
    match skillIndex r !! skillID with
    | Some peerIDs => discoverLocal (entries r) now skillID tags limit (ord peerIDs) [] ∅
    | None => (false, [], ∅)
    end in
  if returned : bool then results
  else if includeFederated then
    match fedSkillIndex r !! skillID with
    | Some fedPeerIDs =>
      discoverFederated (federated r) now skillID tags limit localPeers (ordF fedPeerIDs) results
    | None => results
    end
  else results.

(** ** Queries *)

Definition Count (r : Registry) : Z := localCount r.
Definition FederatedCount (r : Registry) : Z := federatedCount r.

Record RegistryStats := mkRegistryStats {
  LocalCount : Z;
  FedCount : Z;
  SkillCount : Z;
  FedSkillCount : Z
}.

Definition Stats (r : Registry) : RegistryStats :=
  mkRegistryStats (localCount r) (federatedCount r)
    (map_len (skillIndex r)) (map_len (fedSkillIndex r)).

(** The guarded lookup of [GetRegistration]: found and [now.Before(reg.ExpiresAt)]. *)
Definition lookup_live (m : gmap string Registration) (now : Z) (peerID : string)
    : option Registration :=
  match m !! peerID with
  | Some reg => if Before now (ExpiresAt reg) then Some reg else None
  | None => None
  end.

(** [None] is Go's [(Registration{}, false)]. *)
Definition GetRegistration (r : Registry) (now : Z) (peerID : string) : option Registration :=
  match lookup_live (entries r) now peerID with
  | Some reg => Some reg
  | None => lookup_live (federated r) now peerID
  end.

Definition AllRegistrations (r : Registry) (ord : RangeOrder) (now : Z) : list Registration :=
  filter (λ reg, Before now (ExpiresAt reg)) (range_values ord (entries r)).

Definition LocalRegistrations (r : Registry) (ord : RangeOrder) (now since : Z)
    : list Registration :=
  filter (λ reg, negb (After now (ExpiresAt reg)) &&
                 (After (RegisteredAt reg) since || Equal (RegisteredAt reg) since))
    (range_values ord (entries r)).

Definition FederatedRegistrations (r : Registry) (ord : RangeOrder) (now : Z)
    : list Registration :=
  filter (λ reg, Before now (ExpiresAt reg)) (range_values ord (federated r)).

(** ** Shutdown

    Closing a closed channel panics ([None]); [closeOnce] guards it. *)
Definition close_chan (closed : bool) : option bool := if closed then None else Some true.

Definition Close (r : Registry) : option Registry :=
  if closeOnce r then Some r
  else c ← close_chan (stopCh r);
    Some {| entries := entries r; federated := federated r; skillIndex := skillIndex r;
            fedSkillIndex := fedSkillIndex r; localCount := localCount r;
            federatedCount := federatedCount r; config := config r;
            stopCh := c; closeOnce := true; metrics := metrics r |}.
