(* ===== verification/RegistryInv.v ===== *)
(** * The registry invariant

    The inverted indexes, the counters and the gauges agree with the two maps;
    every operation keeps it so. *)
From stdpp Require Import gmap strings list fin_maps.
From Stdlib Require Import ZArith Lia.
From S2P Require Import Prelude GoStd Registry.

Local Open Scope Z_scope.

(** ** What an index says *)

Definition skill_ids (skills : list SkillInfo) : list string := SkillID <$> skills.

Arguments skill_ids : simpl never.

Lemma skill_ids_cons sk skills : skill_ids (sk :: skills) = SkillID sk :: skill_ids skills.
Proof. done. Qed.

Lemma not_elem_of_skill_ids_nil s : s ∉ skill_ids [].
Proof. apply not_elem_of_nil. Qed.

Definition peers_of (idx : Index) (s : string) : gset string := default ∅ (idx !! s).

(** No skill is kept with an empty set of peers. *)
Definition no_empty (idx : Index) : Prop := ∀ s ps, idx !! s = Some ps → ps ≠ ∅.

Lemma peers_of_insert idx s s' ps :
  peers_of (<[s := ps]> idx) s' = if decide (s = s') then ps else peers_of idx s'.
Proof. unfold peers_of. rewrite lookup_insert. by case_decide. Qed.

Lemma peers_of_delete idx s s' :
  peers_of (delete s idx) s' = if decide (s = s') then ∅ else peers_of idx s'.
Proof. unfold peers_of. rewrite lookup_delete. by case_decide. Qed.

Lemma no_empty_insert idx s ps : no_empty idx → ps ≠ ∅ → no_empty (<[s := ps]> idx).
Proof.
  intros Hne Hps s' ps'. rewrite lookup_insert. case_decide; [by intros [= <-]|]. eauto.
Qed.

Lemma no_empty_delete idx s : no_empty idx → no_empty (delete s idx).
Proof. intros Hne s' ps'. rewrite lookup_delete. case_decide; [done|]. eauto. Qed.

Lemma set_len_zero s : (set_len s =? 0) = bool_decide (s = ∅).
Proof.
  unfold set_len. case_bool_decide as Hs.
  - by subst.
  - apply Z.eqb_neq. assert (size s ≠ 0%nat) by (intros E; apply size_empty_inv in E; set_solver). lia.
Qed.

Lemma elem_of_addToSkillIndex idx p skills s q :
  q ∈ peers_of (addToSkillIndex idx p skills) s ↔
  q ∈ peers_of idx s ∨ (q = p ∧ s ∈ skill_ids skills).
Proof.
  revert idx. induction skills as [|sk skills IH]; intros idx; simpl.
  { pose proof not_elem_of_skill_ids_nil. naive_solver. }
  rewrite IH, peers_of_insert, skill_ids_cons, elem_of_cons.
  assert (∀ s', peers_of (match idx !! SkillID sk with
    Some _ => idx | None => <[SkillID sk := ∅]> idx end) s' = peers_of idx s') as Hp.
  { intros s'. destruct (idx !! SkillID sk) eqn:E; [done|]. rewrite peers_of_insert.
    case_decide; [subst|done]. unfold peers_of. by rewrite E. }
  rewrite Hp. fold (peers_of (match idx !! SkillID sk with
    Some _ => idx | None => <[SkillID sk := ∅]> idx end) (SkillID sk)).
  rewrite Hp. case_decide; set_solver.
Qed.

Lemma no_empty_addToSkillIndex idx p skills :
  no_empty idx → no_empty (addToSkillIndex idx p skills).
Proof.
  revert idx. induction skills as [|sk skills IH]; intros idx Hne; simpl; [done|].
  apply IH. intros s ps. rewrite lookup_insert.
  case_decide as Hs; [intros [= <-]; set_solver|].
  destruct (idx !! SkillID sk); [eauto|]. rewrite lookup_insert_ne by done. eauto.
Qed.

Lemma elem_of_dropFromSkill idx p s s' q :
  q ∈ peers_of (dropFromSkill idx p s) s' ↔ q ∈ peers_of idx s' ∧ ¬ (q = p ∧ s' = s).
Proof.
  unfold dropFromSkill. destruct (idx !! s) as [ps|] eqn:E.
  - assert (peers_of idx s = ps) by (unfold peers_of; by rewrite E).
    rewrite set_len_zero. case_bool_decide.
    + rewrite peers_of_delete. case_decide; set_solver.
    + rewrite peers_of_insert. case_decide; set_solver.
  - assert (peers_of idx s = ∅) by (unfold peers_of; by rewrite E). set_solver.
Qed.

Lemma no_empty_dropFromSkill idx p s : no_empty idx → no_empty (dropFromSkill idx p s).
Proof.
  intros Hne. unfold dropFromSkill. destruct (idx !! s); [|done].
  rewrite set_len_zero. case_bool_decide.
  - by apply no_empty_delete.
  - by apply no_empty_insert.
Qed.

(** The selective loop of [Unregister] is the full loop on the selected skills. *)
Lemma removeSelected_filter idx p (remove : gset string) skills :
  removeSelected idx p remove skills =
  removeFromSkillIndex idx p (filter (λ s, SkillID s ∈ remove) skills).
Proof.
  revert idx. induction skills as [|sk skills IH]; intros idx; simpl; [done|].
  rewrite filter_cons. case_bool_decide; rewrite IH; by case_decide.
Qed.

Lemma elem_of_removeFromSkillIndex idx p skills s q :
  q ∈ peers_of (removeFromSkillIndex idx p skills) s ↔
  q ∈ peers_of idx s ∧ ¬ (q = p ∧ s ∈ skill_ids skills).
Proof.
  revert idx. induction skills as [|sk skills IH]; intros idx; simpl.
  { pose proof not_elem_of_skill_ids_nil. naive_solver. }
  rewrite IH, elem_of_dropFromSkill, skill_ids_cons, elem_of_cons. naive_solver.
Qed.

Lemma no_empty_removeFromSkillIndex idx p skills :
  no_empty idx → no_empty (removeFromSkillIndex idx p skills).
Proof.
  revert idx. induction skills as [|sk skills IH]; intros idx Hne; simpl; [done|].
  by apply IH, no_empty_dropFromSkill.
Qed.

#[export] Hint Resolve no_empty_addToSkillIndex no_empty_removeFromSkillIndex : relay.

(** Deep copies have the same contents. *)
Lemma copyTags_id tags : copyTags tags = tags.
Proof.
  unfold copyTags. case_match eqn:E.
  - apply foldl_map_to_list.
  - unfold map_len in E. bool_to_prop. symmetry. apply map_size_empty_inv. lia.
Qed.

Lemma copySkills_id skills : copySkills skills = skills.
Proof.
  unfold copySkills. induction skills as [|[] skills IH]; simpl; [done|].
  by rewrite IH, copyTags_id.
Qed.

#[export] Hint Rewrite copySkills_id : relay.

(** ** One side (local or federated) of the registry *)

Record side_ok (m : gmap string Registration) (idx : Index) (n : Z) : Prop := {
  so_keys p reg : m !! p = Some reg → PeerID reg = p;
  so_index s p :
    p ∈ peers_of idx s ↔ ∃ reg, m !! p = Some reg ∧ s ∈ skill_ids (Skills reg);
  so_nonempty : no_empty idx;
  so_count : n = map_len m
}.

Lemma side_ok_empty : side_ok ∅ ∅ 0.
Proof.
  split; [done| |done|done]. intros s p. unfold peers_of. rewrite lookup_empty. simpl.
  split; [set_solver|]. by intros (? & ? & _).
Qed.

Lemma map_len_insert (m : gmap string Registration) p reg :
  map_len (<[p := reg]> m) = match m !! p with Some _ => map_len m | None => map_len m + 1 end.
Proof.
  unfold map_len. destruct (m !! p) eqn:E.
  - by rewrite map_size_insert_Some.
  - rewrite map_size_insert_None by done. lia.
Qed.

Lemma map_len_delete (m : gmap string Registration) p old :
  m !! p = Some old → map_len (delete p m) = map_len m - 1.
Proof.
  intros E. unfold map_len. rewrite map_size_delete_Some by done.
  assert (size m ≠ 0%nat); [|lia].
  intros ->%map_size_empty_inv. by rewrite lookup_empty in E.
Qed.

(** The entry of [p] contributes its skills to the index and nothing else does:
    what the index says once that contribution is taken out. *)
Lemma side_ok_without m idx n p s q :
  side_ok m idx n →
  let idx' := match m !! p with
              | Some e => removeFromSkillIndex idx p (Skills e) | None => idx end in
  q ∈ peers_of idx' s ↔
  q ≠ p ∧ ∃ reg, m !! q = Some reg ∧ s ∈ skill_ids (Skills reg).
Proof.
  intros Hok. simpl. destruct (m !! p) as [e|] eqn:E.
  - rewrite elem_of_removeFromSkillIndex, (so_index _ _ _ Hok). split.
    + intros [(reg & Hq & Hs) Hne]. split; [|eauto]. intros ->. simplify_eq. naive_solver.
    + naive_solver.
  - rewrite (so_index _ _ _ Hok). naive_solver congruence.
Qed.

Lemma side_ok_put m idx n p reg :
  side_ok m idx n → PeerID reg = p →
  side_ok (<[p := reg]> m)
    (addToSkillIndex
       (match m !! p with
        | Some e => removeFromSkillIndex idx p (Skills e) | None => idx end) p (Skills reg))
    (match m !! p with Some _ => n | None => n + 1 end).
Proof.
  intros Hok Hp. split.
  - intros q reg'. rewrite lookup_insert. case_decide; [|by apply Hok].
    intros [= <-]. by subst.
  - intros s q. rewrite elem_of_addToSkillIndex, (side_ok_without _ _ _ _ _ _ Hok).
    rewrite lookup_insert. case_decide; naive_solver.
  - apply no_empty_addToSkillIndex.
    destruct (m !! p); [apply no_empty_removeFromSkillIndex|]; apply Hok.
  - rewrite map_len_insert, (so_count _ _ _ Hok). by destruct (m !! p).
Qed.

Lemma side_ok_del m idx n p old :
  side_ok m idx n → m !! p = Some old →
  side_ok (delete p m) (removeFromSkillIndex idx p (Skills old)) (n - 1).
Proof.
  intros Hok E. split.
  - intros q reg [_ Hq]%lookup_delete_Some. by apply Hok.
  - intros s q. pose proof (side_ok_without _ _ _ p s q Hok) as Hw.
    rewrite E in Hw. simpl in Hw. rewrite Hw. setoid_rewrite lookup_delete_Some. naive_solver.
  - apply no_empty_removeFromSkillIndex, Hok.
  - erewrite map_len_delete, (so_count _ _ _ Hok) by done. done.
Qed.

(** Replacing an entry by one with fewer skills, the others leaving the index. *)
Lemma side_ok_shrink m idx n p old reg gone :
  side_ok m idx n → m !! p = Some old → PeerID reg = p →
  (∀ s, s ∈ skill_ids (Skills reg) ↔ s ∈ skill_ids (Skills old) ∧ s ∉ skill_ids gone) →
  side_ok (<[p := reg]> m) (removeFromSkillIndex idx p gone) n.
Proof.
  intros Hok E Hp Hs. split.
  - intros q reg'. rewrite lookup_insert. case_decide; [|by apply Hok].
    intros [= <-]. by subst.
  - intros s q. rewrite elem_of_removeFromSkillIndex, (so_index _ _ _ Hok), lookup_insert.
    case_decide; subst; naive_solver.
  - apply no_empty_removeFromSkillIndex, Hok.
  - rewrite map_len_insert, E. apply Hok.
Qed.

Lemma side_ok_touch m idx n p old reg :
  side_ok m idx n → m !! p = Some old → PeerID reg = p → Skills reg = Skills old →
  side_ok (<[p := reg]> m) idx n.
Proof.
  intros Hok E Hp Hs. apply (side_ok_shrink _ _ _ _ _ reg [] Hok E Hp).
  intros s. rewrite Hs. pose proof not_elem_of_skill_ids_nil s. naive_solver.
Qed.

(** The splitting of an entry's skills by [Unregister]. *)
Lemma elem_of_skill_ids_filter (P : string → Prop) `{!∀ s, Decision (P s)} skills s :
  s ∈ skill_ids (filter (λ sk, P (SkillID sk)) skills) ↔ s ∈ skill_ids skills ∧ P s.
Proof.
  unfold skill_ids. rewrite !list_elem_of_fmap. setoid_rewrite list_elem_of_filter.
  naive_solver.
Qed.

(** Once no skill is left, the selective loop has cleared the whole entry. *)
Lemma side_ok_cleared m idx n p old gone :
  side_ok m idx n → m !! p = Some old →
  (∀ s, s ∈ skill_ids (Skills old) → s ∈ skill_ids gone) →
  (∀ s, s ∈ skill_ids gone → s ∈ skill_ids (Skills old)) →
  side_ok (delete p m) (removeFromSkillIndex idx p gone) (n - 1).
Proof.
  intros Hok E H1 H2. destruct (side_ok_del _ _ _ _ _ Hok E) as [Hk Hi Hne Hc].
  split; [done| |apply no_empty_removeFromSkillIndex, Hok|done].
  intros s q. rewrite <- Hi, !elem_of_removeFromSkillIndex. naive_solver.
Qed.

(** ** The invariant of the whole registry *)

Record wf (r : Registry) : Prop := {
  wf_local : side_ok (entries r) (skillIndex r) (localCount r);
  wf_fed : side_ok (federated r) (fedSkillIndex r) (federatedCount r);
  wf_origin p reg : entries r !! p = Some reg → Origin reg = "";
  wf_local_cap : map_len (entries r) <= Z.max 0 (MaxRegistrations (config r));
  wf_fed_cap : map_len (federated r) <= Z.max 0 (MaxFederatedRegistrations (config r));
  wf_local_gauge : metricLocalCount (metrics r) = localCount r;
  wf_fed_gauge : metricFederatedCount (metrics r) = federatedCount r;
  wf_close : closeOnce r = stopCh r
}.

Lemma wf_keys r p reg : wf r → entries r !! p = Some reg → PeerID reg = p.
Proof. intros Hwf. apply (so_keys _ _ _ (wf_local _ Hwf)). Qed.

Lemma wf_fed_keys r p reg : wf r → federated r !! p = Some reg → PeerID reg = p.
Proof. intros Hwf. apply (so_keys _ _ _ (wf_fed _ Hwf)). Qed.

#[export] Hint Resolve wf_local wf_fed wf_origin wf_keys wf_fed_keys : relay.

Lemma wf_New cfg : wf (Registry_New cfg).
Proof.
  split; simpl; auto using side_ok_empty; [by intros ??|..];
    unfold map_len; rewrite map_size_empty; lia.
Qed.

Lemma wf_with_local r es idx n :
  wf r → side_ok es idx n →
  (∀ p reg, es !! p = Some reg → Origin reg = "") →
  map_len es <= Z.max 0 (MaxRegistrations (config r)) →
  wf (with_local r es idx n n).
Proof. intros [] ???. by split. Qed.

Lemma wf_with_federated r es idx n :
  wf r → side_ok es idx n →
  map_len es <= Z.max 0 (MaxFederatedRegistrations (config r)) →
  wf (with_federated r es idx n n).
Proof. intros [] ??. by split. Qed.

Lemma origin_insert r p reg :
  wf r → Origin reg = "" →
  ∀ q reg', <[p := reg]> (entries r) !! q = Some reg' → Origin reg' = "".
Proof.
  intros Hwf Ho q reg'. rewrite lookup_insert. case_decide; [by intros [= <-]|].
  apply (wf_origin _ Hwf).
Qed.

Lemma origin_delete r p :
  wf r → ∀ q reg', delete p (entries r) !! q = Some reg' → Origin reg' = "".
Proof. intros Hwf q reg' [_ Hq]%lookup_delete_Some. by apply (wf_origin _ Hwf) in Hq. Qed.

#[export] Hint Resolve origin_insert origin_delete : relay.

Lemma wf_dropPeer r p reg : wf r → entries r !! p = Some reg → wf (dropPeer r p reg).
Proof.
  intros Hwf E. apply wf_with_local; eauto using side_ok_del with relay.
  erewrite map_len_delete by done. pose proof (wf_local_cap _ Hwf). lia.
Qed.

Lemma wf_Register r now p skills an ad : wf r → wf (Register r now p skills an ad).1.
Proof.
  intros Hwf. unfold Register. rewrite bool_decide_is_Some, copySkills_id.
  rewrite (wf_local_gauge _ Hwf).
  match goal with |- context [<[p := ?reg]> _] => set (rg := reg) end.
  pose proof (side_ok_put _ _ _ p rg (wf_local _ Hwf) eq_refl) as Hok.
  pose proof (map_len_insert (entries r) p rg) as Hlen.
  pose proof (wf_local_cap _ Hwf).
  destruct (entries r !! p) eqn:E; simpl; [|case_match eqn:Hfull; [done|]; bool_to_prop];
    (apply wf_with_local; [done|done|by apply origin_insert|lia]).
Qed.

Lemma wf_Unregister r p ids : wf r → wf (Unregister r p ids).
Proof.
  intros Hwf. unfold Unregister.
  destruct (entries r !! p) as [reg|] eqn:E; [|by case_match].
  case_match; [by apply wf_dropPeer|]. rewrite removeSelected_filter.
  pose proof (wf_local_cap _ Hwf).
  set (remove := list_to_set ids : gset string).
  pose proof (elem_of_skill_ids_filter (λ s, s ∈ remove) (Skills reg)) as Hin.
  pose proof (elem_of_skill_ids_filter (λ s, s ∉ remove) (Skills reg)) as Hout.
  cbv beta in Hin, Hout.
  case_match eqn:Hlen; bool_to_prop.
  - apply len_zero_inv in Hlen. rewrite Hlen in Hout.
    apply wf_with_local; eauto with relay.
    + eapply side_ok_cleared; eauto with relay; intros s Hs; rewrite Hin in *.
      * destruct (decide (s ∈ remove)) as [|Hn]; [done|].
        destruct (not_elem_of_skill_ids_nil s). by apply Hout.
      * naive_solver.
    + erewrite map_len_delete by done. lia.
  - rewrite (wf_local_gauge _ Hwf). apply wf_with_local; auto.
    + eapply side_ok_shrink; eauto with relay.
      * simpl. by eapply wf_keys.
      * intros s. simpl. rewrite Hin, Hout. naive_solver.
    + apply origin_insert; [done|]. simpl. by eapply wf_origin.
    + by rewrite map_len_insert, E.
Qed.

Lemma wf_Heartbeat r now p : wf r → wf (Heartbeat r now p).1.
Proof.
  intros Hwf. unfold Heartbeat. destruct (entries r !! p) as [reg|] eqn:E; [|done]. simpl.
  rewrite (wf_local_gauge _ Hwf). apply wf_with_local; auto.
  - eapply side_ok_touch; eauto with relay. simpl. by eapply wf_keys.
  - apply origin_insert; [done|]. simpl. by eapply wf_origin.
  - rewrite map_len_insert, E. apply Hwf.
Qed.

Lemma wf_RemovePeer r p : wf r → wf (RemovePeer r p).
Proof. intros Hwf. unfold RemovePeer. case_match; auto using wf_dropPeer. Qed.

Lemma wf_RegisterFederated r p o skills an ad ra ea v :
  wf r → wf (RegisterFederated r p o skills an ad ra ea v).1.
Proof.
  intros Hwf. unfold RegisterFederated. rewrite copySkills_id, (wf_fed_gauge _ Hwf).
  match goal with |- context [<[p := ?reg]> _] => set (rg := reg) end.
  pose proof (side_ok_put _ _ _ p rg (wf_fed _ Hwf) eq_refl) as Hok.
  pose proof (map_len_insert (federated r) p rg) as Hlen.
  pose proof (wf_fed_cap _ Hwf).
  destruct (federated r !! p) eqn:E; repeat (case_match; [done|]);
    bool_to_prop; (apply wf_with_federated; [done|done|lia]).
Qed.

(** ** Eviction *)

(** The loop of [evictExpired], whatever the order: the entries that are left,
    and the number of evicted entries. *)
Definition evict_keep (now : Z) (kv : string * Registration) : Prop :=
  After now (ExpiresAt kv.2) = false.
#[export] Instance evict_keep_dec now kv : Decision (evict_keep now kv).
Proof. unfold evict_keep. apply _. Defined.

Definition evicted_by (now : Z) (m : gmap string Registration) (keys : list string)
    : gmap string Registration :=
  filter (λ kv, kv.1 ∉ keys ∨ evict_keep now kv) m.

Lemma evict_fold now keys m idx n k m' idx' n' k' :
  side_ok m idx n →
  foldl (evict_step now) (m, idx, n, k) keys = (m', idx', n', k') →
  side_ok m' idx' n' ∧ m' = evicted_by now m keys ∧ k' - k = n - n' ∧ 0 <= k' - k.
Proof.
  revert m idx n k. induction keys as [|p keys IH]; intros m idx n k Hok Hf.
  - simplify_eq/=. split_and!; [done| |lia|lia].
    symmetry. apply map_filter_id. intros. left. apply not_elem_of_nil.
  - simpl in Hf. destruct (m !! p) as [reg|] eqn:E; [case_match eqn:Hexp|].
    + apply IH in Hf as (? & -> & ? & ?); [|by apply side_ok_del].
      split_and!; [done| |lia|lia].
      unfold evicted_by. rewrite map_filter_delete.
      apply map_eq. intros q. rewrite lookup_delete.
      case_decide; [subst; symmetry; apply map_lookup_filter_None_2; right|].
      * intros x Hx. simplify_eq. unfold evict_keep; simpl. rewrite Hexp. set_solver.
      * apply option_eq. intros x. rewrite !map_lookup_filter_Some. set_solver.
    + apply IH in Hf as (? & -> & ? & ?); [|done]. split_and!; [done| |lia|lia].
      apply map_filter_ext. intros q x Hq. simpl. rewrite not_elem_of_cons.
      split; [intros [?|?]; [|by right]|naive_solver].
      destruct (decide (q = p)); [|naive_solver]. simplify_eq. by right.
    + apply IH in Hf as (? & -> & ? & ?); [|done]. split_and!; [done| |lia|lia].
      apply map_filter_ext. intros q x Hq. simpl. rewrite not_elem_of_cons.
      naive_solver congruence.
Qed.

Lemma evict_loop_spec ord now m idx n m' idx' n' k' :
  side_ok m idx n →
  evict_loop ord now m idx n = (m', idx', n', k') →
  side_ok m' idx' n' ∧ m' = filter (evict_keep now) m ∧ k' = n - n' ∧ 0 <= k'.
Proof.
  intros Hok Hf. apply evict_fold in Hf as (? & -> & ? & ?); [|done].
  split_and!; [done| |lia|lia].
  apply map_filter_ext. intros p x Hp. simpl. rewrite elem_of_range, elem_of_dom.
  split; [|by right]. intros [[]|]; [|done]. eauto.
Qed.

(** A consistent index is a function of the map it indexes. *)
Lemma side_ok_index_unique m idx1 idx2 n1 n2 :
  side_ok m idx1 n1 → side_ok m idx2 n2 → idx1 = idx2 ∧ n1 = n2.
Proof.
  intros H1 H2. split; [|by rewrite (so_count _ _ _ H1), (so_count _ _ _ H2)].
  assert (∀ s, peers_of idx1 s = peers_of idx2 s) as Heq.
  { intros s. apply set_eq. intros p.
    by rewrite (so_index _ _ _ H1), (so_index _ _ _ H2). }
  apply map_eq. intros s. specialize (Heq s). unfold peers_of in Heq.
  destruct (idx1 !! s) eqn:E1, (idx2 !! s) eqn:E2; simpl in Heq; subst; try done.
  - by destruct (so_nonempty _ _ _ H1 _ _ E1).
  - by destruct (so_nonempty _ _ _ H2 _ _ E2).
Qed.

Lemma map_len_filter_le (P : string * Registration → Prop) `{!∀ x, Decision (P x)}
    (m : gmap string Registration) : map_len (filter P m) <= map_len m.
Proof. unfold map_len. pose proof (map_size_filter P m). lia. Qed.

Lemma evictExpired_parts r ord ordF now :
  wf r →
  entries (evictExpired r ord ordF now) = filter (evict_keep now) (entries r) ∧
  federated (evictExpired r ord ordF now) = filter (evict_keep now) (federated r).
Proof.
  intros Hwf. unfold evictExpired.
  destruct (evict_loop ord _ _ _ _) as [[[es idx] n] k] eqn:E.
  destruct (evict_loop ordF _ _ _ _) as [[[fs fidx] fn] fk] eqn:F. simpl.
  apply evict_loop_spec in E as (_ & -> & _); [|apply Hwf].
  by apply evict_loop_spec in F as (_ & -> & _); [|apply Hwf].
Qed.

Lemma wf_evictExpired r ord ordF now : wf r → wf (evictExpired r ord ordF now).
Proof.
  intros Hwf. unfold evictExpired.
  destruct (evict_loop ord _ _ _ _) as [[[es idx] n] k] eqn:E.
  destruct (evict_loop ordF _ _ _ _) as [[[fs fidx] fn] fk] eqn:F.
  apply evict_loop_spec in E as (Hl & -> & Hk & ?); [|apply Hwf].
  apply evict_loop_spec in F as (Hf & -> & Hfk & ?); [|apply Hwf].
  pose proof (map_len_filter_le (evict_keep now) (entries r)).
  pose proof (map_len_filter_le (evict_keep now) (federated r)).
  destruct Hwf. split; simpl; try done; try lia.
  - intros p reg [Hp _]%map_lookup_filter_Some. eauto.
  - case_match; simpl; bool_to_prop; lia.
  - case_match; simpl; bool_to_prop; lia.
Qed.

(** The order of the walk leaves no trace, not even in the index. *)
Lemma evictExpired_order r o1 o2 o3 o4 now :
  wf r → evictExpired r o1 o2 now = evictExpired r o3 o4 now.
Proof.
  intros Hwf. unfold evictExpired.
  destruct (evict_loop o1 _ _ _ _) as [[[e1 i1] n1] k1] eqn:E1.
  destruct (evict_loop o2 _ _ _ _) as [[[e2 i2] n2] k2] eqn:E2.
  destruct (evict_loop o3 _ _ _ _) as [[[e3 i3] n3] k3] eqn:E3.
  destruct (evict_loop o4 _ _ _ _) as [[[e4 i4] n4] k4] eqn:E4.
  apply evict_loop_spec in E1 as (S1 & -> & -> & _), E3 as (S3 & -> & -> & _); [|apply Hwf..].
  apply evict_loop_spec in E2 as (S2 & -> & -> & _), E4 as (S4 & -> & -> & _); [|apply Hwf..].
  destruct (side_ok_index_unique _ _ _ _ _ S1 S3) as [-> ->].
  by destruct (side_ok_index_unique _ _ _ _ _ S2 S4) as [-> ->].
Qed.

Lemma evictExpired_metric r o1 o2 now :
  wf r →
  let r' := evictExpired r o1 o2 now in
  metricEvictionsTotal (metrics r') = metricEvictionsTotal (metrics r) +
    (localCount r - localCount r') + (federatedCount r - federatedCount r').
Proof.
  intros Hwf. cbv zeta. unfold evictExpired.
  destruct (evict_loop o1 _ _ _ _) as [[[e1 i1] n1] k1] eqn:E1.
  destruct (evict_loop o2 _ _ _ _) as [[[e2 i2] n2] k2] eqn:E2.
  apply evict_loop_spec in E1 as (_ & -> & -> & ?); [|apply Hwf].
  apply evict_loop_spec in E2 as (_ & -> & -> & ?); [|apply Hwf].
  simpl. case_if Ht; simpl; bool_to_prop; lia.
Qed.

(** ** Shutdown *)

Lemma wf_Close r : wf r → ∃ r', Close r = Some r' ∧ wf r' ∧ stopCh r' = true.
Proof.
  intros Hwf. pose proof (wf_close _ Hwf) as Hc. unfold Close, close_chan.
  destruct (closeOnce r) eqn:E; [by exists r|]. rewrite <- Hc. simpl.
  eexists. split; [done|]. split; [by destruct Hwf; split|done].
Qed.

(** ** Histories

    Every method holds the mutex from its first access to its last, so a run of
    the registry is a sequence of these steps.  The queries change nothing. *)
Inductive op :=
| OpRegister (now : Z) (peerID : string) (skills : list SkillInfo) (an ad : string)
| OpUnregister (peerID : string) (skillIDs : list string)
| OpHeartbeat (now : Z) (peerID : string)
| OpRemovePeer (peerID : string)
| OpEvict (ord ordF : RangeOrder) (now : Z)
| OpRegisterFederated (peerID origin : string) (skills : list SkillInfo) (an ad : string)
    (registeredAt expiresAt version : Z)
| OpClose.

Definition exec (r : Registry) (o : op) : option Registry :=
  match o with
  | OpRegister now p sk an ad => Some (Register r now p sk an ad).1
  | OpUnregister p ids => Some (Unregister r p ids)
  | OpHeartbeat now p => Some (Heartbeat r now p).1
  | OpRemovePeer p => Some (RemovePeer r p)
  | OpEvict ord ordF now => Some (evictExpired r ord ordF now)
  | OpRegisterFederated p o sk an ad ra ea v =>
      Some (RegisterFederated r p o sk an ad ra ea v).1
  | OpClose => Close r
  end.

Inductive reachable (cfg : Config) : Registry → Prop :=
| reach_New : reachable cfg (Registry_New cfg)
| reach_step r o r' : reachable cfg r → exec r o = Some r' → reachable cfg r'.

#[export] Hint Constructors reachable : relay.

Lemma wf_exec r o : wf r → ∃ r', exec r o = Some r' ∧ wf r'.
Proof.
  intros Hwf. destruct o; simpl; eauto using wf_Register, wf_Unregister, wf_Heartbeat,
    wf_RemovePeer, wf_evictExpired, wf_RegisterFederated.
  destruct (wf_Close _ Hwf) as (r' & ? & ? & _). eauto.
Qed.

Lemma reachable_wf cfg r : reachable cfg r → wf r.
Proof.
  induction 1 as [|r o r' _ IH He]; [apply wf_New|].
  destruct (wf_exec _ o IH) as (? & ? & ?). by simplify_eq.
Qed.

#[export] Hint Resolve reachable_wf : relay.

Lemma exec_config r o r' : exec r o = Some r' → config r' = config r.
Proof.
  destruct o; simpl; intros ?; simplify_eq; unfold Register, Unregister, Heartbeat,
    RemovePeer, evictExpired, RegisterFederated, Close, dropPeer, close_chan in *; go_cases.
Qed.

Lemma reachable_config cfg r : reachable cfg r → config r = Config_defaults cfg.
Proof. induction 1; [done|]. by erewrite exec_config. Qed.
