(* ===== verification/RegistryDiscover.v ===== *)
(** * Discovery: the inverted index against a plain scan

    [DiscoverBySkill] walks the index, skips expired entries, filters by tags,
    stops at the limit and prefers local registrations.  The reference is a scan
    of the two maps; the answer of the code is, for every iteration order, an
    arrangement of the scan cut at the limit. *)
From stdpp Require Import gmap strings list fin_maps.
From Stdlib Require Import ZArith Lia.
From S2P Require Import Prelude GoStd Registry RegistryInv.

Local Open Scope Z_scope.

(** ** Reference definition *)

(** The registration answers the query at time [now]. *)
Definition offers (now : Z) (skillID : string) (tags : gmap string string)
    (reg : Registration) : bool :=
  negb (After now (ExpiresAt reg)) && hasSkill reg skillID tags.

Definition scan (m : gmap string Registration) (now : Z) (skillID : string)
    (tags : gmap string string) : list Registration :=
  filter (λ reg, offers now skillID tags reg) (map_to_list m).*2.

(** The federated scan leaves out the peers with a local answer. *)
Definition scan_fed (r : Registry) (now : Z) (skillID : string)
    (tags : gmap string string) : list Registration :=
  filter (λ reg, PeerID reg ∉ (PeerID <$> scan (entries r) now skillID tags))
    (scan (federated r) now skillID tags).

Definition scan_all (r : Registry) (now : Z) (skillID : string)
    (tags : gmap string string) (includeFederated : bool) : list Registration :=
  scan (entries r) now skillID tags ++
  if includeFederated then scan_fed r now skillID tags else [].

(** ** Skills and tags *)

Lemma hasSkill_spec reg skillID tags :
  hasSkill reg skillID tags = true ↔
  ∃ s, s ∈ Skills reg ∧ SkillID s = skillID ∧ matchTags (Tags s) tags = true.
Proof.
  unfold hasSkill. induction (Skills reg) as [|s skills IH]; simpl.
  - split; [done|]. intros (? & ?%elem_of_nil & _). done.
  - setoid_rewrite elem_of_cons. destruct (String.eqb_spec (SkillID s) skillID); simpl.
    + case_match; [naive_solver|]. rewrite IH. naive_solver congruence.
    + rewrite IH. naive_solver.
Qed.

Lemma hasSkill_skill_ids reg skillID tags :
  hasSkill reg skillID tags = true → skillID ∈ skill_ids (Skills reg).
Proof.
  rewrite hasSkill_spec. intros (s & Hs & <- & _). by apply list_elem_of_fmap_2.
Qed.

Lemma matchTags_spec skillTags filterTags :
  matchTags skillTags filterTags = true ↔
  ∀ k v, filterTags !! k = Some v → default "" (skillTags !! k) = v.
Proof. unfold matchTags. by rewrite bool_decide_eq_true. Qed.

(** ** One query against one map *)

Section answers.
Context (now : Z) (skillID : string) (tags : gmap string string).

(** What one key contributes to the answer. *)
Definition answer (m : gmap string Registration) (p : string) : option Registration :=
  match m !! p with
  | Some reg => if offers now skillID tags reg then Some reg else None
  | None => None
  end.

Lemma answer_Some m p reg :
  answer m p = Some reg ↔ m !! p = Some reg ∧ offers now skillID tags reg = true.
Proof.
  unfold answer. destruct (m !! p) as [r|]; [|naive_solver].
  destruct (offers now skillID tags r) eqn:E; naive_solver congruence.
Qed.

Lemma elem_of_scan m reg :
  reg ∈ scan m now skillID tags ↔
  ∃ p, m !! p = Some reg ∧ offers now skillID tags reg = true.
Proof.
  unfold scan. rewrite list_elem_of_filter, list_elem_of_fmap, Is_true_true. split.
  - intros [Ho ([p r] & -> & Hin%elem_of_map_to_list)]. eauto.
  - intros (p & Hp & Ho). split; [done|]. exists (p, reg).
    split; [done|]. by apply elem_of_map_to_list.
Qed.

Lemma NoDup_scan m idx n : side_ok m idx n → NoDup (scan m now skillID tags).
Proof.
  intros Hok. unfold scan. apply NoDup_filter.
  apply (NoDup_fmap_1 PeerID). rewrite <- list_fmap_compose.
  erewrite list_fmap_ext; [apply (NoDup_fst_map_to_list m)|].
  intros i [p reg] Hi. apply list_elem_of_lookup_2, elem_of_map_to_list in Hi.
  simpl. by eapply so_keys.
Qed.

(** Walking the index visits every peer the scan would answer with. *)
Lemma answers_perm m idx n (ord : RangeOrder) :
  side_ok m idx n →
  omap (answer m) (ord (peers_of idx skillID)) ≡ₚ scan m now skillID tags.
Proof.
  intros Hok. apply NoDup_Permutation.
  - apply (NoDup_omap_inv _ PeerID); [|apply NoDup_range].
    intros p reg [Hp _]%answer_Some. by eapply so_keys.
  - by eapply NoDup_scan.
  - intros reg. rewrite elem_of_scan, list_elem_of_omap.
    setoid_rewrite elem_of_range. setoid_rewrite answer_Some.
    split; [naive_solver|]. intros (p & Hp & Ho). exists p. split_and!; [|done..].
    apply (so_index _ _ _ Hok). exists reg. split; [done|].
    apply andb_true_iff in Ho as [_ Ho]. by eapply hasSkill_skill_ids.
Qed.

(** Both loops, one key at a time. *)
Lemma discoverLocal_cons es limit p peers acc lp :
  discoverLocal es now skillID tags limit (p :: peers) acc lp =
  match answer es p with
  | None => discoverLocal es now skillID tags limit peers acc lp
  | Some reg =>
    if len (acc ++ [reg]) >=? limit then (true, acc ++ [reg], {[PeerID reg]} ∪ lp)
    else discoverLocal es now skillID tags limit peers (acc ++ [reg]) ({[PeerID reg]} ∪ lp)
  end.
Proof.
  simpl. unfold answer, offers. destruct (es !! p) as [reg|]; [|done].
  destruct (After _ _); simpl; [done|]. by destruct (hasSkill _ _ _).
Qed.

Lemma discoverFederated_cons fs limit lp p peers acc :
  discoverFederated fs now skillID tags limit lp (p :: peers) acc =
  match (if bool_decide (p ∈ lp) then None else answer fs p) with
  | None => discoverFederated fs now skillID tags limit lp peers acc
  | Some reg =>
    if len (acc ++ [reg]) >=? limit then acc ++ [reg]
    else discoverFederated fs now skillID tags limit lp peers (acc ++ [reg])
  end.
Proof.
  simpl. unfold answer, offers. case_bool_decide; [done|].
  destruct (fs !! p) as [reg|]; [|done].
  destruct (After _ _); simpl; [done|]. by destruct (hasSkill _ _ _).
Qed.

(** The loops stop exactly when the limit is reached. *)
Lemma discoverLocal_spec es limit peers acc lp :
  len acc < limit →
  let all := acc ++ omap (answer es) peers in
  if limit <=? len all
  then ∃ lp', discoverLocal es now skillID tags limit peers acc lp =
              (true, take (Z.to_nat limit) all, lp')
  else discoverLocal es now skillID tags limit peers acc lp =
       (false, all, list_to_set (PeerID <$> omap (answer es) peers) ∪ lp).
Proof.
  cbv zeta. revert acc lp. induction peers as [|p peers IH]; intros acc lp Hacc.
  - simpl. rewrite app_nil_r, (left_id_L ∅ (∪)). by rewrite (proj2 (Z.leb_gt _ _) Hacc).
  - rewrite discoverLocal_cons, omap_cons.
    destruct (answer es p) as [reg|]; [|by apply IH].
    rewrite (cons_middle reg acc (omap _ _)), app_assoc.
    destruct (Z.geb_spec (len (acc ++ [reg])) limit) as [Hge|Hlt].
    + assert (limit = len (acc ++ [reg])) as -> by len_lia.
      rewrite (proj2 (Z.leb_le _ _)) by len_lia.
      eexists. f_equal. f_equal. rewrite take_app_length'; [done|len_lia].
    + specialize (IH (acc ++ [reg]) ({[PeerID reg]} ∪ lp) Hlt).
      case_match; [done|]. rewrite IH. f_equal. set_solver.
Qed.

Lemma discoverFederated_spec fs limit lp peers acc :
  len acc < limit →
  discoverFederated fs now skillID tags limit lp peers acc =
  take (Z.to_nat limit)
    (acc ++ omap (λ p, if bool_decide (p ∈ lp) then None else answer fs p) peers).
Proof.
  revert acc. induction peers as [|p peers IH]; intros acc Hacc.
  - simpl. rewrite app_nil_r, take_ge; [done|len_lia].
  - rewrite discoverFederated_cons, omap_cons.
    destruct (if bool_decide (p ∈ lp) then None else answer fs p) as [reg|]; [|by apply IH].
    rewrite (cons_middle reg acc (omap _ _)), app_assoc.
    destruct (Z.geb_spec (len (acc ++ [reg])) limit) as [Hge|Hlt]; [|by apply IH].
    rewrite take_app_length'; [done|]. len_lia.
Qed.
End answers.

(** ** The whole of [DiscoverBySkill] *)

Lemma clampLimit_range limit : 1 <= clampLimit limit <= MaxDiscoverLimit.
Proof. unfold clampLimit, DefaultDiscoverLimit, MaxDiscoverLimit. go_solve. Qed.

(** What the second loop contributes, once the first one has run to its end. *)
Lemma fed_answers_perm r now skillID tags (ord ordF : RangeOrder) :
  wf r →
  let lp : gset string := list_to_set (PeerID <$>
    omap (answer now skillID tags (entries r)) (ord (peers_of (skillIndex r) skillID))) ∪ ∅ in
  omap (λ p, if bool_decide (p ∈ lp) then None
             else answer now skillID tags (federated r) p)
    (ordF (peers_of (fedSkillIndex r) skillID)) ≡ₚ scan_fed r now skillID tags.
Proof.
  intros Hwf lp.
  assert (∀ p, p ∈ lp ↔ p ∈ PeerID <$> scan (entries r) now skillID tags) as Hlp.
  { intros p. subst lp. rewrite (right_id_L ∅ (∪)), elem_of_list_to_set.
    by rewrite (answers_perm now skillID tags _ _ _ ord (wf_local _ Hwf)). }
  apply NoDup_Permutation.
  - apply (NoDup_omap_inv _ PeerID); [|apply NoDup_range].
    intros p reg. case_bool_decide; [done|]. intros [Hp _]%answer_Some. by eapply wf_fed_keys.
  - apply NoDup_filter. eapply NoDup_scan. apply Hwf.
  - intros reg. unfold scan_fed. rewrite list_elem_of_filter.
    rewrite <- (answers_perm now skillID tags _ _ _ ordF (wf_fed _ Hwf)).
    rewrite !list_elem_of_omap. split.
    + intros (p & Hp & Hx). case_bool_decide as Hin; [done|].
      assert (PeerID reg = p) as Hk by (apply answer_Some in Hx as [? _]; by eapply wf_fed_keys).
      split; [by rewrite <- Hlp, Hk|eauto].
    + intros (Hin & p & Hp & Hx).
      assert (PeerID reg = p) as Hk by (apply answer_Some in Hx as [? _]; by eapply wf_fed_keys).
      exists p. split; [done|]. by rewrite bool_decide_eq_false_2 by (by rewrite Hlp, <- Hk).
Qed.

Lemma discover_local_index r (ord : RangeOrder) now skillID tags limit :
  match skillIndex r !! skillID with
  | Some peerIDs => discoverLocal (entries r) now skillID tags limit (ord peerIDs) [] ∅
  | None => (false, [], ∅)
  end = discoverLocal (entries r) now skillID tags limit
          (ord (peers_of (skillIndex r) skillID)) [] ∅.
Proof.
  unfold peers_of. destruct (skillIndex r !! skillID); simpl; [done|].
  assert (ord ∅ = []) as ->; [|done].
  apply Permutation_nil_r. by rewrite range_keys_perm, elements_empty.
Qed.

Lemma discover_fed_index r (ordF : RangeOrder) now skillID tags limit lp acc :
  match fedSkillIndex r !! skillID with
  | Some ps => discoverFederated (federated r) now skillID tags limit lp (ordF ps) acc
  | None => acc
  end = discoverFederated (federated r) now skillID tags limit lp
          (ordF (peers_of (fedSkillIndex r) skillID)) acc.
Proof.
  unfold peers_of. destruct (fedSkillIndex r !! skillID); simpl; [done|].
  assert (ordF ∅ = []) as ->; [|done].
  apply Permutation_nil_r. by rewrite range_keys_perm, elements_empty.
Qed.

(** The answer is an arrangement of the reference scan, local registrations
    first, cut at the clamped limit. *)
Lemma DiscoverBySkill_scan r ord ordF now skillID tags limit fed :
  wf r →
  ∃ locals feds,
    locals ≡ₚ scan (entries r) now skillID tags ∧
    feds ≡ₚ (if fed : bool then scan_fed r now skillID tags else []) ∧
    DiscoverBySkill r ord ordF now skillID tags limit fed =
      take (Z.to_nat (clampLimit limit)) (locals ++ feds).
Proof.
  intros Hwf. pose proof (clampLimit_range limit) as Hl. unfold DiscoverBySkill.
  rewrite discover_local_index.
  set (locals := omap (answer now skillID tags (entries r))
                   (ord (peers_of (skillIndex r) skillID))).
  set (lp := list_to_set (PeerID <$> locals) ∪ ∅ : gset string).
  exists locals, (if fed then
    omap (λ p, if bool_decide (p ∈ lp) then None else answer now skillID tags (federated r) p)
      (ordF (peers_of (fedSkillIndex r) skillID)) else []).
  split; [by eapply answers_perm, wf_local|]. split.
  { destruct fed; [by apply fed_answers_perm|done]. }
  pose proof (discoverLocal_spec now skillID tags (entries r) (clampLimit limit)
    (ord (peers_of (skillIndex r) skillID)) [] ∅ ltac:(rewrite len_nil; lia)) as Hloc.
  simpl in Hloc. fold locals in Hloc. fold lp in Hloc.
  destruct (Z.leb_spec (clampLimit limit) (len locals)).
  - destruct Hloc as [lp' ->]. rewrite take_app_le; [done|len_lia].
  - rewrite Hloc. destruct fed.
    + rewrite discover_fed_index. by apply discoverFederated_spec.
    + rewrite app_nil_r, take_ge; [done|len_lia].
Qed.

Lemma scan_all_perm r now skillID tags fed locals feds :
  locals ≡ₚ scan (entries r) now skillID tags →
  feds ≡ₚ (if fed : bool then scan_fed r now skillID tags else []) →
  locals ++ feds ≡ₚ scan_all r now skillID tags fed.
Proof. intros -> ->. by destruct fed. Qed.

(** The answer of one peer in a scan of the local map. *)
Lemma elem_of_scan_peer r now skillID tags p :
  wf r →
  (∃ reg, reg ∈ scan (entries r) now skillID tags ∧ PeerID reg = p) ↔
  ∃ reg, entries r !! p = Some reg ∧ offers now skillID tags reg = true.
Proof.
  intros Hwf. setoid_rewrite elem_of_scan. split.
  - intros (reg & (q & Hq & Ho) & Hp). rewrite (wf_keys _ _ _ Hwf Hq) in Hp. subst. eauto.
  - intros (reg & Hp & Ho). exists reg. split; [eauto|]. by eapply wf_keys.
Qed.

Lemma hasSkill_filter reg (ids : list string) skillID tags :
  hasSkill (set_Skills reg (filter (λ s, SkillID s ∉ ids) (Skills reg))) skillID tags = true ↔
  skillID ∉ ids ∧ hasSkill reg skillID tags = true.
Proof.
  rewrite !hasSkill_spec. simpl. setoid_rewrite list_elem_of_filter. naive_solver.
Qed.

(** A scan lists the registrations of a map, each once. *)
Lemma scan_all_NoDup r now skillID tags fed :
  wf r → NoDup (PeerID <$> scan_all r now skillID tags fed).
Proof.
  intros Hwf. unfold scan_all.
  assert (∀ m idx n, side_ok m idx n → NoDup (PeerID <$> scan m now skillID tags)) as Hs.
  { intros m idx n Hok. rewrite <- (answers_perm now skillID tags m idx n canonical_order Hok).
    apply NoDup_fmap_omap_inv; [|apply NoDup_range].
    intros p reg [Hp _]%answer_Some. by eapply so_keys. }
  rewrite fmap_app. apply NoDup_app. split_and!; [by eapply Hs, wf_local| |].
  - intros p Hp Hq. destruct fed; [|by apply elem_of_nil in Hq].
    apply list_elem_of_fmap in Hq as (reg & -> & Hin).
    by apply list_elem_of_filter in Hin as [Hn _].
  - destruct fed; [|constructor]. unfold scan_fed.
    eapply sublist_NoDup; [by eapply Hs, wf_fed|]. apply fmap_sublist, sublist_filter.
Qed.

(** The answer is short, names no peer twice and answers the query. *)
Lemma DiscoverBySkill_facts r ord ordF now skillID tags limit fed :
  wf r →
  let results := DiscoverBySkill r ord ordF now skillID tags limit fed in
  len results <= clampLimit limit ∧ NoDup (PeerID <$> results) ∧
  ∀ reg, reg ∈ results → hasSkill reg skillID tags = true ∧ now <= ExpiresAt reg ∧
    (entries r !! PeerID reg = Some reg ∨ (fed = true ∧ federated r !! PeerID reg = Some reg)).
Proof.
  intros Hwf. pose proof (clampLimit_range limit) as Hlim.
  destruct (DiscoverBySkill_scan r ord ordF now skillID tags limit fed Hwf) as
    (locals & feds & Hl & Hf & ->). cbv zeta.
  pose proof (scan_all_perm _ _ _ _ _ _ _ Hl Hf) as Hp. split_and!; [..|intros reg Hin].
  - unfold len. rewrite length_take. lia.
  - eapply sublist_NoDup; [|apply fmap_sublist, sublist_take].
    rewrite Hp. by apply scan_all_NoDup.
  - assert (reg ∈ scan_all r now skillID tags fed) as Hscan.
    { rewrite <- Hp. eapply elem_of_sublist; [done|apply sublist_take]. }
    unfold scan_all in Hscan. rewrite elem_of_app in Hscan.
    assert (offers now skillID tags reg = true ∧
      (entries r !! PeerID reg = Some reg ∨
       (fed = true ∧ federated r !! PeerID reg = Some reg))) as [Ho Hm].
    { destruct Hscan as [(p & Hm & Ho)%elem_of_scan|Hscan].
      - rewrite (wf_keys _ _ _ Hwf Hm). auto.
      - destruct fed; [|by apply elem_of_nil in Hscan].
        apply list_elem_of_filter in Hscan as [_ (p & Hm & Ho)%elem_of_scan].
        rewrite (wf_fed_keys _ _ _ Hwf Hm). auto. }
    apply andb_true_iff in Ho as [Hexp Hh]. unfold After in Hexp. bool_to_prop. auto.
Qed.
