(* ===== verification/RegistrySpec.v ===== *)
(** * Abstract specification of the registry and its refinement

    Abstractly the registry is two maps from peers to registrations: no index,
    no counter, no gauge.  Each operation is one map operation.  Every history of
    the detailed registry is simulated by the abstract one, and every query
    answers with a function of the abstract state. *)
From stdpp Require Import gmap strings list fin_maps.
From Stdlib Require Import ZArith Lia.
From S2P Require Import Prelude GoStd Registry RegistryInv RegistryDiscover.

Local Open Scope Z_scope.

(** ** Abstract state and operations *)

Record ARegistry := mkARegistry {
  a_local : gmap string Registration;
  a_fed : gmap string Registration;
  a_config : Config
}.

Definition abs (r : Registry) : ARegistry :=
  mkARegistry (entries r) (federated r) (config r).

Definition a_New (cfg : Config) : ARegistry := mkARegistry ∅ ∅ (Config_defaults cfg).

(** Last writer wins: a higher version, then the lower relay ID. *)
Definition beats (u e : Registration) : bool :=
  (Version e <? Version u) || ((Version e =? Version u) && str_lt (Origin u) (Origin e)).

(** The registration a federated update carries. *)
Definition update_of (p o : string) (skills : list SkillInfo) (an ad : string)
    (ra ea v : Z) : Registration := mkRegistration p skills an ad ra ea o v.

Definition fed_winner (full : bool) (u : Registration) (old : option Registration)
    : option Registration :=
  match old with
  | Some e => if beats u e then Some u else Some e
  | None => if full then None else Some u
  end.

Definition unregister_entry (ids : list string) (old : option Registration)
    : option Registration :=
  reg ← old;
  match ids with
  | [] => None
  | _ => match filter (λ s, SkillID s ∉ ids) (Skills reg) with
         | [] => None
         | kept => Some (set_Skills reg kept)
         end
  end.

Definition a_exec (a : ARegistry) (o : op) : ARegistry :=
  let cfg := a_config a in
  match o with
  | OpRegister now p sk an ad =>
    let full := map_len (a_local a) >=? MaxRegistrations cfg in
    let reg := mkRegistration p sk an ad now (now + TTL cfg) "" (uint64 now) in
    mkARegistry
      (partial_alter (λ old, match old with
                             | None => if full then None else Some reg
                             | Some _ => Some reg end) p (a_local a)) (a_fed a) cfg
  | OpUnregister p ids =>
    mkARegistry (partial_alter (unregister_entry ids) p (a_local a)) (a_fed a) cfg
  | OpHeartbeat now p =>
    mkARegistry (alter (λ reg, set_ExpiresAt reg (now + TTL cfg)) p (a_local a)) (a_fed a) cfg
  | OpRemovePeer p => mkARegistry (delete p (a_local a)) (a_fed a) cfg
  | OpEvict _ _ now =>
    mkARegistry (filter (evict_keep now) (a_local a)) (filter (evict_keep now) (a_fed a)) cfg
  | OpRegisterFederated p o sk an ad ra ea v =>
    let full := map_len (a_fed a) >=? MaxFederatedRegistrations cfg in
    mkARegistry (a_local a)
      (partial_alter (fed_winner full (update_of p o sk an ad ra ea v)) p (a_fed a)) cfg
  | OpClose => a
  end.

Fixpoint exec_all (r : Registry) (ops : list op) : option Registry :=
  match ops with
  | [] => Some r
  | o :: ops => r' ← exec r o; exec_all r' ops
  end.

(** ** Simulation, one operation at a time *)

Lemma abs_Register r now p sk an ad :
  abs (Register r now p sk an ad).1 = a_exec (abs r) (OpRegister now p sk an ad).
Proof.
  unfold abs, Register; simpl. rewrite bool_decide_is_Some, copySkills_id, uint64_UnixNano.
  destruct (entries r !! p) eqn:E; simpl; [|case_match]; simpl; f_equal; symmetry;
    (apply partial_alter_to_insert || apply partial_alter_same); by rewrite E.
Qed.

Lemma filter_not_in_set (ids : list string) (skills : list SkillInfo) :
  filter (λ s, SkillID s ∉ (list_to_set ids : gset string)) skills =
  filter (λ s, SkillID s ∉ ids) skills.
Proof. apply list_filter_iff. intros s. by rewrite elem_of_list_to_set. Qed.

Lemma abs_Unregister r p ids :
  abs (Unregister r p ids) = a_exec (abs r) (OpUnregister p ids).
Proof.
  unfold abs, Unregister; simpl.
  destruct (entries r !! p) as [reg|] eqn:E.
  - destruct ids as [|i ids]; simpl.
    { by rewrite partial_alter_to_delete by (by rewrite E). }
    pose proof (filter_not_in_set (i :: ids) (Skills reg)) as Hf. simpl in Hf. rewrite Hf.
    destruct (filter _ (Skills reg)) as [|k kept] eqn:Hk in |- *; simpl.
    + by rewrite partial_alter_to_delete by (rewrite E; simpl; by rewrite Hk).
    + by erewrite partial_alter_to_insert by (rewrite E; simpl; by rewrite Hk).
  - assert (partial_alter (unregister_entry ids) p (entries r) = entries r) as ->;
      [|by case_match].
    apply partial_alter_same. by rewrite E.
Qed.

Lemma abs_Heartbeat r now p : abs (Heartbeat r now p).1 = a_exec (abs r) (OpHeartbeat now p).
Proof.
  unfold abs, Heartbeat; simpl. unfold alter, map_alter.
  destruct (entries r !! p) as [reg|] eqn:E; simpl.
  - by erewrite partial_alter_to_insert by (by rewrite E).
  - by rewrite partial_alter_same by (by rewrite E).
Qed.

Lemma abs_RemovePeer r p : abs (RemovePeer r p) = a_exec (abs r) (OpRemovePeer p).
Proof.
  unfold abs, RemovePeer; simpl. destruct (entries r !! p) eqn:E; [done|].
  by rewrite delete_id.
Qed.

Lemma abs_evictExpired r ord ordF now :
  wf r → abs (evictExpired r ord ordF now) = a_exec (abs r) (OpEvict ord ordF now).
Proof.
  intros Hwf. destruct (evictExpired_parts r ord ordF now Hwf) as [He Hf].
  unfold abs; simpl. rewrite He, Hf. f_equal. unfold evictExpired. go_cases.
Qed.

(** The two early returns of [RegisterFederated] are the negation of [beats]. *)
Lemma beats_guards (u e : Registration) :
  beats u e = negb ((Version e >? Version u) ||
                    ((Version e =? Version u) && str_le (Origin e) (Origin u))).
Proof.
  unfold beats. rewrite str_lt_le. destruct (str_le _ _); simpl;
  rewrite ?andb_true_r, ?andb_false_r; rewrite Z.gtb_ltb;
  destruct (Z.ltb_spec (Version e) (Version u)), (Z.ltb_spec (Version u) (Version e)),
    (Z.eqb_spec (Version e) (Version u)); simpl; try done; lia.
Qed.

Lemma RegisterFederated_federated r p o sk an ad ra ea v :
  let full := map_len (federated r) >=? MaxFederatedRegistrations (config r) in
  let u := update_of p o sk an ad ra ea v in
  federated (RegisterFederated r p o sk an ad ra ea v).1 =
    partial_alter (fed_winner full u) p (federated r) ∧
  (RegisterFederated r p o sk an ad ra ea v).2 =
    (if bool_decide (federated r !! p = None) && full
     then Some ErrFederatedRegistryFull else None).
Proof.
  cbv zeta. unfold RegisterFederated. rewrite copySkills_id.
  set (u := update_of p o sk an ad ra ea v).
  destruct (federated r !! p) as [e|] eqn:E; simpl.
  - pose proof (beats_guards u e) as Hb. unfold u, update_of in Hb; simpl in Hb.
    case_match; simpl in Hb; [|case_match; simpl in Hb]; simpl; (split; [symmetry|done]);
      (apply partial_alter_same || apply partial_alter_to_insert);
      rewrite E; simpl; unfold u, update_of; by rewrite Hb.
  - case_match eqn:Hfull; simpl; (split; [symmetry|done]);
      (apply partial_alter_same || apply partial_alter_to_insert); by rewrite E.
Qed.

Lemma RegisterFederated_local r p o sk an ad ra ea v :
  let r' := (RegisterFederated r p o sk an ad ra ea v).1 in
  entries r' = entries r ∧ skillIndex r' = skillIndex r ∧
  localCount r' = localCount r ∧ config r' = config r.
Proof. unfold RegisterFederated. go_cases. Qed.

Lemma abs_RegisterFederated r p o sk an ad ra ea v :
  abs (RegisterFederated r p o sk an ad ra ea v).1 =
  a_exec (abs r) (OpRegisterFederated p o sk an ad ra ea v).
Proof.
  destruct (RegisterFederated_local r p o sk an ad ra ea v) as (He & _ & _ & Hc).
  destruct (RegisterFederated_federated r p o sk an ad ra ea v) as [Hf _].
  unfold abs; simpl. by rewrite He, Hc, Hf.
Qed.

Lemma abs_exec r o r' : wf r → exec r o = Some r' → abs r' = a_exec (abs r) o.
Proof.
  intros Hwf. destruct o; simpl exec; intros He; simplify_eq;
    auto using abs_Register, abs_Unregister, abs_Heartbeat, abs_RemovePeer,
      abs_evictExpired, abs_RegisterFederated.
  unfold Close, close_chan in He. go_cases.
Qed.

Lemma exec_all_simulates r ops :
  wf r → ∃ r', exec_all r ops = Some r' ∧ wf r' ∧ abs r' = foldl a_exec (abs r) ops.
Proof.
  revert r. induction ops as [|o ops IH]; intros r Hwf; simpl; [eauto|].
  destruct (wf_exec r o Hwf) as (r1 & He & Hwf1). rewrite He. simpl.
  rewrite <- (abs_exec _ _ _ Hwf He). by apply IH.
Qed.

Lemma reachable_exec_all cfg r ops r' :
  reachable cfg r → exec_all r ops = Some r' → reachable cfg r'.
Proof.
  revert r. induction ops as [|o ops IH]; intros r Hr; simpl; [by intros [= <-]|].
  destruct (exec r o) as [r1|] eqn:E; simpl; [|done]. apply IH. by econstructor.
Qed.

(** ** Abstract queries *)

Definition a_get (a : ARegistry) (now : Z) (p : string) : option Registration :=
  match lookup_live (a_local a) now p with
  | Some reg => Some reg
  | None => lookup_live (a_fed a) now p
  end.

(** The skills some registration of the map offers. *)
Definition skills_of (m : gmap string Registration) : gset string :=
  list_to_set ((map_to_list m).*2 ≫= λ reg, skill_ids (Skills reg)).

Lemma elem_of_skills_of m s :
  s ∈ skills_of m ↔ ∃ p reg, m !! p = Some reg ∧ s ∈ skill_ids (Skills reg).
Proof.
  unfold skills_of. rewrite elem_of_list_to_set, list_elem_of_bind. split.
  - intros (reg & Hs & ([p x] & -> & Hin%elem_of_map_to_list)%list_elem_of_fmap). eauto.
  - intros (p & reg & Hp & Hs). exists reg. split; [done|].
    apply list_elem_of_fmap. exists (p, reg). split; [done|]. by apply elem_of_map_to_list.
Qed.

(** The keys of a consistent index are the skills offered. *)
Lemma side_ok_skills m idx n : side_ok m idx n → map_len idx = set_len (skills_of m).
Proof.
  intros Hok. unfold map_len, set_len. rewrite <- size_dom. f_equal. f_equal.
  apply set_eq. intros s. rewrite elem_of_dom, elem_of_skills_of. split.
  - intros [ps Hps]. destruct (set_choose_L ps) as [p Hp]; [by eapply so_nonempty|].
    destruct (so_index _ _ _ Hok s p) as [Hto _].
    destruct Hto as (reg & ? & ?); [unfold peers_of; by rewrite Hps|]. eauto.
  - intros (p & reg & Hp & Hs). destruct (so_index _ _ _ Hok s p) as [_ Hfrom].
    assert (p ∈ peers_of idx s) as Hin by eauto. unfold peers_of in Hin.
    destruct (idx !! s); [eauto|set_solver].
Qed.

(** ** Stored registrations outlive foreign operations *)

(** The operation is not about peer [p], and is no eviction after the deadline. *)
Definition spares (p : string) (deadline : Z) (o : op) : Prop :=
  match o with
  | OpRegister _ q _ _ _ | OpUnregister q _ | OpHeartbeat _ q | OpRemovePeer q => q ≠ p
  | OpEvict _ _ now => now <= deadline
  | OpRegisterFederated _ _ _ _ _ _ _ _ | OpClose => True
  end.

Lemma spared_step a o p reg :
  a_local a !! p = Some reg → spares p (ExpiresAt reg) o →
  a_local (a_exec a o) !! p = Some reg.
Proof.
  intros Hp. destruct o; simpl; intros Hs; [..|done|done];
    rewrite ?lookup_partial_alter_ne, ?lookup_alter_ne, ?lookup_delete_ne by done; try done.
  apply map_lookup_filter_Some. split; [done|]. unfold evict_keep, After; simpl.
  apply Z.ltb_ge. lia.
Qed.

Lemma spared_history a ops p reg :
  a_local a !! p = Some reg → Forall (spares p (ExpiresAt reg)) ops →
  a_local (foldl a_exec a ops) !! p = Some reg.
Proof.
  revert a. induction ops as [|o ops IH]; intros a Hp Hops; simpl; [done|].
  apply Forall_cons in Hops as [Ho Hops]. by apply IH; [apply spared_step|].
Qed.

Lemma spared_kept r ops r' p reg :
  wf r → entries r !! p = Some reg → Forall (spares p (ExpiresAt reg)) ops →
  exec_all r ops = Some r' → wf r' ∧ entries r' !! p = Some reg.
Proof.
  intros Hwf Hp Hops Hex. destruct (exec_all_simulates r ops Hwf) as (r2 & E & Hwf2 & Ha).
  simplify_eq. split; [done|]. change (a_local (abs r') !! p = Some reg). rewrite Ha.
  by apply spared_history.
Qed.

Lemma Register_ok r now p sk an ad r' t :
  Register r now p sk an ad = (r', (t, None)) →
  t = now + TTL (config r) ∧
  entries r' = <[p := mkRegistration p sk an ad now t "" (uint64 now)]> (entries r) ∧
  federated r' = federated r.
Proof.
  unfold Register. rewrite copySkills_id, uint64_UnixNano. case_if Hf; [done|].
  intros ?. by simplify_eq/=.
Qed.

(** A live registration that offers the skill is among the answers whenever the
    limit does not cut the answer short. *)
Lemma DiscoverBySkill_complete r ord ordF now skillID tags limit fed p reg :
  wf r → entries r !! p = Some reg → offers now skillID tags reg = true →
  len (scan_all r now skillID tags fed) <= clampLimit limit →
  reg ∈ DiscoverBySkill r ord ordF now skillID tags limit fed.
Proof.
  intros Hwf Hp Ho Hlen.
  destruct (DiscoverBySkill_scan r ord ordF now skillID tags limit fed Hwf) as
    (locals & feds & Hl & Hf & ->).
  pose proof (Permutation_length (scan_all_perm _ _ _ _ _ _ _ Hl Hf)).
  rewrite take_ge by (unfold len in *; lia). apply elem_of_app. left.
  rewrite Hl. apply elem_of_scan. eauto.
Qed.

(** ** A federated answer means that no local registration answers *)

Lemma elem_of_scan_fed r now skillID tags reg :
  wf r →
  reg ∈ scan_fed r now skillID tags ↔
  federated r !! PeerID reg = Some reg ∧ offers now skillID tags reg = true ∧
  ∀ l, entries r !! PeerID reg = Some l → offers now skillID tags l = false.
Proof.
  intros Hwf. unfold scan_fed. rewrite list_elem_of_filter, elem_of_scan. split.
  - intros (Hn & p & Hp & Ho). pose proof (wf_fed_keys _ _ _ Hwf Hp). subst p.
    split_and!; [done..|]. intros l Hl. destruct (offers _ _ _ l) eqn:E; [|done].
    destruct Hn. rewrite <- (wf_keys _ _ _ Hwf Hl). apply list_elem_of_fmap_2, elem_of_scan. eauto.
  - intros (Hp & Ho & Hl). split; [|eauto].
    intros (l & Hpl & (q & Hq & Hol)%elem_of_scan)%list_elem_of_fmap.
    pose proof (wf_keys _ _ _ Hwf Hq). subst q. rewrite <- Hpl in Hq.
    by rewrite (Hl _ Hq) in Hol.
Qed.

(** What the entry of a peer answers after [Unregister] of some skills. *)
Lemma unregister_offers reg (ids : list string) now skillID tags :
  ids ≠ [] →
  (∃ reg', unregister_entry ids (Some reg) = Some reg' ∧ offers now skillID tags reg' = true) ↔
  skillID ∉ ids ∧ ∃ reg', Some reg = Some reg' ∧ offers now skillID tags reg' = true.
Proof.
  intros Hids. pose proof (hasSkill_filter reg ids skillID tags) as Hf.
  assert (∀ reg', offers now skillID tags reg' = true ↔
    After now (ExpiresAt reg') = false ∧ hasSkill reg' skillID tags = true) as Ho.
  { intros reg'. unfold offers. by rewrite andb_true_iff, negb_true_iff. }
  setoid_rewrite Ho. simpl. destruct ids as [|i ids]; [done|].
  destruct (filter _ (Skills reg)) as [|k kept] eqn:Hk in |- *; rewrite Hk in Hf.
  - split; [naive_solver|]. intros (Hn & reg' & [= <-] & _ & Hh).
    by pose proof (proj2 Hf (conj Hn Hh)).
  - split.
    + intros (reg' & [= <-] & Hexp & Hh). apply Hf in Hh as [Hn Hh]. eauto.
    + intros (Hn & reg' & [= <-] & Hexp & Hh). eexists. split; [done|]. split; [done|].
      by apply Hf.
Qed.

(** ** The registration time changes by registering only *)

Lemma a_exec_registered_at a o p reg' :
  (∀ t sk an ad, o ≠ OpRegister t p sk an ad) →
  a_local (a_exec a o) !! p = Some reg' →
  ∃ reg, a_local a !! p = Some reg ∧ RegisteredAt reg' = RegisteredAt reg.
Proof.
  intros Hno. destruct o as [t q sk an ad|q ids|t q|q|o1 o2 t|q o sk an ad ra ea v|]; simpl.
  - intros Hp. rewrite lookup_partial_alter_ne in Hp; [eauto|]. intros ->. by eapply Hno.
  - intros Hp. destruct (decide (q = p)) as [->|Hne].
    + rewrite lookup_partial_alter_eq in Hp. destruct (a_local a !! p) as [reg|]; [|by destruct ids].
      exists reg. split; [done|]. unfold unregister_entry in Hp. simpl in Hp. go_cases.
    + rewrite lookup_partial_alter_ne in Hp by done. eauto.
  - intros Hp. destruct (decide (q = p)) as [->|Hne].
    + rewrite lookup_alter_eq in Hp. apply fmap_Some_1 in Hp as (reg & Hp & ->). eauto.
    + rewrite lookup_alter_ne in Hp by done. eauto.
  - intros [_ Hp]%lookup_delete_Some. eauto.
  - intros [Hp _]%map_lookup_filter_Some. eauto.
  - eauto.
  - eauto.
Qed.

Lemma exec_all_registered_at ops r r2 p :
  wf r → Forall (λ o, ∀ t sk an ad, o ≠ OpRegister t p sk an ad) ops →
  exec_all r ops = Some r2 →
  wf r2 ∧ ∀ reg2, entries r2 !! p = Some reg2 →
    ∃ reg, entries r !! p = Some reg ∧ RegisteredAt reg2 = RegisteredAt reg.
Proof.
  intros Hwf Hops Hex. destruct (exec_all_simulates r ops Hwf) as (r' & E & Hwf2 & Ha).
  rewrite E in Hex. injection Hex as ->.
  split; [done|]. intros reg2 Hp. change (a_local (abs r2) !! p = Some reg2) in Hp.
  rewrite Ha in Hp. change (entries r) with (a_local (abs r)).
  revert Hp Hops. generalize (abs r) as a. clear. intros a Hp Hops. revert a Hp.
  induction Hops as [|o ops Ho Hops IH]; intros a Hp; simpl in Hp; [eauto|].
  destruct (IH _ Hp) as (reg & Hreg & ->). by eapply a_exec_registered_at.
Qed.
