(* ===== verification/RegistryLoop.v ===== *)
(** * The eviction goroutine of a registry ([cleanupLoop] and [Close] in
    [src/internal/registry/registry.go])

    [New] starts a goroutine that waits for a ticker or for [stopCh].  The process
    has a clock; the ticker is due every [CleanupInterval] and the goroutine is
    scheduled at most [lag] after a tick is due; everybody else's calls of the
    registry happen in between, each at the time the clock shows. *)
From stdpp Require Import gmap strings list relations.
From Stdlib Require Import ZArith Lia.
From S2P Require Import Prelude GoStd Registry RegistryInv RegistrySpec.

Local Open Scope Z_scope.

(** [time.NewTicker] panics for an interval that is not positive. *)
Definition NewTicker (d : Z) : option Z := if d <=? 0 then None else Some d.

(** The goroutine: at its [select], or gone. *)
Inductive loop_pc := LoopSelect | LoopReturned.

#[export] Instance loop_pc_eq_dec : EqDecision loop_pc.
Proof. solve_decision. Defined.

Record RegProc := mkRegProc {
  rp_reg : Registry;
  rp_pc : loop_pc;
  rp_clock : Z;
  rp_next : Z          (* when the next tick is due *)
}.

(** [New] at time [t0]; [None]: the goroutine panics, which ends the process. *)
Definition Registry_spawn (cfg : Config) (t0 : Z) : option RegProc :=
  let r := Registry_New cfg in
  interval ← NewTicker (CleanupInterval (config r));
  Some (mkRegProc r LoopSelect t0 (t0 + interval)).

(** The call reads the clock at [now]; evictions are the goroutine's. *)
Definition called_at (now : Z) (o : op) : Prop :=
  match o with
  | OpRegister t _ _ _ _ | OpHeartbeat t _ => t = now
  | OpEvict _ _ _ => False
  | _ => True
  end.

Section loop.
Context (lag : Z).

Inductive proc_step (s : RegProc) : RegProc → Prop :=
| proc_time d :
    0 <= d → (rp_pc s = LoopSelect → rp_clock s + d <= rp_next s + lag) →
    proc_step s (mkRegProc (rp_reg s) (rp_pc s) (rp_clock s + d) (rp_next s))
| proc_call o r' :
    called_at (rp_clock s) o → exec (rp_reg s) o = Some r' →
    proc_step s (mkRegProc r' (rp_pc s) (rp_clock s) (rp_next s))
| proc_tick ord ordF :
    rp_pc s = LoopSelect → rp_next s <= rp_clock s →
    proc_step s (mkRegProc (evictExpired (rp_reg s) ord ordF (rp_clock s)) LoopSelect
      (rp_clock s) (rp_next s + CleanupInterval (config (rp_reg s))))
| proc_stop :
    rp_pc s = LoopSelect → stopCh (rp_reg s) = true →
    proc_step s (mkRegProc (rp_reg s) LoopReturned (rp_clock s) (rp_next s)).

(** ** Invariant: nothing expired before the last tick was due *)

Definition expires_from (t : Z) (m : gmap string Registration) : Prop :=
  ∀ p reg, m !! p = Some reg → t <= ExpiresAt reg.

Record proc_inv (cfg : Config) (s : RegProc) : Prop := {
  pv_reach : reachable cfg (rp_reg s);
  pv_fresh : rp_pc s = LoopSelect →
    expires_from (rp_next s - CleanupInterval (Config_defaults cfg)) (entries (rp_reg s));
  pv_due : rp_pc s = LoopSelect →
    rp_next s - CleanupInterval (Config_defaults cfg) <= rp_clock s <= rp_next s + lag
}.

Lemma expires_from_call cfg r o r' now t :
  reachable cfg r → exec r o = Some r' → called_at now o → t <= now →
  0 <= TTL (Config_defaults cfg) → expires_from t (entries r) → expires_from t (entries r').
Proof.
  intros Hr Hex Hat Hnow Httl He p reg. pose proof (reachable_wf _ _ Hr) as Hwf.
  pose proof (abs_exec _ _ _ Hwf Hex) as Ha. apply (f_equal a_local) in Ha. cbn [abs a_local] in Ha.
  rewrite Ha. pose proof (reachable_config _ _ Hr) as Hcfg.
  destruct o as [u q sk an ad|q ids|u q|q| |q ? ? ? ? ? ? ?|]; cbn [a_exec a_local a_config abs called_at] in *; try done;
    rewrite ?Hcfg; revert Httl; generalize (TTL (Config_defaults cfg)); intros ttl Httl.
  - destruct (decide (q = p)) as [->|Hne]; [|rewrite lookup_partial_alter_ne by done; apply He].
    rewrite lookup_partial_alter_eq. subst u.
    destruct (entries r !! p); [intros [= <-]; cbn [ExpiresAt set_ExpiresAt]; lia|].
    case_if Hf; [done|]. intros [= <-]. cbn [ExpiresAt set_ExpiresAt]. lia.
  - destruct (decide (q = p)) as [->|Hne]; [|rewrite lookup_partial_alter_ne by done; apply He].
    rewrite lookup_partial_alter_eq. destruct (entries r !! p) as [old|] eqn:Hp; [|done].
    specialize (He _ _ Hp). unfold unregister_entry. cbn.
    destruct ids; [done|]. destruct (filter _ _); [done|]. intros [= <-]. exact He.
  - destruct (decide (q = p)) as [->|Hne]; [|rewrite lookup_alter_ne by done; apply He].
    rewrite lookup_alter_eq. subst u.
    destruct (entries r !! p); [|done]. intros [= <-]. cbn [ExpiresAt set_ExpiresAt]. lia.
  - intros [_ Hp]%lookup_delete_Some. by eapply He.
  - apply He.
  - apply He.
Qed.

(** A tick leaves only what has not expired by then. *)
Lemma expires_from_evict r ord ordF now t :
  wf r → t <= now → expires_from t (entries (evictExpired r ord ordF now)).
Proof.
  intros Hwf Hnow p reg. destruct (evictExpired_parts r ord ordF now Hwf) as [-> _].
  intros [_ Hk]%map_lookup_filter_Some. unfold evict_keep, After in Hk. cbn [snd] in Hk. bool_to_prop. lia.
Qed.

Lemma proc_inv_step cfg s s' :
  0 <= TTL (Config_defaults cfg) → 0 < CleanupInterval (Config_defaults cfg) →
  proc_inv cfg s → proc_step s s' → proc_inv cfg s'.
Proof.
  intros Httl HI [Hr Hf Hd] Hstep. set (I := CleanupInterval (Config_defaults cfg)) in *.
  destruct Hstep as [d Hd0 Hlim|o r' Hat Hex|ord ordF Hpc Hdue|Hpc Hstop]; cbn [rp_reg rp_pc rp_clock rp_next].
  - split; cbn [rp_reg rp_pc rp_clock rp_next]; [done|done|]. intros Hpc. specialize (Hd Hpc). specialize (Hlim Hpc). lia.
  - split; cbn [rp_reg rp_pc rp_clock rp_next]; [by eapply reach_step| |done]. intros Hpc.
    eapply expires_from_call; [exact Hr|exact Hex|exact Hat| |done|by apply Hf]. by apply Hd.
  - rewrite (reachable_config _ _ Hr). fold I. specialize (Hd Hpc).
    split; cbn [rp_reg rp_pc rp_clock rp_next].
    + by eapply (reach_step _ _ (OpEvict ord ordF (rp_clock s))).
    + intros _. apply expires_from_evict; [by eapply reachable_wf|lia].
    + intros _. lia.
  - by split.
Qed.

Lemma NewTicker_Some d i : NewTicker d = Some i ↔ i = d ∧ 0 < d.
Proof. unfold NewTicker. case_if Hc; bool_to_prop; [naive_solver lia|]. split; [intros [= <-]|intros [-> _]]; by auto with lia. Qed.

Lemma proc_inv_spawn cfg t0 s :
  0 <= lag → Registry_spawn cfg t0 = Some s →
  0 < CleanupInterval (Config_defaults cfg) ∧ proc_inv cfg s.
Proof.
  intros Hlag (i & [-> Hi]%NewTicker_Some & [= <-])%bind_Some. split; [exact Hi|]. split.
  - constructor.
  - intros _ p reg Hp. cbn in Hp. by rewrite lookup_empty in Hp.
  - intros _. change (config (Registry_New cfg)) with (Config_defaults cfg).
    change (rp_clock _) with t0. change (rp_next _) with (t0 + CleanupInterval (Config_defaults cfg)).
    change (0 < CleanupInterval (Config_defaults cfg)) in Hi. revert Hi.
    generalize (CleanupInterval (Config_defaults cfg)). lia.
Qed.

Lemma proc_inv_reach cfg s s' :
  0 <= TTL (Config_defaults cfg) → 0 < CleanupInterval (Config_defaults cfg) →
  proc_inv cfg s → rtc proc_step s s' → proc_inv cfg s'.
Proof. intros Httl HI. apply rtc_preserves. intros a b. by apply proc_inv_step. Qed.

(** A goroutine that has returned was told to. *)
Lemma exec_stopCh r o r' : exec r o = Some r' → stopCh r = true → stopCh r' = true.
Proof.
  destruct o; simpl; intros ? Hs; simplify_eq; unfold Register, Unregister, Heartbeat, RemovePeer,
    evictExpired, RegisterFederated, Close, dropPeer, close_chan in *; go_cases.
Qed.

Lemma returned_stopped s s' :
  (rp_pc s = LoopReturned → stopCh (rp_reg s) = true) → rtc proc_step s s' →
  rp_pc s' = LoopReturned → stopCh (rp_reg s') = true.
Proof.
  apply (rtc_preserves _ (λ s, rp_pc s = LoopReturned → stopCh (rp_reg s) = true)).
  intros a b Ha [|o r' _ Hex| |]; simpl; try done. intros Hpc. by eapply exec_stopCh, Ha.
Qed.

(** ** Time can always go on: the model does not stop the clock *)

Lemma proc_reaches_time (n : nat) cfg s T :
  0 <= lag → 0 < CleanupInterval (Config_defaults cfg) → reachable cfg (rp_reg s) →
  (rp_pc s = LoopSelect → rp_clock s <= rp_next s + lag) →
  rp_clock s <= T → T - rp_next s < Z.of_nat n →
  ∃ s', rtc proc_step s s' ∧ rp_clock s' = T.
Proof.
  intros Hlag HI. revert s. induction n as [|n IH]; intros s Hr Hdue HT Hn.
  - exists (mkRegProc (rp_reg s) (rp_pc s) (rp_clock s + (T - rp_clock s)) (rp_next s)).
    split; [|simpl; lia]. apply rtc_once, proc_time; [lia|]. intros _. lia.
  - destruct (decide (rp_pc s = LoopSelect)) as [Hpc|Hpc]; [destruct (decide (T <= rp_next s + lag))|].
    + exists (mkRegProc (rp_reg s) (rp_pc s) (rp_clock s + (T - rp_clock s)) (rp_next s)).
      split; [|simpl; lia]. apply rtc_once, proc_time; [lia|]. intros _. lia.
    + specialize (Hdue Hpc). set (d := Z.max 0 (rp_next s - rp_clock s)).
      set (s1 := mkRegProc (rp_reg s) (rp_pc s) (rp_clock s + d) (rp_next s)).
      assert (proc_step s s1) as H1 by (apply proc_time; [lia|intros _; lia]).
      pose proof (proc_tick s1 canonical_order canonical_order Hpc ltac:(simpl; lia)) as H2.
      cbn [rp_reg rp_clock rp_next s1] in H2. rewrite (reachable_config _ _ Hr) in H2.
      destruct (IH _ (reach_step _ _ (OpEvict canonical_order canonical_order (rp_clock s + d)) _ Hr eq_refl
        : reachable cfg (rp_reg (mkRegProc (evictExpired (rp_reg s) canonical_order canonical_order (rp_clock s + d))
            LoopSelect (rp_clock s + d) (rp_next s + CleanupInterval (Config_defaults cfg))))))
        as (s' & Hs' & HT'); cbn [rp_clock rp_next]; [intros _; lia|lia|lia|].
      exists s'. split; [|done]. eapply rtc_l; [exact H1|]. eapply rtc_l; [exact H2|exact Hs'].
    + exists (mkRegProc (rp_reg s) (rp_pc s) (rp_clock s + (T - rp_clock s)) (rp_next s)).
      split; [|simpl; lia]. apply rtc_once, proc_time; [lia|done].
Qed.
End loop.

(** ** Starting *)

(** With the default cleanup interval the ticker refuses a TTL of one nanosecond
    and every negative one. *)
Lemma Registry_spawn_None cfg t0 :
  CleanupInterval cfg = 0 → Registry_spawn cfg t0 = None ↔ TTL cfg = 1 ∨ TTL cfg < 0.
Proof.
  intros Hc. unfold Registry_spawn, NewTicker. simpl. rewrite Hc. simpl.
  destruct (Z.eqb_spec (TTL cfg) 0) as [->|Hz]; [split; [done|lia]|].
  destruct (TTL cfg ÷ 2 <=? 0) eqn:E; simpl; bool_to_prop; split; try done; intros Ht.
  - destruct (decide (TTL cfg < 0)); [by right|left]. enough (¬ 2 <= TTL cfg) by lia.
    intros H2. pose proof (Z.quot_le_mono 2 (TTL cfg) 2 ltac:(lia) H2) as Hq. change (2 ÷ 2) with 1 in Hq. lia.
  - exfalso. destruct Ht as [Ht|Ht]; [rewrite Ht in E; change (1 ÷ 2) with 0 in E; lia|].
    pose proof (Z.quot_le_mono (TTL cfg) 0 2 ltac:(lia) ltac:(lia)) as Hq. change (0 ÷ 2) with 0 in Hq. lia.
Qed.

Lemma Registry_spawn_TTL cfg t0 s :
  CleanupInterval cfg = 0 → Registry_spawn cfg t0 = Some s → 0 <= TTL (Config_defaults cfg).
Proof.
  intros Hc Hs. assert (¬ (TTL cfg = 1 ∨ TTL cfg < 0)) as Hn
    by (rewrite <- (Registry_spawn_None cfg t0 Hc); congruence).
  unfold Config_defaults. cbn [TTL]. destruct (TTL cfg =? 0); [unfold DefaultTTL, Second; lia|lia].
Qed.

(** C10: What has expired is collected.  A registry whose cleanup interval is the
    default can be started with every TTL but 1 ns and the negative ones, for
    which the ticker panics.  Once it runs, at no time - until [Close] has ended
    the goroutine - does it hold a local registration that expired more than one
    interval, plus the scheduling delay, ago, whatever clients, relays and
    disconnects do in between; and the clock can always go on to any later time,
    so the deadline is met and not avoided. *)
Theorem expired_is_collected cfg t0 lag (Hdef : CleanupInterval cfg = 0) :
  (Registry_spawn cfg t0 = None ↔ TTL cfg = 1 ∨ TTL cfg < 0) ∧
  ∀ s0 s, 0 <= lag → Registry_spawn cfg t0 = Some s0 → rtc (proc_step lag) s0 s →
    (rp_pc s = LoopReturned → stopCh (rp_reg s) = true) ∧
    (rp_pc s = LoopSelect → ∀ p reg, entries (rp_reg s) !! p = Some reg →
       rp_clock s <= ExpiresAt reg + CleanupInterval (Config_defaults cfg) + lag) ∧
    (∀ T, rp_clock s <= T → ∃ s', rtc (proc_step lag) s s' ∧ rp_clock s' = T).
Proof.
  split; [by apply Registry_spawn_None|]. intros s0 s Hlag Hspawn Hrun.
  destruct (proc_inv_spawn lag cfg t0 s0 Hlag Hspawn) as [HI H0].
  pose proof (Registry_spawn_TTL cfg t0 s0 Hdef Hspawn) as Httl.
  pose proof (proc_inv_reach lag cfg s0 s Httl HI H0 Hrun) as [Hr Hf Hd]. split_and!.
  - apply (returned_stopped lag s0 s); [|done].
    by apply bind_Some in Hspawn as (i & _ & [= <-]).
  - intros Hpc p reg Hp. specialize (Hf Hpc _ _ Hp). specialize (Hd Hpc). lia.
  - intros T HT. apply (proc_reaches_time lag (S (Z.to_nat (T - rp_next s))) cfg); [done..| |done|lia].
    intros Hpc. by apply Hd.
Qed.

(** An agent registers for 10 ns at time 100 and vanishes. *)
Definition ex_tiny : Config := mkConfig 10 0 0 0.
Definition ex_proc0 : RegProc := mkRegProc (Registry_New ex_tiny) LoopSelect 100 105.
Definition ex_proc1 : RegProc :=
  mkRegProc (Register (Registry_New ex_tiny) 100 "p" [] "A" "").1 LoopSelect 100 105.

Lemma ex_proc_run : rtc (proc_step 1) ex_proc0 ex_proc1.
Proof. by eapply rtc_once, (proc_call 1 ex_proc0 (OpRegister 100 "p" [] "A" "")). Qed.

(** It may be there at 110, and has to be gone after 116. *)
Lemma expired_is_collected_witness :
  Registry_spawn (mkConfig 1 0 0 0) 0 = None ∧
  (∃ s, rtc (proc_step 1) ex_proc1 s ∧ rp_clock s = 1000) ∧
  rp_clock ex_proc1 <= 110 + 5 + 1.
Proof.
  destruct (expired_is_collected (mkConfig 1 0 0 0) 0 1 eq_refl) as [H1 _].
  destruct (expired_is_collected ex_tiny 100 1 eq_refl) as [_ H2].
  destruct (H2 ex_proc0 ex_proc1 ltac:(lia) eq_refl ex_proc_run) as (_ & Hfresh & Htime).
  split; [apply H1; left; reflexivity|]. split; [apply Htime; vm_compute; discriminate|].
  apply (Hfresh eq_refl "p" (mkRegistration "p" [] "A" "" 100 110 "" 100)). vm_compute. reflexivity.
Defined.
