(* ===== verification/RegistryLww.v ===== *)
(** * Conflict resolution of federated registrations

    [RegisterFederated] keeps, per peer, the update that wins by version and
    then by relay ID.  Delivering a set of updates in any order and any number
    of times leads to the same federated registry. *)
From stdpp Require Import gmap strings list fin_maps.
From Stdlib Require Import ZArith Lia.
From S2P Require Import Prelude GoStd Registry RegistryInv RegistryDiscover RegistrySpec.

Local Open Scope Z_scope.

(** ** [beats] is a strict order, total on (version, origin) *)

Lemma beats_spec u e :
  beats u e = true ↔
  Version e < Version u ∨ (Version e = Version u ∧ str_lt (Origin u) (Origin e) = true).
Proof.
  unfold beats. rewrite orb_true_iff, andb_true_iff, Z.ltb_lt, Z.eqb_eq. done.
Qed.

Lemma not_beats_spec u e :
  beats u e = false ↔
  Version u < Version e ∨ (Version u = Version e ∧ str_le (Origin e) (Origin u) = true).
Proof.
  rewrite <- not_true_iff_false, beats_spec, str_lt_le, negb_true_iff.
  destruct (str_le (Origin e) (Origin u)); split.
  - intros H. destruct (Z.lt_trichotomy (Version u) (Version e)) as [|[|]];
      [by left|by right|]. destruct H. by left.
  - intros [?|[??]] [?|[??]]; try lia; done.
  - intros H. left. destruct (Z.lt_trichotomy (Version u) (Version e)) as [|[|]];
      [done|destruct H; by right|destruct H; by left].
  - intros [?|[??]] [?|[??]]; try lia; done.
Qed.

Lemma beats_irrefl u : beats u u = false.
Proof. apply not_beats_spec. right. split; [done|apply str_le_refl]. Qed.

Lemma beats_asymm u e : beats u e = true → beats e u = false.
Proof.
  rewrite beats_spec, not_beats_spec, str_lt_le, negb_true_iff.
  intros [?|[? Ho]]; [by left|right]. split; [done|].
  destruct (str_le_total (Origin u) (Origin e)); congruence.
Qed.

Lemma not_beats_trans x y z :
  beats x y = false → beats y z = false → beats x z = false.
Proof.
  rewrite !not_beats_spec. intros [?|[? Hxy]] [?|[? Hyz]]; try (left; lia).
  right. split; [lia|]. by eapply str_le_trans.
Qed.

Lemma beats_total u e :
  beats u e = false → beats e u = false → Version u = Version e ∧ Origin u = Origin e.
Proof.
  rewrite !not_beats_spec. intros [?|[? ?]] [?|[? ?]]; try lia.
  split; [done|]. by apply str_le_antisym.
Qed.

(** ** Delivering updates *)

(** One update, as [PushRegistrations] and [syncPeer] hand it over. *)
Definition deliver (r : Registry) (u : Registration) : Registry :=
  (RegisterFederated r (PeerID u) (Origin u) (Skills u) (AgentName u) (AgentDescription u)
     (RegisteredAt u) (ExpiresAt u) (Version u)).1.

Definition deliver_all : Registry → list Registration → Registry := foldl deliver.

(** There is room for every peer mentioned. *)
Definition room (r : Registry) (us : list Registration) : Prop :=
  set_len (dom (federated r) ∪ list_to_set (PeerID <$> us)) <=
  MaxFederatedRegistrations (config r).

Definition merge (u : Registration) (old : option Registration) : Registration :=
  match old with Some e => if beats u e then u else e | None => u end.

Lemma wf_deliver_all r us : wf r → wf (deliver_all r us).
Proof.
  revert r. induction us as [|u us IH]; intros r Hwf; simpl; [done|].
  by apply IH, wf_RegisterFederated.
Qed.

Lemma deliver_config r u : config (deliver r u) = config r.
Proof. apply RegisterFederated_local. Qed.

(** Deliveries leave the local side alone. *)
Lemma deliver_all_local r us :
  entries (deliver_all r us) = entries r ∧ skillIndex (deliver_all r us) = skillIndex r ∧
  config (deliver_all r us) = config r.
Proof.
  revert r. induction us as [|u us IH]; intros r; simpl; [done|].
  destruct (IH (deliver r u)) as (-> & -> & ->). unfold deliver.
  by destruct (RegisterFederated_local r (PeerID u) (Origin u) (Skills u) (AgentName u)
    (AgentDescription u) (RegisteredAt u) (ExpiresAt u) (Version u)) as (-> & -> & _ & ->).
Qed.

Lemma room_not_full r u us :
  room r (u :: us) → federated r !! PeerID u = None →
  (map_len (federated r) >=? MaxFederatedRegistrations (config r)) = false.
Proof.
  unfold room, set_len, map_len. intros Hroom Hnone%not_elem_of_dom.
  rewrite fmap_cons, list_to_set_cons in Hroom. rewrite Z.geb_leb. apply Z.leb_gt.
  enough (size (federated r) < size (dom (federated r) ∪
    ({[PeerID u]} ∪ list_to_set (PeerID <$> us) : gset string)))%nat by lia.
  rewrite <- size_dom. apply subset_size. set_solver.
Qed.

Lemma deliver_federated r u us :
  room r (u :: us) →
  federated (deliver r u) = <[PeerID u := merge u (federated r !! PeerID u)]> (federated r).
Proof.
  intros Hroom. unfold deliver.
  destruct (RegisterFederated_federated r (PeerID u) (Origin u) (Skills u) (AgentName u)
    (AgentDescription u) (RegisteredAt u) (ExpiresAt u) (Version u)) as [-> _].
  apply partial_alter_to_insert. unfold update_of.
  replace (mkRegistration _ _ _ _ _ _ _ _) with u by (by destruct u).
  destruct (federated r !! PeerID u) eqn:E; simpl; [by case_match|].
  by erewrite room_not_full.
Qed.

Lemma room_deliver r u us : room r (u :: us) → room (deliver r u) us.
Proof.
  intros Hroom. unfold room. rewrite (deliver_federated _ _ _ Hroom), deliver_config.
  unfold room in Hroom. rewrite fmap_cons, list_to_set_cons in Hroom.
  etrans; [|exact Hroom]. unfold set_len. apply inj_le, subseteq_size.
  rewrite dom_insert_L. set_solver.
Qed.

(** ** The winner *)

Definition candidate (old : option Registration) (us : list Registration) (p : string)
    (x : Registration) : Prop := old = Some x ∨ (x ∈ us ∧ PeerID x = p).

Definition is_best (C : Registration → Prop) (w : Registration) : Prop :=
  C w ∧ ∀ x, C x → beats x w = false.

(** Same peer, version and origin: the same registration. *)
Definition consistent (C : Registration → Prop) : Prop :=
  ∀ x y, C x → C y → Version x = Version y → Origin x = Origin y → x = y.

Lemma is_best_unique C v w : consistent C → is_best C v → is_best C w → v = w.
Proof.
  intros Hc [Hv Hvb] [Hw Hwb]. destruct (beats_total v w) as [? ?]; auto.
Qed.

(** [merge] keeps the better of the two. *)
Lemma is_best_merge u old us w :
  is_best (candidate (Some (merge u old)) us (PeerID u)) w →
  is_best (candidate old (u :: us) (PeerID u)) w.
Proof.
  intros [HCw Hbest].
  assert (beats (merge u old) w = false) as Hm by (apply Hbest; by left).
  assert (beats u (merge u old) = false ∧
    ∀ e, old = Some e → beats e (merge u old) = false) as [Hu He].
  { unfold merge. destruct old as [e|]; [case_match|];
      (split; [eauto using beats_irrefl|]; intros ? [= <-]);
      eauto using beats_irrefl, beats_asymm. }
  split.
  - destruct HCw as [[= <-]|[Hw ?]]; [|right; split; [by right|done]].
    unfold merge. destruct old; [case_match|]; [|by left|];
      (right; split; [by left|done]).
  - intros x [Hx|[Hx Hpx]]; [eauto using not_beats_trans|].
    apply elem_of_cons in Hx as [->|Hx]; [eauto using not_beats_trans|].
    apply Hbest. by right.
Qed.

Lemma candidate_cons_ne old u us p x :
  PeerID u ≠ p → candidate old (u :: us) p x ↔ candidate old us p x.
Proof. unfold candidate. rewrite elem_of_cons. naive_solver. Qed.

(** What is stored for a peer after a delivery is the best of what was there
    and of what was delivered. *)
Lemma deliver_all_best r us p :
  room r us →
  match federated (deliver_all r us) !! p with
  | Some w => is_best (candidate (federated r !! p) us p) w
  | None => ∀ x, ¬ candidate (federated r !! p) us p x
  end.
Proof.
  revert r. induction us as [|u us IH]; intros r Hroom.
  - simpl. destruct (federated r !! p) as [e|] eqn:E.
    + split; [by left|]. intros x [[= ->]|[?%elem_of_nil _]]; [apply beats_irrefl|done].
    + by intros x [?|[?%elem_of_nil _]].
  - specialize (IH _ (room_deliver _ _ _ Hroom)). simpl.
    rewrite (deliver_federated _ _ _ Hroom), lookup_insert in IH.
    destruct (federated (deliver_all _ _) !! p) as [w|]; case_decide as Hp; subst.
    + by apply is_best_merge.
    + destruct IH as [HC Hbest]. split; [by apply candidate_cons_ne|].
      intros x. rewrite candidate_cons_ne by done. apply Hbest.
    + exfalso. eapply IH. by left.
    + intros x. rewrite candidate_cons_ne by done. apply IH.
Qed.

(** ** Convergence *)

Lemma deliver_all_converges r1 r2 us1 us2 :
  federated r1 = federated r2 →
  (∀ u, u ∈ us1 ↔ u ∈ us2) →
  room r1 us1 → room r2 us2 →
  (∀ p, consistent (candidate (federated r1 !! p) us1 p)) →
  federated (deliver_all r1 us1) = federated (deliver_all r2 us2).
Proof.
  intros Hf Hus Hr1 Hr2 Hc. apply map_eq. intros p.
  pose proof (deliver_all_best r1 us1 p Hr1) as H1.
  pose proof (deliver_all_best r2 us2 p Hr2) as H2.
  assert (∀ x, candidate (federated r1 !! p) us1 p x ↔ candidate (federated r2 !! p) us2 p x)
    as HC by (intros x; unfold candidate; by rewrite Hf, Hus).
  destruct (federated (deliver_all r1 us1) !! p) as [v|],
    (federated (deliver_all r2 us2) !! p) as [w|].
  - f_equal. eapply is_best_unique; [apply Hc|done|].
    destruct H2 as [HCw Hb]. split; [by apply HC|]. intros x Hx. by apply Hb, HC.
  - destruct H1 as [Hv _]. by apply HC, H2 in Hv.
  - destruct H2 as [Hw _]. by apply HC, H1 in Hw.
  - done.
Qed.
