(* ===== verification/RegistryProps.v ===== *)
(** * Properties of the skill registry

    The theorems a user of [internal/registry] relies on, stated for every
    history of the registry and every iteration order of its maps. *)
From stdpp Require Import gmap strings list fin_maps.
From Stdlib Require Import ZArith Lia.
From S2P Require Import Prelude GoStd Registry RegistryInv RegistryDiscover RegistrySpec RegistryLww.

Local Open Scope Z_scope.

(** ** Concrete registries for the witnesses *)

Definition ex_cfg : Config := mkConfig (5 * Second) 2 2 0.
Definition ex_skill (s : string) : SkillInfo := mkSkillInfo s "" ∅.
Definition ex_ops : list op :=
  [OpRegister 10 "peer-1" [ex_skill "echo"; ex_skill "sum"] "A" "";
   OpRegister 20 "peer-2" [ex_skill "echo"] "B" "";
   OpRegisterFederated "peer-3" "relay-2" [ex_skill "echo"] "C" "" 5 9000000000 7].
Definition ex_reg : Registry :=
  default (Registry_New ex_cfg) (exec_all (Registry_New ex_cfg) ex_ops).

Lemma ex_reg_reachable : reachable ex_cfg ex_reg.
Proof.
  apply (reachable_exec_all ex_cfg (Registry_New ex_cfg) ex_ops); [constructor|].
  vm_compute. reflexivity.
Qed.

(** ** Refinement *)

(** C1: every history of operations runs to its end without a panic, its effect
    on the two maps is that of the index-free abstract registry, and every
    counter, gauge, statistic and lookup answers as the abstract registry does. *)
Theorem registry_history_refines cfg (ops : list op) :
  ∃ r, exec_all (Registry_New cfg) ops = Some r ∧
    let a := foldl a_exec (a_New cfg) ops in
    abs r = a ∧
    Count r = map_len (a_local a) ∧ FederatedCount r = map_len (a_fed a) ∧
    Stats r = mkRegistryStats (map_len (a_local a)) (map_len (a_fed a))
                (set_len (skills_of (a_local a))) (set_len (skills_of (a_fed a))) ∧
    metricLocalCount (metrics r) = map_len (a_local a) ∧
    metricFederatedCount (metrics r) = map_len (a_fed a) ∧
    ∀ now p, GetRegistration r now p = a_get a now p.
Proof.
  destruct (exec_all_simulates (Registry_New cfg) ops (wf_New cfg)) as (r & Hr & Hwf & Ha).
  exists r. split; [done|]. change (abs (Registry_New cfg)) with (a_New cfg) in Ha.
  cbv zeta. rewrite <- Ha. unfold Count, FederatedCount, Stats; simpl.
  rewrite (wf_local_gauge _ Hwf), (wf_fed_gauge _ Hwf).
  rewrite (so_count _ _ _ (wf_local _ Hwf)), (so_count _ _ _ (wf_fed _ Hwf)).
  rewrite (side_ok_skills _ _ _ (wf_local _ Hwf)), (side_ok_skills _ _ _ (wf_fed _ Hwf)).
  done.
Qed.

(** ** Invariant *)

(** C14: in every reachable registry both inverted indexes list a peer under a
    skill exactly when the peer's registration offers that skill, no skill is
    kept with an empty peer set, every registration is stored under its own
    peer ID, and no local registration has a foreign origin. *)
Theorem registry_index_exact cfg r (Hr : reachable cfg r) :
  (∀ s p, (∃ ps, skillIndex r !! s = Some ps ∧ p ∈ ps) ↔
          (∃ reg, entries r !! p = Some reg ∧ s ∈ SkillID <$> Skills reg)) ∧
  (∀ s p, (∃ ps, fedSkillIndex r !! s = Some ps ∧ p ∈ ps) ↔
          (∃ reg, federated r !! p = Some reg ∧ s ∈ SkillID <$> Skills reg)) ∧
  (∀ s, skillIndex r !! s ≠ Some ∅ ∧ fedSkillIndex r !! s ≠ Some ∅) ∧
  (∀ p reg, entries r !! p = Some reg → PeerID reg = p ∧ Origin reg = "") ∧
  (∀ p reg, federated r !! p = Some reg → PeerID reg = p).
Proof.
  pose proof (reachable_wf _ _ Hr) as Hwf.
  assert (∀ (idx : Index) s p, (∃ ps, idx !! s = Some ps ∧ p ∈ ps) ↔ p ∈ peers_of idx s) as Hp.
  { intros idx s p. unfold peers_of. destruct (idx !! s); set_solver. }
  split_and!; intros.
  - rewrite Hp. apply (so_index _ _ _ (wf_local _ Hwf)).
  - rewrite Hp. apply (so_index _ _ _ (wf_fed _ Hwf)).
  - split; intros E; [eapply (so_nonempty _ _ _ (wf_local _ Hwf))|
      eapply (so_nonempty _ _ _ (wf_fed _ Hwf))]; eauto.
  - eauto with relay.
  - eauto with relay.
Qed.

Lemma registry_index_exact_witness :
  (∃ ps, skillIndex ex_reg !! "sum" = Some ps ∧ "peer-1" ∈ ps) ↔
  (∃ reg, entries ex_reg !! "peer-1" = Some reg ∧ "sum" ∈ SkillID <$> Skills reg).
Proof. apply (registry_index_exact ex_cfg ex_reg ex_reg_reachable). Defined.

(** C16: the number of local (federated) registrations never exceeds the
    configured maximum; a registration is refused exactly when the peer is new
    and the registry is full, and a refusal changes nothing. *)
Theorem registry_capacity cfg r (Hr : reachable cfg r) :
  map_len (entries r) <= Z.max 0 (MaxRegistrations (Config_defaults cfg)) ∧
  map_len (federated r) <= Z.max 0 (MaxFederatedRegistrations (Config_defaults cfg)) ∧
  (∀ now p sk an ad,
     let '(r', (t, err)) := Register r now p sk an ad in
     (err = Some ErrRegistryFull ↔ entries r !! p = None ∧
        MaxRegistrations (Config_defaults cfg) <= map_len (entries r)) ∧
     (err = None ∨ err = Some ErrRegistryFull ∧ r' = r ∧ t = zero_time)) ∧
  (∀ p o sk an ad ra ea v,
     let '(r', err) := RegisterFederated r p o sk an ad ra ea v in
     (err = Some ErrFederatedRegistryFull ↔ federated r !! p = None ∧
        MaxFederatedRegistrations (Config_defaults cfg) <= map_len (federated r)) ∧
     (err = None ∨ err = Some ErrFederatedRegistryFull ∧ r' = r)).
Proof.
  pose proof (reachable_wf _ _ Hr) as Hwf. rewrite <- (reachable_config _ _ Hr).
  split_and!; [apply Hwf|apply Hwf| |].
  - intros. unfold Register. rewrite bool_decide_is_Some.
    destruct (entries r !! p); simpl; [split; [split; [done|by intros [? _]]|by left]|].
    case_if Hf; bool_to_prop.
    + split; [split; [done|done]|by right].
    + split; [split; [done|intros [_ ?]; lia]|by left].
  - intros. unfold RegisterFederated.
    destruct (federated r !! p).
    + case_ifs; (split; [split; [done|by intros [? _]]|by left]).
    + case_if Hf; bool_to_prop.
      * split; [split; [done|done]|by right].
      * split; [split; [done|intros [_ ?]; lia]|by left].
Qed.

Lemma registry_capacity_witness :
  map_len (entries ex_reg) <= 2 ∧ (Register ex_reg 30 "peer-9" [] "" "").2.2 = Some ErrRegistryFull.
Proof.
  destruct (registry_capacity ex_cfg ex_reg ex_reg_reachable) as (Hcap & _ & Hreg & _).
  split; [exact Hcap|]. vm_compute. reflexivity.
Defined.

(** ** Discovery *)

(** C2: for every iteration order of the two index entries, discovery returns an
    arrangement of the plain scan of both maps, with all local answers before
    all federated ones, cut at the clamped limit. *)
Theorem discover_equals_scan cfg r ord ordF now skillID tags limit fed
    (Hr : reachable cfg r) :
  ∃ locals feds,
    locals ++ feds ≡ₚ scan_all r now skillID tags fed ∧
    locals ≡ₚ scan (entries r) now skillID tags ∧
    DiscoverBySkill r ord ordF now skillID tags limit fed =
      take (Z.to_nat (clampLimit limit)) (locals ++ feds).
Proof.
  destruct (DiscoverBySkill_scan r ord ordF now skillID tags limit fed) as
    (locals & feds & Hl & Hf & ->); [eauto with relay|].
  exists locals, feds. eauto using scan_all_perm.
Qed.

Lemma discover_equals_scan_witness :
  ∃ locals feds,
    locals ++ feds ≡ₚ scan_all ex_reg 30 "echo" ∅ true ∧
    locals ≡ₚ scan (entries ex_reg) 30 "echo" ∅ ∧
    DiscoverBySkill ex_reg canonical_order reversed_order 30 "echo" ∅ 2 true =
      take 2 (locals ++ feds).
Proof.
  apply (discover_equals_scan ex_cfg ex_reg canonical_order reversed_order 30 "echo" ∅ 2 true
    ex_reg_reachable).
Defined.

(** whatever the query, discovery returns at most the clamped limit of
    registrations (never more than [MaxDiscoverLimit]), no peer twice, and only
    registrations that are stored, have not expired and offer the skill with
    matching tags. *)
Theorem discover_sound cfg r ord ordF now skillID tags limit fed (Hr : reachable cfg r) :
  let results := DiscoverBySkill r ord ordF now skillID tags limit fed in
  len results <= clampLimit limit <= MaxDiscoverLimit ∧
  NoDup (PeerID <$> results) ∧
  ∀ reg, reg ∈ results →
    (entries r !! PeerID reg = Some reg ∨ (fed = true ∧ federated r !! PeerID reg = Some reg)) ∧
    now <= ExpiresAt reg ∧
    ∃ s, s ∈ Skills reg ∧ SkillID s = skillID ∧
         ∀ k v, tags !! k = Some v → default "" (Tags s !! k) = v.
Proof.
  destruct (DiscoverBySkill_facts r ord ordF now skillID tags limit fed (reachable_wf _ _ Hr))
    as (Hlen & Hnd & Hall). cbv zeta. pose proof (clampLimit_range limit).
  split_and!; [done|lia|done|]. intros reg Hin. destruct (Hall reg Hin) as (Hh & Hexp & Hm).
  split_and!; [done|done|]. apply hasSkill_spec in Hh as (s & ? & ? & Ht).
  rewrite matchTags_spec in Ht. eauto.
Qed.

Lemma discover_sound_witness :
  len (DiscoverBySkill ex_reg canonical_order canonical_order 30 "echo" ∅ 0 true) <= 100.
Proof.
  destruct (discover_sound ex_cfg ex_reg canonical_order canonical_order 30 "echo" ∅ 0 true
    ex_reg_reachable) as [[Hlen _] _]. exact Hlen.
Defined.

(** ** Eviction *)

(** C15: eviction is independent of the order in which the maps are walked, keeps
    exactly the registrations whose expiry is not in the past, and keeps the
    index and the counters exact. *)
Theorem evict_exact cfg r o1 o2 o3 o4 now (Hr : reachable cfg r) :
  let r' := evictExpired r o1 o2 now in
  r' = evictExpired r o3 o4 now ∧
  (∀ p reg, entries r' !! p = Some reg ↔ entries r !! p = Some reg ∧ now <= ExpiresAt reg) ∧
  (∀ p reg, federated r' !! p = Some reg ↔ federated r !! p = Some reg ∧ now <= ExpiresAt reg) ∧
  Count r' = map_len (entries r') ∧ FederatedCount r' = map_len (federated r') ∧
  metricEvictionsTotal (metrics r') = metricEvictionsTotal (metrics r) +
    (Count r - Count r') + (FederatedCount r - FederatedCount r').
Proof.
  pose proof (reachable_wf _ _ Hr) as Hwf. cbv zeta.
  destruct (evictExpired_parts r o1 o2 now Hwf) as [He Hf].
  pose proof (wf_evictExpired r o1 o2 now Hwf) as Hwf'.
  split_and!; [..|apply Hwf'|apply Hwf'|].
  - by apply evictExpired_order.
  - intros p reg. rewrite He, map_lookup_filter_Some. unfold evict_keep, After; simpl.
    by rewrite Z.ltb_ge.
  - intros p reg. rewrite Hf, map_lookup_filter_Some. unfold evict_keep, After; simpl.
    by rewrite Z.ltb_ge.
  - by apply evictExpired_metric.
Qed.

Lemma evict_exact_witness :
  let r' := evictExpired ex_reg canonical_order canonical_order (6 * Second) in
  r' = evictExpired ex_reg reversed_order reversed_order (6 * Second) ∧
  map_len (entries r') = 0 ∧ map_len (federated r') = 1.
Proof.
  split; [|vm_compute; done].
  apply (evict_exact ex_cfg ex_reg canonical_order canonical_order
    reversed_order reversed_order (6 * Second) ex_reg_reachable).
Defined.

(** ** Lifetime of a registration *)

(** a successful [Register] answers [now + TTL] and from then on, whatever
    other operations run in between (none about this peer, and no eviction after
    the deadline), the registration is returned by [GetRegistration] strictly
    before the deadline and by discovery up to the deadline, unless the limit
    cuts the answer. *)
Theorem registration_lifetime cfg r now p sk an ad r1 t ops r2
    (Hr : reachable cfg r) (Hreg : Register r now p sk an ad = (r1, (t, None)))
    (Hops : Forall (spares p t) ops) (Hex : exec_all r1 ops = Some r2) :
  let reg := mkRegistration p sk an ad now t "" (uint64 now) in
  t = now + TTL (Config_defaults cfg) ∧
  (∀ now', now' < t → GetRegistration r2 now' p = Some reg) ∧
  (∀ ord ordF now' s tags limit fed,
     now' <= t → hasSkill reg s tags = true →
     len (scan_all r2 now' s tags fed) <= clampLimit limit →
     reg ∈ DiscoverBySkill r2 ord ordF now' s tags limit fed).
Proof.
  destruct (Register_ok _ _ _ _ _ _ _ _ Hreg) as (Ht & He & _). cbv zeta.
  rewrite <- (reachable_config _ _ Hr).
  assert (wf r1) as Hwf1.
  { pose proof (wf_Register r now p sk an ad (reachable_wf _ _ Hr)) as H. by rewrite Hreg in H. }
  set (reg := mkRegistration p sk an ad now t "" (uint64 now)) in *.
  destruct (spared_kept r1 ops r2 p reg) as [Hwf2 Hp]; [done| |done|done|].
  { by rewrite He, lookup_insert_eq. }
  split_and!; [done|..].
  - intros now' Hlt. unfold GetRegistration, lookup_live. rewrite Hp.
    unfold Before. change (ExpiresAt reg) with t. by rewrite (proj2 (Z.ltb_lt _ _) Hlt).
  - intros. eapply DiscoverBySkill_complete; [done..| |done].
    unfold offers, After. apply andb_true_iff. split; [|done].
    apply negb_true_iff, Z.ltb_ge. done.
Qed.

Lemma registration_lifetime_witness :
  GetRegistration (Registry_New ex_cfg) 7 "p" = None ∧
  GetRegistration (RemovePeer (Register (Registry_New ex_cfg) 7 "p" [] "A" "").1 "q")
    (5 * Second) "p" = Some (mkRegistration "p" [] "A" "" 7 (5 * Second + 7) "" 7).
Proof.
  split; [vm_compute; reflexivity|].
  eapply (registration_lifetime ex_cfg (Registry_New ex_cfg) 7 "p" [] "A" "" _ _
    [OpRemovePeer "q"] _ (reach_New _) eq_refl).
  - repeat constructor. discriminate.
  - reflexivity.
  - vm_compute. reflexivity.
Defined.

(** ** Unregistering skills *)

(** after [Unregister] no other peer has changed; with no skill named the
    peer is gone; otherwise the peer no longer offers the named skills to any
    query and still answers queries for the other skills exactly as before. *)
Theorem unregister_effect cfg r p ids (Hr : reachable cfg r) :
  let r' := Unregister r p ids in
  (∀ q, q ≠ p → entries r' !! q = entries r !! q) ∧ federated r' = federated r ∧
  (ids = [] → entries r' !! p = None) ∧
  (ids ≠ [] → ∀ now s tags,
     (∃ reg, reg ∈ scan (entries r') now s tags ∧ PeerID reg = p) ↔
     s ∉ ids ∧ ∃ reg, reg ∈ scan (entries r) now s tags ∧ PeerID reg = p).
Proof.
  pose proof (reachable_wf _ _ Hr) as Hwf. cbv zeta.
  pose proof (wf_Unregister r p ids Hwf) as Hwf'.
  pose proof (abs_Unregister r p ids) as Ha. unfold abs in Ha; simpl in Ha.
  injection Ha as He Hf _. rewrite He. split_and!; [..|done| |].
  - intros q Hq. by rewrite lookup_partial_alter_ne.
  - intros ->. rewrite lookup_partial_alter_eq. by destruct (entries r !! p).
  - intros Hids now s tags. rewrite <- He. rewrite !elem_of_scan_peer by done.
    rewrite He, lookup_partial_alter_eq. destruct (entries r !! p) as [reg|]; simpl; [|naive_solver].
    by apply unregister_offers.
Qed.

Lemma unregister_effect_witness :
  entries (Unregister ex_reg "peer-1" ["sum"]) !! "peer-2" = entries ex_reg !! "peer-2".
Proof. by apply (unregister_effect ex_cfg ex_reg "peer-1" ["sum"] ex_reg_reachable). Defined.

(** ** Federated registrations *)

(** C5: federated updates converge.  Two registries that start from the same
    federated registrations, have room for all peers mentioned, and receive the
    same set of updates, each in its own order and any number of times, end with
    the same federated registrations, the same federated index and the same
    count, provided that updates about one peer with the same version and origin
    are the same update. *)
Theorem lww_convergence cfg1 cfg2 r1 r2 us1 us2
    (H1 : reachable cfg1 r1) (H2 : reachable cfg2 r2)
    (Hfed : federated r1 = federated r2)
    (Hus : ∀ u, u ∈ us1 ↔ u ∈ us2)
    (Hroom1 : room r1 us1) (Hroom2 : room r2 us2)
    (Hc : ∀ p, consistent (candidate (federated r1 !! p) us1 p)) :
  let r1' := deliver_all r1 us1 in
  let r2' := deliver_all r2 us2 in
  federated r1' = federated r2' ∧ fedSkillIndex r1' = fedSkillIndex r2' ∧
  FederatedCount r1' = FederatedCount r2'.
Proof.
  pose proof (deliver_all_converges r1 r2 us1 us2 Hfed Hus Hroom1 Hroom2 Hc) as Hf.
  cbv zeta. split; [done|].
  pose proof (wf_fed _ (wf_deliver_all r1 us1 (reachable_wf _ _ H1))) as Hs1.
  pose proof (wf_fed _ (wf_deliver_all r2 us2 (reachable_wf _ _ H2))) as Hs2.
  rewrite <- Hf in Hs2. by eapply side_ok_index_unique.
Qed.

Definition ex_update (o : string) (v : Z) : Registration :=
  mkRegistration "peer-7" [ex_skill o] "" "" 0 100 o v.

Lemma lww_convergence_witness :
  federated (deliver_all (Registry_New ex_cfg) [ex_update "relay-b" 4; ex_update "relay-a" 4]) =
  federated (deliver_all (Registry_New ex_cfg)
    [ex_update "relay-a" 4; ex_update "relay-b" 4; ex_update "relay-a" 4]) ∧
  Origin <$> federated (deliver_all (Registry_New ex_cfg)
    [ex_update "relay-b" 4; ex_update "relay-a" 4]) !! "peer-7" = Some "relay-a".
Proof.
  split; [|vm_compute; reflexivity].
  apply (lww_convergence ex_cfg ex_cfg); [constructor|constructor|done| | | |].
  - intros u. set_solver.
  - vm_compute. discriminate.
  - vm_compute. discriminate.
  - intros p x y Hx Hy _ Ho. unfold candidate in *. cbn in Hx, Hy.
    rewrite lookup_empty, !elem_of_cons, elem_of_nil in Hx, Hy.
    destruct Hx as [|[[->|[->|[]]] _]], Hy as [|[[->|[->|[]]] _]]; try done; discriminate Ho.
Defined.

(** a federated registration is returned for a peer only when the local
    registration of that peer, if there is one, does not itself answer the query
    (it has expired, or lacks the skill with matching tags); operations on
    federated registrations never change a local one. *)
Theorem discover_local_priority cfg r ord ordF now s tags limit reg
    (Hr : reachable cfg r)
    (Hin : reg ∈ DiscoverBySkill r ord ordF now s tags limit true) :
  (∀ l, entries r !! PeerID reg = Some l → reg ≠ l →
     ExpiresAt l < now ∨ hasSkill l s tags = false) ∧
  (∀ p o sk an ad ra ea v,
     entries (RegisterFederated r p o sk an ad ra ea v).1 = entries r ∧
     skillIndex (RegisterFederated r p o sk an ad ra ea v).1 = skillIndex r).
Proof.
  pose proof (reachable_wf _ _ Hr) as Hwf. split.
  - intros l Hl Hne.
    destruct (DiscoverBySkill_scan r ord ordF now s tags limit true Hwf) as
      (locals & feds & Hlo & Hf & E). rewrite E in Hin.
    apply elem_of_take in Hin as (i & Hi & _). apply list_elem_of_lookup_2 in Hi.
    rewrite (scan_all_perm _ _ _ _ true _ _ Hlo Hf) in Hi.
    apply elem_of_app in Hi as [(q & Hq & _)%elem_of_scan|Hi].
    + rewrite (wf_keys _ _ _ Hwf Hq) in Hl. congruence.
    + apply elem_of_scan_fed in Hi as (_ & _ & Ho); [|done]. specialize (Ho _ Hl).
      unfold offers, After in Ho. apply andb_false_iff in Ho as [Ho|Ho]; [left|by right].
      bool_to_prop. done.
  - intros. destruct (RegisterFederated_local r p o sk an ad ra ea v) as (? & ? & _). done.
Qed.

(** A live local registration without the tag and a federated one with it. *)
Definition ex_tag : gmap string string := {["lang" := "zh"]}.
Definition ex_gap : Registry :=
  (RegisterFederated (Register (Registry_New ex_cfg) 0 "p" [mkSkillInfo "tr" "" ∅] "" "").1
     "p" "relay-b" [mkSkillInfo "tr" "" ex_tag] "" "" 0 100 1).1.

Lemma ex_gap_reachable : reachable ex_cfg ex_gap.
Proof.
  apply (reachable_exec_all ex_cfg (Registry_New ex_cfg)
    [OpRegister 0 "p" [mkSkillInfo "tr" "" ∅] "" "";
     OpRegisterFederated "p" "relay-b" [mkSkillInfo "tr" "" ex_tag] "" "" 0 100 1]);
    [constructor|]. vm_compute. reflexivity.
Qed.

Lemma discover_local_priority_witness :
  match entries ex_gap !! "p",
        DiscoverBySkill ex_gap canonical_order canonical_order 50 "tr" ex_tag 0 true with
  | Some l, [reg] => Origin reg = "relay-b" ∧ (ExpiresAt l < 50 ∨ hasSkill l "tr" ex_tag = false)
  | _, _ => False
  end.
Proof.
  destruct (entries ex_gap !! "p") as [l|] eqn:Hl; [|vm_compute in Hl; discriminate Hl].
  destruct (DiscoverBySkill _ _ _ _ _ _ _ _) as [|reg [|? ?]] eqn:E; [vm_compute in E; done| |
    vm_compute in E; done].
  assert (Origin reg = "relay-b" ∧ PeerID reg = "p") as [Ho Hp]
    by (vm_compute in E; injection E as <-; done).
  split; [done|].
  eapply (discover_local_priority ex_cfg ex_gap canonical_order canonical_order 50 "tr" ex_tag 0
    reg ex_gap_reachable).
  - rewrite E. by left.
  - by rewrite Hp.
  - intros ->. vm_compute in Hl. injection Hl as <-. discriminate Ho.
Defined.

(** the two notions of expiry differ by one instant.  At exactly the expiry
    time a registration is still found by discovery and survives eviction, while
    [GetRegistration] and [AllRegistrations] no longer return it. *)
Theorem expiry_boundary cfg r p reg ord o1 o2 s tags
    (Hr : reachable cfg r) (Hp : entries r !! p = Some reg)
    (Hs : hasSkill reg s tags = true) :
  let t := ExpiresAt reg in
  reg ∈ scan (entries r) t s tags ∧ entries (evictExpired r o1 o2 t) !! p = Some reg ∧
  GetRegistration r t p ≠ Some reg ∧ reg ∉ AllRegistrations r ord t.
Proof.
  pose proof (reachable_wf _ _ Hr) as Hwf. cbv zeta.
  assert (After (ExpiresAt reg) (ExpiresAt reg) = false) as Hafter by apply Z.ltb_irrefl.
  assert (Before (ExpiresAt reg) (ExpiresAt reg) = false) as Hbefore by apply Z.ltb_irrefl.
  split_and!.
  - apply elem_of_scan. exists p. split; [done|]. unfold offers. by rewrite Hafter, Hs.
  - destruct (evictExpired_parts r o1 o2 (ExpiresAt reg) Hwf) as [-> _].
    by apply map_lookup_filter_Some.
  - unfold GetRegistration, lookup_live. rewrite Hp, Hbefore.
    destruct (federated r !! p) as [f|]; [|done]. case_match eqn:Hb; [|done].
    intros [= ->]. congruence.
  - unfold AllRegistrations. rewrite list_elem_of_filter. by rewrite Hbefore; intros [[] _].
Qed.

Lemma expiry_boundary_witness :
  GetRegistration ex_reg (5 * Second + 20) "peer-2" = None ∧
  PeerID <$> scan (entries ex_reg) (5 * Second + 20) "echo" ∅ = ["peer-2"] ∧
  GetRegistration ex_reg (5 * Second + 20) "peer-2" ≠
    Some (mkRegistration "peer-2" [ex_skill "echo"] "B" "" 20 (5 * Second + 20) "" 20).
Proof.
  split; [vm_compute; reflexivity|]. split; [vm_compute; reflexivity|].
  apply (expiry_boundary ex_cfg ex_reg "peer-2"
    (mkRegistration "peer-2" [ex_skill "echo"] "B" "" 20 (5 * Second + 20) "" 20)
    canonical_order canonical_order canonical_order "echo" ∅ ex_reg_reachable).
  - vm_compute. reflexivity.
  - vm_compute. reflexivity.
Defined.
