(* ===== verification/Breaker.v ===== *)
(** * internal/resilience/breaker.go: the circuit breaker

    Every method holds the breaker's mutex for its whole body, so each is one
    atomic step.  The clock reading of a method is an argument. *)
From stdpp Require Import gmap strings list fin_maps.
From Stdlib Require Import ZArith Lia.
From S2P Require Import Prelude GoStd.

Local Open Scope Z_scope.

(** ** Data *)

Inductive State := StateClosed | StateOpen | StateHalfOpen.

#[export] Instance State_eq_dec : EqDecision State.
Proof. solve_decision. Defined.

(** The string constants behind the states. *)
Definition State_string (s : State) : string :=
  match s with
  | StateClosed => "closed"
  | StateOpen => "open"
  | StateHalfOpen => "half-open"
  end.

Record CircuitBreaker := mkCircuitBreaker {
  name : string;
  state : State;
  failureCount : Z;
  failureThreshold : Z;
  successCount : Z;
  successThreshold : Z;
  openUntil : Z;
  cooldown : Z
}.

Definition NewCircuitBreaker (name : string) (failureThreshold successThreshold cooldown : Z)
    : CircuitBreaker :=
  mkCircuitBreaker name StateClosed 0 failureThreshold 0 successThreshold zero_time cooldown.

(** Updates of the mutable fields. *)
Definition cb_set (cb : CircuitBreaker) (s : State) (fc sc ou : Z) : CircuitBreaker :=
  mkCircuitBreaker (name cb) s fc (failureThreshold cb) sc (successThreshold cb) ou (cooldown cb).

(** ** Operations *)

Definition Allow (cb : CircuitBreaker) (now : Z) : CircuitBreaker * bool :=
  match state cb with
  | StateClosed => (cb, true)
  | StateOpen =>
    if After now (openUntil cb)
    then (cb_set cb StateHalfOpen (failureCount cb) 0 (openUntil cb), true)
    else (cb, false)
  | StateHalfOpen => (cb, true)
  end.

Definition RecordSuccess (cb : CircuitBreaker) : CircuitBreaker :=
  match state cb with
  | StateClosed => cb_set cb StateClosed 0 (successCount cb) (openUntil cb)
  | StateHalfOpen =>
    let n := successCount cb + 1 in
    if n >=? successThreshold cb
    then cb_set cb StateClosed 0 0 (openUntil cb)
    else cb_set cb StateHalfOpen (failureCount cb) n (openUntil cb)
  | StateOpen => cb
  end.

Definition RecordFailure (cb : CircuitBreaker) (now : Z) : CircuitBreaker :=
  match state cb with
  | StateClosed =>
    let n := failureCount cb + 1 in
    if n >=? failureThreshold cb
    then cb_set cb StateOpen n (successCount cb) (Add now (cooldown cb))
    else cb_set cb StateClosed n (successCount cb) (openUntil cb)
  | StateHalfOpen => cb_set cb StateOpen (failureCount cb) 0 (Add now (cooldown cb))
  | StateOpen => cb
  end.

Definition GetState (cb : CircuitBreaker) (now : Z) : CircuitBreaker * State :=
  let cb := if bool_decide (state cb = StateOpen) && After now (openUntil cb)
            then cb_set cb StateHalfOpen (failureCount cb) 0 (openUntil cb)
            else cb in
  (cb, state cb).

Definition Reset (cb : CircuitBreaker) : CircuitBreaker :=
  cb_set cb StateClosed 0 0 zero_time.

Definition Name (cb : CircuitBreaker) : string := name cb.

(** ** Histories *)

Inductive cb_op :=
| CbAllow (now : Z)
| CbSuccess
| CbFailure (now : Z)
| CbGetState (now : Z)
| CbReset.

Definition cb_exec (cb : CircuitBreaker) (o : cb_op) : CircuitBreaker :=
  match o with
  | CbAllow now => (Allow cb now).1
  | CbSuccess => RecordSuccess cb
  | CbFailure now => RecordFailure cb now
  | CbGetState now => (GetState cb now).1
  | CbReset => Reset cb
  end.

(** ** The state machine: which operation may take which transition

    [cooled cb now] is the guard of the automatic transition. *)
Definition cooled (cb : CircuitBreaker) (now : Z) : Prop := openUntil cb < now.

Inductive edge (cb : CircuitBreaker) : cb_op → State → State → Prop :=
| edge_closed o :
    (∀ now, o = CbFailure now → failureCount cb + 1 < failureThreshold cb) →
    edge cb o StateClosed StateClosed
| edge_trip now :
    failureThreshold cb <= failureCount cb + 1 → edge cb (CbFailure now) StateClosed StateOpen
| edge_open o :
    o ≠ CbReset → (∀ now, o = CbAllow now ∨ o = CbGetState now → ¬ cooled cb now) →
    edge cb o StateOpen StateOpen
| edge_probe_allow now : cooled cb now → edge cb (CbAllow now) StateOpen StateHalfOpen
| edge_probe_get now : cooled cb now → edge cb (CbGetState now) StateOpen StateHalfOpen
| edge_half o :
    o ≠ CbReset → (∀ now, o ≠ CbFailure now) →
    (o = CbSuccess → successCount cb + 1 < successThreshold cb) →
    edge cb o StateHalfOpen StateHalfOpen
| edge_recover :
    successThreshold cb <= successCount cb + 1 → edge cb CbSuccess StateHalfOpen StateClosed
| edge_retrip now : edge cb (CbFailure now) StateHalfOpen StateOpen
| edge_reset s : edge cb CbReset s StateClosed.

#[export] Hint Constructors edge : relay.

(** ** Invariant *)

(** Between operations the counters stay below their thresholds (one when a
    threshold is not positive, since the first event already reaches it). *)
Record cb_wf (cb : CircuitBreaker) : Prop := {
  cbw_failures : state cb = StateClosed →
    0 <= failureCount cb < Z.max 1 (failureThreshold cb);
  cbw_successes : state cb = StateHalfOpen →
    0 <= successCount cb < Z.max 1 (successThreshold cb);
  cbw_idle : state cb ≠ StateHalfOpen → successCount cb = 0
}.

Ltac cb_unfold :=
  unfold cb_exec, Allow, RecordSuccess, RecordFailure, GetState, Reset, After, Add,
    cb_set, cooled in *; simpl in *.

Lemma cb_wf_New n ft st cd : cb_wf (NewCircuitBreaker n ft st cd).
Proof. split; simpl; [lia|done|done]. Qed.

Lemma cb_wf_exec cb o : cb_wf cb → cb_wf (cb_exec cb o).
Proof.
  intros [Hf Hs Hi]. destruct cb as [nm s fc ft sc st ou cd]; simpl in *.
  destruct o; cb_unfold; destruct s; simpl; case_ifs; bool_to_prop; split; simpl;
    try done; intros; simplify_eq; try done; try (specialize (Hf eq_refl)); try (specialize (Hs eq_refl));
    try (specialize (Hi ltac:(done))); try lia.
Qed.

Lemma cb_exec_edge cb o : edge cb o (state cb) (state (cb_exec cb o)).
Proof.
  destruct cb as [nm s fc ft sc st ou cd].
  destruct o; cb_unfold; destruct s; simpl; case_ifs; bool_to_prop;
    constructor; cb_unfold; naive_solver lia.
Qed.

Lemma edge_deterministic cb o s s1 s2 : edge cb o s s1 → edge cb o s s2 → s1 = s2.
Proof.
  intros H1 H2. destruct H1; inversion H2; subst; try done; exfalso; naive_solver lia.
Qed.

Lemma cb_exec_params cb o :
  name (cb_exec cb o) = name cb ∧ failureThreshold (cb_exec cb o) = failureThreshold cb ∧
  successThreshold (cb_exec cb o) = successThreshold cb ∧ cooldown (cb_exec cb o) = cooldown cb.
Proof.
  destruct cb as [nm s fc ft sc st ou cd].
  destruct o; cb_unfold; destruct s; simpl; case_ifs; done.
Qed.
