(* ===== verification/BreakerProps.v ===== *)
(** * Properties of the circuit breaker *)
From stdpp Require Import gmap strings list fin_maps.
From Stdlib Require Import ZArith Lia.
From S2P Require Import Prelude GoStd Breaker.

Local Open Scope Z_scope.

(** ** Sequences of recorded outcomes *)

(** An outcome: [None] is a success, [Some now] a failure recorded at [now]. *)
Definition record (cb : CircuitBreaker) (o : option Z) : CircuitBreaker :=
  match o with None => RecordSuccess cb | Some now => RecordFailure cb now end.

Definition is_failure (o : option Z) : Prop := is_Some o.

(** The reference: some [k] outcomes in a row are failures. *)
Definition failure_run (k : nat) (os : list (option Z)) : Prop :=
  ∃ pre run post, os = pre ++ run ++ post ∧ length run = k ∧ Forall is_failure run.

Lemma record_open cb os : state cb = StateOpen → foldl record cb os = cb.
Proof.
  intros Ho. induction os as [|o os IH]; simpl; [done|].
  assert (record cb o = cb) as ->; [|done].
  unfold record, RecordSuccess, RecordFailure. rewrite Ho. by destruct o.
Qed.

Lemma failure_run_cons_failure k now os c :
  (c < k)%nat →
  ((∃ run post, Some now :: os = run ++ post ∧ length run = (k - c)%nat ∧ Forall is_failure run) ∨
   failure_run k (Some now :: os)) ↔
  (k = S c ∨ (∃ run post, os = run ++ post ∧ length run = (k - S c)%nat ∧ Forall is_failure run) ∨
   failure_run k os).
Proof.
  intros Hc. split.
  - intros [(run & post & E & Hl & Hr)|(pre & run & post & E & Hl & Hr)].
    + destruct run as [|o run]; simpl in *; [lia|]. injection E as <- ->.
      apply Forall_cons in Hr as [_ Hr]. right. left. exists run, post. split_and!; [done|lia|done].
    + destruct pre as [|o pre]; simpl in E.
      * destruct run as [|o run]; simpl in *; [lia|]. injection E as <- ->.
        apply Forall_cons in Hr as [_ Hr]. destruct (decide (k = S c)) as [|Hne]; [by left|].
        right. left. exists (take (k - S c) run), (drop (k - S c) run ++ post).
        rewrite app_assoc, take_drop, length_take. split_and!; [done|lia|by apply Forall_take].
      * injection E as _ ->. right. right. by exists pre, run, post.
  - intros [->|[(run & post & -> & Hl & Hr)|(pre & run & post & -> & Hl & Hr)]].
    + left. exists [Some now], os. split_and!; [done|simpl; lia|apply Forall_singleton; by exists now].
    + left. exists (Some now :: run), post. split_and!; [done|simpl; lia|].
      constructor; [by exists now|exact Hr].
    + right. by exists (Some now :: pre), run, post.
Qed.

Lemma failure_run_cons_success k os : failure_run (S k) (None :: os) ↔ failure_run (S k) os.
Proof.
  split.
  - intros ([|o pre] & run & post & E & Hl & Hr); simpl in E.
    + destruct run; simplify_eq/=. apply Forall_cons in Hr as [[? ?] _]. done.
    + injection E as _ ->. by exists pre, run, post.
  - intros (pre & run & post & -> & Hl & Hr). by exists (None :: pre), run, post.
Qed.

(** A closed breaker with [c] failures on the clock opens exactly on completing
    the run, or on a full run later. *)
Lemma closed_opens_iff k cb os c :
  state cb = StateClosed → failureThreshold cb = Z.of_nat k →
  failureCount cb = Z.of_nat c → (c < k)%nat →
  (state (foldl record cb os) = StateOpen ∨ state (foldl record cb os) = StateClosed) ∧
  (state (foldl record cb os) = StateOpen ↔
   (∃ run post, os = run ++ post ∧ length run = (k - c)%nat ∧ Forall is_failure run) ∨
   failure_run k os).
Proof.
  revert cb c. induction os as [|o os IH]; intros cb c Hs Ht Hf Hc; simpl.
  - rewrite Hs. split; [by right|]. split; [done|].
    intros [([] & post & E & ? & _)|(pre & [] & post & E & ? & _)]; simpl in *; try lia; try done.
    by destruct pre.
  - destruct o as [now|]; simpl.
    + rewrite failure_run_cons_failure by done. unfold RecordFailure. rewrite Hs, Ht, Hf.
      destruct (Z.geb_spec (Z.of_nat c + 1) (Z.of_nat k)) as [Hge|Hlt].
      * rewrite record_open by done. simpl. split; [by left|]. split; [intros _; left; lia|intros _; done].
      * destruct (IH (cb_set cb StateClosed (Z.of_nat c + 1) (successCount cb) (openUntil cb))
          (S c)) as [Ho Hi]; [done|done|simpl; lia|lia|]. split; [exact Ho|]. rewrite Hi.
        split; [by right|]. intros [->|H]; [lia|done].
    + unfold RecordSuccess. rewrite Hs.
      destruct (IH (cb_set cb StateClosed 0 (successCount cb) (openUntil cb)) 0%nat) as [Ho Hi];
        [done|done|done|lia|]. split; [exact Ho|]. rewrite Hi. destruct k as [|k]; [lia|].
      rewrite failure_run_cons_success. split.
      * intros [(run & post & -> & Hl & Hr)|H]; right; [|done].
        exists [], run, post. split_and!; [done|lia|done].
      * intros [([|? ?] & post & E & Hl & Hr)|H]; [simpl in Hl; lia| |by right].
        simpl in E. injection E as <- ->. apply Forall_cons in Hr as [[? ?] _]. done.
Qed.

(** ** Operations on an open breaker *)

Definition cb_time (o : cb_op) : option Z :=
  match o with CbAllow t | CbFailure t | CbGetState t => Some t | _ => None end.

(** Within the cooldown: not a [Reset], and no later than [openUntil]. *)
Definition within (deadline : Z) (o : cb_op) : Prop :=
  o ≠ CbReset ∧ ∀ t, cb_time o = Some t → t <= deadline.

Lemma open_stays cb ops :
  state cb = StateOpen → Forall (within (openUntil cb)) ops → foldl cb_exec cb ops = cb.
Proof.
  intros Ho. induction 1 as [|o ops [Hr Ht] _ IH]; simpl; [done|].
  assert (cb_exec cb o = cb) as ->; [|done].
  destruct o; simpl; try done;
    unfold Allow, RecordSuccess, RecordFailure, GetState, After; rewrite Ho; try done;
    rewrite (proj2 (Z.ltb_ge _ _)) by (by apply Ht); done.
Qed.

(** ** Operations on a half-open breaker *)

Lemma half_open_successes cb n :
  state cb = StateHalfOpen → 0 <= successCount cb →
  successCount cb + Z.of_nat n < Z.max 1 (successThreshold cb) →
  foldl record cb (replicate n None) =
    cb_set cb StateHalfOpen (failureCount cb) (successCount cb + Z.of_nat n) (openUntil cb).
Proof.
  revert cb. induction n as [|n IH]; intros cb Hs Hpos Hn; simpl.
  - rewrite Z.add_0_r, <- Hs. by destruct cb.
  - unfold RecordSuccess. rewrite Hs. rewrite Z.geb_leb, (proj2 (Z.leb_gt _ _)) by lia.
    rewrite IH; simpl; [|done|lia|lia]. unfold cb_set; simpl. f_equal. lia.
Qed.

(** ** Properties *)

(** C25: a new breaker with a positive failure threshold is open after a sequence
    of outcomes exactly when the sequence contains that many failures in a row;
    otherwise it is still closed. *)
Theorem breaker_trips_on_run nm (k : nat) st cd (os : list (option Z)) (Hk : (0 < k)%nat) :
  let cb := foldl record (NewCircuitBreaker nm (Z.of_nat k) st cd) os in
  (state cb = StateOpen ↔ failure_run k os) ∧
  (state cb = StateClosed ↔ ¬ failure_run k os).
Proof.
  cbv zeta.
  destruct (closed_opens_iff k (NewCircuitBreaker nm (Z.of_nat k) st cd) os 0) as [Ho Hiff];
    [done..|lia|].
  assert (state (foldl record (NewCircuitBreaker nm (Z.of_nat k) st cd) os) = StateOpen ↔
    failure_run k os) as Hi.
  { rewrite Hiff. split; [|by right]. intros [(run & post & -> & Hl & Hr)|]; [|done].
    exists [], run, post. split_and!; [done|lia|done]. }
  split; [done|]. rewrite <- Hi. destruct Ho as [-> | ->]; naive_solver.
Qed.

Lemma breaker_trips_on_run_witness :
  state (foldl record (NewCircuitBreaker "b" 2 1 10) [Some 1; None; Some 2; Some 3]) = StateOpen.
Proof.
  apply (breaker_trips_on_run "b" 2 1 10 [Some 1; None; Some 2; Some 3]); [lia|].
  exists [Some 1; None], [Some 2; Some 3], []. split_and!; [done..|].
  repeat constructor; eexists; reflexivity.
Defined.

(** an open breaker rejects every request until its cooldown has passed,
    whatever is recorded or queried meanwhile (only [Reset] ends the wait), and
    the first request after the cooldown is let through and starts half-open
    recovery with no success counted. *)
Theorem breaker_open_blocks cb ops now later
    (Ho : state cb = StateOpen) (Hops : Forall (within (openUntil cb)) ops)
    (Hnow : now <= openUntil cb) (Hlater : openUntil cb < later) :
  let cb' := foldl cb_exec cb ops in
  state cb' = StateOpen ∧ (Allow cb' now).2 = false ∧ (Allow cb' now).1 = cb' ∧
  (Allow cb' later).2 = true ∧ state (Allow cb' later).1 = StateHalfOpen ∧
  successCount (Allow cb' later).1 = 0.
Proof.
  cbv zeta. rewrite (open_stays cb ops Ho Hops). unfold Allow, After. rewrite Ho.
  rewrite (proj2 (Z.ltb_ge _ _) Hnow), (proj2 (Z.ltb_lt _ _) Hlater). done.
Qed.

Lemma breaker_open_blocks_witness :
  let cb := RecordFailure (NewCircuitBreaker "b" 1 1 10) 5 in
  let cb' := foldl cb_exec cb [CbAllow 7; CbSuccess; CbFailure 9; CbGetState 15] in
  state cb' = StateOpen ∧ (Allow cb' 15).2 = false ∧ (Allow cb' 16).2 = true.
Proof.
  destruct (breaker_open_blocks (RecordFailure (NewCircuitBreaker "b" 1 1 10) 5)
    [CbAllow 7; CbSuccess; CbFailure 9; CbGetState 15] 15 16) as (H1 & H2 & _ & H3 & _).
  - reflexivity.
  - repeat constructor; try discriminate; intros t [= <-]; vm_compute; discriminate.
  - vm_compute. discriminate.
  - vm_compute. reflexivity.
  - split; [exact H1|split; [exact H2|exact H3]].
Defined.

(** C27: recovery.  In half-open state every request is let through, however many
    there are; fewer successes than the threshold followed by a failure re-open
    the breaker for a full cooldown; the threshold number of successes closes it
    with both counters at zero. *)
Theorem breaker_recovery cb now (n : nat)
    (Hs : state cb = StateHalfOpen) (H0 : successCount cb = 0)
    (Hn : Z.of_nat n < Z.max 1 (successThreshold cb)) :
  let probing := foldl record cb (replicate n None) in
  state probing = StateHalfOpen ∧
  (∀ times, foldl (λ c t, (Allow c t).1) probing times = probing ∧ (Allow probing now).2 = true) ∧
  state (RecordFailure probing now) = StateOpen ∧
  openUntil (RecordFailure probing now) = now + cooldown cb ∧
  (Z.of_nat n + 1 = Z.max 1 (successThreshold cb) →
   let cb' := RecordSuccess probing in
   state cb' = StateClosed ∧ failureCount cb' = 0 ∧ successCount cb' = 0).
Proof.
  cbv zeta. rewrite half_open_successes, H0, Z.add_0_l by (done || lia). split_and!; [done| |done|done|].
  - intros times. split; [|done]. induction times as [|t times IH]; simpl; [done|]. exact IH.
  - intros He. unfold RecordSuccess; simpl. rewrite Z.geb_leb, (proj2 (Z.leb_le _ _)) by lia. done.
Qed.

Lemma breaker_recovery_witness :
  let cb := (Allow (RecordFailure (NewCircuitBreaker "b" 1 2 10) 5) 16).1 in
  state (RecordFailure (RecordSuccess cb) 20) = StateOpen ∧
  openUntil (RecordFailure (RecordSuccess cb) 20) = 30 ∧
  state (RecordSuccess (RecordSuccess cb)) = StateClosed.
Proof.
  destruct (breaker_recovery (Allow (RecordFailure (NewCircuitBreaker "b" 1 2 10) 5) 16).1 20 1)
    as (_ & _ & H1 & H2 & H3); [reflexivity|reflexivity|vm_compute; reflexivity|].
  split; [exact H1|]. split; [exact H2|]. exact (proj1 (H3 eq_refl)).
Defined.

(** C24: in every history of a breaker the counters stay below their thresholds,
    the parameters never change, and the state only moves along the legal edges
    of the closed / open / half-open machine, each under its guard. *)
Theorem breaker_state_machine nm ft st cd ops o :
  let cb := foldl cb_exec (NewCircuitBreaker nm ft st cd) ops in
  cb_wf cb ∧ (∀ s', edge cb o (state cb) s' ↔ s' = state (cb_exec cb o)) ∧
  name cb = nm ∧ failureThreshold cb = ft ∧ successThreshold cb = st ∧ cooldown cb = cd.
Proof.
  cbv zeta.
  assert (∀ cb s', edge cb o (state cb) s' ↔ s' = state (cb_exec cb o)) as Hedge.
  { intros cb s'. pose proof (cb_exec_edge cb o). split; [|by intros ->].
    intros ?. by eapply edge_deterministic. }
  induction ops as [|o' ops IH] using rev_ind.
  - split_and!; [apply cb_wf_New|apply Hedge|done..].
  - rewrite foldl_snoc. set (cb := foldl cb_exec _ ops) in *.
    destruct IH as (Hwf & _ & Hn & Hft & Hst & Hcd).
    destruct (cb_exec_params cb o') as (-> & -> & -> & ->).
    split_and!; [by apply cb_wf_exec|apply Hedge|done..].
Qed.
