(* ===== verification/BreakerRegistry.v ===== *)
(** * internal/resilience/registry.go: the registry of circuit breakers

    [Get] hands out pointers, so the breakers live in a heap and the map holds
    locations: two callers that receive the same location share one breaker.
    [Get] releases its read lock before it takes the write lock; its two critical
    sections are separate steps of [thread_step], which any number of threads
    interleave. *)
From stdpp Require Import gmap strings list fin_maps.
From Stdlib Require Import ZArith Lia.
From S2P Require Import Prelude GoStd Breaker.

Local Open Scope Z_scope.

(** ** Data *)

Definition loc := positive.

Record BreakerConfig := mkBreakerConfig {
  FailureThreshold : Z;
  SuccessThreshold : Z;
  Cooldown : Z
}.

Record BreakerStatus := mkBreakerStatus {
  bs_Name : string;
  bs_State : State
}.

Record BreakerRegistry := mkBreakerRegistry {
  breakers : gmap string loc;
  heap : gmap loc CircuitBreaker;
  defaults : BreakerConfig
}.

Definition NewBreakerRegistry (d : BreakerConfig) : BreakerRegistry :=
  mkBreakerRegistry ∅ ∅ d.

(** ** [Get] *)

(** Creation under the write lock: allocate a breaker and store its pointer. *)
Definition create (r : BreakerRegistry) (nm : string) : BreakerRegistry * loc :=
  let d := defaults r in
  let cb := NewCircuitBreaker nm (FailureThreshold d) (SuccessThreshold d) (Cooldown d) in
  let l := fresh (dom (heap r)) in
  (mkBreakerRegistry (<[nm := l]> (breakers r)) (<[l := cb]> (heap r)) d, l).

(** The first critical section: a read under the read lock. *)
Definition get_read (r : BreakerRegistry) (nm : string) : option loc := breakers r !! nm.

(** The second critical section: the double check, then creation. *)
Definition get_write (r : BreakerRegistry) (nm : string) : BreakerRegistry * loc :=
  match breakers r !! nm with
  | Some l => (r, l)
  | None => create r nm
  end.

(** [Get] when no other thread runs in between. *)
Definition BreakerRegistry_Get (r : BreakerRegistry) (nm : string) : BreakerRegistry * loc :=
  match get_read r nm with
  | Some l => (r, l)
  | None => get_write r nm
  end.

(** ** [BreakerRegistry.List]

    Each breaker's [GetState] reads the clock and may move the breaker; the
    clock readings are given per name. *)
Definition list_step (now : string → Z) (st : gmap loc CircuitBreaker * gmap string BreakerStatus)
    (kl : string * loc) : gmap loc CircuitBreaker * gmap string BreakerStatus :=
  match st.1 !! kl.2 with
  | Some cb =>
    let '(cb, s) := GetState cb (now kl.1) in
    (<[kl.2 := cb]> st.1, <[kl.1 := mkBreakerStatus kl.1 s]> st.2)
  | None => st
  end.

Definition BreakerRegistry_List (r : BreakerRegistry) (ord : RangeOrder) (now : string → Z)
    : BreakerRegistry * gmap string BreakerStatus :=
  let keys := omap (λ k, (λ l, (k, l)) <$> breakers r !! k) (ord (dom (breakers r))) in
  let '(h, result) := foldl (list_step now) (heap r, ∅) keys in
  (mkBreakerRegistry (breakers r) h (defaults r), result).

(** A method call on the breaker behind a pointer. *)
Definition call (r : BreakerRegistry) (l : loc) (o : cb_op) : BreakerRegistry :=
  match heap r !! l with
  | Some cb => mkBreakerRegistry (breakers r) (<[l := cb_exec cb o]> (heap r)) (defaults r)
  | None => r
  end.

(** ** Well-formedness: the map and the heap agree, and no breaker is shared by
    two names *)

Record br_wf (r : BreakerRegistry) : Prop := {
  br_alloc nm l : breakers r !! nm = Some l →
    ∃ cb, heap r !! l = Some cb ∧ name cb = nm;
  br_cb_wf l cb : heap r !! l = Some cb → cb_wf cb;
  br_defaults l cb : heap r !! l = Some cb →
    failureThreshold cb = FailureThreshold (defaults r) ∧
    successThreshold cb = SuccessThreshold (defaults r) ∧
    cooldown cb = Cooldown (defaults r)
}.

Lemma br_inj r nm1 nm2 l :
  br_wf r → breakers r !! nm1 = Some l → breakers r !! nm2 = Some l → nm1 = nm2.
Proof.
  intros Hwf H1 H2. destruct (br_alloc _ Hwf _ _ H1) as (cb & E & <-).
  destruct (br_alloc _ Hwf _ _ H2) as (cb' & E' & <-). by simplify_eq.
Qed.

Lemma br_wf_New d : br_wf (NewBreakerRegistry d).
Proof. by split. Qed.

Lemma fresh_not_allocated (r : BreakerRegistry) : heap r !! fresh (dom (heap r)) = None.
Proof. apply not_elem_of_dom, is_fresh. Qed.

Lemma br_wf_create r nm : br_wf r → br_wf (create r nm).1.
Proof.
  intros Hwf. split; simpl.
  - intros nm' l. rewrite lookup_insert. case_decide as Hn.
    + intros [= <-]. rewrite lookup_insert_eq. eauto.
    + intros Hl. destruct (br_alloc _ Hwf _ _ Hl) as (cb & E & <-). exists cb.
      rewrite lookup_insert_ne; [done|]. intros Hf. by rewrite <- Hf, fresh_not_allocated in E.
  - intros l cb. rewrite lookup_insert. case_decide; [|by apply (br_cb_wf _ Hwf)].
    intros [= <-]. apply cb_wf_New.
  - intros l cb. rewrite lookup_insert. case_decide; [|by apply (br_defaults _ Hwf)].
    by intros [= <-].
Qed.

Lemma br_wf_get_write r nm : br_wf r → br_wf (get_write r nm).1.
Proof. intros Hwf. unfold get_write. case_match; [done|]. by apply br_wf_create. Qed.

Lemma br_wf_call r l o : br_wf r → br_wf (call r l o).
Proof.
  intros Hwf. unfold call. destruct (heap r !! l) as [cb|] eqn:E; [|done]. split; simpl.
  - intros nm l' Hl. destruct (br_alloc _ Hwf _ _ Hl) as (cb' & E' & <-).
    rewrite lookup_insert. case_decide; [subst|eauto]. rewrite E in E'. injection E' as ->.
    exists (cb_exec cb' o). split; [done|]. apply cb_exec_params.
  - intros l' cb'. rewrite lookup_insert. case_decide; [|by apply (br_cb_wf _ Hwf)].
    intros [= <-]. apply cb_wf_exec. by apply (br_cb_wf _ Hwf l).
  - intros l' cb'. rewrite lookup_insert. case_decide; [|by apply (br_defaults _ Hwf)].
    intros [= <-]. destruct (cb_exec_params cb o) as (_ & -> & -> & ->).
    by apply (br_defaults _ Hwf l).
Qed.

(** ** Concurrent callers *)

(** Where a thread is in [Get nm]. *)
Inductive thread :=
| GetStart (nm : string)
| GetMissed (nm : string)
| GetDone (nm : string) (l : loc).

Record config := mkConfig {
  shared : BreakerRegistry;
  threads : list thread
}.

(** One critical section of one thread, or any method call on a breaker. *)
Inductive thread_step : config → config → Prop :=
| step_read_hit c i nm l :
    threads c !! i = Some (GetStart nm) → get_read (shared c) nm = Some l →
    thread_step c (mkConfig (shared c) (<[i := GetDone nm l]> (threads c)))
| step_read_miss c i nm :
    threads c !! i = Some (GetStart nm) → get_read (shared c) nm = None →
    thread_step c (mkConfig (shared c) (<[i := GetMissed nm]> (threads c)))
| step_write c i nm :
    threads c !! i = Some (GetMissed nm) →
    thread_step c (mkConfig (get_write (shared c) nm).1
                     (<[i := GetDone nm (get_write (shared c) nm).2]> (threads c)))
| step_call c l o :
    thread_step c (mkConfig (call (shared c) l o) (threads c)).

(** Every finished thread holds the pointer the map has for its name. *)
Record conf_wf (c : config) : Prop := {
  cw_reg : br_wf (shared c);
  cw_done i nm l : threads c !! i = Some (GetDone nm l) → breakers (shared c) !! nm = Some l
}.

Lemma get_write_keeps r nm nm' l :
  breakers r !! nm' = Some l → breakers (get_write r nm).1 !! nm' = Some l.
Proof.
  intros Hl. unfold get_write. destruct (breakers r !! nm) eqn:E; [done|]. simpl.
  rewrite lookup_insert_ne; [done|]. intros ->. congruence.
Qed.

Lemma get_write_stores r nm :
  breakers (get_write r nm).1 !! nm = Some (get_write r nm).2.
Proof. unfold get_write. destruct (breakers r !! nm) eqn:E; [done|]. apply lookup_insert_eq. Qed.

Lemma call_breakers r l o : breakers (call r l o) = breakers r.
Proof. unfold call. by case_match. Qed.

Lemma conf_wf_step c c' : conf_wf c → thread_step c c' → conf_wf c'.
Proof.
  intros [Hwf Hdone] Hstep.
  destruct Hstep as [c i nm l Hi Hr|c i nm Hi Hr|c i nm Hi|c l o]; split; simpl;
    try intros j nm' l' Hj; try apply list_insert_lookup_cases in Hj as [Hj|Hj];
    simplify_eq; rewrite ?call_breakers;
    eauto using br_wf_get_write, br_wf_call, get_write_stores, get_write_keeps.
Qed.

Lemma conf_wf_steps c c' : conf_wf c → rtc thread_step c c' → conf_wf c'.
Proof. intros Hwf. induction 1; [done|]. eauto using conf_wf_step. Qed.

Lemma thread_step_defaults c c' : thread_step c c' → defaults (shared c') = defaults (shared c).
Proof.
  destruct 1; simpl; [done|done| |]; unfold get_write, call; by case_match.
Qed.

Lemma steps_defaults c c' : rtc thread_step c c' → defaults (shared c') = defaults (shared c).
Proof. induction 1 as [|? ? ? Hs _ IH]; [done|]. by rewrite IH, (thread_step_defaults _ _ Hs). Qed.

(** ** What [List] computes *)

(** The pairs visited: every name once, with its pointer. *)
Definition named (r : BreakerRegistry) (kls : list (string * loc)) : Prop :=
  NoDup kls.*1 ∧ ∀ k l, (k, l) ∈ kls → breakers r !! k = Some l.

Lemma list_step_found now h res k l cb :
  h !! l = Some cb →
  list_step now (h, res) (k, l) =
    (<[l := (GetState cb (now k)).1]> h, <[k := mkBreakerStatus k (GetState cb (now k)).2]> res).
Proof. intros Hl. unfold list_step. simpl. by rewrite Hl. Qed.

Lemma list_fold r kls now h res h' res' :
  br_wf r → named r kls →
  (∀ k l, (k, l) ∈ kls → h !! l = heap r !! l) →
  foldl (list_step now) (h, res) kls = (h', res') →
  (∀ k l cb, (k, l) ∈ kls → heap r !! l = Some cb →
     h' !! l = Some (GetState cb (now k)).1 ∧
     res' !! k = Some (mkBreakerStatus k (GetState cb (now k)).2)) ∧
  (∀ l, l ∉ kls.*2 → h' !! l = h !! l) ∧ (∀ k, k ∉ kls.*1 → res' !! k = res !! k).
Proof.
  intros Hwf. revert h res. induction kls as [|[k l] kls IH]; intros h res [Hnd Hin] Hh Hf.
  - simplify_eq/=. split_and!; try done. by intros ??? ?%elem_of_nil.
  - apply NoDup_cons in Hnd as [Hk Hnd].
    assert (breakers r !! k = Some l) as Hkl by (apply Hin; left).
    destruct (br_alloc _ Hwf _ _ Hkl) as (cb & Hcb & _).
    assert (l ∉ kls.*2) as Hl.
    { intros ([k' l'] & Heq & Hin')%list_elem_of_fmap. simpl in Heq. subst l'.
      assert (k' = k) as -> by (eapply br_inj; [done| |done]; apply Hin; by right).
      apply Hk. by apply list_elem_of_fmap_2 with (f:=fst) in Hin'. }
    cbn [foldl] in Hf. rewrite (list_step_found _ _ _ _ _ cb) in Hf
      by (rewrite (Hh k l); [done|left]).
    apply IH in Hf as (H1 & H2 & H3).
    + split_and!.
      * intros k' l' cb' [[= -> ->]|Hin']%elem_of_cons Hcb'; [|eauto].
        rewrite Hcb in Hcb'. injection Hcb' as <-. rewrite H2, H3 by done.
        by rewrite !lookup_insert_eq.
      * intros l' Hl'. simpl in Hl'. rewrite not_elem_of_cons in Hl'.
        rewrite H2 by naive_solver. rewrite lookup_insert_ne by naive_solver. done.
      * intros k' Hk'. simpl in Hk'. rewrite not_elem_of_cons in Hk'.
        rewrite H3 by naive_solver. rewrite lookup_insert_ne by naive_solver. done.
    + split; [done|]. intros k' l' Hin'. apply Hin. by right.
    + intros k' l' Hin'. rewrite lookup_insert_ne; [apply (Hh k'); by right|].
      intros ->. apply Hl. by apply list_elem_of_fmap_2 with (f:=snd) in Hin'.
Qed.

Lemma call_found r l o cb :
  heap r !! l = Some cb →
  call r l o = mkBreakerRegistry (breakers r) (<[l := cb_exec cb o]> (heap r)) (defaults r).
Proof. intros Hl. unfold call. by rewrite Hl. Qed.

(** ** [Get], undisturbed *)

(** The breaker is there afterwards; other names keep their own breakers. *)
Lemma BreakerRegistry_Get_spec r nm :
  br_wf r →
  ∃ r' l cb, BreakerRegistry_Get r nm = (r', l) ∧ breakers r' !! nm = Some l ∧
    heap r' !! l = Some cb ∧
    ∀ nm', nm' ≠ nm → breakers r' !! nm' = breakers r !! nm' ∧
      ∀ l', breakers r !! nm' = Some l' → l ≠ l' ∧ heap r' !! l' = heap r !! l'.
Proof.
  intros Hwf. unfold BreakerRegistry_Get, get_read, get_write.
  destruct (breakers r !! nm) as [l|] eqn:Hl.
  - destruct (br_alloc _ Hwf _ _ Hl) as (cb & Hcb & _). exists r, l, cb. split_and!; [done..|].
    intros nm' Hne. split; [done|]. intros l' Hl'. split; [|done].
    intros ->. apply Hne. by eapply br_inj.
  - unfold create. eexists _, _, _. split; [done|]. cbn [breakers heap].
    split; [by rewrite lookup_insert_eq|]. split; [by rewrite lookup_insert_eq|].
    intros nm' Hne. split; [by rewrite lookup_insert_ne|]. intros l' Hl'.
    destruct (br_alloc _ Hwf _ _ Hl') as (cb & Hcb & _).
    assert (fresh (dom (heap r)) ≠ l') as Hfr by (intros <-; by rewrite fresh_not_allocated in Hcb).
    split; [done|]. by rewrite lookup_insert_ne.
Qed.
