(* ===== verification/BreakerRegistryProps.v ===== *)
(** * Properties of the breaker registry *)
From stdpp Require Import gmap strings list fin_maps.
From Stdlib Require Import ZArith Lia.
From S2P Require Import Prelude GoStd Breaker BreakerRegistry.

Local Open Scope Z_scope.

(** C23: any number of threads call [Get] with any names, and any methods of any
    breaker run in between, in any interleaving of critical sections.  All
    threads that asked for one name hold the same breaker, threads that asked for
    different names hold different breakers, and the breaker carries the name it
    was asked for, the default configuration and counters within bounds. *)
Theorem get_shares_one_breaker d (names : list string) c
    (Hsteps : rtc thread_step (mkConfig (NewBreakerRegistry d) (GetStart <$> names)) c) :
  ∀ i j nm1 nm2 l1 l2,
    threads c !! i = Some (GetDone nm1 l1) → threads c !! j = Some (GetDone nm2 l2) →
    (nm1 = nm2 ↔ l1 = l2) ∧ breakers (shared c) !! nm1 = Some l1 ∧
    ∃ cb, heap (shared c) !! l1 = Some cb ∧ name cb = nm1 ∧ cb_wf cb ∧
      failureThreshold cb = FailureThreshold d ∧ successThreshold cb = SuccessThreshold d ∧
      cooldown cb = Cooldown d.
Proof.
  assert (conf_wf c) as [Hwf Hdone].
  { eapply conf_wf_steps; [|exact Hsteps]. split; simpl; [apply br_wf_New|].
    intros i nm l Hi. rewrite list_lookup_fmap in Hi. by destruct (names !! i). }
  intros i j nm1 nm2 l1 l2 Hi Hj. apply Hdone in Hi, Hj. split.
  { split; [intros ->; congruence|]. intros ->. by eapply br_inj. }
  split; [done|]. destruct (br_alloc _ Hwf _ _ Hi) as (cb & Hcb & Hnm).
  pose proof (br_defaults _ Hwf _ _ Hcb) as Hd.
  rewrite (steps_defaults _ _ Hsteps) in Hd. simpl in Hd.
  exists cb. split_and!; [done|done|by apply (br_cb_wf _ Hwf l1)|apply Hd..].
Qed.

(** Two threads race on one name: both miss, then both take the write lock. *)
Definition ex_race : config :=
  let r := (create (NewBreakerRegistry (mkBreakerConfig 5 3 30)) "peer").1 in
  mkConfig r [GetDone "peer" 1%positive; GetDone "peer" 1%positive].

Lemma ex_race_steps :
  rtc thread_step (mkConfig (NewBreakerRegistry (mkBreakerConfig 5 3 30))
    (GetStart <$> ["peer"; "peer"])) ex_race.
Proof.
  eapply rtc_l; [by apply (step_read_miss _ 0 "peer")|].
  eapply rtc_l; [by apply (step_read_miss _ 1 "peer")|].
  eapply rtc_l; [by apply (step_write _ 0 "peer")|].
  eapply rtc_l; [by apply (step_write _ 1 "peer")|].
  apply rtc_refl.
Qed.

Lemma get_shares_one_breaker_witness :
  breakers (shared ex_race) !! "peer" = Some 1%positive ∧
  ("peer" = "peer" ↔ 1%positive = 1%positive).
Proof.
  destruct (get_shares_one_breaker (mkBreakerConfig 5 3 30) ["peer"; "peer"] ex_race
    ex_race_steps 0 1 "peer" "peer" 1%positive 1%positive eq_refl eq_refl) as (H1 & H2 & _).
  split; [exact H2|exact H1].
Defined.

(** [List] reports every registered breaker exactly once, under its name,
    with the state [GetState] returns for it, leaves each breaker as [GetState]
    leaves it, and none of this depends on the order of the walk. *)
Theorem list_reports_states r ord now (Hwf : br_wf r) :
  let '(r', statuses) := BreakerRegistry_List r ord now in
  breakers r' = breakers r ∧ dom statuses = dom (breakers r) ∧
  ∀ nm l cb, breakers r !! nm = Some l → heap r !! l = Some cb →
    heap r' !! l = Some (GetState cb (now nm)).1 ∧
    statuses !! nm = Some (mkBreakerStatus nm (GetState cb (now nm)).2).
Proof.
  unfold BreakerRegistry_List.
  set (kls := omap (λ k, (λ l, (k, l)) <$> breakers r !! k) (ord (dom (breakers r)))).
  destruct (foldl _ _ kls) as [h res] eqn:Hf.
  assert (∀ k l, (k, l) ∈ kls ↔ breakers r !! k = Some l) as Hkls.
  { intros k l. unfold kls. rewrite list_elem_of_omap. setoid_rewrite elem_of_range.
    setoid_rewrite elem_of_dom. setoid_rewrite fmap_Some. naive_solver. }
  assert (named r kls) as Hnamed.
  { split; [|intros k l; by rewrite Hkls]. apply NoDup_fmap_omap_inv; [|apply NoDup_range].
    intros k [k' l] (? & _ & [= <- <-])%fmap_Some. done. }
  apply (list_fold r) in Hf as (H1 & _ & H3); [|done|done|done]. split_and!; simpl; [done| |].
  - apply set_eq. intros nm. rewrite !elem_of_dom. split.
    + intros Hs. destruct (decide (nm ∈ kls.*1)) as [Hin|Hn].
      * apply list_elem_of_fmap in Hin as ([k l] & -> & Hin). apply Hkls in Hin. eauto.
      * rewrite H3, lookup_empty in Hs by done. by destruct Hs.
    + intros [l Hl]. destruct (br_alloc _ Hwf _ _ Hl) as (cb & Hcb & _).
      destruct (H1 nm l cb) as [_ ->]; [by apply Hkls|done|eauto].
  - intros nm l cb Hl Hcb. apply H1; [by apply Hkls|done].
Qed.

Lemma list_reports_states_witness :
  let r := shared ex_race in
  dom (BreakerRegistry_List r canonical_order (λ _, 0)).2 = dom (breakers r).
Proof.
  assert (br_wf (shared ex_race)) as Hwf
    by (apply br_wf_create, br_wf_New).
  pose proof (list_reports_states (shared ex_race) canonical_order (λ _, 0) Hwf) as H.
  cbv zeta. destruct (BreakerRegistry_List _ _ _) as [r' res]. apply H.
Defined.
