(* ===== verification/GoMatch.v ===== *)
(** * [filepath.Match] of Go's standard library, on Unix

    The policy engine compares rule fields with [filepath.Match]; this file is
    that function, byte for byte: [scanChunk] splits a pattern at its stars,
    [matchChunk] matches a star-free chunk ([?], escapes, character classes with
    ranges and negation, UTF-8 decoding), and [Match] backtracks over the bytes
    a star skips, never across a separator.  Loops over the pattern run on fuel
    and [None] means that the fuel ran out; [Match_total] shows that it never
    does.  The second half characterises the patterns the relay's
    documentation uses: literals, and one star between two literals. *)
From stdpp Require Import gmap strings list.
From Stdlib Require Import ZArith Lia Ascii.
From S2P Require Import Prelude.

Local Open Scope Z_scope.

(** A Go string as the list of its bytes. *)
Definition bytes := list ascii.
Definition bytes_of (s : string) : bytes := String.list_ascii_of_string s.
Definition byte_val (c : ascii) : Z := Z.of_nat (nat_of_ascii c).

Local Notation Separator := "/"%char (only parsing).

(** ** [utf8.DecodeRuneInString]: the rune and its width *)

Definition RuneError : Z := 65533.

Definition cont (lo hi : Z) (c : ascii) : bool := (lo <=? byte_val c) && (byte_val c <=? hi).

(** The range of a second byte, by the first byte of a longer encoding. *)
Definition second_range (b0 : Z) : Z * Z :=
  if b0 =? 224 then (160, 191) else if b0 =? 237 then (128, 159)
  else if b0 =? 240 then (144, 191) else if b0 =? 244 then (128, 143) else (128, 191).

Definition low6 (c : ascii) : Z := Z.land (byte_val c) 63.

Definition DecodeRune (s : bytes) : Z * nat :=
  match s with
  | [] => (RuneError, 0%nat)
  | c0 :: s1 =>
    let b0 := byte_val c0 in
    let '(lo, hi) := second_range b0 in
    if b0 <? 128 then (b0, 1%nat)
    else if (194 <=? b0) && (b0 <=? 223) then
      match s1 with
      | c1 :: _ => if cont lo hi c1
          then (Z.lor (Z.shiftl (Z.land b0 31) 6) (low6 c1), 2%nat) else (RuneError, 1%nat)
      | _ => (RuneError, 1%nat)
      end
    else if (224 <=? b0) && (b0 <=? 239) then
      match s1 with
      | c1 :: c2 :: _ => if cont lo hi c1 && cont 128 191 c2
          then (Z.lor (Z.lor (Z.shiftl (Z.land b0 15) 12) (Z.shiftl (low6 c1) 6)) (low6 c2), 3%nat)
          else (RuneError, 1%nat)
      | _ => (RuneError, 1%nat)
      end
    else if (240 <=? b0) && (b0 <=? 244) then
      match s1 with
      | c1 :: c2 :: c3 :: _ => if cont lo hi c1 && cont 128 191 c2 && cont 128 191 c3
          then (Z.lor (Z.lor (Z.lor (Z.shiftl (Z.land b0 7) 18) (Z.shiftl (low6 c1) 12))
                 (Z.shiftl (low6 c2) 6)) (low6 c3), 4%nat)
          else (RuneError, 1%nat)
      | _ => (RuneError, 1%nat)
      end
    else (RuneError, 1%nat)
  end.

(** ** [scanChunk] *)

Fixpoint skip_stars (pattern : bytes) : bool * bytes :=
  match pattern with
  | c :: rest => if Ascii.eqb c "*" then (true, (skip_stars rest).2) else (false, pattern)
  | [] => (false, [])
  end.

Definition prepend (pre : bytes) (p : bytes * bytes) : bytes * bytes := (pre ++ p.1, p.2).

(** The [Scan] loop: the chunk up to the next star outside a class. *)
Fixpoint scan_body (inrange : bool) (pattern : bytes) : bytes * bytes :=
  match pattern with
  | [] => ([], [])
  | c :: rest =>
    if Ascii.eqb c "\" then
      match rest with
      | [] => ([c], [])
      | d :: rest' => prepend [c; d] (scan_body inrange rest')
      end
    else if Ascii.eqb c "[" then prepend [c] (scan_body true rest)
    else if Ascii.eqb c "]" then prepend [c] (scan_body false rest)
    else if Ascii.eqb c "*" && negb inrange then ([], pattern)
    else prepend [c] (scan_body inrange rest)
  end.

Definition scanChunk (pattern : bytes) : bool * bytes * bytes :=
  let '(star, p) := skip_stars pattern in
  let '(chunk, rest) := scan_body false p in
  (star, chunk, rest).

(** ** [matchChunk] *)

(** [getEsc]: a possibly escaped rune of a class; [None] is [ErrBadPattern]. *)
Definition getEsc (chunk : bytes) : option (Z * bytes) :=
  match chunk with
  | [] => None
  | c :: rest =>
    if Ascii.eqb c "-" || Ascii.eqb c "]" then None
    else
      let chunk := if Ascii.eqb c "\" then rest else chunk in
      match chunk with
      | [] => None
      | _ =>
        let '(r, n) := DecodeRune chunk in
        if (r =? RuneError) && bool_decide (n = 1%nat) then None
        else match drop n chunk with [] => None | nchunk => Some (r, nchunk) end
      end
  end.

(** The loop over the ranges of a class: [Some None] is [ErrBadPattern],
    [Some (Some (rest, match))] a class read to its closing bracket. *)
Fixpoint match_ranges (fuel : nat) (chunk : bytes) (r : Z) (nrange : Z) (mat : bool)
    : option (option (bytes * bool)) :=
  match fuel with
  | O => None
  | S fuel =>
    if match chunk with c :: _ => Ascii.eqb c "]" && (0 <? nrange) | [] => false end
    then Some (Some (tail chunk, mat))
    else
      match getEsc chunk with
      | None => Some None
      | Some (lo, chunk) =>
        match (if match chunk with c :: _ => Ascii.eqb c "-" | [] => false end
               then getEsc (tail chunk) else Some (lo, chunk)) with
        | None => Some None
        | Some (hi, chunk) =>
          match_ranges fuel chunk r (nrange + 1) (((lo <=? r) && (r <=? hi)) || mat)
        end
      end
  end.

Inductive chunk_result := ChunkOk (rest : bytes) | ChunkFail | ChunkBad.

(** The failed flag tells whether the match has already failed: then the loop
    only checks that the chunk is well formed. *)
Fixpoint matchChunk_loop (fuel : nat) (chunk s : bytes) (failed : bool) : option chunk_result :=
  match fuel with
  | O => None
  | S fuel =>
    match chunk with
    | [] => Some (if failed then ChunkFail else ChunkOk s)
    | c :: rest =>
      let failed := failed || match s with [] => true | _ => false end in
      if Ascii.eqb c "[" then
        let '(r, n) := if failed then (0, 0%nat) else DecodeRune s in
        let s := drop n s in
        let negated := match rest with d :: _ => Ascii.eqb d "^" | [] => false end in
        match match_ranges fuel (if negated then tail rest else rest) r 0 false with
        | None => None
        | Some None => Some ChunkBad
        | Some (Some (rest, mat)) =>
          matchChunk_loop fuel rest s (failed || Bool.eqb mat negated)
        end
      else if Ascii.eqb c "?" then
        let slash := match s with d :: _ => Ascii.eqb d Separator | [] => false end in
        let s' := if failed then s else drop (DecodeRune s).2 s in
        matchChunk_loop fuel rest s' (failed || slash)
      else
        match (if Ascii.eqb c "\" then rest else chunk) with
        | [] => Some ChunkBad
        | d :: rest =>
          let differ := match s with e :: _ => negb (Ascii.eqb d e) | [] => false end in
          let s' := if failed then s else tail s in
          matchChunk_loop fuel rest s' (failed || differ)
        end
    end
  end.

Definition matchChunk (chunk s : bytes) : option chunk_result :=
  matchChunk_loop (S (length chunk)) chunk s false.

(** ** [Match] *)

(** [MatchBad] is [ErrBadPattern]. *)
Inductive match_result := Matched | NoMatch | MatchBad.

(** The search for a match after a star: skips one byte after the other, never
    a separator.  [inl t] continues the pattern on [t]. *)
Fixpoint star_loop (chunk : bytes) (last : bool) (name : bytes) : option (bytes + match_result) :=
  match name with
  | [] => Some (inr NoMatch)
  | c :: name' =>
    if Ascii.eqb c Separator then Some (inr NoMatch)
    else
      match matchChunk chunk name' with
      | None => None
      | Some (ChunkOk t) =>
        if last && match t with [] => false | _ => true end
        then star_loop chunk last name' else Some (inl t)
      | Some ChunkBad => Some (inr MatchBad)
      | Some ChunkFail => star_loop chunk last name'
      end
  end.

(** Before reporting a mismatch the rest of the pattern is checked. *)
Fixpoint check_rest (fuel : nat) (pattern : bytes) : option match_result :=
  match fuel with
  | O => None
  | S fuel =>
    match pattern with
    | [] => Some NoMatch
    | _ =>
      let '(_, chunk, rest) := scanChunk pattern in
      match matchChunk chunk [] with
      | None => None
      | Some ChunkBad => Some MatchBad
      | Some _ => check_rest fuel rest
      end
    end
  end.

Fixpoint Match_loop (fuel : nat) (pattern name : bytes) : option match_result :=
  match fuel with
  | O => None
  | S fuel =>
    match pattern with
    | [] => Some (if match name with [] => true | _ => false end then Matched else NoMatch)
    | _ =>
      let '(star, chunk, rest) := scanChunk pattern in
      if star && match chunk with [] => true | _ => false end
      then Some (if bool_decide (Separator ∈ name) then NoMatch else Matched)
      else
        let last := match rest with [] => true | _ => false end in
        match matchChunk chunk name with
        | None => None
        | Some ChunkBad => Some MatchBad
        | Some res =>
          match (match res with
                 | ChunkOk t =>
                   if match t with [] => true | _ => false end || negb last then Some t else None
                 | _ => None
                 end) with
          | Some t => Match_loop fuel rest t
          | None =>
            if star then
              match star_loop chunk last name with
              | None => None
              | Some (inl t) => Match_loop fuel rest t
              | Some (inr NoMatch) => check_rest fuel rest
              | Some (inr r) => Some r
              end
            else check_rest fuel rest
          end
        end
    end
  end.

Definition Match (pattern name : string) : option match_result :=
  Match_loop (S (String.length pattern)) (bytes_of pattern) (bytes_of name).

(** ** Termination: the fuel is enough *)

Lemma DecodeRune_width c s : (1 <= (DecodeRune (c :: s)).2)%nat.
Proof. unfold DecodeRune. destruct (second_range (byte_val c)). repeat case_match; simpl; lia. Qed.

Lemma getEsc_shrinks chunk r nchunk :
  getEsc chunk = Some (r, nchunk) → (length nchunk < length chunk)%nat ∧ nchunk ≠ [].
Proof.
  destruct chunk as [|c rest]; [done|]. unfold getEsc.
  destruct (_ || _); [done|].
  set (k := if Ascii.eqb c "\" then rest else c :: rest).
  assert (length k <= length (c :: rest))%nat as Hk by (unfold k; case_match; simpl; lia).
  destruct k as [|d k']; [done|].
  pose proof (DecodeRune_width d k') as Hw. destruct (DecodeRune (d :: k')) as [r' n].
  case_match; [done|]. destruct (drop n (d :: k')) as [|e l] eqn:Hd; [done|].
  intros [= <- <-]. split; [|done]. rewrite <- Hd, length_drop. simpl in *. lia.
Qed.

Lemma length_tail {A} (l : list A) : length (tail l) = pred (length l).
Proof. by destruct l. Qed.

Lemma match_ranges_total fuel chunk r n m :
  (length chunk < fuel)%nat →
  ∃ res, match_ranges fuel chunk r n m = Some res ∧
    ∀ rest m', res = Some (rest, m') → (length rest <= length chunk)%nat.
Proof.
  revert chunk n m. induction fuel as [|fuel IH]; intros chunk n m Hf; [lia|]. simpl.
  case_if Hc.
  { eexists; split; [done|]. intros rest m' [= <- <-]. rewrite length_tail. lia. }
  destruct (getEsc chunk) as [[lo c1]|] eqn:E1; [|by eexists].
  apply getEsc_shrinks in E1 as [Hl1 _].
  case_if Hd.
  - destruct (getEsc (tail c1)) as [[hi c2]|] eqn:E2; [|by eexists].
    apply getEsc_shrinks in E2 as [Hl2 _]. rewrite length_tail in Hl2.
    destruct (IH c2 (n + 1) (((lo <=? r) && (r <=? hi)) || m)) as (res & Hr & Hlen); [lia|].
    exists res. split; [done|]. intros rest m' ->. specialize (Hlen _ _ eq_refl). lia.
  - destruct (IH c1 (n + 1) (((lo <=? r) && (r <=? lo)) || m)) as (res & Hr & Hlen); [lia|].
    exists res. split; [done|]. intros rest m' ->. specialize (Hlen _ _ eq_refl). lia.
Qed.

Lemma matchChunk_loop_total fuel chunk s failed :
  (length chunk < fuel)%nat → is_Some (matchChunk_loop fuel chunk s failed).
Proof.
  revert chunk s failed. induction fuel as [|fuel IH]; intros chunk s failed Hf; [lia|].
  destruct chunk as [|c rest]; [by eexists|]. cbn [matchChunk_loop]. cbv zeta. simpl in Hf.
  set (f := failed || _). destruct (Ascii.eqb c "[").
  - destruct (if f then _ else _) as [r n].
    match goal with |- context [match_ranges fuel ?k r 0 false] =>
      destruct (match_ranges_total fuel k r 0 false) as (res & -> & Hlen) end.
    { case_match; rewrite ?length_tail; lia. }
    destruct res as [[rest' m]|]; [|by eexists]. apply IH.
    specialize (Hlen _ _ eq_refl). destruct (match rest with [] => _ | _ => _ end);
      rewrite ?length_tail in Hlen; lia.
  - destruct (Ascii.eqb c "?"); [apply IH; lia|].
    destruct (Ascii.eqb c "\"); [|apply IH; lia].
    destruct rest; [by eexists|]. apply IH. simpl in Hf. lia.
Qed.

Lemma matchChunk_total chunk s : is_Some (matchChunk chunk s).
Proof. apply matchChunk_loop_total. lia. Qed.

Lemma star_loop_total chunk last name : is_Some (star_loop chunk last name).
Proof.
  induction name as [|c name IH]; simpl; [by eexists|].
  destruct (Ascii.eqb c _); [by eexists|].
  destruct (matchChunk_total chunk name) as [[t| |] ->]; [|done|by eexists].
  case_match; [done|by eexists].
Qed.

Lemma skip_stars_length p : (length (skip_stars p).2 <= length p)%nat.
Proof. induction p as [|c p IH]; simpl; [lia|]. destruct (Ascii.eqb c "*"); simpl; lia. Qed.

Lemma scan_body_length b p : (length (scan_body b p).2 <= length p)%nat.
Proof.
  revert b. induction p as [p IH] using (induction_ltof1 _ length). intros b.
  destruct p as [|c p]; [done|]. simpl.
  assert (∀ b, length (scan_body b p).2 <= length p)%nat as Hp by (apply IH; unfold ltof; simpl; lia).
  repeat case_match; simpl; rewrite ?Hp; try lia.
  assert (length (scan_body b l).2 <= length l)%nat by (apply IH; unfold ltof; simpl; lia). lia.
Qed.

Lemma scan_body_first b c p :
  Ascii.eqb c "*" = false → (length (scan_body b (c :: p)).2 <= length p)%nat.
Proof.
  intros Hc. simpl. rewrite Hc. simpl.
  destruct (Ascii.eqb c "\").
  { destruct p as [|d p]; simpl; [done|]. pose proof (scan_body_length b p). lia. }
  destruct (Ascii.eqb c "["); [apply scan_body_length|].
  destruct (Ascii.eqb c "]"); apply scan_body_length.
Qed.

(** A round of [Match] consumes some of the pattern. *)
Lemma scanChunk_shrinks c p star chunk rest :
  scanChunk (c :: p) = (star, chunk, rest) → (length rest <= length p)%nat.
Proof.
  unfold scanChunk. destruct (skip_stars (c :: p)) as [st q] eqn:Hq.
  destruct (scan_body false q) as [ch r] eqn:Hs. intros [= <- <- <-].
  simpl in Hq. destruct (Ascii.eqb c "*") eqn:Hc; injection Hq as <- <-.
  - pose proof (scan_body_length false (skip_stars p).2) as H. rewrite Hs in H.
    pose proof (skip_stars_length p). simpl in H. lia.
  - pose proof (scan_body_first false c p Hc) as H. by rewrite Hs in H.
Qed.

Lemma check_rest_total fuel p : (length p < fuel)%nat → is_Some (check_rest fuel p).
Proof.
  revert p. induction fuel as [|fuel IH]; intros p Hf; [lia|]. cbn [check_rest].
  destruct p as [|c p]; [by eexists|].
  destruct (scanChunk (c :: p)) as [[star chunk] rest] eqn:Hs.
  apply scanChunk_shrinks in Hs. simpl in Hf.
  destruct (matchChunk_total chunk []) as [[t| |] ->]; [apply IH; lia|apply IH; lia|by eexists].
Qed.

Lemma Match_loop_total fuel p name : (length p < fuel)%nat → is_Some (Match_loop fuel p name).
Proof.
  revert p name. induction fuel as [|fuel IH]; intros p name Hf; [lia|]. cbn [Match_loop].
  destruct p as [|c p]; [by eexists|].
  destruct (scanChunk (c :: p)) as [[star chunk] rest] eqn:Hs.
  apply scanChunk_shrinks in Hs. simpl in Hf.
  destruct (star && _); [by eexists|].
  set (last := match rest with [] => true | _ => false end).
  assert (is_Some (if star then match star_loop chunk last name with
      | None => None | Some (inl t) => Match_loop fuel rest t
      | Some (inr NoMatch) => check_rest fuel rest | Some (inr r) => Some r end
    else check_rest fuel rest)) as Hstar.
  { destruct star; [|apply check_rest_total; lia].
    destruct (star_loop_total chunk last name) as [[t|[]] ->];
      [apply IH; lia|by eexists|apply check_rest_total; lia|by eexists]. }
  destruct (matchChunk_total chunk name) as [[t| |] ->]; [|done|by eexists].
  destruct (_ || _); [apply IH; lia|done].
Qed.

Lemma length_bytes_of s : length (bytes_of s) = String.length s.
Proof. induction s as [|c s IH]; simpl; [done|]. by rewrite <- IH. Qed.

Lemma Match_total pattern name : is_Some (Match pattern name).
Proof. apply Match_loop_total. rewrite length_bytes_of. lia. Qed.

(** ** Literals and single stars *)

Definition lit (c : ascii) : bool :=
  negb (Ascii.eqb c "*" || Ascii.eqb c "?" || Ascii.eqb c "[" || Ascii.eqb c "\").

(** A pattern without meta characters. *)
Definition literal (p : bytes) : Prop := Forall (λ c, lit c = true) p.
#[export] Instance literal_dec p : Decision (literal p).
Proof. unfold literal. apply _. Defined.

Definition no_slash (w : bytes) : Prop := Separator ∉ w.
#[export] Instance no_slash_dec w : Decision (no_slash w).
Proof. unfold no_slash. apply _. Defined.

Fixpoint strip (p s : bytes) : option bytes :=
  match p, s with
  | [], _ => Some s
  | c :: p, d :: s => if Ascii.eqb c d then strip p s else None
  | _ :: _, [] => None
  end.

Lemma strip_Some p s t : strip p s = Some t ↔ s = p ++ t.
Proof.
  revert s. induction p as [|c p IH]; intros s; simpl; [naive_solver|].
  destruct s as [|d s]; [done|]. destruct (Ascii.eqb c d) eqn:Hc.
  - apply Ascii.eqb_eq in Hc as ->. rewrite IH. split; [by intros ->|by intros [= ->]].
  - apply Ascii.eqb_neq in Hc. split; [done|by intros [= -> _]].
Qed.

Lemma lit_inv c : lit c = true →
  Ascii.eqb c "*" = false ∧ Ascii.eqb c "?" = false ∧ Ascii.eqb c "[" = false ∧
  Ascii.eqb c "\" = false.
Proof. unfold lit. intros H. bool_to_prop. done. Qed.

Lemma matchChunk_loop_literal fuel p s failed :
  literal p → (length p < fuel)%nat →
  matchChunk_loop fuel p s failed =
    Some (if failed then ChunkFail
          else match strip p s with Some t => ChunkOk t | None => ChunkFail end).
Proof.
  intros Hp. revert fuel s failed.
  induction Hp as [|c p Hc Hp IH]; intros [|fuel] s failed Hf; try (simpl in Hf; lia).
  { by destruct failed. }
  cbn [matchChunk_loop]. cbv zeta. simpl in Hf.
  apply lit_inv in Hc as (_ & Hq & Hb & He). rewrite Hq, Hb, He, IH by lia.
  destruct failed, s as [|d s]; simpl; try done.
  by destruct (Ascii.eqb c d).
Qed.

Lemma matchChunk_literal p s :
  literal p →
  matchChunk p s = Some (match strip p s with Some t => ChunkOk t | None => ChunkFail end).
Proof. intros Hp. unfold matchChunk. rewrite matchChunk_loop_literal by (done || lia). done. Qed.

Lemma scan_body_literal p rest :
  literal p → scan_body false (p ++ rest) = prepend p (scan_body false rest).
Proof.
  unfold prepend. induction 1 as [|c p Hc Hp IH]; [by destruct (scan_body _ _)|].
  rewrite <- app_comm_cons. cbn [scan_body]. rewrite IH.
  apply lit_inv in Hc as (Hs & _ & Hb & He). rewrite Hs, Hb, He. simpl.
  by destruct (Ascii.eqb c "]").
Qed.

Lemma literal_not_star p c q : literal p → p = c :: q → Ascii.eqb c "*" = false.
Proof. intros Hp ->. apply Forall_cons in Hp as [Hc _]. by apply lit_inv in Hc as [? _]. Qed.

Lemma skip_stars_literal p rest c q :
  literal p → p = c :: q → skip_stars (p ++ rest) = (false, p ++ rest).
Proof. intros Hp ->. simpl. by rewrite (literal_not_star _ _ _ Hp eq_refl). Qed.

(** A pattern that starts with a literal. *)
Lemma scanChunk_literal p rest :
  literal p → p ≠ [] →
  scanChunk (p ++ rest) = (false, p ++ (scan_body false rest).1, (scan_body false rest).2).
Proof.
  intros Hp Hne. destruct p as [|c q]; [done|]. unfold scanChunk.
  rewrite (skip_stars_literal _ _ _ _ Hp eq_refl), scan_body_literal by done. done.
Qed.

(** A star followed by a literal. *)
Lemma scanChunk_star q : literal q → scanChunk ("*"%char :: q) = (true, q, []).
Proof.
  intros Hq. unfold scanChunk. cbn [skip_stars]. simpl.
  assert ((skip_stars q).2 = q) as ->.
  { destruct q as [|c q]; [done|]. simpl. by rewrite (literal_not_star _ _ _ Hq eq_refl). }
  pose proof (scan_body_literal q [] Hq) as H. rewrite app_nil_r in H. rewrite H. simpl.
  by rewrite app_nil_r.
Qed.

Lemma check_rest_not_matched fuel p : check_rest fuel p ≠ Some Matched.
Proof.
  revert p. induction fuel as [|fuel IH]; intros p; cbn [check_rest]; [done|].
  destruct p as [|c p]; [done|]. destruct (scanChunk _) as [[? chunk] rest].
  by destruct (matchChunk chunk []) as [[]|].
Qed.

Lemma no_slash_app w v : no_slash (w ++ v) ↔ no_slash w ∧ no_slash v.
Proof. unfold no_slash. rewrite elem_of_app. naive_solver. Qed.
Lemma no_slash_cons c w : no_slash (c :: w) ↔ c ≠ Separator ∧ no_slash w.
Proof. unfold no_slash. rewrite elem_of_cons. naive_solver. Qed.

(** The bytes a star may skip before a literal that ends the pattern. *)
Lemma star_loop_literal q name :
  literal q →
  match star_loop q true name with
  | Some (inl t) => t = [] ∧ ∃ c w, name = c :: w ++ q ∧ no_slash (c :: w)
  | Some (inr r) => r = NoMatch ∧ ¬ ∃ c w, name = c :: w ++ q ∧ no_slash (c :: w)
  | None => False
  end.
Proof.
  intros Hq. induction name as [|c name IH]; simpl; [naive_solver|].
  destruct (Ascii.eqb c Separator) eqn:Hc.
  { apply Ascii.eqb_eq in Hc as ->. split; [done|].
    intros (c & w & [= <- _] & Hns). by apply no_slash_cons in Hns as [? _]. }
  apply Ascii.eqb_neq in Hc. rewrite matchChunk_literal by done.
  assert (∀ w, name = w ++ q → (∃ t, w = [] ∧ t = name) ∨ ∃ d w', w = d :: w' ∧ name = d :: w' ++ q) as Hw.
  { intros [|d w'] ->; eauto. }
  assert ((∃ d w, c :: name = d :: w ++ q ∧ no_slash (d :: w)) ↔
    name = q ∨ ∃ d w, name = d :: w ++ q ∧ no_slash (d :: w)) as Hiff.
  { split.
    - intros (d & w & [= <- ->] & Hns). apply no_slash_cons in Hns as [_ Hns].
      destruct w as [|d w]; [by left|right]. eauto.
    - intros [->|(d & w & -> & Hns)].
      + exists c, []. split; [done|]. apply no_slash_cons. split; [done|]. apply not_elem_of_nil.
      + exists c, (d :: w). split; [done|]. by apply no_slash_cons. }
  destruct (strip q name) as [[|d t]|] eqn:Hs; simpl.
  - apply strip_Some in Hs. rewrite app_nil_r in Hs. split; [done|]. apply Hiff. by left.
  - apply strip_Some in Hs.
    assert (name ≠ q) as Hne.
    { intros ->. apply (f_equal length) in Hs. rewrite length_app in Hs. simpl in Hs. lia. }
    destruct (star_loop q true name) as [[t'|r]|]; [| |done]; rewrite Hiff; naive_solver.
  - assert (name ≠ q) as Hne.
    { intros ->. assert (strip q q = Some []) by (apply strip_Some; by rewrite app_nil_r). congruence. }
    destruct (star_loop q true name) as [[t'|r]|]; [| |done]; rewrite Hiff; naive_solver.
Qed.

Lemma Match_loop_nil fuel v :
  Match_loop (S fuel) [] v = Some Matched ↔ v = [].
Proof. simpl. by destruct v. Qed.

Lemma Match_loop_star fuel q v :
  literal q →
  Match_loop (S (S fuel)) ("*"%char :: q) v = Some Matched ↔ ∃ w, v = w ++ q ∧ no_slash w.
Proof.
  intros Hq. cbn [Match_loop]. rewrite scanChunk_star by done. cbv zeta.
  destruct q as [|d q].
  { simpl. setoid_rewrite app_nil_r. unfold no_slash. case_bool_decide; naive_solver. }
  remember (d :: q) as q' eqn:Hq'. rewrite matchChunk_literal by done.
  replace (true && match q' with [] => true | _ => false end) with false by by subst.
  pose proof (star_loop_literal q' v Hq) as Hstar.
  assert ((∃ w, v = w ++ q' ∧ no_slash w) ↔
    v = q' ∨ ∃ c w, v = c :: w ++ q' ∧ no_slash (c :: w)) as Hiff.
  { split.
    - intros ([|c w] & -> & Hns); eauto 10.
    - intros [->|(c & w & -> & Hns)]; [exists []|exists (c :: w)]; (split; [done|]); [|done].
      apply not_elem_of_nil. }
  rewrite Hiff.
  destruct (strip q' v) as [[|e t]|] eqn:Hs; cbn [orb negb].
  - apply strip_Some in Hs. rewrite app_nil_r in Hs. split; [by left|by subst v].
  - apply strip_Some in Hs.
    assert (v ≠ q') as Hne.
    { intros ->. apply (f_equal length) in Hs. rewrite length_app in Hs. simpl in Hs. lia. }
    destruct (star_loop q' true v) as [[t'|r]|]; [| |done].
    + destruct Hstar as [-> ?]. simpl. naive_solver.
    + destruct Hstar as [-> ?]. simpl. naive_solver.
  - assert (v ≠ q') as Hne.
    { intros ->. assert (strip q' q' = Some []) by (apply strip_Some; by rewrite app_nil_r). congruence. }
    destruct (star_loop q' true v) as [[t'|r]|]; [| |done].
    + destruct Hstar as [-> ?]. simpl. naive_solver.
    + destruct Hstar as [-> ?]. simpl. naive_solver.
Qed.

(** A round on a leading literal. *)
Lemma Match_loop_literal_prefix fuel p rest v :
  literal p → (rest = [] ∨ ∃ q, rest = "*"%char :: q) → p ≠ [] →
  Match_loop (S fuel) (p ++ rest) v = Some Matched ↔
    ∃ t, v = p ++ t ∧ (rest = [] → t = []) ∧ Match_loop fuel rest t = Some Matched.
Proof.
  intros Hp Hrest Hne. destruct p as [|e p']; [done|]. remember (e :: p') as p eqn:Hpe.
  assert (scanChunk (p ++ rest) = (false, p, rest)) as Hs.
  { rewrite scanChunk_literal by (subst; done).
    destruct Hrest as [->|[q ->]]; simpl; by rewrite app_nil_r. }
  assert (∃ d l, p ++ rest = d :: l) as (d & l & Hdl) by (subst p; eauto).
  cbn [Match_loop]. rewrite Hdl. rewrite <- Hdl, Hs. cbv zeta. simpl (false && _).
  cbn iota. rewrite matchChunk_literal by done.
  destruct (strip p v) as [t|] eqn:Hst.
  - apply strip_Some in Hst. destruct (match t with [] => true | _ => false end || _) eqn:Hc.
    + split.
      * intros Hm. exists t. split_and!; [done| |done]. intros ->. by destruct t.
      * intros (t' & -> & _ & Hm). by apply app_inv_head in Hst as ->.
    + split; [by intros ?%check_rest_not_matched|].
      intros (t' & -> & Hnil & _). apply app_inv_head in Hst as ->.
      destruct rest; [|destruct t; done]. by rewrite Hnil in Hc by done.
  - split; [by intros ?%check_rest_not_matched|].
    intros (t & Ht & _). apply strip_Some in Ht. congruence.
Qed.

Lemma Match_loop_literal fuel p v :
  literal p → (1 < fuel)%nat → Match_loop fuel p v = Some Matched ↔ v = p.
Proof.
  intros Hp Hf. destruct fuel as [|[|fuel]]; [lia..|].
  destruct p as [|c p]; [apply Match_loop_nil|].
  rewrite <- (app_nil_r (c :: p)) at 1.
  rewrite (Match_loop_literal_prefix _ _ []) by auto.
  setoid_rewrite Match_loop_nil. split.
  - intros (t & -> & _ & ->). by rewrite app_nil_r.
  - intros ->. exists []. by rewrite app_nil_r.
Qed.

Lemma Match_loop_one_star fuel p q v :
  literal p → literal q → (2 < fuel)%nat →
  Match_loop fuel (p ++ "*"%char :: q) v = Some Matched ↔
    ∃ w, v = p ++ w ++ q ∧ no_slash w.
Proof.
  intros Hp Hq Hf. destruct fuel as [|[|[|fuel]]]; [lia..|].
  destruct p as [|c p]; [by apply Match_loop_star|].
  rewrite Match_loop_literal_prefix by eauto.
  assert (∀ t, Match_loop (S (S fuel)) ("*"%char :: q) t = Some Matched ↔
    ∃ w, t = w ++ q ∧ no_slash w) as Hst by (intros t; by apply Match_loop_star).
  setoid_rewrite Hst. split.
  - intros (t & -> & _ & w & -> & Hns). eauto.
  - intros (w & -> & Hns). exists (w ++ q). split_and!; [done|done|by exists w].
Qed.

(** ** The same for strings *)

Definition literal_str (p : string) : Prop := literal (bytes_of p).
Definition no_slash_str (w : string) : Prop := no_slash (bytes_of w).
#[export] Instance literal_str_dec p : Decision (literal_str p).
Proof. unfold literal_str. apply _. Defined.
#[export] Instance no_slash_str_dec w : Decision (no_slash_str w).
Proof. unfold no_slash_str. apply _. Defined.

Definition string_of (b : bytes) : string := String.string_of_list_ascii b.
Lemma bytes_of_string_of b : bytes_of (string_of b) = b.
Proof. apply String.list_ascii_of_string_of_list_ascii. Qed.
Lemma string_of_bytes_of s : string_of (bytes_of s) = s.
Proof. apply String.string_of_list_ascii_of_string. Qed.
#[export] Instance bytes_of_inj : Inj (=) (=) bytes_of.
Proof. intros s t H. by rewrite <- (string_of_bytes_of s), H, string_of_bytes_of. Qed.
Lemma bytes_of_app s t : bytes_of (s +:+ t) = bytes_of s ++ bytes_of t.
Proof. induction s as [|c s IH]; simpl; [done|]. unfold bytes_of in *. simpl. by rewrite IH. Qed.

Lemma Match_literal p v :
  literal_str p → Match p v = Some Matched ↔ v = p.
Proof.
  intros Hp. destruct (decide (p = "")) as [->|Hne].
  { unfold Match. simpl. destruct v; simpl; naive_solver. }
  unfold Match. rewrite Match_loop_literal; [|done|by destruct p; simpl; [|lia]].
  split; [apply (inj _)|by intros ->].
Qed.

Lemma Match_one_star p q v :
  literal_str p → literal_str q → p ≠ "" ∨ q ≠ "" →
  Match (p +:+ "*" +:+ q) v = Some Matched ↔ ∃ w, v = p +:+ w +:+ q ∧ no_slash_str w.
Proof.
  intros Hp Hq Hne. unfold Match. rewrite !bytes_of_app.
  change (bytes_of "*" ++ bytes_of q) with ("*"%char :: bytes_of q).
  rewrite Match_loop_one_star; [|done..|].
  - split.
    + intros (w & Hv & Hns). exists (string_of w). unfold no_slash_str.
      rewrite bytes_of_string_of. split; [|done]. apply (inj bytes_of).
      by rewrite !bytes_of_app, bytes_of_string_of.
    + intros (w & -> & Hns). exists (bytes_of w). by rewrite !bytes_of_app.
  - rewrite <- length_bytes_of, !bytes_of_app, !length_app, !length_bytes_of. simpl.
    destruct Hne as [H|H]; [destruct p|destruct q]; simpl; try done; lia.
Qed.
