(* ===== verification/GoMux.v ===== *)
(** * Routing of Go's [net/http]: [ServeMux] with method patterns

    What [src/internal/api/server.go] and [src/internal/health/health.go] use of
    it: percent-decoding of path segments ([net/url]), [path.Clean] for rooted
    paths, patterns of literal segments and single-segment wildcards with a
    method, and the catch-all pattern ["/"].  Requests are those with a path
    (neither [CONNECT] nor ["*"]). *)
From stdpp Require Import gmap strings list.
From Stdlib Require Import ZArith Lia Ascii.
From S2P Require Import Prelude GoStd GoMatch.

Local Open Scope Z_scope.

(** ** Percent-encoding *)

Definition hex_value (c : ascii) : option Z :=
  let n := byte_val c in
  if (48 <=? n) && (n <=? 57) then Some (n - 48)
  else if (97 <=? n) && (n <=? 102) then Some (n - 87)
  else if (65 <=? n) && (n <=? 70) then Some (n - 55)
  else None.

Definition byte_of (z : Z) : ascii := ascii_of_nat (Z.to_nat z).

(** [url.PathUnescape]: [None] is its error. *)
Fixpoint PathUnescape (s : bytes) : option bytes :=
  match s with
  | [] => Some []
  | c :: s =>
    if Ascii.eqb c "%" then
      match s with
      | h :: l :: s => hi ← hex_value h; lo ← hex_value l; rest ← PathUnescape s;
                       Some (byte_of (16 * hi + lo) :: rest)
      | _ => None
      end
    else rest ← PathUnescape s; Some (c :: rest)
  end.

(** [pathUnescape] of [net/http]: an invalid segment stands for itself. *)
Definition pathUnescape (s : bytes) : bytes := default s (PathUnescape s).

(** ** Paths *)

Definition slash : ascii := "/".

(** The text between slashes, as [strings.Split] gives it. *)
Fixpoint split_slash (s : bytes) : list bytes :=
  match s with
  | [] => [[]]
  | c :: s =>
    if Ascii.eqb c slash then [] :: split_slash s
    else match split_slash s with
         | part :: parts => (c :: part) :: parts
         | [] => [[c]]
         end
  end.

(** The segments of a rooted path, as [firstSegment] takes them off: decoded, and
    ["/"] for a trailing slash. *)
Fixpoint segments_of (parts : list bytes) : list bytes :=
  match parts with
  | [] => []
  | [[]] => [[slash]]
  | p :: parts => pathUnescape p :: segments_of parts
  end.

Definition segments (path : bytes) : list bytes := segments_of (tail (split_slash path)).

(** [path.Clean] of a rooted path: empty and ["."] elements go, [".."] takes the
    element before it away; [acc] has the elements so far, last first. *)
Fixpoint clean_parts (acc parts : list bytes) : list bytes :=
  match parts with
  | [] => reverse acc
  | p :: parts =>
    if decide (p = [] ∨ p = bytes_of ".") then clean_parts acc parts
    else if decide (p = bytes_of "..") then clean_parts (tail acc) parts
    else clean_parts (p :: acc) parts
  end.

Definition join_parts (parts : list bytes) : bytes :=
  match parts with [] => [slash] | _ => concat (map (cons slash) parts) end.

(** [cleanPath] of [net/http], for a path that begins with a slash. *)
Definition cleanPath (path : bytes) : bytes :=
  let np := join_parts (clean_parts [] (split_slash path)) in
  if bool_decide (last path = Some slash) && bool_decide (np ≠ [slash]) then np ++ [slash] else np.

(** ** Patterns *)

Inductive pat_seg := Lit (s : bytes) | Wild (name : string).

#[export] Instance pat_seg_eq_dec : EqDecision pat_seg.
Proof. solve_decision. Defined.

(** The values of the wildcards, or [None] when the path does not match.  A
    wildcard matches one segment other than a trailing slash. *)
Fixpoint match_segs (pat : list pat_seg) (segs : list bytes) : option (list (string * string)) :=
  match pat, segs with
  | [], [] => Some []
  | Lit l :: pat, s :: segs => if decide (s = l) then match_segs pat segs else None
  | Wild n :: pat, s :: segs =>
    if decide (s = [slash]) then None
    else vs ← match_segs pat segs; Some ((n, string_of s) :: vs)
  | _, _ => None
  end.

(** A registered pattern: the method and path before its handler. *)
Record mux_route {A : Type} := mkMuxRoute { mr_method : string; mr_pat : list pat_seg; mr_handler : A }.
Arguments mux_route : clear implicits.
Arguments mkMuxRoute {A}.

(** A pattern for GET also matches HEAD. *)
Definition method_matches (pat req : string) : bool :=
  String.eqb pat req || (String.eqb pat "GET" && String.eqb req "HEAD").

Fixpoint match_routes {A} (routes : list (mux_route A)) (method : string) (segs : list bytes)
    : option (A * list (string * string)) :=
  match routes with
  | [] => None
  | r :: routes =>
    match (if method_matches (mr_method r) method then match_segs (mr_pat r) segs else None) with
    | Some vs => Some (mr_handler r, vs)
    | None => match_routes routes method segs
    end
  end.

(** What [ServeMux] does with a request: redirect to the clean path, call a
    handler with its path values, or call the handler of ["/"].  More specific
    patterns go first; [routes_exclusive] below makes the order immaterial. *)
Inductive dispatch {A : Type} :=
| Redirect (path : bytes)
| Handle (h : A) (values : list (string * string))
| CatchAll.
Arguments dispatch : clear implicits.

Definition ServeMux {A} (routes : list (mux_route A)) (method : string) (path : bytes) : dispatch A :=
  if decide (cleanPath path = path) then
    match match_routes routes method (segments path) with
    | Some (h, vs) => Handle h vs
    | None => CatchAll
    end
  else Redirect (cleanPath path).

(** ** Patterns as they are written: ["METHOD /path/{name}"] *)

Definition parse_seg (s : bytes) : pat_seg :=
  match s with
  | c :: rest =>
    if Ascii.eqb c "{" && bool_decide (last rest = Some "}"%char)
    then Wild (string_of (take (length rest - 1) rest)) else Lit s
  | [] => Lit s
  end.

Fixpoint split_space (s : bytes) : bytes * bytes :=
  match s with
  | [] => ([], [])
  | c :: s => if Ascii.eqb c " " then ([], s) else let '(a, b) := split_space s in (c :: a, b)
  end.

Definition HandleFunc {A} (pattern : string) (h : A) : mux_route A :=
  let '(method, path) := split_space (bytes_of pattern) in
  mkMuxRoute (string_of method) (map parse_seg (tail (split_slash path))) h.

(** [Request.PathValue]. *)
Definition path_value (values : list (string * string)) (name : string) : string :=
  match list_find (λ nv, nv.1 = name) values with Some (_, nv) => nv.2 | None => "" end.

(** ** The inverse: building a path for a pattern *)

Definition hex_digit (z : Z) : ascii := byte_of (if z <? 10 then 48 + z else 55 + z).

(** Every byte as [%XX]. *)
Definition escape_all (s : bytes) : bytes :=
  concat (map (λ c, ["%"%char; hex_digit (byte_val c / 16); hex_digit (byte_val c mod 16)]) s).

(** The path that fills the wildcards of a pattern with the given values. *)
Fixpoint fill (pat : list pat_seg) (vals : list bytes) : list bytes :=
  match pat, vals with
  | Lit l :: pat, _ => l :: fill pat vals
  | Wild _ :: pat, v :: vals => escape_all v :: fill pat vals
  | _, _ => []
  end.

Definition url_for (pat : list pat_seg) (vals : list bytes) : bytes := join_parts (fill pat vals).

(** ** Decoding undoes encoding *)

Lemma hex_roundtrip c :
  hex_value (hex_digit (byte_val c / 16)) = Some (byte_val c / 16) ∧
  hex_value (hex_digit (byte_val c mod 16)) = Some (byte_val c mod 16) ∧
  byte_of (16 * (byte_val c / 16) + byte_val c mod 16) = c ∧
  hex_digit (byte_val c / 16) ≠ slash ∧ hex_digit (byte_val c mod 16) ≠ slash.
Proof. destruct c as [[] [] [] [] [] [] [] []]; vm_compute; split_and!; congruence. Qed.

Lemma PathUnescape_escape s : PathUnescape (escape_all s) = Some s.
Proof.
  unfold escape_all. induction s as [|c s IH]; [done|]. cbn [map concat app PathUnescape].
  destruct (hex_roundtrip c) as (Hh & Hl & Hc & _). rewrite Ascii.eqb_refl, Hh, Hl, IH.
  cbn [mbind option_bind]. by rewrite Hc.
Qed.

Definition no_slash_seg (p : bytes) : Prop := slash ∉ p.

Lemma escape_all_no_slash s : no_slash_seg (escape_all s).
Proof.
  unfold no_slash_seg, escape_all. induction s as [|c s IH]; [apply not_elem_of_nil|].
  cbn [map concat app]. rewrite !not_elem_of_cons. destruct (hex_roundtrip c) as (_ & _ & _ & H1 & H2).
  split_and!; [discriminate|congruence|congruence|done].
Qed.

(** ** Splitting, cleaning and decoding a path made of its parts *)

Lemma split_slash_app p s : no_slash_seg p → split_slash (p ++ slash :: s) = p :: split_slash s.
Proof.
  unfold no_slash_seg. induction p as [|c p IH]; intros Hp; [done|].
  apply not_elem_of_cons in Hp as [Hc Hp]. cbn [app split_slash].
  rewrite (proj2 (Ascii.eqb_neq _ _)) by congruence. by rewrite IH.
Qed.

Lemma split_slash_one p : no_slash_seg p → split_slash p = [p].
Proof.
  unfold no_slash_seg. induction p as [|c p IH]; intros Hp; [done|].
  apply not_elem_of_cons in Hp as [Hc Hp]. cbn [split_slash].
  rewrite (proj2 (Ascii.eqb_neq _ _)) by congruence. by rewrite IH.
Qed.

Lemma split_slash_concat p parts :
  Forall no_slash_seg (p :: parts) → split_slash (p ++ concat (map (cons slash) parts)) = p :: parts.
Proof.
  revert p. induction parts as [|q parts IH]; intros p [Hp Hps]%Forall_cons; cbn [map concat].
  - rewrite app_nil_r. by apply split_slash_one.
  - rewrite <- app_comm_cons, split_slash_app by done. by rewrite IH.
Qed.

(** An element [path.Clean] keeps. *)
Definition plain (p : bytes) : Prop := no_slash_seg p ∧ p ≠ [] ∧ p ≠ bytes_of "." ∧ p ≠ bytes_of "..".

Lemma plain_no_slash parts : Forall plain parts → Forall no_slash_seg parts.
Proof. intros Hp. eapply Forall_impl; [exact Hp|]. by intros p [? _]. Qed.

Lemma split_slash_join parts : Forall plain parts → parts ≠ [] → split_slash (join_parts parts) = [] :: parts.
Proof.
  intros Hp Hne. unfold join_parts. destruct parts as [|p parts]; [done|].
  apply (split_slash_concat []). constructor; [apply not_elem_of_nil|by apply plain_no_slash].
Qed.

Lemma clean_parts_plain acc parts : Forall plain parts → clean_parts acc parts = reverse acc ++ parts.
Proof.
  intros Hp. revert acc. induction Hp as [|p parts (_ & H1 & H2 & H3) _ IH]; intros acc; simpl.
  - by rewrite app_nil_r.
  - rewrite decide_False by tauto. rewrite decide_False by done. rewrite IH, reverse_cons.
    by rewrite <- app_assoc.
Qed.

Lemma last_join parts : Forall plain parts → parts ≠ [] → last (join_parts parts) ≠ Some slash.
Proof.
  intros Hp Hne. destruct (exists_last Hne) as (init & p & ->). apply Forall_app in Hp as [_ Hp].
  apply Forall_singleton in Hp as (Hs & Hn & _).
  assert (join_parts (init ++ [p]) = concat (map (cons slash) init) ++ slash :: p) as ->.
  { transitivity (concat (map (cons slash) (init ++ [p]))); [by destruct init|].
    rewrite map_app, concat_app. simpl. by rewrite app_nil_r. }
  destruct (exists_last Hn) as (q & c & ->). rewrite app_comm_cons, app_assoc, last_snoc.
  intros [= ->]. apply Hs, elem_of_app. right. left.
Qed.

Lemma cleanPath_join parts : Forall plain parts → parts ≠ [] → cleanPath (join_parts parts) = join_parts parts.
Proof.
  intros Hp Hne. unfold cleanPath. rewrite split_slash_join by done. cbn [clean_parts].
  rewrite decide_True by by left. rewrite clean_parts_plain by done. cbn [reverse app].
  rewrite bool_decide_false by by apply last_join. done.
Qed.

Lemma segments_of_plain parts : Forall plain parts → segments_of parts = map pathUnescape parts.
Proof.
  induction 1 as [|p parts (_ & Hn & _) _ IH]; [done|]. cbn [segments_of map].
  destruct p as [|c p]; [done|]. by rewrite IH.
Qed.

Lemma segments_join parts : Forall plain parts → parts ≠ [] → segments (join_parts parts) = map pathUnescape parts.
Proof.
  intros Hp Hne. unfold segments. rewrite split_slash_join by done. by apply segments_of_plain.
Qed.

(** ** A path built for a pattern matches it, with the values put in *)

Definition wild_names (pat : list pat_seg) : list string :=
  omap (λ p, match p with Wild n => Some n | Lit _ => None end) pat.

(** Literals that stand for themselves in a path. *)
Definition lit_ok (p : pat_seg) : Prop :=
  match p with Lit l => plain l ∧ PathUnescape l = Some l | Wild _ => True end.

#[export] Instance plain_dec p : Decision (plain p).
Proof. unfold plain, no_slash_seg. apply _. Defined.

#[export] Instance lit_ok_dec p : Decision (lit_ok p).
Proof. destruct p; simpl; apply _. Defined.

(** A value that can be sent in a path. *)
Definition sendable (v : bytes) : Prop := v ≠ [] ∧ v ≠ [slash].

Lemma escape_plain v : v ≠ [] → plain (escape_all v).
Proof.
  intros Hv. split; [apply escape_all_no_slash|]. destruct v as [|c v]; [done|].
  unfold escape_all. cbn [map concat app]. split_and!; discriminate.
Qed.

Lemma fill_plain pat vals :
  Forall lit_ok pat → Forall sendable vals → length vals = length (wild_names pat) →
  Forall plain (fill pat vals).
Proof.
  intros Hpat. revert vals. induction Hpat as [|[l|n] pat Hl _ IH]; intros vals Hv Hlen; simpl in *.
  - constructor.
  - constructor; [apply Hl|]. by apply IH.
  - destruct vals as [|v vals]; [done|]. apply Forall_cons in Hv as [[Hv _] Hvs].
    constructor; [by apply escape_plain|]. apply IH; [done|]. simpl in Hlen. lia.
Qed.

Lemma match_fill pat vals :
  Forall lit_ok pat → Forall sendable vals → length vals = length (wild_names pat) →
  match_segs pat (map pathUnescape (fill pat vals)) = Some (zip (wild_names pat) (string_of <$> vals)).
Proof.
  intros Hpat. revert vals. induction Hpat as [|[l|n] pat Hl _ IH]; intros vals Hv Hlen; simpl in *.
  - by destruct vals.
  - rewrite decide_True by (unfold pathUnescape; by destruct Hl as [_ ->]). by apply IH.
  - destruct vals as [|v vals]; [done|]. apply Forall_cons in Hv as [[Hv Hs] Hvs]. cbn [map match_segs].
    assert (pathUnescape (escape_all v) = v) as -> by (unfold pathUnescape; by rewrite PathUnescape_escape).
    rewrite decide_False by done. rewrite IH; [done|done|]. simpl in Hlen. lia.
Qed.

(** ** Exclusive patterns: the order of registration does not matter *)

Fixpoint disjoint_pats (p q : list pat_seg) : bool :=
  match p, q with
  | [], [] => false
  | Lit l :: p, Lit k :: q => negb (bool_decide (l = k)) || disjoint_pats p q
  | _ :: p, _ :: q => disjoint_pats p q
  | _, _ => true
  end.

Lemma disjoint_pats_sound p q segs vs ws :
  disjoint_pats p q = true → match_segs p segs = Some vs → match_segs q segs ≠ Some ws.
Proof.
  revert q segs vs ws. induction p as [|[l|n] p IH]; intros q [|s segs] vs ws Hd; simpl; try done.
  - by destruct q as [|[] ?].
  - destruct q as [|[k|m] q]; simpl in Hd |- *; [done|..].
    + destruct (decide (s = l)) as [Hl|]; [|done]. destruct (decide (s = k)) as [Hk|]; [|done].
      rewrite bool_decide_true in Hd by congruence. by apply IH.
    + destruct (decide (s = l)); [|done]. destruct (decide (s = [slash])); [done|].
      intros Hp (ws' & Hq & _)%bind_Some. by eapply IH.
  - destruct (decide (s = [slash])); [done|]. intros (vs' & Hp & _)%bind_Some.
    destruct q as [|[k|m] q]; simpl in Hd |- *; [done|..].
    + destruct (decide (s = k)); [|done]. by eapply IH.
    + destruct (decide (s = [slash])); [done|]. intros (ws' & Hq & _)%bind_Some. by eapply IH.
Qed.

Section exclusive.
Context {A : Type}.
Implicit Types r : mux_route A.

Definition routes_disjoint r1 r2 : bool :=
  (negb (String.eqb (mr_method r1) (mr_method r2)) &&
   negb (String.eqb (mr_method r1) "HEAD") && negb (String.eqb (mr_method r2) "HEAD")) ||
  disjoint_pats (mr_pat r1) (mr_pat r2).

Definition route_match r (method : string) (segs : list bytes) : option (A * list (string * string)) :=
  if method_matches (mr_method r) method
  then vs ← match_segs (mr_pat r) segs; Some (mr_handler r, vs) else None.

Lemma match_routes_omap routes method segs :
  match_routes routes method segs = head (omap (λ r, route_match r method segs) routes).
Proof.
  induction routes as [|r routes IH]; [done|]. rewrite omap_cons. cbn [match_routes]. unfold route_match at 1.
  destruct (method_matches _ _); [|done]. by destruct (match_segs _ _).
Qed.

Lemma routes_disjoint_sound r1 r2 method segs x y :
  routes_disjoint r1 r2 = true → route_match r1 method segs = Some x → route_match r2 method segs ≠ Some y.
Proof.
  unfold route_match, method_matches. intros Hd H1 H2.
  destruct (String.eqb (mr_method r1) method || _) eqn:M1 in H1; [|done].
  destruct (String.eqb (mr_method r2) method || _) eqn:M2 in H2; [|done].
  apply bind_Some in H1 as (v1 & H1 & _). apply bind_Some in H2 as (v2 & H2 & _).
  unfold routes_disjoint in Hd. apply orb_true_iff in Hd as [Hd|Hd]; [|by eapply disjoint_pats_sound].
  apply andb_true_iff in Hd as [[Hm H1h]%andb_true_iff H2h]. bool_to_prop.
  apply orb_true_iff in M1 as [M1|M1], M2 as [M2|M2]; bool_to_prop; congruence.
Qed.

(** Any two routes of the table are exclusive. *)
Definition exclusive (routes : list (mux_route A)) : Prop :=
  ForallOrdPairs (λ r1 r2, routes_disjoint r1 r2 = true) routes.

Lemma exclusive_one routes method segs :
  exclusive routes → (length (omap (λ r, route_match r method segs) routes) <= 1)%nat.
Proof.
  induction 1 as [|r routes Hr _ IH]; [simpl; lia|]. rewrite omap_cons.
  destruct (route_match r method segs) as [x|] eqn:Hx; [|done]. simpl.
  destruct (omap _ routes) as [|y ys] eqn:Hy; [done|]. exfalso.
  assert (y ∈ omap (λ r, route_match r method segs) routes) as (r2 & Hin & H2)%list_elem_of_omap
    by (rewrite Hy; left).
  rewrite Forall_forall in Hr. by eapply routes_disjoint_sound; [apply Hr| |].
Qed.

(** Every registration order routes alike. *)
Lemma exclusive_perm routes routes' method segs :
  exclusive routes → routes' ≡ₚ routes → match_routes routes' method segs = match_routes routes method segs.
Proof.
  intros Hex Hp. rewrite !match_routes_omap. pose proof (exclusive_one routes method segs Hex) as Hlen.
  assert (omap (λ r, route_match r method segs) routes' ≡ₚ omap (λ r, route_match r method segs) routes) as Ho
    by by rewrite Hp.
  destruct (omap _ routes) as [|x [|? ?]]; simpl in Hlen; [|..|lia].
  - by apply Permutation_nil_r in Ho as ->.
  - by apply Permutation_singleton_r in Ho as ->.
Qed.

Lemma match_routes_Some routes method segs h vs :
  exclusive routes →
  match_routes routes method segs = Some (h, vs) ↔
  ∃ r, r ∈ routes ∧ mr_handler r = h ∧ method_matches (mr_method r) method = true ∧ match_segs (mr_pat r) segs = Some vs.
Proof.
  intros Hex. rewrite match_routes_omap. pose proof (exclusive_one routes method segs Hex) as Hlen.
  assert ((h, vs) ∈ omap (λ r, route_match r method segs) routes ↔
    ∃ r, r ∈ routes ∧ mr_handler r = h ∧ method_matches (mr_method r) method = true ∧
         match_segs (mr_pat r) segs = Some vs) as <-.
  { rewrite list_elem_of_omap. unfold route_match. split.
    - intros (r & Hin & Hr). exists r. destruct (method_matches _ _); [|done].
      apply bind_Some in Hr as (vs' & Hm & [= <- <-]). done.
    - intros (r & Hin & <- & Hm & Hs). exists r. rewrite Hm, Hs. done. }
  destruct (omap _ routes) as [|x [|? ?]]; simpl in Hlen; [|..|lia]; simpl.
  - split; [done|]. by intros ?%elem_of_nil.
  - rewrite list_elem_of_singleton. split; [by intros [= ->]|by intros <-].
Qed.
End exclusive.
