(* ===== verification/Policy.v ===== *)
(** * The policy engine ([src/internal/policy/model.go], [engine.go])

    Rules with unique IDs in insertion order; [Evaluate] sorts a copy by priority
    with [sort.Slice] and returns the effect of the first rule that matches.  The
    engine is verified for every [SortSlice], and its rule table against a map
    from IDs to rules.  Go's [int] is 64 bits wide; priorities are only compared.
    Every method holds the engine's lock from its first to its last line, so a
    method is one step. *)
From stdpp Require Import gmap strings list sorting.
From Stdlib Require Import ZArith Lia.
From S2P Require Import Prelude GoStd GoMatch.

Local Open Scope Z_scope.

Record RateLimitSpec := mkRateLimitSpec { RequestsPerSecond : Z; BurstSize : Z }.

Record Rule := mkRule {
  rule_ID : string;
  Priority : Z;
  Subject : string;
  Action : string;
  Resource : string;
  Effect : string;
  RateLimit : option RateLimitSpec;
  rule_Namespace : string
}.

(** [type Decision string] and its three constants. *)
Definition PolicyDecision := string.
Definition DecisionAllow : PolicyDecision := "allow".
Definition DecisionDeny : PolicyDecision := "deny".
Definition DecisionRateLimit : PolicyDecision := "rate_limit".

Record Engine := mkEngine { rules : list Rule }.

(** The two errors, each naming the offending ID. *)
Inductive policy_error := RuleAlreadyExists (id : string) | RuleNotFound (id : string).

Definition NewEngine : Engine := mkEngine [].

(** ** [matchGlob] *)

Definition matchGlob (pattern value : string) : bool :=
  if String.eqb pattern "*" then true
  else match Match pattern value with
       | Some Matched => true
       | _ => false
       end.

(** ** [Evaluate] *)

(** The conditions a rule has to pass inside the loop. *)
Definition rule_matches (rule : Rule) (subject action resource namespace : string) : bool :=
  if negb (matchGlob (Subject rule) subject) then false
  else if negb (matchGlob (Action rule) action) then false
  else if negb (matchGlob (Resource rule) resource) then false
  else if negb (String.eqb (rule_Namespace rule) "") &&
          negb (String.eqb (rule_Namespace rule) namespace) then false
  else true.

Fixpoint Evaluate_loop (sorted : list Rule) (subject action resource namespace : string)
    : PolicyDecision :=
  match sorted with
  | [] => DecisionAllow
  | rule :: sorted =>
    if rule_matches rule subject action resource namespace then Effect rule
    else Evaluate_loop sorted subject action resource namespace
  end.

Definition Evaluate `{SortSlice} (e : Engine) (subject action resource namespace : string)
    : PolicyDecision :=
  let sorted := sort_slice (λ r1 r2, Priority r1 <? Priority r2) (rules e) in
  Evaluate_loop sorted subject action resource namespace.

(** ** The rule table *)

(** The loops of the three mutators: the index of the first rule with an ID. *)
Fixpoint rule_index (id : string) (rs : list Rule) : option nat :=
  match rs with
  | [] => None
  | r :: rs => if String.eqb (rule_ID r) id then Some 0%nat else S <$> rule_index id rs
  end.

Definition AddRule (e : Engine) (rule : Rule) : Engine * option policy_error :=
  match rule_index (rule_ID rule) (rules e) with
  | Some _ => (e, Some (RuleAlreadyExists (rule_ID rule)))
  | None => (mkEngine (rules e ++ [rule]), None)
  end.

Definition RemoveRule (e : Engine) (id : string) : Engine * option policy_error :=
  match rule_index id (rules e) with
  | Some i => (mkEngine (take i (rules e) ++ drop (i + 1) (rules e)), None)
  | None => (e, Some (RuleNotFound id))
  end.

Definition ListRules (e : Engine) : list Rule := rules e.

Definition UpdateRule (e : Engine) (rule : Rule) : Engine * option policy_error :=
  match rule_index (rule_ID rule) (rules e) with
  | Some i => (mkEngine (<[i := rule]> (rules e)), None)
  | None => (e, Some (RuleNotFound (rule_ID rule)))
  end.

(** ** Histories and the abstract rule table *)

Inductive policy_op := PolAdd (r : Rule) | PolUpdate (r : Rule) | PolRemove (id : string).

Definition policy_exec (e : Engine) (o : policy_op) : Engine * option policy_error :=
  match o with
  | PolAdd r => AddRule e r
  | PolUpdate r => UpdateRule e r
  | PolRemove id => RemoveRule e id
  end.

Fixpoint policy_run (e : Engine) (os : list policy_op) : Engine * list (option policy_error) :=
  match os with
  | [] => (e, [])
  | o :: os =>
    let '(e, err) := policy_exec e o in
    let '(e, errs) := policy_run e os in (e, err :: errs)
  end.

Notation table := (gmap string Rule).

(** The contract: a map by ID; adding an ID twice, updating or removing an
    unknown ID are errors that change nothing. *)
Definition table_exec (m : table) (o : policy_op) : table * option policy_error :=
  match o with
  | PolAdd r =>
    match m !! rule_ID r with
    | Some _ => (m, Some (RuleAlreadyExists (rule_ID r)))
    | None => (<[rule_ID r := r]> m, None)
    end
  | PolUpdate r =>
    match m !! rule_ID r with
    | Some _ => (<[rule_ID r := r]> m, None)
    | None => (m, Some (RuleNotFound (rule_ID r)))
    end
  | PolRemove id =>
    match m !! id with
    | Some _ => (delete id m, None)
    | None => (m, Some (RuleNotFound id))
    end
  end.

Fixpoint table_run (m : table) (os : list policy_op) : table * list (option policy_error) :=
  match os with
  | [] => (m, [])
  | o :: os =>
    let '(m, err) := table_exec m o in
    let '(m, errs) := table_run m os in (m, err :: errs)
  end.

Definition table_of (e : Engine) : table := foldr (λ r m, <[rule_ID r := r]> m) ∅ (rules e).

Definition ids_unique (e : Engine) : Prop := NoDup (rule_ID <$> rules e).

(** ** The rule table refines the map *)

Lemma rule_index_Some id rs i :
  rule_index id rs = Some i →
  ∃ r pre post, rs = pre ++ r :: post ∧ length pre = i ∧ rule_ID r = id.
Proof.
  revert i. induction rs as [|r rs IH]; intros i; simpl; [done|].
  destruct (String.eqb (rule_ID r) id) eqn:He.
  - intros [= <-]. apply String.eqb_eq in He. by exists r, [], rs.
  - intros (j & Hj & ->)%fmap_Some_1.
    destruct (IH _ Hj) as (r' & pre & post & -> & <- & Hid). by exists r', (r :: pre), post.
Qed.

Lemma rule_index_None id rs : rule_index id rs = None ↔ id ∉ rule_ID <$> rs.
Proof.
  induction rs as [|r rs IH]; simpl; [split; [by intros ? ?%elem_of_nil|done]|].
  rewrite not_elem_of_cons. destruct (String.eqb (rule_ID r) id) eqn:He; bool_to_prop.
  - naive_solver.
  - rewrite fmap_None, IH. naive_solver.
Qed.

Lemma table_lookup_None e id : table_of e !! id = None ↔ id ∉ rule_ID <$> rules e.
Proof.
  unfold table_of. induction (rules e) as [|r rs IH]; simpl.
  - rewrite lookup_empty. split; [by intros _ ?%elem_of_nil|done].
  - rewrite not_elem_of_cons, lookup_insert_None, IH. naive_solver.
Qed.

(** Where a rule stands in the list does not matter, as its ID occurs once. *)
Lemma table_middle pre r post :
  rule_ID r ∉ rule_ID <$> pre →
  table_of (mkEngine (pre ++ r :: post)) = <[rule_ID r := r]> (table_of (mkEngine (pre ++ post))).
Proof.
  unfold table_of. simpl. induction pre as [|p pre IH]; simpl; [done|].
  rewrite not_elem_of_cons. intros [Hne Hin]. rewrite IH by done. by apply insert_insert_ne.
Qed.

(** Splitting the table at a rule whose ID is unique. *)
Lemma table_split pre r post :
  ids_unique (mkEngine (pre ++ r :: post)) →
  rule_ID r ∉ rule_ID <$> pre ∧ ids_unique (mkEngine (pre ++ post)) ∧
  table_of (mkEngine (pre ++ post)) !! rule_ID r = None.
Proof.
  unfold ids_unique. rewrite table_lookup_None. simpl. rewrite !fmap_app. simpl.
  rewrite <- Permutation_middle, NoDup_cons. intros [Hr Hnd]. split_and!; [|done..].
  rewrite elem_of_app in Hr. tauto.
Qed.

(** One operation: same map, same error, and the IDs stay unique. *)
Lemma policy_exec_table e o :
  ids_unique e →
  ids_unique (policy_exec e o).1 ∧
  table_exec (table_of e) o = (table_of (policy_exec e o).1, (policy_exec e o).2).
Proof.
  intros Hu.
  assert (∀ id, match rule_index id (rules e) with
    | Some i => ∃ r pre post, e = mkEngine (pre ++ r :: post) ∧ length pre = i ∧ rule_ID r = id ∧
        rule_ID r ∉ rule_ID <$> pre ∧ ids_unique (mkEngine (pre ++ post)) ∧
        table_of (mkEngine (pre ++ post)) !! id = None ∧
        table_of e = <[id := r]> (table_of (mkEngine (pre ++ post)))
    | None => table_of e !! id = None
    end) as Hidx.
  { intros id. destruct (rule_index id (rules e)) as [i|] eqn:Hi.
    - apply rule_index_Some in Hi as (r & pre & post & He & Hlen & Hid).
      assert (e = mkEngine (pre ++ r :: post)) as -> by (destruct e; simpl in *; by subst).
      destruct (table_split _ _ _ Hu) as (Hr & Hu' & Hnone). rewrite Hid in Hnone.
      exists r, pre, post. split_and!; try done. by rewrite table_middle, Hid.
    - by apply table_lookup_None, rule_index_None. }
  destruct o as [r|r|id]; simpl; unfold AddRule, UpdateRule, RemoveRule.
  - specialize (Hidx (rule_ID r)). destruct (rule_index _ _).
    + destruct Hidx as (r' & pre & post & -> & _ & _ & _ & _ & _ & Hte).
      simpl. by rewrite Hte, lookup_insert_eq.
    + rewrite Hidx. split; simpl.
      * unfold ids_unique in *. simpl. rewrite fmap_app. apply NoDup_app. split_and!; [done| |].
        -- apply table_lookup_None in Hidx. intros x Hx ->%list_elem_of_singleton. done.
        -- apply NoDup_singleton.
      * rewrite table_middle by by apply table_lookup_None in Hidx. rewrite app_nil_r.
        by destruct e.
  - specialize (Hidx (rule_ID r)). destruct (rule_index _ _) as [i|]; [|by rewrite Hidx].
    destruct Hidx as (r' & pre & post & -> & <- & Hid & Hr & Hu' & Hnone & ->). simpl.
    rewrite lookup_insert_eq, insert_insert_eq. rewrite insert_app_r_alt, Nat.sub_diag by lia. simpl.
    rewrite Hid in Hr. split; [|by rewrite table_middle].
    unfold ids_unique in *. simpl in *. rewrite !fmap_app in *. simpl in *. by rewrite <- Hid.
  - specialize (Hidx id). destruct (rule_index _ _) as [i|]; [|by rewrite Hidx].
    destruct Hidx as (r' & pre & post & -> & <- & Hid & Hr & Hu' & Hnone & ->). simpl.
    rewrite lookup_insert_eq, delete_insert_id by done.
    rewrite take_app_length, drop_app_add. simpl. by rewrite drop_0.
Qed.

Lemma policy_run_table os e :
  ids_unique e →
  ids_unique (policy_run e os).1 ∧
  table_run (table_of e) os = (table_of (policy_run e os).1, (policy_run e os).2).
Proof.
  revert e. induction os as [|o os IH]; intros e Hu; simpl; [done|].
  destruct (policy_exec_table e o Hu) as [Hu' ->].
  destruct (policy_exec e o) as [e' err]. simpl in *.
  destruct (IH e' Hu') as [Hu'' ->]. by destruct (policy_run e' os).
Qed.

(** [ListRules] holds exactly the rules of the map. *)
Lemma ListRules_table e r : ids_unique e → r ∈ ListRules e ↔ table_of e !! rule_ID r = Some r.
Proof.
  unfold ids_unique, ListRules, table_of. induction (rules e) as [|p rs IH]; simpl.
  - intros _. rewrite lookup_empty. split; [by intros ?%elem_of_nil|done].
  - rewrite NoDup_cons, elem_of_cons. intros [Hp Hnd]. specialize (IH Hnd).
    destruct (decide (rule_ID p = rule_ID r)) as [He|Hne].
    + rewrite He, lookup_insert_eq. split; [|intros [= ->]; by left].
      intros [->|Hin]; [done|]. destruct Hp. rewrite He. by apply list_elem_of_fmap_2.
    + rewrite lookup_insert_ne by done. rewrite <- IH. naive_solver.
Qed.

(** ** Evaluation *)

Lemma Evaluate_loop_first rs s a res ns :
  (Evaluate_loop rs s a res ns = DecisionAllow ∧
     ∀ r, r ∈ rs → rule_matches r s a res ns = false) ∨
  ∃ pre r post, rs = pre ++ r :: post ∧ rule_matches r s a res ns = true ∧
    (∀ r', r' ∈ pre → rule_matches r' s a res ns = false) ∧
    Evaluate_loop rs s a res ns = Effect r.
Proof.
  induction rs as [|r rs IH]; simpl; [left; split; [done|by intros ? ?%elem_of_nil]|].
  destruct (rule_matches r s a res ns) eqn:Hm.
  - right. exists [], r, rs. split_and!; try done. by intros ? ?%elem_of_nil.
  - destruct IH as [[He Hall]|(pre & r' & post & -> & Hr' & Hpre & He)].
    + left. split; [done|]. intros r' [->|?]%elem_of_cons; auto.
    + right. exists (r :: pre), r', post. split_and!; try done.
      intros r'' [->|?]%elem_of_cons; auto.
Qed.
