(* ===== verification/PolicyProps.v ===== *)
(** * What the policy engine guarantees

    The rule table is a map under every history of operations; a decision is the
    effect of a matching rule of least priority number, whatever order
    [sort.Slice] leaves among equal priorities; and the patterns of the
    documentation mean what they say, within one path segment. *)
From stdpp Require Import gmap strings list sorting.
From Stdlib Require Import ZArith Lia.
From S2P Require Import Prelude GoStd GoMatch Policy.

Local Open Scope Z_scope.

Definition example_rule (id : string) (prio : Z) (subj effect : string) : Rule :=
  mkRule id prio subj "*" "*" effect None "".

Definition example_history : list policy_op :=
  [PolAdd (example_rule "deny-all" 100 "*" "deny");
   PolAdd (example_rule "team" 10 "did:key:team-*" "allow");
   PolAdd (example_rule "team" 1 "*" "deny");
   PolAdd (example_rule "slow" 50 "did:web:*" "rate_limit");
   PolUpdate (example_rule "team" 5 "did:key:team-*" "allow");
   PolRemove "slow"; PolRemove "slow"].

(** From a new engine every sequence of [AddRule], [UpdateRule] and
    [RemoveRule] keeps the rule IDs unique and behaves like a map from IDs to
    rules, call by call: the same calls fail, with the same errors and without a
    change, and at the end [ListRules] holds exactly the rules of the map. *)
Theorem policy_table_refines (os : list policy_op) :
  ids_unique (policy_run NewEngine os).1 ∧
  table_run ∅ os = (table_of (policy_run NewEngine os).1, (policy_run NewEngine os).2) ∧
  ∀ r, r ∈ ListRules (policy_run NewEngine os).1 ↔ (table_run ∅ os).1 !! rule_ID r = Some r.
Proof.
  assert (ids_unique NewEngine) as H0 by constructor.
  destruct (policy_run_table os NewEngine H0) as [Hu Hrun].
  change (table_of NewEngine) with (∅ : table) in Hrun.
  split_and!; [done..|]. intros r. rewrite Hrun. by apply ListRules_table.
Qed.

(** C18: [Evaluate] answers "allow" when no rule matches; otherwise it answers
    the effect of some matching rule whose priority number is least among the
    matching rules - of the only such rule, when there is just one.  A rule
    matches when its three patterns match and its namespace is empty or the
    request's.  This holds for every algorithm behind [sort.Slice]. *)
Theorem evaluate_least_priority `{SortSlice} (e : Engine) (s a res ns : string) :
  (∀ r, rule_matches r s a res ns = true ↔
     matchGlob (Subject r) s = true ∧ matchGlob (Action r) a = true ∧
     matchGlob (Resource r) res = true ∧ (rule_Namespace r = "" ∨ rule_Namespace r = ns)) ∧
  ((Evaluate e s a res ns = DecisionAllow ∧
      ∀ r, r ∈ rules e → rule_matches r s a res ns = false) ∨
   ∃ r, r ∈ rules e ∧ rule_matches r s a res ns = true ∧
     Evaluate e s a res ns = Effect r ∧
     ∀ r', r' ∈ rules e → rule_matches r' s a res ns = true → Priority r <= Priority r') ∧
  (∀ r, r ∈ rules e → rule_matches r s a res ns = true →
     (∀ r', r' ∈ rules e → rule_matches r' s a res ns = true → r' ≠ r →
        Priority r < Priority r') →
     Evaluate e s a res ns = Effect r).
Proof.
  assert (((Evaluate e s a res ns = DecisionAllow ∧
      ∀ r, r ∈ rules e → rule_matches r s a res ns = false) ∨
    ∃ r, r ∈ rules e ∧ rule_matches r s a res ns = true ∧
     Evaluate e s a res ns = Effect r ∧
     ∀ r', r' ∈ rules e → rule_matches r' s a res ns = true → Priority r <= Priority r'))
    as Hev.
  { unfold Evaluate. set (less := λ r1 r2, Priority r1 <? Priority r2).
    assert (∀ r, r ∈ rules e ↔ r ∈ sort_slice less (rules e)) as Hin
      by (intros r; by rewrite (sort_slice_perm less (rules e))).
    pose proof (sort_slice_sorted less (rules e) (strict_weak_Z Priority)) as Hs.
    destruct (Evaluate_loop_first (sort_slice less (rules e)) s a res ns)
      as [[He Hno]|(pre & r & post & Hl & Hr & Hpre & He)].
    - left. split; [done|]. intros r Hr. by apply Hno, Hin.
    - right. exists r. split_and!; [|done|done|].
      { apply Hin. rewrite Hl, elem_of_app. right. left. }
      intros r' Hr' Hm. rewrite Hin, Hl, elem_of_app, elem_of_cons in Hr'.
      destruct Hr' as [Hr'|[->|Hr']]; [|done|].
      { by rewrite Hpre in Hm. }
      unfold sorted_by in Hs. rewrite Hl in Hs.
      apply StronglySorted_app_1_r in Hs.
      apply StronglySorted_inv in Hs as [_ Hs]. rewrite Forall_forall in Hs.
      specialize (Hs _ Hr'). unfold less in Hs. by apply Z.ltb_ge in Hs. }
  split_and!; [|exact Hev|].
  - intros r. unfold rule_matches.
    destruct (matchGlob (Subject r) s), (matchGlob (Action r) a), (matchGlob (Resource r) res);
      simpl; try naive_solver.
    destruct (String.eqb_spec (rule_Namespace r) ""), (String.eqb_spec (rule_Namespace r) ns);
      simpl; naive_solver.
  - intros r Hr Hm Hleast. destruct Hev as [[_ Hno]|(r' & Hr' & Hm' & -> & Hmin)].
    + by rewrite Hno in Hm.
    + destruct (decide (Effect r' = Effect r)) as [He|Hne]; [done|].
      assert (r' ≠ r) as Hdiff by congruence.
      specialize (Hleast _ Hr' Hm' Hdiff). specialize (Hmin _ Hr Hm). lia.
Qed.

(** C26: Patterns without meta characters match exactly themselves; a single
    star matches every string; a star next to or between literals matches what
    fills the gap with a text that crosses no slash. *)
Theorem glob_patterns (p q v : string) (Hp : literal_str p) (Hq : literal_str q) :
  matchGlob "*" v = true ∧
  (matchGlob p v = true ↔ v = p) ∧
  (p ≠ "" ∨ q ≠ "" →
   matchGlob (p +:+ "*" +:+ q) v = true ↔ ∃ w, v = p +:+ w +:+ q ∧ no_slash_str w).
Proof.
  assert (∀ pat, pat ≠ "*" → matchGlob pat v = true ↔ Match pat v = Some Matched) as Hm.
  { intros pat Hne. unfold matchGlob. apply String.eqb_neq in Hne. rewrite Hne.
    destruct (Match pat v) as [[]|]; naive_solver. }
  split_and!; [done| |].
  - rewrite Hm; [by apply Match_literal|]. intros ->. apply Forall_cons in Hp as [? _]. done.
  - intros Hne. rewrite Hm; [by apply Match_one_star|].
    intros Heq. apply (f_equal (length ∘ bytes_of)) in Heq. simpl in Heq.
    rewrite !bytes_of_app, !length_app in Heq. simpl in Heq.
    destruct Hne as [H|H]; [destruct p|destruct q]; simpl in *; try done; lia.
Qed.

Lemma glob_patterns_witness :
  matchGlob "did:web:*" "did:web:acme" = true ∧ matchGlob "did:web:*" "did:web:a/b" = false ∧
  ∃ w, "did:key:team-7" = "did:key:" +:+ w +:+ "-7" ∧ no_slash_str w.
Proof.
  split_and!; [vm_compute; reflexivity..|].
  apply (proj2 (proj2 (glob_patterns "did:key:" "-7" "did:key:team-7"
    ltac:(repeat constructor) ltac:(repeat constructor)))).
  - left. discriminate.
  - vm_compute. reflexivity.
Defined.

(** The history above, and a decision in the engine it leaves. *)
Example example_history_errors :
  (policy_run NewEngine example_history).2 =
    [None; None; Some (RuleAlreadyExists "team"); None; None; None; Some (RuleNotFound "slow")].
Proof. vm_compute. reflexivity. Qed.

Example example_decisions :
  let e := (policy_run NewEngine example_history).1 in
  (Evaluate e "did:key:team-7" "send" "x" "", Evaluate e "did:key:other" "send" "x" "") =
  (DecisionAllow, DecisionDeny).
Proof. vm_compute. reflexivity. Qed.
