(* ===== verification/Namespace.v ===== *)
(** * Namespaces ([src/internal/namespace/manager.go])

    The manager's map of namespaces with its operations, each one step under the
    manager's lock.  Stored namespaces are never written after their creation
    and [Get] and [List] hand out copies, so the pointers of the map are modelled
    by their values.  [List] iterates over the map in an arbitrary order and
    sorts with [sort.Slice]. *)
From stdpp Require Import gmap strings list sorting.
From Stdlib Require Import ZArith Lia.
From S2P Require Import Prelude GoStd.

Local Open Scope Z_scope.

Definition defaultNamespace : string := "default".

Record Namespace := mkNamespace {
  ns_Name : string;
  ns_Description : string;
  ns_CreatedAt : Z
}.

Record Manager := mkManager { namespaces : gmap string Namespace }.

Inductive ns_error :=
| NsEmptyName
| NsAlreadyExists (name : string)
| NsCannotDelete (name : string)
| NsNotFound (name : string).

Definition NewManager (now : Z) : Manager :=
  mkManager (<[defaultNamespace := mkNamespace defaultNamespace "" now]> ∅).

Definition Create (m : Manager) (name description : string) (now : Z)
    : Manager * (Namespace + ns_error) :=
  if String.eqb name "" then (m, inr NsEmptyName)
  else
    match namespaces m !! name with
    | Some _ => (m, inr (NsAlreadyExists name))
    | None =>
      let ns := mkNamespace name description now in
      (mkManager (<[name := ns]> (namespaces m)), inl ns)
    end.

(** [Get]: a copy and a flag. *)
Definition Manager_Get (m : Manager) (name : string) : option Namespace :=
  match namespaces m !! name with
  | None => None
  | Some ns => Some ns
  end.

Definition Manager_List `{SortSlice} (m : Manager) (ord : RangeOrder) : list Namespace :=
  sort_slice (λ a b, str_lt (ns_Name a) (ns_Name b)) (range_values ord (namespaces m)).

Definition Delete (m : Manager) (name : string) : Manager * option ns_error :=
  if String.eqb name defaultNamespace then (m, Some (NsCannotDelete defaultNamespace))
  else
    match namespaces m !! name with
    | None => (m, Some (NsNotFound name))
    | Some _ => (mkManager (delete name (namespaces m)), None)
    end.

(** ** Histories *)

Inductive ns_op := NsCreate (name description : string) (now : Z) | NsDelete (name : string).

Definition ns_exec (m : Manager) (o : ns_op) : Manager :=
  match o with
  | NsCreate name description now => (Create m name description now).1
  | NsDelete name => (Delete m name).1
  end.

Definition ns_run (t0 : Z) (os : list ns_op) : Manager := foldl ns_exec (NewManager t0) os.

(** The name of a namespace is its key; the default namespace is there and is
    the one made with the manager; no name is empty. *)
Record ns_wf (t0 : Z) (m : Manager) : Prop := {
  ns_key k ns : namespaces m !! k = Some ns → ns_Name ns = k;
  ns_default : namespaces m !! defaultNamespace = Some (mkNamespace defaultNamespace "" t0);
  ns_nonempty : namespaces m !! "" = None
}.

Lemma ns_wf_new t0 : ns_wf t0 (NewManager t0).
Proof.
  split; simpl.
  - by intros k ns [[<- <-]|[_ ?%lookup_empty_Some]]%lookup_insert_Some.
  - by rewrite lookup_insert_eq.
  - by rewrite lookup_insert_ne.
Qed.

Lemma ns_wf_exec t0 m o : ns_wf t0 m → ns_wf t0 (ns_exec m o).
Proof.
  intros [Hk Hd He]. destruct o as [name d now|name]; simpl; unfold Create, Delete.
  - destruct (String.eqb name "") eqn:Hn; [done|]. apply String.eqb_neq in Hn.
    destruct (namespaces m !! name) eqn:Hl; [done|]. split; simpl.
    + intros k ns [[<- <-]|[_ ?]]%lookup_insert_Some; eauto.
    + rewrite lookup_insert_ne; [done|]. by intros ->; simplify_eq.
    + by rewrite lookup_insert_ne.
  - destruct (String.eqb name defaultNamespace) eqn:Hn; [done|]. apply String.eqb_neq in Hn.
    destruct (namespaces m !! name) eqn:Hl; [|done]. split; simpl.
    + intros k ns [_ ?]%lookup_delete_Some; eauto.
    + by rewrite lookup_delete_ne.
    + rewrite lookup_delete_ne; [done|]. by intros ->; simplify_eq.
Qed.

Lemma ns_run_wf t0 os : ns_wf t0 (ns_run t0 os).
Proof.
  unfold ns_run. assert (∀ m, ns_wf t0 m → ns_wf t0 (foldl ns_exec m os)) as H.
  { induction os as [|o os IH]; simpl; [done|]. intros m Hm. by apply IH, ns_wf_exec. }
  apply H, ns_wf_new.
Qed.

(** ** [List]: sorted, complete, and the same for every order and sort *)

Lemma NoDup_range_values_key {A} (ord : RangeOrder) (m : gmap string A) (f : A → string) :
  (∀ k x, m !! k = Some x → f x = k) → NoDup (f <$> range_values ord m).
Proof.
  intros Hf. unfold range_values. pose proof (NoDup_range ord (dom m)) as Hnd.
  induction Hnd as [|k ks Hk _ IH]; [constructor|]. rewrite omap_cons.
  destruct (m !! k) as [x|] eqn:Hx; [|done]. cbn [fmap list_fmap]. constructor; [|done].
  rewrite (Hf _ _ Hx). intros (y & -> & (k' & Hk' & Hy)%list_elem_of_omap)%list_elem_of_fmap.
  by rewrite (Hf _ _ Hy) in Hk.
Qed.

Section namespace_list.
Context `{SortSlice} (m : Manager) (Hkey : ∀ k ns, namespaces m !! k = Some ns → ns_Name ns = k).

Lemma Manager_List_sorted ord :
  sorted_by (λ a b, str_lt (ns_Name a) (ns_Name b)) (Manager_List m ord).
Proof. apply sort_slice_sorted, strict_weak_str. Qed.

Lemma Manager_List_perm ord : Manager_List m ord ≡ₚ range_values ord (namespaces m).
Proof. apply sort_slice_perm. Qed.

Lemma Manager_List_NoDup ord : NoDup (ns_Name <$> Manager_List m ord).
Proof. rewrite Manager_List_perm. by apply NoDup_range_values_key. Qed.

Lemma elem_of_Manager_List ord ns :
  ns ∈ Manager_List m ord ↔ Manager_Get m (ns_Name ns) = Some ns.
Proof.
  rewrite Manager_List_perm, elem_of_range_values. unfold Manager_Get. split.
  - intros [k Hk]. rewrite (Hkey _ _ Hk), Hk. done.
  - intros Hg. exists (ns_Name ns). by destruct (_ !! _); simplify_eq.
Qed.
End namespace_list.

(** Two sorts and two iteration orders give one list. *)
Lemma Manager_List_unique (S1 S2 : SortSlice) m ord1 ord2 :
  (∀ k ns, namespaces m !! k = Some ns → ns_Name ns = k) →
  @Manager_List S1 m ord1 = @Manager_List S2 m ord2.
Proof.
  intros Hkey. apply (sorted_by_str_unique ns_Name).
  - apply Manager_List_sorted.
  - apply Manager_List_sorted.
  - rewrite !Manager_List_perm, !range_values_perm. done.
  - by apply Manager_List_NoDup.
Qed.

(** The map after a history, as the last operation on each name left it. *)
Lemma Create_lookup m name d now k :
  namespaces (Create m name d now).1 !! k =
    if bool_decide (k = name ∧ name ≠ "" ∧ namespaces m !! name = None)
    then Some (mkNamespace name d now) else namespaces m !! k.
Proof.
  unfold Create. destruct (String.eqb_spec name ""); [by rewrite bool_decide_false by naive_solver|].
  destruct (namespaces m !! name) eqn:Hl; simpl.
  - rewrite bool_decide_false; [done|]. intros (_ & _ & ?). congruence.
  - case_bool_decide as Hd; [destruct Hd as (-> & _ & _); by rewrite lookup_insert_eq|].
    rewrite lookup_insert_ne; [done|]. naive_solver.
Qed.

Lemma Delete_lookup m name k :
  namespaces (Delete m name).1 !! k =
    if bool_decide (k = name ∧ name ≠ defaultNamespace) then None else namespaces m !! k.
Proof.
  unfold Delete. destruct (String.eqb_spec name defaultNamespace).
  { by rewrite bool_decide_false by naive_solver. }
  destruct (namespaces m !! name) eqn:Hl; simpl; case_bool_decide as Hd; try done.
  - destruct Hd as [-> _]. by rewrite lookup_delete_eq.
  - rewrite lookup_delete_ne; [done|]. naive_solver.
  - by destruct Hd as [-> _].
Qed.
