(* ===== verification/NamespaceProps.v ===== *)
(** * What the namespace manager guarantees *)
From stdpp Require Import gmap strings list sorting.
From Stdlib Require Import ZArith Lia.
From S2P Require Import Prelude GoStd Namespace.

Local Open Scope Z_scope.

(** After every history of [Create] and [Delete] the default namespace is
    still the one made at the start, no namespace has an empty name, and [List]
    gives - for every map order and every sorting algorithm the same - the
    namespaces [Get] finds, each once, strictly ordered by name. *)
Theorem namespace_manager_correct `{SortSlice} (t0 : Z) (os : list ns_op) (ord : RangeOrder) :
  let m := ns_run t0 os in
  Manager_Get m defaultNamespace = Some (mkNamespace defaultNamespace "" t0) ∧
  Manager_Get m "" = None ∧
  (∀ ns, ns ∈ Manager_List m ord ↔ Manager_Get m (ns_Name ns) = Some ns) ∧
  StronglySorted (λ a b, str_lt (ns_Name a) (ns_Name b) = true) (Manager_List m ord) ∧
  (∀ (S2 : SortSlice) ord2, @Manager_List S2 m ord2 = Manager_List m ord).
Proof.
  intros m. destruct (ns_run_wf t0 os) as [Hk Hd He]. fold m in Hk, Hd, He.
  split_and!.
  - unfold Manager_Get. by rewrite Hd.
  - unfold Manager_Get. by rewrite He.
  - intros ns. by apply elem_of_Manager_List.
  - apply (sorted_by_strict ns_Name); [apply Manager_List_sorted|by apply Manager_List_NoDup].
  - intros S2 ord2. by apply Manager_List_unique.
Qed.

(** What [Create] and [Delete] answer and change: a name is created once
    and not again until it is deleted, the empty name never, and the default
    namespace can be neither created nor deleted after the start. *)
Theorem namespace_create_delete (t0 : Z) (os : list ns_op) (name d : string) (now : Z) :
  let m := ns_run t0 os in
  (Create m name d now).2 =
    (if bool_decide (name = "") then inr NsEmptyName
     else match Manager_Get m name with
          | Some _ => inr (NsAlreadyExists name) | None => inl (mkNamespace name d now) end) ∧
  (Delete m name).2 =
    (if bool_decide (name = defaultNamespace) then Some (NsCannotDelete name)
     else match Manager_Get m name with Some _ => None | None => Some (NsNotFound name) end) ∧
  (name ≠ "" → name ≠ defaultNamespace →
     Manager_Get (Delete (Create m name d now).1 name).1 name = None ∧
     is_Some (Manager_Get (Create m name d now).1 name)) ∧
  (∀ k, k ≠ name → Manager_Get (Create m name d now).1 k = Manager_Get m k ∧
                   Manager_Get (Delete m name).1 k = Manager_Get m k).
Proof.
  intros m. assert (∀ m k, Manager_Get m k = namespaces m !! k) as Hg.
  { intros m' k. unfold Manager_Get. by destruct (_ !! _). }
  rewrite !Hg. split_and!.
  - unfold Create. destruct (String.eqb_spec name ""); case_bool_decide; try done.
    by destruct (_ !! _).
  - unfold Delete. destruct (String.eqb_spec name defaultNamespace); case_bool_decide; try done.
    { by subst. } by destruct (_ !! _).
  - intros Hne Hnd. rewrite Delete_lookup, Create_lookup. split.
    + by rewrite bool_decide_true by done.
    + case_bool_decide as Hd; [by eexists|]. destruct (namespaces m !! name) eqn:Hl; [by eexists|].
      destruct Hd. done.
  - intros k Hk. rewrite !Hg, Create_lookup, Delete_lookup.
    rewrite !bool_decide_false by naive_solver. done.
Qed.
