(* ===== verification/Proto.v ===== *)
(** * The protocol messages and gRPC statuses the relay exchanges

    The messages are generated from a [.proto] file of another repository; these
    records hold the fields the relay reads and writes, under their Go names.  An
    absent sub-message (a nil pointer) is [None].  Protobuf timestamps are a
    parameter: the relay relies only on [AsTime] undoing [New], which is stated
    as a class, with the (seconds, nanoseconds) encoding as an instance. *)
From stdpp Require Import gmap strings list.
From Stdlib Require Import ZArith Lia.
From S2P Require Import Prelude GoStd Registry.

Local Open Scope Z_scope.

(** ** [timestamppb] *)

Class Timestamps := {
  Timestamp : Type;
  ts_New : Z → Timestamp;
  ts_AsTime : Timestamp → Z;
  ts_AsTime_New t : ts_AsTime (ts_New t) = t
}.

(** Seconds since the epoch and nanoseconds within the second. *)
#[export] Program Instance seconds_nanos : Timestamps := {|
  Timestamp := Z * Z;
  ts_New t := (t / Second, t mod Second);
  ts_AsTime p := p.1 * Second + p.2
|}.
Next Obligation. intros t. unfold Second. simpl. pose proof (Z_div_mod_eq_full t 1000000000). lia. Qed.

(** ** Statuses *)

Inductive code := InvalidArgument | ResourceExhausted | Internal | NotFound.

Record status := mkStatus { st_code : code; st_message : string }.

(** ** Messages *)

Record pb_SkillInfo := mk_pb_SkillInfo {
  pb_SkillId : string;
  pb_Description : string;
  pb_Tags : gmap string string
}.

Record RegisterSkillsRequest := mkRegisterSkillsRequest {
  rs_PeerId : string;
  rs_Skills : list pb_SkillInfo;
  rs_AgentName : string;
  rs_AgentDescription : string
}.

Record UnregisterSkillsRequest := mkUnregisterSkillsRequest {
  us_PeerId : string;
  us_SkillIds : list string
}.

(** [Limit] is an [int32]. *)
Record DiscoverBySkillRequest := mkDiscoverBySkillRequest {
  ds_SkillId : string;
  ds_Tags : gmap string string;
  ds_Limit : Z;
  ds_Federated : bool
}.

Record HeartbeatRequest := mkHeartbeatRequest { hb_PeerId : string }.

Section messages.
Context `{Timestamps}.

Record SkillRegistration := mkSkillRegistration {
  sr_PeerId : string;
  sr_Skills : list pb_SkillInfo;
  sr_AgentName : string;
  sr_AgentDescription : string;
  sr_RegisteredAt : Timestamp;
  sr_ExpiresAt : Timestamp
}.

Record FederatedRegistration := mkFederatedRegistration {
  fr_PeerId : string;
  fr_OriginRelayId : string;
  fr_Skills : list pb_SkillInfo;
  fr_AgentName : string;
  fr_AgentDescription : string;
  fr_RegisteredAt : option Timestamp;
  fr_ExpiresAt : option Timestamp;
  fr_Version : Z
}.

Record SyncRegistrationsRequest := mkSyncRegistrationsRequest {
  sync_RelayId : string;
  sync_Since : option Timestamp;
  sync_Limit : Z
}.

Record SyncRegistrationsResponse := mkSyncRegistrationsResponse {
  sync_Registrations : list FederatedRegistration;
  sync_SyncTimestamp : option Timestamp
}.

Record PushRegistrationsRequest := mkPushRegistrationsRequest {
  push_RelayId : string;
  push_Registrations : list FederatedRegistration
}.

(** Both counters are [int32]. *)
Record PushRegistrationsResponse := mkPushRegistrationsResponse {
  push_Accepted : Z;
  push_Rejected : Z
}.
End messages.

(** ** Converting skills both ways *)

Definition pbSkillsToRegistry (pbSkills : list pb_SkillInfo) : list SkillInfo :=
  map (λ s, mkSkillInfo (pb_SkillId s) (pb_Description s) (pb_Tags s)) pbSkills.

Definition registrySkillsToPb (skills : list SkillInfo) : list pb_SkillInfo :=
  map (λ s, mk_pb_SkillInfo (SkillID s) (Description s) (Tags s)) skills.

Lemma pbSkills_roundtrip skills : pbSkillsToRegistry (registrySkillsToPb skills) = skills.
Proof.
  unfold pbSkillsToRegistry, registrySkillsToPb. rewrite map_map.
  rewrite <- (map_id skills) at 2. apply map_ext. by intros [].
Qed.

Lemma registrySkills_roundtrip pbs : registrySkillsToPb (pbSkillsToRegistry pbs) = pbs.
Proof.
  unfold pbSkillsToRegistry, registrySkillsToPb. rewrite map_map.
  rewrite <- (map_id pbs) at 2. apply map_ext. by intros [].
Qed.
