(* ===== verification/RegistryGrpc.v ===== *)
(** * The registry's gRPC service ([src/internal/registry/grpc_server.go])

    Each handler validates its request, calls the registry and converts the
    result; an error is a gRPC status.  The clock readings and iteration orders
    of the registry call are arguments. *)
From stdpp Require Import gmap strings list.
From Stdlib Require Import ZArith Lia.
From S2P Require Import Prelude GoStd Registry RegistryInv RegistryDiscover RegistrySpec Proto.

Local Open Scope Z_scope.

(** The texts of the two registry errors. *)
Definition error_text (err : registry_error) : string :=
  match err with
  | ErrRegistryFull => "registry has reached maximum capacity"
  | ErrFederatedRegistryFull => "federated registry has reached maximum capacity"
  end.

Section handlers.
Context `{Timestamps}.

(** The conversion loop of [RegisterSkills]: [None] is the early return. *)
Fixpoint convertSkills (pbSkills : list pb_SkillInfo) (skills : list SkillInfo)
    : option (list SkillInfo) :=
  match pbSkills with
  | [] => Some skills
  | sk :: pbSkills =>
    if String.eqb (pb_SkillId sk) "" then None
    else convertSkills pbSkills
           (skills ++ [mkSkillInfo (pb_SkillId sk) (pb_Description sk) (pb_Tags sk)])
  end.

Definition RegisterSkills (r : Registry) (now : Z) (req : RegisterSkillsRequest)
    : Registry * (Timestamp + status) :=
  if String.eqb (rs_PeerId req) ""
  then (r, inr (mkStatus InvalidArgument "peer_id is required"))
  else if len (rs_Skills req) =? 0
  then (r, inr (mkStatus InvalidArgument "at least one skill is required"))
  else
    match convertSkills (rs_Skills req) [] with
    | None => (r, inr (mkStatus InvalidArgument "skill_id is required for all skills"))
    | Some skills =>
      let '(r, (expiresAt, err)) :=
        Register r now (rs_PeerId req) skills (rs_AgentName req) (rs_AgentDescription req) in
      match err with
      | Some err =>
        if bool_decide (err = ErrRegistryFull)
        then (r, inr (mkStatus ResourceExhausted "registry is at maximum capacity"))
        else (r, inr (mkStatus Internal ("register: " +:+ error_text err)))
      | None => (r, inl (ts_New expiresAt))
      end
    end.

Definition UnregisterSkills (r : Registry) (req : UnregisterSkillsRequest)
    : Registry * option status :=
  if String.eqb (us_PeerId req) ""
  then (r, Some (mkStatus InvalidArgument "peer_id is required"))
  else (Unregister r (us_PeerId req) (us_SkillIds req), None).

(** One agent of a discovery response. *)
Definition toSkillRegistration (reg : Registration) : SkillRegistration :=
  {| sr_PeerId := PeerID reg; sr_Skills := registrySkillsToPb (Skills reg);
     sr_AgentName := AgentName reg; sr_AgentDescription := AgentDescription reg;
     sr_RegisteredAt := ts_New (RegisteredAt reg); sr_ExpiresAt := ts_New (ExpiresAt reg) |}.

Definition GRPCServer_DiscoverBySkill (r : Registry) (ord ordF : RangeOrder) (now : Z)
    (req : DiscoverBySkillRequest) : list SkillRegistration + status :=
  if String.eqb (ds_SkillId req) ""
  then inr (mkStatus InvalidArgument "skill_id is required")
  else
    let results := DiscoverBySkill r ord ordF now (ds_SkillId req) (ds_Tags req)
                     (ds_Limit req) (ds_Federated req) in
    inl (map toSkillRegistration results).

Definition GRPCServer_Heartbeat (r : Registry) (now : Z) (req : HeartbeatRequest)
    : Registry * (Timestamp + status) :=
  if String.eqb (hb_PeerId req) ""
  then (r, inr (mkStatus InvalidArgument "peer_id is required"))
  else
    let '(r, expiresAt) := Heartbeat r now (hb_PeerId req) in
    if IsZero expiresAt
    then (r, inr (mkStatus NotFound ("peer " +:+ hb_PeerId req +:+ " not found in registry")))
    else (r, inl (ts_New expiresAt)).

(** ** Requests that pass validation *)

Definition valid_register (req : RegisterSkillsRequest) : Prop :=
  rs_PeerId req ≠ "" ∧ rs_Skills req ≠ [] ∧ Forall (λ sk, pb_SkillId sk ≠ "") (rs_Skills req).

#[export] Instance valid_register_dec req : Decision (valid_register req).
Proof. unfold valid_register. apply _. Defined.

Lemma convertSkills_spec pbs acc :
  convertSkills pbs acc =
    if decide (Forall (λ sk, pb_SkillId sk ≠ "") pbs)
    then Some (acc ++ pbSkillsToRegistry pbs) else None.
Proof.
  revert acc. induction pbs as [|sk pbs IH]; intros acc; simpl.
  - by rewrite app_nil_r.
  - destruct (String.eqb_spec (pb_SkillId sk) "") as [He|Hne].
    + rewrite decide_False; [done|]. by intros [? ?]%Forall_cons.
    + rewrite IH. destruct (decide (Forall _ pbs)).
      * rewrite decide_True by by constructor. by rewrite <- app_assoc.
      * rewrite decide_False; [done|]. by intros [? ?]%Forall_cons.
Qed.

(** The whole of [RegisterSkills], by the validity of the request and by what
    the registry says. *)
Lemma RegisterSkills_cases r now req :
  RegisterSkills r now req =
    if decide (valid_register req) then
      let '(r', (t, err)) := Register r now (rs_PeerId req) (pbSkillsToRegistry (rs_Skills req))
                               (rs_AgentName req) (rs_AgentDescription req) in
      (r', match err with
           | Some _ => inr (mkStatus ResourceExhausted "registry is at maximum capacity")
           | None => inl (ts_New t)
           end)
    else
      (r, inr (mkStatus InvalidArgument
        (if decide (rs_PeerId req = "") then "peer_id is required"
         else if decide (rs_Skills req = []) then "at least one skill is required"
         else "skill_id is required for all skills"))).
Proof.
  unfold RegisterSkills, valid_register.
  destruct (String.eqb_spec (rs_PeerId req) "") as [He|He].
  { by rewrite decide_False, (decide_True _ _ He) by naive_solver. }
  destruct (len (rs_Skills req) =? 0) eqn:Hl.
  { apply Z.eqb_eq, len_zero_inv in Hl.
    by rewrite decide_False, decide_False, (decide_True _ _ Hl) by naive_solver. }
  assert (rs_Skills req ≠ []) as Hne by (intros E; by rewrite E in Hl).
  rewrite convertSkills_spec, (decide_False _ _ He), (decide_False _ _ Hne).
  destruct (decide (Forall _ (rs_Skills req))) as [Hf|Hf].
  - rewrite decide_True by done. simpl. unfold Register. by case_if Hfull.
  - by rewrite decide_False by naive_solver.
Qed.

(** The registration a successful request stands for. *)
Definition registered (req : RegisterSkillsRequest) (now expires : Z) : Registration :=
  mkRegistration (rs_PeerId req) (pbSkillsToRegistry (rs_Skills req)) (rs_AgentName req)
    (rs_AgentDescription req) now expires "" (uint64 now).

Lemma RegisterSkills_stored r now req r1 t :
  wf r → RegisterSkills r now req = (r1, inl t) →
  valid_register req ∧ wf r1 ∧ t = ts_New (now + TTL (config r)) ∧
  entries r1 = <[rs_PeerId req := registered req now (now + TTL (config r))]> (entries r).
Proof.
  intros Hwf. rewrite RegisterSkills_cases. destruct (decide (valid_register req)) as [Hv|]; [|done].
  destruct (Register r now _ _ _ _) as [r1' [e [err|]]] eqn:E; [done|]. intros [= -> <-].
  destruct (Register_ok _ _ _ _ _ _ _ _ E) as (-> & Hent & _). split_and!; [done| |done|done].
  pose proof (wf_Register r now (rs_PeerId req) (pbSkillsToRegistry (rs_Skills req))
    (rs_AgentName req) (rs_AgentDescription req) Hwf) as Hw. by rewrite E in Hw.
Qed.

(** As long as it is stored, every query for one of its skills finds it. *)
Lemma registered_discovered r ord ordF now req now0 t q sk :
  wf r → valid_register req → entries r !! rs_PeerId req = Some (registered req now0 t) →
  now <= t → sk ∈ rs_Skills req → ds_SkillId q = pb_SkillId sk → ds_Tags q ⊆ pb_Tags sk →
  len (scan_all r now (ds_SkillId q) (ds_Tags q) (ds_Federated q)) <= clampLimit (ds_Limit q) →
  ∃ agents, GRPCServer_DiscoverBySkill r ord ordF now q = inl agents ∧
    mkSkillRegistration (rs_PeerId req) (rs_Skills req) (rs_AgentName req)
      (rs_AgentDescription req) (ts_New now0) (ts_New t) ∈ agents.
Proof.
  intros Hwf (_ & _ & Hids) Hp Hnow Hsk Hid Htags Hlen. rewrite Forall_forall in Hids.
  unfold GRPCServer_DiscoverBySkill. destruct (String.eqb_spec (ds_SkillId q) "") as [Hempty|_].
  { destruct (Hids _ Hsk). congruence. }
  eexists. split; [done|]. apply list_elem_of_In, in_map_iff. exists (registered req now0 t).
  rewrite <- list_elem_of_In. split.
  - unfold toSkillRegistration. simpl. by rewrite registrySkills_roundtrip.
  - eapply DiscoverBySkill_complete; [done..| |done].
    unfold offers, After. apply andb_true_iff. split; [by apply negb_true_iff, Z.ltb_ge|].
    apply hasSkill_spec. exists (mkSkillInfo (pb_SkillId sk) (pb_Description sk) (pb_Tags sk)).
    split_and!; [|done|].
    + apply list_elem_of_In, in_map_iff. exists sk. by rewrite <- list_elem_of_In.
    + apply matchTags_spec. intros k v Hk. simpl. by rewrite (lookup_weaken _ _ _ _ Hk Htags).
Qed.
End handlers.
