(* ===== verification/RegistryGrpcProps.v ===== *)
(** * What the registry's gRPC service guarantees *)
From stdpp Require Import gmap strings list fin_maps.
From Stdlib Require Import ZArith Lia.
From S2P Require Import Prelude GoStd Registry RegistryInv RegistryDiscover RegistrySpec Proto RegistryGrpc.

Local Open Scope Z_scope.

Definition ex_req (p : string) : RegisterSkillsRequest :=
  mkRegisterSkillsRequest p
    [mk_pb_SkillInfo "sum" "adds" (<["lang" := "en"]> ∅); mk_pb_SkillInfo "echo" "" ∅] "A" "demo".
Definition ex_small : Config := mkConfig (30 * Second) 1 1 0.
Definition ex_served : Registry := (RegisterSkills (Registry_New ex_small) 1000 (ex_req "p")).1.

Lemma RegisterSkills_reachable `{Timestamps} cfg r now req :
  reachable cfg r → reachable cfg (RegisterSkills r now req).1.
Proof.
  intros Hr. rewrite RegisterSkills_cases. case_decide; [|done].
  destruct (Register r now _ _ _ _) as [r' [t err]] eqn:E. simpl.
  apply (reach_step cfg r (OpRegister now (rs_PeerId req) (pbSkillsToRegistry (rs_Skills req))
    (rs_AgentName req) (rs_AgentDescription req)) r'); [done|]. simpl. by rewrite E.
Qed.

(** C28: [RegisterSkills] answers "invalid argument" exactly for a request with
    no peer ID, no skill or a skill without ID, and "resource exhausted" exactly
    when a valid request of a new peer meets a full registry; both leave the
    registry as it was, and no other error is returned.  Otherwise the answer is
    the new expiry time, and the peer's entry becomes the request's registration. *)
Theorem grpc_register_outcomes `{Timestamps} cfg r now req (Hr : reachable cfg r) :
  let p := rs_PeerId req in
  let '(r', res) := RegisterSkills r now req in
  match res with
  | inl t =>
      valid_register req ∧ ts_AsTime t = now + TTL (Config_defaults cfg) ∧
      entries r' = <[p := mkRegistration p (pbSkillsToRegistry (rs_Skills req))
        (rs_AgentName req) (rs_AgentDescription req) now (ts_AsTime t) "" (uint64 now)]> (entries r) ∧
      (entries r !! p = None → map_len (entries r) < MaxRegistrations (Config_defaults cfg))
  | inr st =>
      r' = r ∧
      (¬ valid_register req ∧ st_code st = InvalidArgument ∨
       valid_register req ∧ st_code st = ResourceExhausted ∧ entries r !! p = None ∧
         MaxRegistrations (Config_defaults cfg) <= map_len (entries r))
  end.
Proof.
  cbv zeta. rewrite RegisterSkills_cases. rewrite <- (reachable_config _ _ Hr).
  destruct (decide (valid_register req)) as [Hv|Hv]; [|split; [done|by left]].
  destruct (Register r now _ _ _ _) as [r' [t err]] eqn:E. destruct err as [err|].
  - unfold Register in E. destruct (negb _ && _) eqn:Hfull in E; [|done].
    injection E as <- _ _. bool_to_prop.
    split; [done|]. right. rewrite eq_None_not_Some. split_and!; [done..|lia].
  - pose proof (Register_ok _ _ _ _ _ _ _ _ E) as (Ht & He & _). rewrite ts_AsTime_New.
    split_and!; [done|done|done|].
    intros Hnone. unfold Register in E. rewrite Hnone in E. simpl in E.
    destruct (map_len _ >=? _) eqn:Hfull in E; [done|]. bool_to_prop. lia.
Qed.

Lemma grpc_register_outcomes_witness :
  let '(r', res) := RegisterSkills ex_served 2000 (ex_req "q") in
  r' = ex_served ∧ ∃ st, res = inr st ∧ st_code st = ResourceExhausted.
Proof.
  assert (reachable ex_small ex_served) as Hr
    by (apply RegisterSkills_reachable; constructor).
  pose proof (grpc_register_outcomes ex_small ex_served 2000 (ex_req "q") Hr) as H.
  assert ((RegisterSkills ex_served 2000 (ex_req "q")).2 =
    inr (mkStatus ResourceExhausted "registry is at maximum capacity")) as E
    by (vm_compute; reflexivity).
  destruct (RegisterSkills ex_served 2000 (ex_req "q")) as [r' res]. simpl in E. subst res.
  destruct H as [-> _]. eauto.
Defined.

(** What a client registers over gRPC is what clients discover over gRPC.
    After a successful [RegisterSkills], and any operations that do not touch the
    peer or evict it, a query for any of the registered skills, up to the expiry
    time and with a limit that does not cut the answer, returns the agent with
    the name, description, skills and tags of the request, the time of the
    registration, and the expiry time the client was told. *)
Theorem grpc_register_discover_roundtrip `{Timestamps} cfg r now req r1 t ops r2
    (Hr : reachable cfg r) (Hreg : RegisterSkills r now req = (r1, inl t))
    (Hops : Forall (spares (rs_PeerId req) (ts_AsTime t)) ops)
    (Hex : exec_all r1 ops = Some r2) :
  ∀ ord ordF now' q sk,
    now' <= ts_AsTime t → sk ∈ rs_Skills req → ds_SkillId q = pb_SkillId sk →
    ds_Tags q ⊆ pb_Tags sk →
    len (scan_all r2 now' (ds_SkillId q) (ds_Tags q) (ds_Federated q)) <= clampLimit (ds_Limit q) →
    ∃ agents, GRPCServer_DiscoverBySkill r2 ord ordF now' q = inl agents ∧
      mkSkillRegistration (rs_PeerId req) (rs_Skills req) (rs_AgentName req)
        (rs_AgentDescription req) (ts_New now) t ∈ agents.
Proof.
  destruct (RegisterSkills_stored _ _ _ _ _ (reachable_wf _ _ Hr) Hreg) as (Hv & Hwf1 & -> & Hent).
  rewrite ts_AsTime_New in *.
  destruct (spared_kept r1 ops r2 (rs_PeerId req) (registered req now (now + TTL (config r))))
    as [Hwf2 Hp]; [done| |done|done|].
  { by rewrite Hent, lookup_insert_eq. }
  intros. by eapply registered_discovered.
Qed.

Lemma grpc_register_discover_roundtrip_witness :
  ∃ agents,
    GRPCServer_DiscoverBySkill ex_served canonical_order reversed_order 2000
      (mkDiscoverBySkillRequest "sum" (<["lang" := "en"]> ∅) 10 true) = inl agents ∧
    mkSkillRegistration "p" (rs_Skills (ex_req "p")) "A" "demo"
      (ts_New 1000) (ts_New (1000 + 30 * Second)) ∈ agents.
Proof.
  refine (grpc_register_discover_roundtrip ex_small (Registry_New ex_small) 1000 (ex_req "p")
    ex_served (ts_New (1000 + 30 * Second)) [] ex_served (reach_New _) _ _ eq_refl
    canonical_order reversed_order 2000 (mkDiscoverBySkillRequest "sum" (<["lang" := "en"]> ∅) 10 true)
    (mk_pb_SkillInfo "sum" "adds" (<["lang" := "en"]> ∅)) _ _ eq_refl _ _).
  - vm_compute. reflexivity.
  - constructor.
  - rewrite ts_AsTime_New. vm_compute. discriminate.
  - left.
  - done.
  - vm_compute. discriminate.
Defined.

(** [Heartbeat] over gRPC: an unknown peer is told "not found" and nothing
    changes; a known peer is told the new expiry time, which is stored, and
    nothing else of the registry changes: in particular neither the version nor
    the registration time by which other relays notice an update.  (A registry
    whose clock and TTL sum to Go's zero time, in year 1, is the one case where a
    known peer would be told "not found".) *)
Theorem grpc_heartbeat `{Timestamps} cfg r now req (Hr : reachable cfg r)
    (Hclock : now + TTL (Config_defaults cfg) ≠ zero_time) (Hid : hb_PeerId req ≠ "") :
  let p := hb_PeerId req in
  let '(r', res) := GRPCServer_Heartbeat r now req in
  skillIndex r' = skillIndex r ∧ federated r' = federated r ∧
  match entries r !! p with
  | None => r' = r ∧ ∃ st, res = inr st ∧ st_code st = NotFound
  | Some reg =>
      ∃ t, res = inl t ∧ ts_AsTime t = now + TTL (Config_defaults cfg) ∧
        entries r' = <[p := set_ExpiresAt reg (ts_AsTime t)]> (entries r) ∧
        (∀ now' since, now' <= ExpiresAt reg → now' <= ts_AsTime t → ∀ ord,
           p ∈ PeerID <$> LocalRegistrations r' ord now' since ↔
           p ∈ PeerID <$> LocalRegistrations r ord now' since)
  end.
Proof.
  cbv zeta. rewrite <- (reachable_config _ _ Hr) in *. pose proof (reachable_wf _ _ Hr) as Hwf.
  unfold GRPCServer_Heartbeat, Heartbeat. apply String.eqb_neq in Hid. rewrite Hid.
  destruct (entries r !! hb_PeerId req) as [reg|] eqn:Hp; simpl.
  - unfold IsZero, Add. rewrite (proj2 (Z.eqb_neq _ _) Hclock). simpl.
    split_and!; [done..|]. eexists. rewrite ts_AsTime_New. split_and!; [done..|].
    intros now' since Hn1 Hn2 ord. pose proof (wf_keys _ _ _ Hwf Hp) as Hk.
    assert (∀ es x, (∀ k y, es !! k = Some y → PeerID y = k) → es !! hb_PeerId req = Some x →
      After now' (ExpiresAt x) = false → RegisteredAt x = RegisteredAt reg →
      (hb_PeerId req ∈ PeerID <$> filter (λ reg, negb (After now' (ExpiresAt reg)) &&
         (After (RegisteredAt reg) since || Equal (RegisteredAt reg) since)) (range_values ord es)) ↔
      (After (RegisteredAt reg) since || Equal (RegisteredAt reg) since) = true) as Hlr.
    { intros es x Hkeys Hx Hexp <-. rewrite list_elem_of_fmap. split.
      - intros (y & Hy & [Hf (k & Hky)%elem_of_range_values]%list_elem_of_filter).
        rewrite (Hkeys _ _ Hky) in Hy. subst k. rewrite Hx in Hky. injection Hky as <-.
        by apply Is_true_true, andb_true_iff in Hf as [_ ?].
      - intros Hs. exists x. split; [by rewrite (Hkeys _ _ Hx)|].
        apply list_elem_of_filter. split; [by rewrite Hexp, Hs|]. apply elem_of_range_values. eauto. }
    unfold LocalRegistrations; simpl.
    rewrite (Hlr (<[hb_PeerId req := _]> (entries r)) (set_ExpiresAt reg (now + TTL (config r)))),
      (Hlr (entries r) reg); try done.
    + intros k y Hy. by apply (wf_keys _ _ _ Hwf).
    + by apply Z.ltb_ge.
    + intros k y [[<- <-]|[_ Hy]]%lookup_insert_Some; [done|]. by apply (wf_keys _ _ _ Hwf).
    + by rewrite lookup_insert_eq.
    + by apply Z.ltb_ge.
  - split_and!; [done..|]. eauto.
Qed.

Lemma grpc_heartbeat_witness :
  (GRPCServer_Heartbeat ex_served 5000 (mkHeartbeatRequest "nobody")).1 = ex_served ∧
  entries (GRPCServer_Heartbeat ex_served 5000 (mkHeartbeatRequest "p")).1 =
    <["p" := mkRegistration "p" (pbSkillsToRegistry (rs_Skills (ex_req "p"))) "A" "demo" 1000
               (5000 + 30 * Second) "" 1000]> (entries ex_served).
Proof.
  assert (reachable ex_small ex_served) as Hr
    by (apply RegisterSkills_reachable; constructor).
  split.
  - pose proof (grpc_heartbeat ex_small ex_served 5000 (mkHeartbeatRequest "nobody") Hr
      ltac:(vm_compute; discriminate) ltac:(discriminate)) as H.
    destruct (GRPCServer_Heartbeat ex_served 5000 (mkHeartbeatRequest "nobody")) as [r' res].
    by destruct H as (_ & _ & [-> _]).
  - vm_compute. reflexivity.
Defined.
