(* ===== verification/Federation.v ===== *)
(** * Relay-to-relay synchronisation, the pulling side
    ([src/internal/federation/federation.go], [gossip.go])

    The manager's maps, the per-peer backoff, one pull from a peer ([syncPeer]),
    a round of parallel pulls ([syncAll]) as all interleavings of the goroutines'
    critical sections, pushing, and the health snapshot.  The gRPC client of a
    peer is a function from a request to a response or an error; readings of the
    clock are arguments. *)
From stdpp Require Import gmap strings list.
From Stdlib Require Import ZArith Lia.
From S2P Require Import Prelude GoStd Registry Proto.

Local Open Scope Z_scope.

Definition DefaultSyncInterval : Z := 10 * Second.
Definition circuitBreakerBaseDelay : Z := 5 * Second.
Definition circuitBreakerMaxDelay : Z := 5 * Minute.

Record fed_Config := mk_fed_Config {
  PeerRelays : list string;
  SyncInterval : Z;
  RelayID : string
}.

Record peerState := mkPeerState { consecutiveFailures : Z; backoffUntil : Z }.

(** [peerState{}]. *)
Definition peerState_zero : peerState := mkPeerState 0 zero_time.

(** [clients] and [conns] have the same keys, the addresses; [startOnce] is
    [true] once the body of [Start] has run. *)
Record Federation := mkFederation {
  fed_cfg : fed_Config;
  clients : gset string;
  lastSync : gmap string Z;
  peerStates : gmap string peerState;
  startOnce : bool;
  started : bool
}.

Definition Federation_New (cfg : fed_Config) : Federation :=
  let cfg := if SyncInterval cfg =? 0
             then mk_fed_Config (PeerRelays cfg) DefaultSyncInterval (RelayID cfg) else cfg in
  {| fed_cfg := cfg; clients := ∅; lastSync := ∅; peerStates := ∅;
     startOnce := false; started := false |}.

(** The connection loop of [Start]; [dial] tells whether [grpc.NewClient]
    accepts the address. *)
Fixpoint connect (dial : string → bool) (addrs : list string) (conns : gset string) : gset string :=
  match addrs with
  | [] => conns
  | addr :: addrs =>
    if dial addr then connect dial addrs ({[addr]} ∪ conns) else connect dial addrs conns
  end.

(** The second component tells whether the sync loop is launched. *)
Definition Start (f : Federation) (dial : string → bool) : Federation * bool :=
  if startOnce f then (f, false)
  else
    let conns := connect dial (PeerRelays (fed_cfg f)) ∅ in
    ({| fed_cfg := fed_cfg f; clients := conns; lastSync := lastSync f;
        peerStates := peerStates f; startOnce := true; started := true |},
     negb (set_len conns =? 0)).

Definition PeerCount (f : Federation) : Z := set_len (clients f).

(** ** Backoff *)

Definition set_peerStates (f : Federation) (ps : gmap string peerState) : Federation :=
  {| fed_cfg := fed_cfg f; clients := clients f; lastSync := lastSync f; peerStates := ps;
     startOnce := startOnce f; started := started f |}.

Definition set_lastSync (f : Federation) (ls : gmap string Z) : Federation :=
  {| fed_cfg := fed_cfg f; clients := clients f; lastSync := ls; peerStates := peerStates f;
     startOnce := startOnce f; started := started f |}.

(** [f.peerStates[addr]]: the zero value when the key is absent. *)
Definition peer_state (f : Federation) (addr : string) : peerState :=
  default peerState_zero (peerStates f !! addr).

(** [time.Duration(math.Pow(2, float64(n-1)))] for [n >= 1].  Powers of two are
    exact in a [float64]; converting one that is too large for an [int64] (or the
    infinity) is implementation-defined in Go: the parameter [conv_oob]. *)
Definition pow2_duration (conv_oob n : Z) : Z :=
  if 2 ^ (n - 1) <=? max_int64 then 2 ^ (n - 1) else conv_oob.

(** The delay of the [n]th consecutive failure; the product wraps around. *)
Definition backoff_delay (conv_oob n : Z) : Z :=
  let delay := int64 (circuitBreakerBaseDelay * pow2_duration conv_oob n) in
  if delay >? circuitBreakerMaxDelay then circuitBreakerMaxDelay else delay.

Definition recordPeerFailure (conv_oob : Z) (f : Federation) (addr : string) (now : Z)
    : Federation :=
  let n := int64 (consecutiveFailures (peer_state f addr) + 1) in
  set_peerStates f (<[addr := mkPeerState n (Add now (backoff_delay conv_oob n))]> (peerStates f)).

Definition recordPeerSuccess (f : Federation) (addr : string) : Federation :=
  match peerStates f !! addr with
  | Some _ => set_peerStates f (<[addr := peerState_zero]> (peerStates f))
  | None => f
  end.

(** ** Pulling from one peer *)

Section sync.
Context `{Timestamps} (conv_oob : Z).

(** The peer's [SyncRegistrations]: [None] is an RPC error. *)
Abbreviation Client := (SyncRegistrationsRequest → option SyncRegistrationsResponse).

Definition sync_request (f : Federation) (addr : string) : SyncRegistrationsRequest :=
  let since := default zero_time (lastSync f !! addr) in
  {| sync_RelayId := RelayID (fed_cfg f);
     sync_Since := if negb (IsZero since) then Some (ts_New since) else None;
     sync_Limit := 1000 |}.

(** One registration of a response: the registry afterwards and whether it was
    accepted. *)
Definition accept_one (addr : string) (r : Registry) (fedReg : FederatedRegistration)
    : Registry * bool :=
  match fr_RegisteredAt fedReg, fr_ExpiresAt fedReg with
  | Some registeredAt, Some expiresAt =>
    let skills := pbSkillsToRegistry (fr_Skills fedReg) in
    let originRelay := if String.eqb (fr_OriginRelayId fedReg) "" then addr
                       else fr_OriginRelayId fedReg in
    let '(r, err) := RegisterFederated r (fr_PeerId fedReg) originRelay skills
      (fr_AgentName fedReg) (fr_AgentDescription fedReg)
      (ts_AsTime registeredAt) (ts_AsTime expiresAt) (fr_Version fedReg) in
    (r, match err with Some _ => false | None => true end)
  | _, _ => (r, false)
  end.

Fixpoint accept_all (addr : string) (r : Registry) (regs : list FederatedRegistration)
    (accepted : Z) : Registry * Z :=
  match regs with
  | [] => (r, accepted)
  | fedReg :: regs =>
    let '(r, ok) := accept_one addr r fedReg in
    accept_all addr r regs (if ok : bool then accepted + 1 else accepted)
  end.

Inductive sync_outcome := SyncSkipped | SyncFailed | SyncDone (accepted : Z).

(** [now] is read before the backoff check, [now'] when a failure is recorded. *)
Definition syncPeer (f : Federation) (r : Registry) (addr : string) (client : Client)
    (now now' : Z) : Federation * Registry * sync_outcome :=
  if Before now (backoffUntil (peer_state f addr)) then (f, r, SyncSkipped)
  else
    match client (sync_request f addr) with
    | None => (recordPeerFailure conv_oob f addr now', r, SyncFailed)
    | Some resp =>
      let f := recordPeerSuccess f addr in
      let '(r, accepted) := accept_all addr r (sync_Registrations resp) 0 in
      let f := match sync_SyncTimestamp resp with
               | Some t => set_lastSync f (<[addr := ts_AsTime t]> (lastSync f))
               | None => f
               end in
      (f, r, SyncDone accepted)
    end.

(** ** A round: all peers in parallel

    [syncPeer] takes the manager's lock for each access to its maps and the
    registry's lock for each registration.  These are the writing critical
    sections of one goroutine, in program order. *)
Inductive sync_action :=
| ActFailure (addr : string) (now : Z)
| ActSuccess (addr : string)
| ActRegister (addr : string) (fedReg : FederatedRegistration)
| ActStamp (addr : string) (t : Z).

Definition act_addr (a : sync_action) : string :=
  match a with
  | ActFailure addr _ | ActSuccess addr | ActRegister addr _ | ActStamp addr _ => addr
  end.

Definition exec_action (st : Federation * Registry) (a : sync_action) : Federation * Registry :=
  let '(f, r) := st in
  match a with
  | ActFailure addr now => (recordPeerFailure conv_oob f addr now, r)
  | ActSuccess addr => (recordPeerSuccess f addr, r)
  | ActRegister addr fedReg => (f, (accept_one addr r fedReg).1)
  | ActStamp addr t => (set_lastSync f (<[addr := t]> (lastSync f)), r)
  end.

(** What the goroutine of a peer does, given what it reads about that peer. *)
Definition peer_actions (f : Federation) (addr : string) (client : Client) (now now' : Z)
    : list sync_action :=
  if Before now (backoffUntil (peer_state f addr)) then []
  else
    match client (sync_request f addr) with
    | None => [ActFailure addr now']
    | Some resp =>
      ActSuccess addr :: (ActRegister addr <$> sync_Registrations resp) ++
        match sync_SyncTimestamp resp with Some t => [ActStamp addr (ts_AsTime t)] | None => [] end
    end.

(** The interleavings of several sequences. *)
Inductive interleaving {A} : list (list A) → list A → Prop :=
| il_done ls : Forall (λ l, l = []) ls → interleaving ls []
| il_step ls i a l tr :
    ls !! i = Some (a :: l) → interleaving (<[i := l]> ls) tr → interleaving ls (a :: tr).

(** [net] gives, for an address, its client and its clock readings.  A goroutine
    reads only the entries of its own address, which no other goroutine writes,
    so its actions are those of the state before the round. *)
Record PeerNet := mkPeerNet { pn_client : Client; pn_now : Z; pn_now' : Z }.

Definition round_threads (f : Federation) (net : string → PeerNet) (addrs : list string)
    : list (list sync_action) :=
  (λ addr, peer_actions f addr (pn_client (net addr)) (pn_now (net addr)) (pn_now' (net addr))) <$> addrs.

(** [syncAll]: some interleaving of the goroutines of all clients. *)
Definition syncAll (f : Federation) (r : Registry) (ord : RangeOrder) (net : string → PeerNet)
    (st : Federation * Registry) : Prop :=
  ∃ tr, interleaving (round_threads f net (ord (clients f))) tr ∧
        st = foldl exec_action (f, r) tr.

(** ** Pushing *)

(** The message for a registration; also built by the server. *)
Definition toFederated (relayID : string) (reg : Registration) : FederatedRegistration :=
  {| fr_PeerId := PeerID reg; fr_OriginRelayId := relayID;
     fr_Skills := registrySkillsToPb (Skills reg);
     fr_AgentName := AgentName reg; fr_AgentDescription := AgentDescription reg;
     fr_RegisteredAt := Some (ts_New (RegisteredAt reg));
     fr_ExpiresAt := Some (ts_New (ExpiresAt reg)); fr_Version := Version reg |}.

(** The peers are called concurrently; [ord] is the order in which their calls
    return.  The result is the requests sent and the first error. *)
Fixpoint push_loop {E} (push : string → PushRegistrationsRequest → PushRegistrationsResponse + E)
    (req : PushRegistrationsRequest) (addrs : list string) (firstErr : option E) : option E :=
  match addrs with
  | [] => firstErr
  | addr :: addrs =>
    match push addr req with
    | inr err =>
      push_loop push req addrs (match firstErr with None => Some err | Some _ => firstErr end)
    | inl _ => push_loop push req addrs firstErr
    end
  end.

Definition PushLocal {E} (f : Federation) (regs : list Registration) (ord : RangeOrder)
    (push : string → PushRegistrationsRequest → PushRegistrationsResponse + E)
    : list (string * PushRegistrationsRequest) * option E :=
  if (set_len (clients f) =? 0) || (len regs =? 0) then ([], None)
  else
    let req := {| push_RelayId := RelayID (fed_cfg f);
                  push_Registrations := map (toFederated (RelayID (fed_cfg f))) regs |} in
    (map (λ addr, (addr, req)) (ord (clients f)), push_loop push req (ord (clients f)) None).
End sync.

(** ** Health *)

(** [BackoffUntil] is formatted with RFC 3339; here it is the instant. *)
Record PeerHealth := mkPeerHealth {
  Address : string;
  Healthy : bool;
  ConsecutiveFailures : Z;
  BackoffUntil : option Z
}.

Record FederationHealth := mkFederationHealth {
  Peers : Z;
  HealthyPeers : Z;
  PeerDetails : list PeerHealth
}.

Definition peer_health (f : Federation) (now : Z) (addr : string) : PeerHealth :=
  match peerStates f !! addr with
  | None => mkPeerHealth addr true 0 None
  | Some state =>
    if Before now (backoffUntil state)
    then mkPeerHealth addr false (consecutiveFailures state) (Some (backoffUntil state))
    else mkPeerHealth addr true (consecutiveFailures state) None
  end.

Definition health_step (f : Federation) (now : Z) (h : FederationHealth) (addr : string)
    : FederationHealth :=
  let ph := peer_health f now addr in
  {| Peers := Peers h;
     HealthyPeers := if Healthy ph then HealthyPeers h + 1 else HealthyPeers h;
     PeerDetails := PeerDetails h ++ [ph] |}.

Definition HealthStatus (f : Federation) (ord : RangeOrder) (now : Z) : FederationHealth :=
  foldl (health_step f now) (mkFederationHealth (set_len (clients f)) 0 []) (ord (clients f)).

(** ** Backoff: the delays *)

Lemma backoff_delay_small conv_oob n :
  1 <= n <= 31 →
  backoff_delay conv_oob n = Z.min (circuitBreakerBaseDelay * 2 ^ (n - 1)) circuitBreakerMaxDelay.
Proof.
  intros Hn. unfold backoff_delay, pow2_duration.
  assert (1 <= 2 ^ (n - 1) <= 2 ^ 30) as Hp.
  { split; [apply (Z.pow_le_mono_r 2 0); lia|apply Z.pow_le_mono_r; lia]. }
  rewrite (proj2 (Z.leb_le _ _)) by (unfold max_int64; lia).
  assert (int64 (circuitBreakerBaseDelay * 2 ^ (n - 1)) = circuitBreakerBaseDelay * 2 ^ (n - 1)) as ->.
  { apply int64_small. unfold min_int64, max_int64, circuitBreakerBaseDelay, Second. lia. }
  case_if Hc; bool_to_prop; lia.
Qed.

Lemma backoff_delay_bounds conv_oob n : backoff_delay conv_oob n <= circuitBreakerMaxDelay.
Proof. unfold backoff_delay. case_if Hc; bool_to_prop; lia. Qed.

Lemma recordPeerFailure_state conv_oob f addr now n t :
  peer_state f addr = mkPeerState n t → 0 <= n < max_int64 →
  peer_state (recordPeerFailure conv_oob f addr now) addr =
    mkPeerState (n + 1) (now + backoff_delay conv_oob (n + 1)).
Proof.
  intros Hs Hn. unfold recordPeerFailure. rewrite Hs. simpl.
  rewrite int64_small by (unfold min_int64, max_int64 in *; lia).
  unfold peer_state. simpl. by rewrite lookup_insert_eq.
Qed.

Lemma peer_state_stored f addr s :
  peer_state f addr = s → consecutiveFailures s ≠ 0 → peerStates f !! addr = Some s.
Proof. unfold peer_state. destruct (peerStates f !! addr); intros <-; [done|]. by intros []. Qed.

Lemma recordPeerSuccess_state f addr : peer_state (recordPeerSuccess f addr) addr = peerState_zero.
Proof.
  unfold recordPeerSuccess. destruct (peerStates f !! addr) as [s|] eqn:E; unfold peer_state.
  - cbn [peerStates set_peerStates]. by rewrite lookup_insert_eq.
  - by rewrite E.
Qed.

(** [n] failures in a row of a peer, at the given times. *)
Fixpoint fail_at (conv_oob : Z) (f : Federation) (addr : string) (times : list Z) : Federation :=
  match times with
  | [] => f
  | now :: times => fail_at conv_oob (recordPeerFailure conv_oob f addr now) addr times
  end.

Lemma fail_at_app conv_oob f addr l1 l2 :
  fail_at conv_oob f addr (l1 ++ l2) = fail_at conv_oob (fail_at conv_oob f addr l1) addr l2.
Proof. revert f. induction l1 as [|now l1 IH]; intros f; simpl; [done|apply IH]. Qed.

Lemma fail_at_state conv_oob f addr times n t :
  peer_state f addr = mkPeerState n t → 0 <= n → n + len times < max_int64 →
  ∃ t', peer_state (fail_at conv_oob f addr times) addr = mkPeerState (n + len times) t'.
Proof.
  revert f n t. induction times as [|now times IH]; intros f n t Hs Hn Hlen; simpl.
  - exists t. rewrite Hs. f_equal. unfold len. simpl. lia.
  - rewrite len_cons in Hlen |- *. pose proof (len_nonneg times).
    destruct (IH _ _ _ (recordPeerFailure_state conv_oob f addr now n t Hs ltac:(lia)))
      as [t' Ht']; [lia..|]. exists t'. rewrite Ht'. f_equal. lia.
Qed.

(** The last of a run of failures decides the backoff. *)
Lemma fail_at_last conv_oob f addr times now :
  peer_state f addr = peerState_zero → len times < max_int64 - 1 →
  peer_state (fail_at conv_oob f addr (times ++ [now])) addr =
    mkPeerState (len times + 1) (now + backoff_delay conv_oob (len times + 1)).
Proof.
  intros Hs Hlen. rewrite fail_at_app. simpl.
  destruct (fail_at_state conv_oob f addr times 0 zero_time Hs) as [t' Ht']; [lia..|].
  pose proof (len_nonneg times).
  rewrite (recordPeerFailure_state _ _ _ _ (len times) t') by (done || lia). done.
Qed.

(** ** Health: what the counters count *)

Lemma health_fold f now addrs h :
  foldl (health_step f now) h addrs =
    {| Peers := Peers h;
       HealthyPeers := HealthyPeers h +
         len (filter (λ addr, Healthy (peer_health f now addr)) addrs);
       PeerDetails := PeerDetails h ++ (peer_health f now <$> addrs) |}.
Proof.
  revert h. induction addrs as [|addr addrs IH]; intros h; simpl.
  - rewrite app_nil_r, Z.add_0_r. by destruct h.
  - rewrite IH. rewrite filter_cons. simpl.
    destruct (Healthy (peer_health f now addr)) eqn:Hh; simpl.
    + rewrite <- app_assoc. f_equal. unfold len. simpl. lia.
    + by rewrite <- app_assoc.
Qed.

Lemma connect_spec dial addrs conns addr :
  addr ∈ connect dial addrs conns ↔ addr ∈ conns ∨ addr ∈ addrs ∧ dial addr = true.
Proof.
  revert conns. induction addrs as [|a addrs IH]; intros conns; simpl.
  { split; [by left|]. by intros [?|[?%elem_of_nil _]]. }
  destruct (decide (addr = a)) as [->|Hne]; destruct (dial a) eqn:Hd;
    rewrite IH, ?elem_of_union, ?elem_of_singleton, elem_of_cons; intuition congruence.
Qed.
