(* ===== verification/FederationServer.v ===== *)
(** * The federation service ([src/internal/federation/grpc_server.go])

    [SyncRegistrations] serves the local registrations of a relay to its peers,
    [PushRegistrations] takes theirs. *)
From stdpp Require Import gmap strings list.
From Stdlib Require Import ZArith Lia.
From S2P Require Import Prelude GoStd Registry RegistryInv RegistryLww Proto Federation.

Local Open Scope Z_scope.

Record Server := mkServer { srv_relayID : string }.

Definition FederationServer_New (relayID : string) : Server := mkServer relayID.

(** The clamping of the request's limit. *)
Definition clampSyncLimit (limit : Z) : Z :=
  let limit := if limit <=? 0 then 500 else limit in
  if limit >? 5000 then 5000 else limit.

Section server.
Context `{Timestamps}.

(** The loop over the snapshot, with its break at the limit. *)
Fixpoint sync_loop (relayID : string) (limit : Z) (localRegs : list Registration)
    (fedRegs : list FederatedRegistration) : list FederatedRegistration :=
  match localRegs with
  | [] => fedRegs
  | reg :: localRegs =>
    if len fedRegs >=? limit then fedRegs
    else sync_loop relayID limit localRegs (fedRegs ++ [toFederated relayID reg])
  end.

(** The clock is read twice: inside [LocalRegistrations] ([tsnap]), and
    afterwards for the timestamp of the response ([now]). *)
Definition SyncRegistrations (s : Server) (r : Registry) (ord : RangeOrder) (tsnap now : Z)
    (req : SyncRegistrationsRequest) : SyncRegistrationsResponse + status :=
  if String.eqb (sync_RelayId req) ""
  then inr (mkStatus InvalidArgument "relay_id is required")
  else
    let since := match sync_Since req with Some t => ts_AsTime t | None => zero_time end in
    let limit := clampSyncLimit (sync_Limit req) in
    let localRegs := LocalRegistrations r ord tsnap since in
    let fedRegs := sync_loop (srv_relayID s) limit localRegs [] in
    inl {| sync_Registrations := fedRegs; sync_SyncTimestamp := Some (ts_New now) |}.

(** One pushed registration; [false] when it is rejected. *)
Definition push_one (relayId : string) (r : Registry) (fedReg : FederatedRegistration)
    : Registry * bool :=
  if String.eqb (fr_PeerId fedReg) "" then (r, false)
  else
    let skills := pbSkillsToRegistry (fr_Skills fedReg) in
    let originRelay := if String.eqb (fr_OriginRelayId fedReg) "" then relayId
                       else fr_OriginRelayId fedReg in
    let registeredAt := match fr_RegisteredAt fedReg with
                        | Some t => ts_AsTime t | None => zero_time end in
    let expiresAt := match fr_ExpiresAt fedReg with
                     | Some t => ts_AsTime t | None => zero_time end in
    let '(r, err) := RegisterFederated r (fr_PeerId fedReg) originRelay skills
      (fr_AgentName fedReg) (fr_AgentDescription fedReg) registeredAt expiresAt
      (fr_Version fedReg) in
    (r, match err with Some _ => false | None => true end).

(** Both counters are [int32]. *)
Fixpoint push_all (relayId : string) (r : Registry) (regs : list FederatedRegistration)
    (accepted rejected : Z) : Registry * Z * Z :=
  match regs with
  | [] => (r, accepted, rejected)
  | fedReg :: regs =>
    let '(r, ok) := push_one relayId r fedReg in
    if ok : bool then push_all relayId r regs (int32 (accepted + 1)) rejected
    else push_all relayId r regs accepted (int32 (rejected + 1))
  end.

Definition PushRegistrations (r : Registry) (req : PushRegistrationsRequest)
    : Registry * (PushRegistrationsResponse + status) :=
  if String.eqb (push_RelayId req) ""
  then (r, inr (mkStatus InvalidArgument "relay_id is required"))
  else
    let '(r, accepted, rejected) := push_all (push_RelayId req) r (push_Registrations req) 0 0 in
    (r, inl (mkPushRegistrationsResponse accepted rejected)).

(** ** What the loops do *)

Lemma clampSyncLimit_range limit : 1 <= clampSyncLimit limit <= 5000.
Proof. unfold clampSyncLimit. case_ifs; bool_to_prop; lia. Qed.

Lemma sync_loop_take relayID limit regs acc :
  sync_loop relayID limit regs acc =
    acc ++ (toFederated relayID <$> take (Z.to_nat (limit - len acc)) regs).
Proof.
  revert acc. induction regs as [|reg regs IH]; intros acc; simpl.
  - by rewrite take_nil, app_nil_r.
  - case_if Hc; bool_to_prop.
    + replace (Z.to_nat (limit - len acc)) with 0%nat by lia. simpl. by rewrite app_nil_r.
    + rewrite IH, <- app_assoc. f_equal. rewrite len_app, len_cons, len_nil.
      replace (Z.to_nat (limit - len acc)) with (S (Z.to_nat (limit - (len acc + (0 + 1))))) by lia.
      done.
Qed.

(** The registration that a message carries for a receiver who calls the sender
    [sender]; [None] when [syncPeer] skips it. *)
Definition fed_update (sender : string) (fr : FederatedRegistration) : option Registration :=
  match fr_RegisteredAt fr, fr_ExpiresAt fr with
  | Some ra, Some ea =>
    Some {| PeerID := fr_PeerId fr; Skills := pbSkillsToRegistry (fr_Skills fr);
            AgentName := fr_AgentName fr; AgentDescription := fr_AgentDescription fr;
            RegisteredAt := ts_AsTime ra; ExpiresAt := ts_AsTime ea;
            Origin := if String.eqb (fr_OriginRelayId fr) "" then sender else fr_OriginRelayId fr;
            Version := fr_Version fr |}
  | _, _ => None
  end.

Lemma accept_one_deliver addr r fr :
  (accept_one addr r fr).1 =
    match fed_update addr fr with Some u => deliver r u | None => r end.
Proof.
  unfold accept_one, fed_update, deliver.
  destruct (fr_RegisteredAt fr), (fr_ExpiresAt fr); try done. simpl. by destruct (RegisterFederated _ _ _ _ _ _ _ _ _).
Qed.

Lemma accept_all_deliver addr r regs n :
  (accept_all addr r regs n).1 = deliver_all r (omap (fed_update addr) regs).
Proof.
  revert r n. induction regs as [|fr regs IH]; intros r n; [done|]. rewrite omap_cons. simpl.
  pose proof (accept_one_deliver addr r fr) as H1. destruct (accept_one addr r fr) as [r' ok].
  simpl in H1. rewrite IH, H1. by destruct (fed_update addr fr).
Qed.

(** What a message stands for after [toFederated]: the registration itself, with
    the sending relay as its origin. *)
Definition with_origin (relayID : string) (reg : Registration) : Registration :=
  {| PeerID := PeerID reg; Skills := Skills reg; AgentName := AgentName reg;
     AgentDescription := AgentDescription reg; RegisteredAt := RegisteredAt reg;
     ExpiresAt := ExpiresAt reg; Origin := relayID; Version := Version reg |}.

Lemma fed_update_toFederated sender relayID reg :
  relayID ≠ "" → fed_update sender (toFederated relayID reg) = Some (with_origin relayID reg).
Proof.
  intros Hid. unfold fed_update, toFederated. simpl.
  rewrite !ts_AsTime_New, pbSkills_roundtrip. apply String.eqb_neq in Hid. by rewrite Hid.
Qed.

Lemma omap_fed_update sender relayID (regs : list Registration) :
  relayID ≠ "" →
  omap (fed_update sender) (toFederated relayID <$> regs) = with_origin relayID <$> regs.
Proof.
  intros Hid. induction regs as [|reg regs IH]; [done|].
  rewrite !fmap_cons, omap_cons, fed_update_toFederated by done. by rewrite IH.
Qed.
End server.

(** ** Delivering updates about different peers *)

Lemma deliver_all_distinct r us :
  NoDup (PeerID <$> us) → room r us →
  (∀ u, u ∈ us → federated (deliver_all r us) !! PeerID u =
    Some (merge u (federated r !! PeerID u))) ∧
  (∀ p, p ∉ PeerID <$> us → federated (deliver_all r us) !! p = federated r !! p).
Proof.
  revert r. induction us as [|u us IH]; intros r Hnd Hroom; simpl.
  { split; [by intros ? ?%elem_of_nil|done]. }
  rewrite fmap_cons in Hnd. apply NoDup_cons in Hnd as [Hu Hnd].
  destruct (IH _ Hnd (room_deliver _ _ _ Hroom)) as [H1 H2].
  pose proof (deliver_federated _ _ _ Hroom) as Hd. split.
  - intros v [->|Hv]%elem_of_cons.
    + by rewrite H2, Hd, lookup_insert_eq.
    + rewrite H1, Hd by done. rewrite lookup_insert_ne; [done|].
      intros He. apply Hu. rewrite He. by apply list_elem_of_fmap_2.
  - intros p. simpl. rewrite not_elem_of_cons. intros [Hne Hp].
    by rewrite H2, Hd, lookup_insert_ne.
Qed.

Lemma NoDup_LocalRegistrations r ord now since :
  wf r → NoDup (PeerID <$> LocalRegistrations r ord now since).
Proof.
  intros Hwf. unfold LocalRegistrations.
  eapply sublist_NoDup; [|apply fmap_sublist, sublist_filter].
  unfold range_values. apply (NoDup_fmap_omap_inv _ PeerID); [|apply NoDup_range].
  intros p reg Hp. by apply (wf_keys _ _ _ Hwf).
Qed.

Lemma elem_of_LocalRegistrations r ord now since reg :
  wf r →
  reg ∈ LocalRegistrations r ord now since ↔
    entries r !! PeerID reg = Some reg ∧ now <= ExpiresAt reg ∧ since <= RegisteredAt reg.
Proof.
  intros Hwf. unfold LocalRegistrations. rewrite list_elem_of_filter, elem_of_range_values.
  assert (Is_true (negb (After now (ExpiresAt reg)) &&
    (After (RegisteredAt reg) since || Equal (RegisteredAt reg) since)) ↔
    now <= ExpiresAt reg ∧ since <= RegisteredAt reg) as ->.
  { unfold After, Equal. rewrite Is_true_true, andb_true_iff, negb_true_iff, orb_true_iff,
      Z.ltb_ge, Z.ltb_lt, Z.eqb_eq. lia. }
  split.
  - intros [Ht [p Hp]]. by rewrite (wf_keys _ _ _ Hwf Hp).
  - intros (He & Ht). eauto.
Qed.

(** ** Acceptance *)

Section acceptance.
Context `{Timestamps}.

(** With room for the peer the registry never refuses. *)
Lemma RegisterFederated_room r u us :
  room r (u :: us) →
  (RegisterFederated r (PeerID u) (Origin u) (Skills u) (AgentName u) (AgentDescription u)
     (RegisteredAt u) (ExpiresAt u) (Version u)).2 = None.
Proof.
  intros Hroom. unfold RegisterFederated. destruct (federated r !! PeerID u) eqn:E.
  - by case_ifs.
  - by rewrite (room_not_full _ _ _ Hroom E).
Qed.

Lemma accept_all_room addr r regs us n :
  omap (fed_update addr) regs = us → length us = length regs → room r us →
  accept_all addr r regs n = (deliver_all r us, n + len regs).
Proof.
  intros Hus Hlen Hroom. rewrite (surjective_pairing (accept_all _ _ _ _)), accept_all_deliver, Hus.
  f_equal. revert r n us Hus Hlen Hroom.
  induction regs as [|fr regs IH]; intros r n us Hus Hlen Hroom; [unfold len; simpl; lia|].
  rewrite omap_cons in Hus. cbn [accept_all].
  pose proof (length_omap_le (fed_update addr) regs) as Hle.
  destruct (fed_update addr fr) as [u|] eqn:Hu; [|subst us; simpl in Hlen; lia].
  subst us. simpl in Hlen. pose proof (accept_one_deliver addr r fr) as H1. rewrite Hu in H1.
  assert ((accept_one addr r fr).2 = true) as H2.
  { unfold fed_update in Hu. unfold accept_one.
    destruct (fr_RegisteredAt fr) as [ra|], (fr_ExpiresAt fr) as [ea|]; try done.
    injection Hu as <-. apply RegisterFederated_room in Hroom. simpl in Hroom.
    destruct (RegisterFederated _ _ _ _ _ _ _ _ _) as [r' err]. simpl in Hroom. by subst err. }
  destruct (accept_one addr r fr) as [r' ok]. simpl in H1, H2. subst r' ok.
  rewrite (IH _ _ _ eq_refl) by (try lia; by apply room_deliver).
  rewrite len_cons. lia.
Qed.

(** ** The response of [SyncRegistrations] *)

Definition sync_since (req : SyncRegistrationsRequest) : Z :=
  match sync_Since req with Some t => ts_AsTime t | None => zero_time end.

Lemma SyncRegistrations_ok s r ord tsnap now req :
  sync_RelayId req ≠ "" →
  SyncRegistrations s r ord tsnap now req = inl
    {| sync_Registrations := toFederated (srv_relayID s) <$>
         take (Z.to_nat (clampSyncLimit (sync_Limit req)))
           (LocalRegistrations r ord tsnap (sync_since req));
       sync_SyncTimestamp := Some (ts_New now) |}.
Proof.
  intros Hid. unfold SyncRegistrations. apply String.eqb_neq in Hid. rewrite Hid. cbv zeta.
  rewrite sync_loop_take. by rewrite len_nil, Z.sub_0_r.
Qed.

Lemma fr_PeerId_toFederated relayID (regs : list Registration) :
  fr_PeerId <$> (toFederated relayID <$> regs) = PeerID <$> regs.
Proof. by rewrite <- list_fmap_compose. Qed.
End acceptance.

(** ** Pushed registrations *)

Section pushing.
Context `{Timestamps}.

(** The registration a pushed message carries; absent times are the zero time. *)
Definition pushed_update (relayId : string) (fr : FederatedRegistration) : Registration :=
  {| PeerID := fr_PeerId fr; Skills := pbSkillsToRegistry (fr_Skills fr);
     AgentName := fr_AgentName fr; AgentDescription := fr_AgentDescription fr;
     RegisteredAt := match fr_RegisteredAt fr with Some t => ts_AsTime t | None => zero_time end;
     ExpiresAt := match fr_ExpiresAt fr with Some t => ts_AsTime t | None => zero_time end;
     Origin := if String.eqb (fr_OriginRelayId fr) "" then relayId else fr_OriginRelayId fr;
     Version := fr_Version fr |}.

Lemma push_one_cases relayId r fr :
  push_one relayId r fr =
    if decide (fr_PeerId fr ≠ "")
    then (deliver r (pushed_update relayId fr), (push_one relayId r fr).2) else (r, false).
Proof.
  unfold push_one. destruct (String.eqb_spec (fr_PeerId fr) "") as [He|Hne].
  { rewrite decide_False; [done|]. by intros []. }
  rewrite decide_True by done. unfold deliver. cbn.
  by destruct (RegisterFederated _ _ _ _ _ _ _ _ _).
Qed.

Lemma push_one_room relayId r fr us :
  fr_PeerId fr ≠ "" → room r (pushed_update relayId fr :: us) → (push_one relayId r fr).2 = true.
Proof.
  intros Hne Hroom. unfold push_one. apply String.eqb_neq in Hne. rewrite Hne.
  apply RegisterFederated_room in Hroom. cbn in Hroom.
  destruct (RegisterFederated _ _ _ _ _ _ _ _ _). simpl in Hroom. by subst.
Qed.

Lemma push_all_spec relayId regs r accepted rejected :
  0 <= accepted → 0 <= rejected → accepted + rejected + len regs < 2 ^ 31 →
  let named := filter (λ fr, fr_PeerId fr ≠ "") regs in
  let us := pushed_update relayId <$> named in
  ∃ a j, push_all relayId r regs accepted rejected = (deliver_all r us, a, j) ∧
    a + j = accepted + rejected + len regs ∧
    rejected + (len regs - len named) <= j ∧
    (room r us → j = rejected + (len regs - len named)).
Proof.
  revert r accepted rejected. induction regs as [|fr regs IH]; intros r accepted rejected Ha Hj Hlen.
  { cbv zeta. rewrite filter_nil, !len_nil. exists accepted, rejected. split_and!; [done|lia..]. }
  cbv zeta. rewrite len_cons in Hlen |- *. cbn [push_all]. rewrite push_one_cases, filter_cons.
  pose proof (len_nonneg regs). destruct (decide (fr_PeerId fr ≠ "")) as [Hne|He].
  - rewrite fmap_cons, len_cons. pose proof (push_one_room relayId r fr) as Hro.
    destruct (push_one relayId r fr).2.
    + rewrite int32_small by lia.
      destruct (IH (deliver r (pushed_update relayId fr)) (accepted + 1) rejected)
        as (a & j & E & Hs & Hm & Hr); [lia..|]. exists a, j. rewrite E.
      split_and!; [done|lia|lia|]. intros Hroom. rewrite (Hr (room_deliver _ _ _ Hroom)). lia.
    + rewrite int32_small by lia.
      destruct (IH (deliver r (pushed_update relayId fr)) accepted (rejected + 1))
        as (a & j & E & Hs & Hm & Hr); [lia..|]. exists a, j. rewrite E.
      split_and!; [done|lia|lia|]. intros Hroom. by specialize (Hro _ Hne Hroom).
  - rewrite int32_small by lia.
    destruct (IH r accepted (rejected + 1)) as (a & j & E & Hs & Hm & Hr); [lia..|].
    exists a, j. rewrite E. split_and!; [done|lia|lia|]. intros Hroom. rewrite (Hr Hroom). lia.
Qed.
End pushing.
