(* ===== verification/FederationRound.v ===== *)
(** * A synchronisation round does not depend on how its goroutines interleave

    The goroutines of [syncAll] write different keys of the manager's maps, and
    what they deliver to the registry converges; so every interleaving ends like
    the peers synchronised one after the other. *)
From stdpp Require Import gmap strings list.
From Stdlib Require Import ZArith Lia.
From S2P Require Import Prelude GoStd Registry RegistryInv RegistryLww Proto Federation FederationServer.

Local Open Scope Z_scope.

(** ** Interleavings *)

Section interleavings.
Context {A : Type}.

Lemma interleaving_perm (ls : list (list A)) tr : interleaving ls tr → tr ≡ₚ concat ls.
Proof.
  induction 1 as [ls Hls|ls i a l tr Hi _ IH].
  - induction Hls as [|l ls Hl Hls IH]; [done|]. simpl. by rewrite <- IH, Hl.
  - rewrite IH. clear IH. revert i Hi. induction ls as [|k ls IHls]; intros [|i] Hi; simplify_eq/=.
    + done.
    + rewrite <- (IHls i Hi). by rewrite Permutation_middle.
Qed.

(** The actions of one thread stay in order. *)
Lemma interleaving_filter (P : A → Prop) `{!∀ x, Decision (P x)} ls tr i l :
  interleaving ls tr → ls !! i = Some l → Forall P l →
  (∀ j k, j ≠ i → ls !! j = Some k → Forall (λ x, ¬ P x) k) →
  filter P tr = l.
Proof.
  intros Hil. revert l. induction Hil as [ls Hls|ls j a k tr Hj _ IH]; intros l Hi Hl Ho.
  - rewrite Forall_forall in Hls. symmetry. apply Hls. by eapply list_elem_of_lookup_2.
  - pose proof (lookup_lt_Some _ _ _ Hj) as Hlt. rewrite filter_cons.
    destruct (decide (j = i)) as [->|Hne].
    + rewrite Hi in Hj. injection Hj as ->. apply Forall_cons in Hl as [Ha Hl].
      rewrite decide_True by done. f_equal. apply IH; [by apply list_lookup_insert_eq|done|].
      intros j' k' Hj'. rewrite list_lookup_insert_ne by done. eauto.
    + pose proof (Ho _ _ Hne Hj) as [Ha Hk]%Forall_cons. rewrite decide_False by done.
      apply IH; [by rewrite list_lookup_insert_ne|done|].
      intros j' k' Hj' Hk'. destruct (decide (j' = j)) as [->|].
      * rewrite list_lookup_insert_eq in Hk' by done. by simplify_eq.
      * rewrite list_lookup_insert_ne in Hk' by done. eauto.
Qed.

(** One thread after the other is an interleaving. *)
Lemma interleaving_concat (ls : list (list A)) : interleaving ls (concat ls).
Proof.
  assert (∀ n, interleaving (replicate n [] ++ ls) (concat ls)) as H; [|apply (H 0%nat)].
  induction ls as [|l ls IH]; intros n.
  - constructor. rewrite app_nil_r. by apply Forall_replicate.
  - induction l as [|a l IHl]; simpl.
    + replace (replicate n [] ++ [] :: ls) with (replicate (S n) [] ++ ls); [apply IH|].
      by rewrite replicate_S_end, <- app_assoc.
    + apply (il_step _ n a l).
      * rewrite lookup_app_r by (by rewrite length_replicate).
        by rewrite length_replicate, Nat.sub_diag.
      * rewrite insert_app_r_alt by (by rewrite length_replicate).
        by rewrite length_replicate, Nat.sub_diag.
Qed.

Lemma interleaving_filter_none (P : A → Prop) `{!∀ x, Decision (P x)} ls tr :
  interleaving ls tr → Forall (Forall (λ x, ¬ P x)) ls → filter P tr = [].
Proof.
  intros Hp%interleaving_perm Hls.
  assert (Forall (λ x, ¬ P x) tr) as Htr by (rewrite Hp; by apply List.Forall_concat).
  clear Hp Hls. induction Htr as [|x l Hx Hl IH]; [done|]. by rewrite filter_cons_False.
Qed.
End interleavings.

(** ** What the round does to one peer's entries *)

Section round.
Context `{Timestamps} (conv_oob : Z).

(** The entries of an address. *)
Definition peer_view (f : Federation) (addr : string) : option peerState * option Z :=
  (peerStates f !! addr, lastSync f !! addr).

Definition view_exec (v : option peerState * option Z) (a : sync_action)
    : option peerState * option Z :=
  match a with
  | ActFailure _ now =>
    let n := int64 (consecutiveFailures (default peerState_zero v.1) + 1) in
    (Some (mkPeerState n (Add now (backoff_delay conv_oob n))), v.2)
  | ActSuccess _ => ((λ _, peerState_zero) <$> v.1, v.2)
  | ActRegister _ _ => v
  | ActStamp _ t => (v.1, Some t)
  end.

Lemma exec_action_view st a addr :
  peer_view (exec_action conv_oob st a).1 addr =
    if decide (act_addr a = addr) then view_exec (peer_view st.1 addr) a
    else peer_view st.1 addr.
Proof.
  destruct st as [f r], a as [b now|b|b fr|b t]; unfold peer_view; simpl.
  - unfold recordPeerFailure, set_peerStates, peer_state; simpl.
    rewrite lookup_insert. case_decide; by subst.
  - unfold recordPeerSuccess, set_peerStates. destruct (peerStates f !! b) eqn:Hb; simpl.
    + rewrite lookup_insert. case_decide; subst; [by rewrite Hb|done].
    + case_decide; subst; [by rewrite Hb|done].
  - by case_decide.
  - rewrite lookup_insert. by case_decide; subst.
Qed.

Lemma exec_actions_view tr st addr :
  peer_view (foldl (exec_action conv_oob) st tr).1 addr =
    foldl view_exec (peer_view st.1 addr) (filter (λ a, act_addr a = addr) tr).
Proof.
  revert st. induction tr as [|a tr IH]; intros st; simpl; [done|].
  rewrite IH, exec_action_view, filter_cons. by case_decide.
Qed.

(** The rest of the manager's state stays as it is. *)
Lemma exec_actions_rest tr st :
  let f := st.1 in let f' := (foldl (exec_action conv_oob) st tr).1 in
  fed_cfg f' = fed_cfg f ∧ clients f' = clients f ∧
  startOnce f' = startOnce f ∧ started f' = started f.
Proof.
  revert st. induction tr as [|a tr IH]; intros [f r]; [done|]. cbn [foldl].
  destruct (IH (exec_action conv_oob (f, r) a)) as (-> & -> & -> & ->).
  destruct a; simpl; try done. unfold recordPeerSuccess. by case_match.
Qed.

Lemma Federation_eq f g :
  fed_cfg f = fed_cfg g → clients f = clients g → startOnce f = startOnce g →
  started f = started g → (∀ addr, peer_view f addr = peer_view g addr) → f = g.
Proof.
  destruct f, g; simpl. intros -> -> -> -> Hv. f_equal; apply map_eq; intros addr;
    specialize (Hv addr); unfold peer_view in Hv; simpl in Hv; congruence.
Qed.

(** ** What the round does to the registry *)

Definition act_update (a : sync_action) : option Registration :=
  match a with ActRegister addr fr => fed_update addr fr | _ => None end.

Lemma exec_actions_registry tr f r :
  (foldl (exec_action conv_oob) (f, r) tr).2 = deliver_all r (omap act_update tr).
Proof.
  revert f r. induction tr as [|a tr IH]; intros f r; [done|]. rewrite omap_cons. cbn [foldl].
  destruct a as [b now|b|b fr|b t]; cbn [exec_action act_update]; rewrite IH; try done.
  rewrite accept_one_deliver. by destruct (fed_update b fr).
Qed.

(** ** One peer: its actions are what [syncPeer] does *)

Lemma exec_registers f r addr regs n :
  foldl (exec_action conv_oob) (f, r) (ActRegister addr <$> regs) = (f, (accept_all addr r regs n).1).
Proof.
  revert r n. induction regs as [|fr regs IH]; intros r n; [done|]. cbn [fmap list_fmap foldl exec_action accept_all].
  destruct (accept_one addr r fr) as [r' ok]. apply IH.
Qed.

Lemma syncPeer_actions f r addr client now now' :
  (syncPeer conv_oob f r addr client now now').1 =
    foldl (exec_action conv_oob) (f, r) (peer_actions f addr client now now').
Proof.
  unfold syncPeer, peer_actions. case_if Hb; [done|].
  destruct (client (sync_request f addr)) as [resp|]; [|done].
  cbn [foldl]. rewrite foldl_app. cbn [exec_action]. rewrite (exec_registers _ _ _ _ 0).
  destruct (accept_all addr r (sync_Registrations resp) 0) as [r' n].
  by destruct (sync_SyncTimestamp resp).
Qed.

Lemma peer_actions_addr f addr client now now' :
  Forall (λ a, act_addr a = addr) (peer_actions f addr client now now').
Proof.
  unfold peer_actions. case_if Hb; [constructor|].
  destruct (client _) as [resp|]; [|by repeat constructor].
  constructor; [done|]. apply Forall_app. split.
  - apply Forall_fmap, Forall_true. done.
  - destruct (sync_SyncTimestamp resp); by repeat constructor.
Qed.

(** What a goroutine does depends on the entries of its own address only. *)
Lemma peer_actions_view f g addr client now now' :
  peer_view f addr = peer_view g addr → fed_cfg f = fed_cfg g →
  peer_actions f addr client now now' = peer_actions g addr client now now'.
Proof.
  unfold peer_view, peer_actions, sync_request, peer_state. intros [= -> ->] ->. done.
Qed.

(** The actions of a peer, in the trace of a round. *)
Lemma round_filter f net addrs tr addr :
  NoDup addrs → interleaving (round_threads f net addrs) tr →
  filter (λ a, act_addr a = addr) tr =
    if decide (addr ∈ addrs)
    then peer_actions f addr (pn_client (net addr)) (pn_now (net addr)) (pn_now' (net addr)) else [].
Proof.
  intros Hnd Hil. unfold round_threads in Hil. case_decide as Ha.
  - apply list_elem_of_lookup in Ha as [i Hi].
    eapply (interleaving_filter _ _ _ i); [done| |apply peer_actions_addr|].
    { by rewrite list_lookup_fmap, Hi. }
    intros j k Hj. rewrite list_lookup_fmap. intros (b & Hb & ->)%fmap_Some_1.
    eapply Forall_impl; [apply peer_actions_addr|]. simpl. intros a Hab Haa.
    apply Hj. eapply NoDup_lookup; [done|done|]. congruence.
  - eapply interleaving_filter_none; [done|]. apply Forall_fmap, Forall_forall.
    intros b Hb. eapply Forall_impl; [apply peer_actions_addr|]. simpl. congruence.
Qed.

(** ** The peers one after the other *)

Fixpoint sync_seq (f : Federation) (r : Registry) (net : string → PeerNet) (addrs : list string)
    : Federation * Registry :=
  match addrs with
  | [] => (f, r)
  | addr :: addrs =>
    let '(f, r, _) := syncPeer conv_oob f r addr
      (pn_client (net addr)) (pn_now (net addr)) (pn_now' (net addr)) in
    sync_seq f r net addrs
  end.

Lemma sync_seq_actions f r net addrs :
  NoDup addrs →
  sync_seq f r net addrs = foldl (exec_action conv_oob) (f, r) (concat (round_threads f net addrs)).
Proof.
  unfold round_threads. revert f r. induction addrs as [|addr addrs IH]; intros f r Hnd; [done|].
  apply NoDup_cons in Hnd as [Ha Hnd]. cbn [sync_seq fmap list_fmap concat].
  set (pn := net addr). rewrite foldl_app.
  pose proof (syncPeer_actions f r addr (pn_client pn) (pn_now pn) (pn_now' pn)) as Hs.
  destruct (syncPeer _ _ _ _ _ _ _) as [[f' r'] out]. simpl in Hs.
  rewrite IH, <- Hs by done. f_equal. f_equal. apply list_fmap_ext. intros i b Hb.
  assert (b ≠ addr) as Hne by (intros ->; apply Ha; by eapply list_elem_of_lookup_2).
  pose proof (exec_actions_view (peer_actions f addr (pn_client pn) (pn_now pn) (pn_now' pn)) (f, r) b) as Hv.
  pose proof (exec_actions_rest (peer_actions f addr (pn_client pn) (pn_now pn) (pn_now' pn)) (f, r)) as Hr.
  rewrite <- Hs in Hv, Hr. simpl in Hv, Hr. destruct Hr as (Hc & _).
  apply peer_actions_view; [|done]. rewrite Hv.
  replace (filter _ _) with ([] : list sync_action); [done|]. symmetry.
  apply (interleaving_filter_none _ [peer_actions f addr (pn_client pn) (pn_now pn) (pn_now' pn)]).
  - generalize (peer_actions f addr (pn_client pn) (pn_now pn) (pn_now' pn)) as l.
    induction l as [|a l IHl]; [by repeat constructor|]. by apply (il_step _ 0 a l).
  - constructor; [|constructor]. eapply Forall_impl; [apply peer_actions_addr|]. simpl. congruence.
Qed.
End round.
