(* ===== verification/FederationPull.v ===== *)
(** * Pulling from a relay that runs this server

    The client of one relay is the server of another ([client_of]); what a pull
    then carries over, what a backoff can amount to, and how a registration that
    came through federation is found. *)
From stdpp Require Import gmap strings list.
From Stdlib Require Import ZArith Lia.
From S2P Require Import Prelude GoStd Registry RegistryInv RegistryDiscover RegistrySpec RegistryLww Proto RegistryGrpc Federation FederationServer FederationRound.

Local Open Scope Z_scope.

Section pull.
Context `{Timestamps} (conv_oob : Z).

(** The gRPC client of a relay that runs this server. *)
Definition client_of (s : Server) (ra : Registry) (ord : RangeOrder) (tsnap now : Z)
    (req : SyncRegistrationsRequest) : option SyncRegistrationsResponse :=
  match SyncRegistrations s ra ord tsnap now req with inl resp => Some resp | inr _ => None end.

Lemma client_response s ra ord tsnap nowA f addr :
  srv_relayID s ≠ "" → RelayID (fed_cfg f) ≠ "" →
  len (LocalRegistrations ra ord tsnap (default zero_time (lastSync f !! addr))) <= 1000 →
  client_of s ra ord tsnap nowA (sync_request f addr) = Some
    {| sync_Registrations := toFederated (srv_relayID s) <$>
         LocalRegistrations ra ord tsnap (default zero_time (lastSync f !! addr));
       sync_SyncTimestamp := Some (ts_New nowA) |}.
Proof.
  set (since := default zero_time (lastSync f !! addr)). intros Hs Hf Hfit.
  unfold client_of. rewrite SyncRegistrations_ok by done.
  assert (sync_since (sync_request f addr) = since) as ->.
  { unfold sync_since, sync_request; simpl. fold since. unfold IsZero.
    destruct (Z.eqb_spec since zero_time) as [->|]; simpl; [done|apply ts_AsTime_New]. }
  rewrite take_ge; [done|]. unfold len in Hfit. change (clampSyncLimit _) with 1000. lia.
Qed.

Lemma pull_transfers cfgA cfgB ra rb s f addr ord tsnap nowA t t'
    (HA : reachable cfgA ra) (HB : reachable cfgB rb)
    (Hids : srv_relayID s ≠ "" ∧ RelayID (fed_cfg f) ≠ "")
    (Hback : backoffUntil (peer_state f addr) <= t) :
  let since := default zero_time (lastSync f !! addr) in
  let regs := LocalRegistrations ra ord tsnap since in
  ∀ (Hfit : len regs <= 1000) (Hroom : room rb (with_origin (srv_relayID s) <$> regs)),
  let '(f', rb', out) := syncPeer conv_oob f rb addr (client_of s ra ord tsnap nowA) t t' in
  out = SyncDone (len regs) ∧
  (∀ p reg, entries ra !! p = Some reg → tsnap <= ExpiresAt reg → since <= RegisteredAt reg →
     federated rb' !! p = Some (merge (with_origin (srv_relayID s) reg) (federated rb !! p))) ∧
  (∀ p, (∀ reg, entries ra !! p = Some reg → ExpiresAt reg < tsnap ∨ RegisteredAt reg < since) →
     federated rb' !! p = federated rb !! p) ∧
  entries rb' = entries rb ∧
  lastSync f' !! addr = Some nowA ∧ peer_state f' addr = peerState_zero.
Proof.
  cbv zeta. set (since := default zero_time (lastSync f !! addr)).
  set (regs := LocalRegistrations ra ord tsnap since). intros Hfit Hroom.
  destruct Hids as [Hs Hf]. pose proof (reachable_wf _ _ HA) as HwA.
  unfold syncPeer, Before. rewrite (proj2 (Z.ltb_ge _ _) Hback).
  rewrite client_response by done. fold since regs.
  cbn [sync_Registrations sync_SyncTimestamp].
  rewrite (accept_all_room addr rb _ (with_origin (srv_relayID s) <$> regs));
    [|by apply omap_fed_update|by rewrite !length_fmap|done].
  cbv iota beta. rewrite ts_AsTime_New.
  assert (PeerID <$> (with_origin (srv_relayID s) <$> regs) = PeerID <$> regs) as Hpeers
    by by rewrite <- list_fmap_compose.
  destruct (deliver_all_distinct rb (with_origin (srv_relayID s) <$> regs)) as [Hin Hout];
    [rewrite Hpeers; by apply NoDup_LocalRegistrations|done|].
  split_and!.
  - rewrite Z.add_0_l. f_equal. unfold len. by rewrite length_fmap.
  - intros p reg Hp Hlive Hsince. pose proof (wf_keys _ _ _ HwA Hp) as <-.
    apply (Hin (with_origin (srv_relayID s) reg)), list_elem_of_fmap_2.
    by apply elem_of_LocalRegistrations.
  - intros p Hno. apply Hout. rewrite Hpeers. intros (reg & -> & Hreg)%list_elem_of_fmap.
    apply elem_of_LocalRegistrations in Hreg as (Hp & ? & ?); [|done].
    destruct (Hno _ Hp); lia.
  - apply deliver_all_local.
  - simpl. by rewrite lookup_insert_eq.
  - unfold peer_state. simpl. apply recordPeerSuccess_state.
Qed.
(** ** How long a backoff can last *)

(** Whatever happened to the peers, a backoff ends within five minutes of the last
    failure of its peer. *)
Lemma backoff_after_history tr f0 r0 addr t :
  peerStates f0 = ∅ → zero_time <= t →
  (∀ now, ActFailure addr now ∈ tr → now + circuitBreakerMaxDelay <= t) →
  backoffUntil (peer_state (foldl (exec_action conv_oob) (f0, r0) tr).1 addr) <= t.
Proof.
  intros Hf0 Ht Hfail. pose proof (exec_actions_view conv_oob tr (f0, r0) addr) as Hv.
  assert (∀ l v, (∀ a, a ∈ l → act_addr a = addr) → (∀ now, ActFailure addr now ∈ l → now + circuitBreakerMaxDelay <= t) →
    backoffUntil (default peerState_zero v.1) <= t →
    backoffUntil (default peerState_zero (foldl (view_exec conv_oob) v l).1) <= t) as Hl.
  { induction l as [|a l IH]; intros v Ha Hl Hvt; [done|]. cbn [foldl]. apply IH; [set_solver|set_solver|].
    pose proof (Ha a ltac:(left)) as Hadd. destruct a as [b now|b|b fr|b u]; cbn [view_exec fst default]; try done.
    - cbn in Hadd. subst b. specialize (Hl now ltac:(left)).
      pose proof (backoff_delay_bounds conv_oob (int64 (consecutiveFailures (default peerState_zero v.1) + 1))).
      change (now + backoff_delay conv_oob (int64 (consecutiveFailures (default peerState_zero v.1) + 1)) <= t). lia.
    - destruct v as [[s|] ls]; cbn; [exact Ht|exact Hvt]. }
  apply (f_equal fst) in Hv. unfold peer_view in Hv at 1. cbn [fst] in Hv. unfold peer_state. rewrite Hv. apply Hl.
  - by intros a [? _]%list_elem_of_filter.
  - intros now [_ Hin]%list_elem_of_filter. by apply Hfail.
  - cbn. rewrite Hf0, lookup_empty. exact Ht.
Qed.

(** ** Finding a federated registration *)

(** A federated registration that offers the skill is among the answers when no
    local one of its agent does and the limit does not cut the answer short. *)
Lemma DiscoverBySkill_complete_fed r ord ordF now skillID tags limit reg :
  wf r → federated r !! PeerID reg = Some reg → offers now skillID tags reg = true →
  (∀ l, entries r !! PeerID reg = Some l → offers now skillID tags l = false) →
  len (scan_all r now skillID tags true) <= clampLimit limit →
  reg ∈ DiscoverBySkill r ord ordF now skillID tags limit true.
Proof.
  intros Hwf Hp Ho Hl Hlen.
  destruct (DiscoverBySkill_scan r ord ordF now skillID tags limit true Hwf) as
    (locals & feds & Hls & Hf & ->).
  pose proof (Permutation_length (scan_all_perm r now skillID tags true _ _ Hls Hf)).
  rewrite take_ge by (unfold len in *; lia). apply elem_of_app. right.
  rewrite Hf. by apply elem_of_scan_fed.
Qed.

(** What a request registered offers each of its skills, from wherever. *)
Lemma registered_offers req now0 t now' q sk origin :
  now' <= t → sk ∈ rs_Skills req → ds_SkillId q = pb_SkillId sk → ds_Tags q ⊆ pb_Tags sk →
  offers now' (ds_SkillId q) (ds_Tags q) (with_origin origin (registered req now0 t)) = true.
Proof.
  intros Hnow Hsk Hid Htags. unfold offers, After. apply andb_true_iff.
  split; [by apply negb_true_iff, Z.ltb_ge|]. apply hasSkill_spec.
  exists (mkSkillInfo (pb_SkillId sk) (pb_Description sk) (pb_Tags sk)). split_and!; [|done|].
  - apply list_elem_of_In, in_map_iff. exists sk. by rewrite <- list_elem_of_In.
  - apply matchTags_spec. intros k v Hk. simpl. by rewrite (lookup_weaken _ _ _ _ Hk Htags).
Qed.

End pull.
