(* ===== verification/FederationLoop.v ===== *)
(** * The life of the federation manager ([Start], [Stop] and [syncLoop] in
    [src/internal/federation])

    [Start] dials the peers and starts the sync loop, which waits for its ticker
    or for the end of its context; a tick runs a round to its end.  [Stop] cancels
    the context, waits for the loop through the wait group and closes the
    connections.  [fed_step] is one step of the loop, of a caller of [Start] or
    [Stop], or of anybody who uses the registry. *)
From stdpp Require Import gmap strings list relations.
From Stdlib Require Import ZArith Lia.
From S2P Require Import Prelude GoStd Registry RegistryInv RegistryLoop Proto Federation FederationServer FederationRound.

Local Open Scope Z_scope.

Section fed_loop.
Context `{Timestamps} (conv_oob : Z).

(** The loop: not started, at its [select], in a round with actions to go, gone. *)
Inductive fed_pc := FlNone | FlSelect | FlSyncing (todo : list sync_action) | FlReturned.

(** The caller of [Stop]: not called, in [wg.Wait()], returned. *)
Inductive stop_pc := StNot | StWaiting | StStopped.

(** [fp_cancel]: whether the context is cancelled; [None] before there is one. *)
Record FedProc := mkFedProc {
  fp_fed : Federation;
  fp_reg : Registry;
  fp_cancel : option bool;
  fp_wg : Z;
  fp_loop : fed_pc;
  fp_open : gset string;
  fp_stop : stop_pc
}.

Definition fed_new (cfg : fed_Config) (r : Registry) : FedProc :=
  mkFedProc (Federation_New cfg) r None 0 FlNone ∅ StNot.

(** [Start]: nothing but for its first call; [None] when the ticker of the loop
    panics. *)
Definition fed_start (s : FedProc) (dial : string → bool) : option FedProc :=
  if startOnce (fp_fed s) then Some s
  else
    let '(f, loop) := Start (fp_fed s) dial in
    if loop : bool then
      _ ← NewTicker (SyncInterval (fed_cfg f));
      Some (mkFedProc f (fp_reg s) (Some false) (fp_wg s + 1) FlSelect (clients f) (fp_stop s))
    else Some (mkFedProc f (fp_reg s) (Some false) (fp_wg s) (fp_loop s) (clients f) (fp_stop s)).

Definition with_loop (s : FedProc) (l : fed_pc) : FedProc :=
  mkFedProc (fp_fed s) (fp_reg s) (fp_cancel s) (fp_wg s) l (fp_open s) (fp_stop s).

Inductive fed_step (s : FedProc) : FedProc → Prop :=
| fs_start dial s' : fed_start s dial = Some s' → fed_step s s'
| fs_tick ord net tr :
    fp_loop s = FlSelect →
    interleaving (round_threads (fp_fed s) net (range_keys ord (clients (fp_fed s)))) tr →
    fed_step s (with_loop s (FlSyncing tr))
| fs_action a tr st :
    fp_loop s = FlSyncing (a :: tr) → st = exec_action conv_oob (fp_fed s, fp_reg s) a →
    fed_step s (mkFedProc st.1 st.2 (fp_cancel s) (fp_wg s) (FlSyncing tr) (fp_open s) (fp_stop s))
| fs_round_end : fp_loop s = FlSyncing [] → fed_step s (with_loop s FlSelect)
| fs_done :
    fp_loop s = FlSelect → fp_cancel s = Some true →
    fed_step s (mkFedProc (fp_fed s) (fp_reg s) (fp_cancel s) (fp_wg s - 1) FlReturned (fp_open s) (fp_stop s))
| fs_stop :
    fp_stop s ≠ StWaiting →
    fed_step s (mkFedProc (fp_fed s) (fp_reg s) ((λ _, true) <$> fp_cancel s) (fp_wg s) (fp_loop s)
      (fp_open s) StWaiting)
| fs_stopped :
    fp_stop s = StWaiting → fp_wg s = 0 →
    fed_step s (mkFedProc (fp_fed s) (fp_reg s) (fp_cancel s) (fp_wg s) (fp_loop s) ∅ StStopped)
| fs_call o r' :
    exec (fp_reg s) o = Some r' →
    fed_step s (mkFedProc (fp_fed s) r' (fp_cancel s) (fp_wg s) (fp_loop s) (fp_open s) (fp_stop s)).

(** The steps of the loop and of [Stop] once nothing new is begun: no tick, no
    call of [Start] or [Stop], nobody else. *)
Inductive quiet_step (s : FedProc) : FedProc → Prop :=
| qs_action a tr st :
    fp_loop s = FlSyncing (a :: tr) → st = exec_action conv_oob (fp_fed s, fp_reg s) a →
    quiet_step s (mkFedProc st.1 st.2 (fp_cancel s) (fp_wg s) (FlSyncing tr) (fp_open s) (fp_stop s))
| qs_round_end : fp_loop s = FlSyncing [] → quiet_step s (with_loop s FlSelect)
| qs_done :
    fp_loop s = FlSelect → fp_cancel s = Some true →
    quiet_step s (mkFedProc (fp_fed s) (fp_reg s) (fp_cancel s) (fp_wg s - 1) FlReturned (fp_open s) (fp_stop s))
| qs_stopped :
    fp_stop s = StWaiting → fp_wg s = 0 →
    quiet_step s (mkFedProc (fp_fed s) (fp_reg s) (fp_cancel s) (fp_wg s) (fp_loop s) ∅ StStopped).

Lemma quiet_fed_step s s' : quiet_step s s' → fed_step s s'.
Proof.
  destruct 1; [by eapply fs_action|by apply fs_round_end|by apply fs_done|by apply fs_stopped].
Qed.

(** ** Invariant of a started manager *)

Definition loop_alive (l : fed_pc) : bool := match l with FlSelect | FlSyncing _ => true | _ => false end.

Record fed_live (peers : gset string) (s : FedProc) : Prop := {
  fl_once : startOnce (fp_fed s) = true;
  fl_clients : clients (fp_fed s) = peers;
  fl_wg : fp_wg s = if loop_alive (fp_loop s) then 1 else 0;
  fl_cancel : ∃ c, fp_cancel s = Some c ∧ (fp_stop s ≠ StNot → c = true);
  fl_stopped : fp_stop s = StStopped → loop_alive (fp_loop s) = false ∧ fp_open s = ∅
}.

Lemma fed_live_start cfg r dial s :
  fed_start (fed_new cfg r) dial = Some s →
  fed_live (connect dial (PeerRelays cfg) ∅) s ∧ fp_reg s = r ∧ fp_open s = clients (fp_fed s) ∧
  (loop_alive (fp_loop s) = true ↔ clients (fp_fed s) ≠ ∅).
Proof.
  assert (∀ X : gset string, set_len X =? 0 = bool_decide (X = ∅)) as Hz by apply set_len_zero.
  assert (PeerRelays (fed_cfg (Federation_New cfg)) = PeerRelays cfg) as Hp.
  { unfold Federation_New. simpl. by destruct (SyncInterval cfg =? 0). }
  unfold fed_start, Start. cbn [fp_fed fed_new].
  replace (startOnce (Federation_New cfg)) with false by done.
  set (conns := connect dial (PeerRelays (fed_cfg (Federation_New cfg))) ∅).
  replace (connect dial (PeerRelays cfg) ∅) with conns by (unfold conns; by rewrite Hp).
  clearbody conns. rewrite Hz. case_bool_decide as He; cbn [negb].
  - intros [= <-]. split_and!; [|done|done|split; [done|intros Hn; by destruct Hn]].
    split; cbn; try done. by exists false.
  - intros (? & _ & [= <-])%bind_Some. split_and!; [|done|done|by split].
    split; cbn; try done. by exists false.
Qed.

(** The default replaces an interval of zero only. *)
Lemma fed_start_None cfg r dial :
  fed_start (fed_new cfg r) dial = None ↔ SyncInterval cfg < 0 ∧ connect dial (PeerRelays cfg) ∅ ≠ ∅.
Proof.
  assert (∀ X : gset string, set_len X =? 0 = bool_decide (X = ∅)) as Hz by apply set_len_zero.
  unfold fed_start, Start. cbn [fp_fed fed_new fed_cfg].
  replace (startOnce (Federation_New cfg)) with false by done.
  assert (PeerRelays (fed_cfg (Federation_New cfg)) = PeerRelays cfg ∧
    (SyncInterval (fed_cfg (Federation_New cfg)) <= 0 ↔ SyncInterval cfg < 0)) as [-> Hi].
  { unfold Federation_New. cbn [fed_cfg]. destruct (Z.eqb_spec (SyncInterval cfg) 0) as [->|]; cbn;
      [unfold DefaultSyncInterval, Second|]; split; done || lia. }
  generalize (connect dial (PeerRelays cfg) ∅). intros conns. rewrite Hz.
  case_bool_decide as He; cbn [negb]; [naive_solver|]. cbn [fed_cfg].
  destruct (NewTicker _) as [i|] eqn:Ht; cbn; unfold NewTicker in Ht; revert Ht; case_if Hc; intros Ht; try done;
    bool_to_prop; naive_solver lia.
Qed.

Lemma fed_live_step peers s s' : fed_live peers s → fed_step s s' → fed_live peers s'.
Proof.
  intros [Ho Hc Hw (c & Hcan & Hcs) Hst] Hstep.
  destruct Hstep as [dial s' Hs|ord net tr Hl Hil|a tr st Hl ->|Hl|Hl Hd|Hn|Hs Hw0|o r' Hex].
  - unfold fed_start in Hs. rewrite Ho in Hs. injection Hs as <-. split; eauto.
  - rewrite Hl in Hw, Hst. split; cbn; [done|done|done|eauto|naive_solver].
  - destruct (exec_actions_rest conv_oob [a] (fp_fed s, fp_reg s)) as (_ & Ec & Eo & _).
    cbn [foldl fst] in Ec, Eo. rewrite Hl in Hw, Hst.
    split; cbn [fp_fed fp_cancel fp_wg fp_loop fp_open fp_stop]; [by rewrite Eo|by rewrite Ec|done|eauto|naive_solver].
  - rewrite Hl in Hw, Hst. split; cbn; [done|done|done|eauto|naive_solver].
  - rewrite Hl in Hw, Hst. split; cbn; [done|done|by rewrite Hw|eauto|naive_solver].
  - split; cbn; [done|done|done|rewrite Hcan; cbn; eauto|done].
  - split; cbn; [done|done|done| |].
    + exists c. split; [done|]. intros _. apply Hcs. by rewrite Hs.
    + intros _. split; [|done]. rewrite Hw0 in Hw. by destruct (loop_alive (fp_loop s)).
  - split; cbn; eauto.
Qed.

Lemma fed_live_run peers s s' : fed_live peers s → rtc fed_step s s' → fed_live peers s'.
Proof. apply rtc_preserves, fed_live_step. Qed.

(** Without a loop the manager's own state stays as it is. *)
Lemma fed_dead_step peers s s' :
  fed_live peers s → loop_alive (fp_loop s) = false → fed_step s s' →
  fp_fed s' = fp_fed s ∧ loop_alive (fp_loop s') = false.
Proof.
  intros [Ho _ _ _ _] Hd Hstep.
  destruct Hstep as [dial s' Hs|ord net tr Hl Hil|a tr st Hl ->|Hl|Hl Hc|Hn|Hs Hw0|o r' Hex];
    try (rewrite Hl in Hd; done); try done.
  unfold fed_start in Hs. rewrite Ho in Hs. by injection Hs as <-.
Qed.

Lemma fed_dead_run peers s s' :
  fed_live peers s → loop_alive (fp_loop s) = false → rtc fed_step s s' → fp_fed s' = fp_fed s.
Proof.
  intros Hl Hd Hrun. revert Hl Hd. induction Hrun as [s|s s1 s' Hstep _ IH]; [done|]. intros Hl Hd.
  destruct (fed_dead_step _ _ _ Hl Hd Hstep) as [He Hd']. rewrite <- He. apply IH; [|done]. by eapply fed_live_step.
Qed.

(** ** [Stop] comes to its end *)

Definition quiet_measure (s : FedProc) : nat :=
  match fp_loop s with FlSyncing tr => length tr + 2 | FlSelect => 1 | _ => 0 end +
  match fp_stop s with StWaiting => 1 | _ => 0 end.

Lemma quiet_step_measure s s' : quiet_step s s' → (quiet_measure s' < quiet_measure s)%nat.
Proof.
  unfold quiet_measure. destruct 1 as [a tr st Hl _|Hl|Hl Hc|Hs Hw]; cbn; rewrite ?Hl, ?Hs; simpl; try lia.
Qed.

Lemma quiet_progress peers s :
  fed_live peers s → fp_stop s = StWaiting → (∃ s', quiet_step s s').
Proof.
  intros [_ _ Hw (c & Hc & Hcs) _] Hs. specialize (Hcs ltac:(by rewrite Hs)). subst c.
  destruct (fp_loop s) as [| |[|a tr]|] eqn:Hl.
  - eexists. by apply qs_stopped.
  - eexists. by apply qs_done.
  - eexists. by apply qs_round_end.
  - eexists. by eapply qs_action.
  - eexists. by apply qs_stopped.
Qed.

Lemma quiet_stop s s' :
  quiet_step s s' → fp_stop s = StWaiting → fp_stop s' = StWaiting ∨ fp_stop s' = StStopped.
Proof. destruct 1; cbn; auto. Qed.

Lemma quiet_returns peers s :
  fed_live peers s → fp_stop s = StWaiting → ∃ s', rtc quiet_step s s' ∧ fp_stop s' = StStopped.
Proof.
  remember (quiet_measure s) as n eqn:Hn. revert s Hn.
  induction (lt_wf n) as [n _ IH]. intros s -> Hl Hs.
  destruct (quiet_progress _ _ Hl Hs) as [s1 Hq].
  destruct (quiet_stop _ _ Hq Hs) as [Hs1|Hs1]; [|exists s1; split; [by apply rtc_once|done]].
  destruct (IH _ (quiet_step_measure _ _ Hq) s1 eq_refl) as (s' & Hr & Hs');
    [by eapply fed_live_step, quiet_fed_step|done|]. exists s'. split; [by eapply rtc_l|done].
Qed.
End fed_loop.

(** C19: The life of the federation manager.  From a first [Start] on, in every
    state that interleavings of rounds, calls of [Start] and [Stop] and other users
    of the registry lead to: another [Start] changes nothing; the wait group counts
    the one loop there may be; when [Stop] has returned the loop is gone, the
    connections are closed, and the manager's state never changes again.  A waiting
    [Stop] never gets stuck: from every such state the loop and [Stop] by themselves
    can go on to its return, and they always do, within what is left of the current
    round and three more steps, once no tick comes before the end of the context
    is seen.  (Go's [select] may choose a tick although the context has ended, so
    there is no bound that counts the rounds of such ticks out.)  A start panics, in
    the ticker of the loop, exactly for a negative interval when some peer can be
    dialled. *)
Theorem federation_lifecycle `{Timestamps} conv_oob cfg dial r s0 s
    (Hstart : fed_start (fed_new cfg r) dial = Some s0) (Hrun : rtc (fed_step conv_oob) s0 s) :
  (∀ dial' s', fed_start s dial' = Some s' → s' = s) ∧
  fp_wg s = (if loop_alive (fp_loop s) then 1 else 0) ∧
  (fp_stop s = StStopped →
     loop_alive (fp_loop s) = false ∧ fp_open s = ∅ ∧
     ∀ s', rtc (fed_step conv_oob) s s' → fp_fed s' = fp_fed s) ∧
  (fp_stop s = StWaiting →
     (∃ s', rtc (quiet_step conv_oob) s s' ∧ fp_stop s' = StStopped) ∧
     (∀ n s', nsteps (quiet_step conv_oob) n s s' →
        Z.of_nat n <= match fp_loop s with FlSyncing tr => len tr | _ => 0 end + 3) ∧
     (∀ s', rtc (quiet_step conv_oob) s s' → (∀ s'', ¬ quiet_step conv_oob s' s'') → fp_stop s' = StStopped)) ∧
  (∀ cfg' r' dial', fed_start (fed_new cfg' r') dial' = None ↔
     SyncInterval cfg' < 0 ∧ connect dial' (PeerRelays cfg') ∅ ≠ ∅).
Proof.
  destruct (fed_live_start cfg r dial s0 Hstart) as [Hlive0 _].
  pose proof (fed_live_run conv_oob _ _ _ Hlive0 Hrun) as Hlive. split_and!.
  - intros dial' s' Hs. unfold fed_start in Hs. rewrite (fl_once _ _ Hlive) in Hs. by injection Hs as <-.
  - apply (fl_wg _ _ Hlive).
  - intros Hst. destruct (fl_stopped _ _ Hlive Hst) as [Hd Ho]. split_and!; [done..|].
    intros s' Hs'. by eapply fed_dead_run.
  - intros Hw. split_and!.
    + by eapply quiet_returns.
    + intros n s' Hn. pose proof (nsteps_measure _ quiet_measure _ _ _ (quiet_step_measure conv_oob) Hn) as Hm.
      unfold quiet_measure in Hm at 2. rewrite Hw in Hm. unfold len. destruct (fp_loop s); lia.
    + intros s' Hs' Hstuck.
      assert (fed_live (connect dial (PeerRelays cfg) ∅) s' ∧ (fp_stop s' = StWaiting ∨ fp_stop s' = StStopped))
        as [Hlive' [Hst|Hst]]; [|exfalso|done].
      * revert Hs'. apply (rtc_preserves _ (λ s', fed_live _ s' ∧ (fp_stop s' = StWaiting ∨ fp_stop s' = StStopped)));
          [|by eauto]. intros a b [Ha Hab] Hstep. split; [by eapply fed_live_step, quiet_fed_step|].
        destruct Hab as [?|?]; [by eapply quiet_stop|]. destruct Hstep; cbn; auto.
      * destruct (quiet_progress conv_oob _ _ Hlive' Hst) as [s'' ?]. by destruct (Hstuck s'').
  - apply fed_start_None.
Qed.

(** A relay whose peer answers once, and that is stopped in the middle of the round. *)
Definition ex_life_cfg : fed_Config := mk_fed_Config ["relay-b:1"] 0 "relay-a".
Definition ex_life0 : FedProc :=
  mkFedProc (Start (Federation_New ex_life_cfg) (λ _, true)).1 (Registry_New (mkConfig 0 0 0 0)) (Some false) 1
    FlSelect {["relay-b:1"]} StNot.
Definition ex_life1 : FedProc := with_loop ex_life0 (FlSyncing [ActFailure "relay-b:1" 20]).
Definition ex_life2 : FedProc :=
  mkFedProc (fp_fed ex_life1) (fp_reg ex_life1) (Some true) 1 (fp_loop ex_life1) (fp_open ex_life1) StWaiting.
Definition ex_life3 : FedProc :=
  mkFedProc (recordPeerFailure min_int64 (fp_fed ex_life1) "relay-b:1" 20) (fp_reg ex_life1) (Some true) 1
    (FlSyncing []) (fp_open ex_life1) StWaiting.
Definition ex_life4 : FedProc :=
  mkFedProc (fp_fed ex_life3) (fp_reg ex_life1) (Some true) 0 FlReturned ∅ StStopped.

Lemma ex_life_threads :
  round_threads (fp_fed ex_life0) (λ _, mkPeerNet (λ _, None) 10 20)
    (range_keys canonical_order (clients (fp_fed ex_life0))) = [[ActFailure "relay-b:1" 20]].
Proof. reflexivity. Qed.

Lemma ex_life_run : rtc (fed_step min_int64) ex_life0 ex_life2.
Proof.
  eapply rtc_l; [|eapply rtc_once, (fs_stop _ ex_life1); done].
  apply (fs_tick _ ex_life0 canonical_order (λ _, mkPeerNet (λ _, None) 10 20)); [done|].
  rewrite ex_life_threads.
  apply (interleaving_concat [[ActFailure "relay-b:1" 20]]).
Qed.

Lemma ex_life_quiet : rtc (quiet_step min_int64) ex_life2 ex_life4.
Proof.
  eapply rtc_l; [by apply (qs_action _ ex_life2 (ActFailure "relay-b:1" 20) [] _ eq_refl eq_refl)|].
  eapply rtc_l; [by apply qs_round_end|]. eapply rtc_l; [by apply qs_done|].
  apply rtc_once. by apply (qs_stopped min_int64 (mkFedProc (fp_fed ex_life3) (fp_reg ex_life1) (Some true) 0
    FlReturned (fp_open ex_life1) StWaiting)).
Qed.

Lemma federation_lifecycle_witness :
  fp_wg ex_life2 = 1 ∧ fp_stop ex_life4 = StStopped ∧
  fed_start (fed_new (mk_fed_Config ["relay-b:1"] (-1) "relay-a") (fp_reg ex_life0)) (λ _, true) = None.
Proof.
  assert (fed_start (fed_new ex_life_cfg (Registry_New (mkConfig 0 0 0 0))) (λ _, true) = Some ex_life0) as Hs
    by reflexivity.
  destruct (federation_lifecycle min_int64 ex_life_cfg (λ _, true) _ ex_life0 ex_life2 Hs ex_life_run)
    as (_ & Hwg & _ & Hstop & Hpanic).
  split; [exact Hwg|]. split.
  2:{ apply Hpanic. split; [reflexivity|]. intros He. apply (f_equal size) in He. revert He. by vm_compute. }
  apply (proj2 (proj2 (Hstop eq_refl)) ex_life4 ex_life_quiet). intros s. inversion 1; discriminate.
Defined.
