(* ===== verification/FederationPush.v ===== *)
(** * The goroutines of a push ([PushLocal] in [src/internal/federation/gossip.go])

    [PushLocal] starts one goroutine per peer; each takes a slot of a channel of
    capacity [maxPushConcurrency], calls its peer, records the first error under
    a mutex, gives the slot back and signals the wait group.  [push_step] is one
    step of one of them or of the caller, and [Federation.PushLocal] is shown to
    be what every run computes. *)
From stdpp Require Import gmap strings list relations.
From Stdlib Require Import ZArith Lia.
From S2P Require Import Prelude GoStd Registry Proto Federation.

Local Open Scope Z_scope.

Definition maxPushConcurrency : Z := 32.

(** Where a goroutine stands: before [sem <- struct{}{}], in the call, holding
    an error it has not recorded, before [<-sem], before [wg.Done()], gone. *)
Inductive push_pc {E : Type} :=
| PcStart | PcCalling | PcFailed (err : E) | PcRelease | PcDone | PcExited.
Arguments push_pc : clear implicits.

(** The caller: starting goroutines for the remaining peers, then waiting; or
    returned. *)
Inductive push_main {E : Type} := MSpawn (rest : list string) | MReturned (res : option E).
Arguments push_main : clear implicits.

Record PushRun {E : Type} := mkPushRun {
  threads : list (string * push_pc E);
  sem : Z;
  wg : Z;
  firstErr : option E;
  caller : push_main E
}.
Arguments PushRun : clear implicits.
Arguments mkPushRun {E}.

Section push.
Context {E : Type} `{Timestamps}.
Context (push : string → PushRegistrationsRequest → PushRegistrationsResponse + E).
Context (req : PushRegistrationsRequest).

Definition push_init (addrs : list string) : PushRun E := mkPushRun [] 0 0 None (MSpawn addrs).

(** A goroutine at [pc] may move to [pc'] and change the slots taken, the wait
    group and the error as given. *)
Inductive thread_move (addr : string) : push_pc E → Z * Z * option E → push_pc E → Z * Z * option E → Prop :=
| move_acquire s w e : s < maxPushConcurrency → thread_move addr PcStart (s, w, e) PcCalling (s + 1, w, e)
| move_ok s w e resp : push addr req = inl resp → thread_move addr PcCalling (s, w, e) PcRelease (s, w, e)
| move_err s w e err : push addr req = inr err → thread_move addr PcCalling (s, w, e) (PcFailed err) (s, w, e)
| move_record s w e err :
    thread_move addr (PcFailed err) (s, w, e) PcRelease
      (s, w, match e with None => Some err | Some _ => e end)
| move_release s w e : thread_move addr PcRelease (s, w, e) PcDone (s - 1, w, e)
| move_exit s w e : thread_move addr PcDone (s, w, e) PcExited (s, w - 1, e).

Inductive push_step : relation (PushRun E) :=
| step_spawn ths s w e addr rest :
    push_step (mkPushRun ths s w e (MSpawn (addr :: rest)))
      (mkPushRun (ths ++ [(addr, PcStart)]) s (w + 1) e (MSpawn rest))
| step_thread pre post addr pc pc' s w e s' w' e' m :
    thread_move addr pc (s, w, e) pc' (s', w', e') →
    push_step (mkPushRun (pre ++ (addr, pc) :: post) s w e m)
      (mkPushRun (pre ++ (addr, pc') :: post) s' w' e' m)
| step_wait ths s e :
    push_step (mkPushRun ths s 0 e (MSpawn [])) (mkPushRun ths s 0 e (MReturned e)).

(** ** Termination: a measure every step decreases *)

Definition pc_weight (pc : push_pc E) : nat :=
  match pc with
  | PcStart => 5 | PcCalling => 4 | PcFailed _ => 3 | PcRelease => 2 | PcDone => 1 | PcExited => 0
  end.

Definition push_measure (st : PushRun E) : nat :=
  sum_list_with (λ th, pc_weight th.2) (threads st) +
  match caller st with MSpawn rest => 6 * length rest + 1 | MReturned _ => 0 end.

Lemma push_step_measure st st' : push_step st st' → (push_measure st' < push_measure st)%nat.
Proof.
  unfold push_measure. destruct 1 as [| pre post addr pc pc' s w e s' w' e' m Hm|]; simpl; [..|lia].
  - rewrite sum_list_with_app. simpl. lia.
  - rewrite !sum_list_with_app. destruct Hm; simpl; lia.
Qed.

(** ** Invariant *)

Definition holding (pc : push_pc E) : bool :=
  match pc with PcCalling | PcFailed _ | PcRelease => true | _ => false end.
Definition alive (pc : push_pc E) : bool := match pc with PcExited => false | _ => true end.

(** The goroutine has recorded what its peer said. *)
Definition recorded (pc : push_pc E) : bool :=
  match pc with PcRelease | PcDone | PcExited => true | _ => false end.

Definition count (f : push_pc E → bool) (ths : list (string * push_pc E)) : Z :=
  len (filter (λ th, f th.2) ths).

Definition recorded_addrs (ths : list (string * push_pc E)) : list string :=
  (filter (λ th, recorded th.2) ths).*1.

Record push_inv (addrs : list string) (st : PushRun E) : Prop := {
  pi_sem : sem st = count holding (threads st) ∧ sem st <= maxPushConcurrency;
  pi_wg : wg st = count alive (threads st);
  pi_addrs : (threads st).*1 ++ match caller st with MSpawn rest => rest | MReturned _ => [] end = addrs;
  pi_failed addr err : (addr, PcFailed err) ∈ threads st → push addr req = inr err;
  pi_first : ∃ l, l ≡ₚ recorded_addrs (threads st) ∧ firstErr st = push_loop push req l None;
  pi_result res : caller st = MReturned res → wg st = 0 ∧ res = firstErr st
}.

Lemma count_app f ths ths' : count f (ths ++ ths') = count f ths + count f ths'.
Proof. unfold count. by rewrite filter_app, len_app. Qed.

Lemma count_one f addr pc : count f [(addr, pc)] = if f pc then 1 else 0.
Proof. unfold count. rewrite filter_cons, filter_nil. simpl. by destruct (f pc). Qed.

Lemma count_cons f addr pc ths : count f ((addr, pc) :: ths) = (if f pc then 1 else 0) + count f ths.
Proof. change ((addr, pc) :: ths) with ([(addr, pc)] ++ ths). by rewrite count_app, count_one. Qed.

Lemma count_pos f ths : 0 <= count f ths.
Proof. apply len_nonneg. Qed.

Lemma recorded_addrs_app ths ths' : recorded_addrs (ths ++ ths') = recorded_addrs ths ++ recorded_addrs ths'.
Proof. unfold recorded_addrs. by rewrite filter_app, fmap_app. Qed.

Lemma recorded_addrs_cons addr pc ths :
  recorded_addrs ((addr, pc) :: ths) = (if recorded pc then [addr] else []) ++ recorded_addrs ths.
Proof. unfold recorded_addrs. rewrite filter_cons. simpl. by destruct (recorded pc). Qed.

(** One more answer at the end of the loop of the sequential reading. *)
Lemma push_loop_snoc l addr e :
  push_loop push req (l ++ [addr]) e =
    match push addr req with
    | inl _ => push_loop push req l e
    | inr err => match push_loop push req l e with None => Some err | Some e' => Some e' end
    end.
Proof.
  revert e. induction l as [|a l IH]; intros e; simpl.
  - destruct (push addr req); [done|]. by destruct e.
  - by destruct (push a req); rewrite IH.
Qed.

Lemma push_inv_init addrs : push_inv addrs (push_init addrs).
Proof.
  split; simpl; try done.
  - by intros addr err ?%elem_of_nil.
  - by exists [].
Qed.

Lemma thread_move_counts addr pc s w e pc' s' w' e' :
  thread_move addr pc (s, w, e) pc' (s', w', e') →
  let b2z (b : bool) := if b then 1 else 0 in
  s' - s = b2z (holding pc') - b2z (holding pc) ∧ w' - w = b2z (alive pc') - b2z (alive pc) ∧
  (s <= maxPushConcurrency → s' <= maxPushConcurrency).
Proof. inversion 1; subst; simpl; lia. Qed.

(** What a move does to the recorded error and to the set of recorded peers. *)
Lemma thread_move_first addr pc s w e pc' s' w' e' l :
  thread_move addr pc (s, w, e) pc' (s', w', e') →
  (∀ err, pc = PcFailed err → push addr req = inr err) →
  e = push_loop push req l None →
  e' = push_loop push req (if recorded pc' && negb (recorded pc) then l ++ [addr] else l) None.
Proof.
  intros Hm Hf ->. inversion Hm; subst; simpl; try done.
  - rewrite push_loop_snoc. by case_match; simplify_eq.
  - rewrite push_loop_snoc, (Hf _ eq_refl). by destruct (push_loop push req l None).
Qed.

Lemma push_inv_step addrs st st' : push_inv addrs st → push_step st st' → push_inv addrs st'.
Proof.
  intros [Hs Hw Ha Hf (l & Hl & He) Hr] Hstep.
  destruct Hstep as [ths s w e addr rest|pre post addr pc pc' s w e s' w' e' m Hm|ths s e]; cbn [threads sem wg firstErr caller] in *.
  - split; cbn [threads sem wg firstErr caller]; try done.
    + rewrite count_app, count_one. simpl. by rewrite Z.add_0_r.
    + rewrite count_app, count_one. simpl. lia.
    + by rewrite fmap_app, <- app_assoc.
    + intros a err [?|[[= -> <-]|[]%elem_of_nil]%elem_of_cons]%elem_of_app; eauto.
    + exists l. by rewrite recorded_addrs_app, app_nil_r.
  - destruct (thread_move_counts _ _ _ _ _ _ _ _ _ Hm) as (Hcs & Hcw & Hcap).
    assert (∀ err, pc = PcFailed err → push addr req = inr err) as Hpc.
    { intros err ->. apply Hf. apply elem_of_app. right. left. }
    rewrite count_app, count_cons in Hs, Hw. split; cbn [threads sem wg firstErr caller].
    + rewrite count_app, count_cons. split; [lia|]. apply Hcap, Hs.
    + rewrite count_app, count_cons. lia.
    + rewrite <- Ha, !fmap_app. done.
    + intros a err. rewrite elem_of_app, elem_of_cons. intros [Hin|[[= -> <-]|Hin]].
      * apply Hf, elem_of_app. by left.
      * by inversion Hm; subst.
      * apply Hf, elem_of_app. right. by right.
    + exists (if recorded pc' && negb (recorded pc) then l ++ [addr] else l).
      split; [|by eapply thread_move_first].
      rewrite recorded_addrs_app, recorded_addrs_cons in Hl |- *.
      inversion Hm; subst; simpl in *; try done;
        rewrite Hl, <- app_assoc;
        apply Permutation_app_head; symmetry; apply Permutation_cons_append.
    + intros res ->. destruct (Hr res eq_refl) as [Hw0 ->]. exfalso.
      assert (alive pc = true) as Hal by (inversion Hm; subst; done). rewrite Hal in Hw.
      pose proof (count_pos alive pre). pose proof (count_pos alive post). lia.
  - split; cbn [threads sem wg firstErr caller]; try done; [by exists l|]. by intros res [= <-].
Qed.

Lemma push_inv_reach addrs st : rtc push_step (push_init addrs) st → push_inv addrs st.
Proof. apply rtc_preserves; [apply push_inv_step|apply push_inv_init]. Qed.

(** ** Progress: only a returned run cannot move *)

Lemma thread_can_move addr pc s w e :
  alive pc = true → s < maxPushConcurrency → ∃ pc' g, thread_move addr pc (s, w, e) pc' g.
Proof.
  intros Ha Hs. destruct pc; [..|done].
  - eexists _, _. by constructor.
  - destruct (push addr req) eqn:Hp; eexists _, _; by econstructor.
  - eexists _, _. constructor.
  - eexists _, _. constructor.
  - eexists _, _. constructor.
Qed.

(** A goroutine that does not wait for a slot can always move. *)
Lemma holder_can_move addr pc s w e : holding pc = true → ∃ pc' g, thread_move addr pc (s, w, e) pc' g.
Proof.
  intros Hh. destruct pc; try done.
  - destruct (push addr req) eqn:Hp; eexists _, _; by econstructor.
  - eexists _, _. constructor.
  - eexists _, _. constructor.
Qed.

Lemma count_witness f ths : 0 < count f ths → ∃ pre addr pc post, ths = pre ++ (addr, pc) :: post ∧ f pc = true.
Proof.
  induction ths as [|[addr pc] ths IH]; [done|]. rewrite count_cons. destruct (f pc) eqn:Hf.
  - intros _. by exists [], addr, pc, ths.
  - intros (pre & a & p & post & -> & Hp)%IH. by exists ((addr, pc) :: pre), a, p, post.
Qed.

Lemma push_progress addrs st :
  push_inv addrs st → (∃ st', push_step st st') ∨ ∃ res, caller st = MReturned res.
Proof.
  intros [[Hs Hcap] Hw _ _ _ _]. destruct st as [ths s w e m]. cbn [threads sem wg firstErr caller] in *.
  destruct m as [[|addr rest]|res]; [|left; eexists; constructor|by right; eexists]. left.
  destruct (decide (w = 0)) as [->|Hw0]; [eexists; constructor|].
  assert (∃ pre addr pc post pc' g, ths = pre ++ (addr, pc) :: post ∧ thread_move addr pc (s, w, e) pc' g)
    as (pre & addr & pc & post & pc' & [[s' w'] e'] & -> & Hm); [|eexists; by eapply step_thread].
  pose proof (count_pos alive ths). pose proof (count_pos holding ths).
  destruct (decide (s < maxPushConcurrency)) as [Hlt|Hge].
  - destruct (count_witness alive ths) as (pre & addr & pc & post & -> & Ha); [lia|].
    destruct (thread_can_move addr pc s w e Ha Hlt) as (pc' & g & Hm). by eexists _, _, _, _, _, _.
  - destruct (count_witness holding ths) as (pre & addr & pc & post & -> & Ha); [unfold maxPushConcurrency in *; lia|].
    destruct (holder_can_move addr pc s w e Ha) as (pc' & g & Hm). by eexists _, _, _, _, _, _.
Qed.

(** ** Every result is one of [PushLocal]'s *)

Lemma count_zero_all f ths : count f ths = 0 → Forall (λ th, f th.2 = false) ths.
Proof.
  induction ths as [|[addr pc] ths IH]; [constructor|]. rewrite count_cons.
  pose proof (count_pos f ths). destruct (f pc) eqn:Hf; [lia|]. intros ?. constructor; [done|apply IH; lia].
Qed.

Lemma exited_recorded ths : count alive ths = 0 → recorded_addrs ths = ths.*1.
Proof.
  intros Hc%count_zero_all. induction Hc as [|[addr pc] ths Hpc _ IH]; [done|].
  rewrite recorded_addrs_cons, IH. by destruct pc.
Qed.

Lemma push_inv_result addrs st res :
  push_inv addrs st → caller st = MReturned res → ∃ l, l ≡ₚ addrs ∧ res = push_loop push req l None.
Proof.
  intros [_ Hw Ha _ (l & Hl & He) Hr] Hc. destruct (Hr _ Hc) as [Hw0 ->]. exists l.
  rewrite Hc, app_nil_r in Ha. rewrite exited_recorded, Ha in Hl by lia. done.
Qed.

(** A range order that lists one set in a chosen way. *)
Program Definition order_of (s : gset string) (l : list string) (Hl : l ≡ₚ elements s) : RangeOrder :=
  {| range_keys := λ s', if decide (s' = s) then l else elements s' |}.
Next Obligation. intros s l Hl s'. simpl. by destruct (decide (s' = s)) as [->|]. Qed.
End push.

(** ** The outcome of the sequential reading *)

Lemma push_loop_first {E} `{Timestamps} (push : string → PushRegistrationsRequest → PushRegistrationsResponse + E) req l e :
  match push_loop push req l e with
  | None => e = None ∧ ∀ addr, addr ∈ l → ∃ resp, push addr req = inl resp
  | Some err => e = Some err ∨ e = None ∧ ∃ addr, addr ∈ l ∧ push addr req = inr err
  end.
Proof.
  revert e. induction l as [|a l IH]; intros e; simpl.
  { destruct e; [by left|]. split; [done|]. by intros ? ?%elem_of_nil. }
  destruct (push a req) as [resp|err] eqn:Ha.
  - specialize (IH e). destruct (push_loop push req l e).
    + destruct IH as [?|(? & addr & ? & ?)]; [by left|]. right. split; [done|]. exists addr. by split; [right|].
    + destruct IH as [? Hall]. split; [done|]. intros addr [->|?]%elem_of_cons; eauto.
  - specialize (IH (match e with None => Some err | Some _ => e end)).
    destruct (push_loop push req l _) as [err'|].
    + destruct e as [e'|]; destruct IH as [[= ->]|(? & addr & ? & ?)]; try done; [by left|].
      right. split; [done|]. exists a. by split; [left|].
    + by destruct e, IH.
Qed.

(** The calls in progress. *)
Definition in_flight {E} (st : PushRun E) : Z :=
  count (λ pc, match pc with PcCalling => true | _ => false end) (threads st).

Lemma count_mono {E} (f g : push_pc E → bool) ths :
  (∀ pc, f pc = true → g pc = true) → count f ths <= count g ths.
Proof.
  intros Hfg. induction ths as [|[addr pc] ths IH]; [done|]. rewrite !count_cons.
  destruct (f pc) eqn:Hf; [rewrite (Hfg _ Hf); lia|]. destruct (g pc); lia.
Qed.

Definition push_request `{Timestamps} (f : Federation) (regs : list Registration) : PushRegistrationsRequest :=
  {| push_RelayId := RelayID (fed_cfg f);
     push_Registrations := map (toFederated (RelayID (fed_cfg f))) regs |}.

(** C11: [PushLocal] ends, whatever the scheduler does and in whichever order the
    peers answer: a run takes at most six steps per peer and one more, never has
    more than 32 calls in progress, and gets stuck only when it has returned.
    Then the result is one that the sequential [PushLocal] gives for some order of
    the peers: no error exactly when every peer accepted the call, and otherwise
    an error that some peer answered. *)
Theorem push_local_terminates {E} `{Timestamps} f regs (ord : RangeOrder)
    (push : string → PushRegistrationsRequest → PushRegistrationsResponse + E) n st
    (Hpeers : clients f ≠ ∅) (Hregs : regs ≠ [])
    (Hrun : nsteps (push_step push (push_request f regs)) n (push_init (ord (clients f))) st) :
  Z.of_nat n <= 6 * set_len (clients f) + 1 ∧
  in_flight st <= 32 ∧
  ((∀ st', ¬ push_step push (push_request f regs) st st') →
   ∃ res ord', caller st = MReturned res ∧ (PushLocal f regs ord' push).2 = res ∧
     (res = None ↔ ∀ addr, addr ∈ clients f → ∃ resp, push addr (push_request f regs) = inl resp) ∧
     (∀ err, res = Some err → ∃ addr, addr ∈ clients f ∧ push addr (push_request f regs) = inr err)).
Proof.
  pose proof (push_inv_reach push (push_request f regs) (ord (clients f)) st (rtc_nsteps_2 _ _ _ Hrun)) as Hinv.
  split_and!.
  - pose proof (nsteps_measure _ push_measure _ _ _ (push_step_measure _ _) Hrun) as Hm.
    unfold push_measure at 2 in Hm. cbn [threads caller push_init sum_list_with] in Hm.
    rewrite length_range in Hm. unfold set_len. lia.
  - destruct Hinv as [[Hs Hcap] _ _ _ _ _]. unfold maxPushConcurrency in Hcap. unfold in_flight.
    transitivity (count holding (threads st)); [|lia]. apply count_mono. by intros [].
  - intros Hstuck. destruct (push_progress _ _ _ _ Hinv) as [[st' Hst']|[res Hres]]; [by destruct (Hstuck st')|].
    destruct (push_inv_result _ _ _ _ _ Hinv Hres) as (l & Hl & Hloop).
    rewrite range_keys_perm in Hl. exists res, (order_of (clients f) l Hl). split; [done|].
    assert ((PushLocal f regs (order_of (clients f) l Hl) push).2 = res) as HL.
    { unfold PushLocal. rewrite (proj2 (Z.eqb_neq (set_len (clients f)) 0)).
      2:{ unfold set_len. intros Hz. apply Hpeers, leibniz_equiv, size_empty_inv. lia. }
      destruct regs as [|reg regs]; [done|]. rewrite len_cons.
      pose proof (len_nonneg regs). rewrite (proj2 (Z.eqb_neq _ 0)) by lia. cbn [orb snd order_of range_keys].
      rewrite decide_True by done. by rewrite Hloop. }
    split; [done|]. pose proof (push_loop_first push (push_request f regs) l None) as Hfirst.
    rewrite <- Hloop in Hfirst. assert (∀ addr, addr ∈ l ↔ addr ∈ clients f) as Hin
      by (intros addr; by rewrite Hl, elem_of_elements).
    destruct res as [err|].
    + destruct Hfirst as [?|(_ & addr & Ha & He)]; [done|]. apply Hin in Ha.
      split; [|by intros ? [= <-]; eauto]. split; [done|]. intros Hall.
      destruct (Hall _ Ha). congruence.
    + split; [|done]. split; [|done]. intros _ addr Ha. by apply Hfirst, Hin.
Qed.


(** A peer that refuses. *)
Definition ex_push_fed : Federation :=
  (Start (Federation_New (mk_fed_Config ["relay-b:1"] 0 "relay-a")) (λ _, true)).1.
Definition ex_push_reg : Registration := mkRegistration "agent" [] "A" "" 5 500 "" 5.
Definition ex_refuse (addr : string) (req : PushRegistrationsRequest) : PushRegistrationsResponse + string :=
  inr "unavailable".
Definition ex_push_end : PushRun string :=
  mkPushRun [("relay-b:1", PcExited)] 0 0 (Some "unavailable") (MReturned (Some "unavailable")).

Lemma ex_push_run :
  nsteps (push_step ex_refuse (push_request ex_push_fed [ex_push_reg])) 7
    (push_init (canonical_order (clients ex_push_fed))) ex_push_end.
Proof.
  replace (canonical_order (clients ex_push_fed)) with ["relay-b:1"] by (vm_compute; reflexivity).
  eapply nsteps_l; [apply step_spawn|]. simpl app.
  eapply nsteps_l; [apply (step_thread _ _ [] []), move_acquire; done|].
  eapply nsteps_l; [by apply (step_thread _ _ [] []), (move_err _ _ _ _ _ _ "unavailable")|].
  eapply nsteps_l; [apply (step_thread _ _ [] []), move_record|].
  eapply nsteps_l; [apply (step_thread _ _ [] []), move_release|].
  eapply nsteps_l; [apply (step_thread _ _ [] []), move_exit|].
  eapply nsteps_l; [apply step_wait|constructor].
Qed.

Lemma ex_push_end_stuck st :
  ¬ push_step ex_refuse (push_request ex_push_fed [ex_push_reg]) ex_push_end st.
Proof.
  inversion 1 as [| pre post addr pc pc' s w e s' w' e' m Hm Heq|].
  destruct pre as [|? [|]]; simplify_eq/=. inversion Hm.
Qed.

Lemma push_local_terminates_witness :
  in_flight ex_push_end <= 32 ∧
  ∃ ord', (PushLocal ex_push_fed [ex_push_reg] ord' ex_refuse).2 = Some "unavailable".
Proof.
  destruct (push_local_terminates ex_push_fed [ex_push_reg] canonical_order ex_refuse 7 ex_push_end
    ltac:(vm_compute; discriminate) ltac:(discriminate) ex_push_run) as (_ & Hfl & Hend).
  split; [exact Hfl|]. destruct (Hend ex_push_end_stuck) as (res & ord' & [= <-] & Hres & _).
  exists ord'. exact Hres.
Defined.
