(* ===== verification/FederationProps.v ===== *)
(** * What federation guarantees

    Backoff, rounds of parallel pulls, the exchange of registrations between two
    relays, and the limits of incremental synchronisation. *)
From stdpp Require Import gmap strings list.
From Stdlib Require Import ZArith Lia.
From S2P Require Import Prelude GoStd Registry RegistryInv RegistrySpec RegistryLww Proto Federation FederationServer FederationRound FederationPull.

Local Open Scope Z_scope.

Definition ex_fed : Federation :=
  (Start (Federation_New (mk_fed_Config ["relay-b:1"; "relay-c:1"; "bad"] 0 "relay-a"))
     (λ addr, negb (String.eqb addr "bad"))).1.

(** ** Backoff *)

(** C29: Up to 31 consecutive failures the backoff of a peer is exactly five
    seconds doubled with every failure, at most five minutes: the peer is not
    asked and nothing changes before the backoff ends, it is asked from then on,
    and a successful pull resets the state. *)
Theorem peer_backoff `{Timestamps} conv_oob f addr times now
    (Hfresh : peer_state f addr = peerState_zero) (Hlen : len times <= 30) :
  let f' := fail_at conv_oob f addr (times ++ [now]) in
  let until := now + Z.min (5 * Second * 2 ^ len times) (5 * Minute) in
  peer_state f' addr = mkPeerState (len times + 1) until ∧
  (∀ b, b ≠ addr → peer_state f' b = peer_state f b) ∧
  (∀ r client t t',
     (t < until ↔ (syncPeer conv_oob f' r addr client t t').2 = SyncSkipped) ∧
     (t < until → syncPeer conv_oob f' r addr client t t' = (f', r, SyncSkipped))) ∧
  peer_state (recordPeerSuccess f' addr) addr = peerState_zero.
Proof.
  cbv zeta. pose proof (len_nonneg times).
  assert (peer_state (fail_at conv_oob f addr (times ++ [now])) addr =
    mkPeerState (len times + 1) (now + Z.min (5 * Second * 2 ^ len times) (5 * Minute))) as Hs.
  { rewrite fail_at_last by (done || (unfold max_int64; lia)). f_equal. f_equal.
    rewrite backoff_delay_small by lia. by replace (len times + 1 - 1) with (len times) by lia. }
  split_and!; [done| | |].
  - intros b Hb. rewrite fail_at_app. simpl.
    assert (∀ g now, peer_state (recordPeerFailure conv_oob g addr now) b = peer_state g b) as Hne.
    { intros g t. unfold peer_state, recordPeerFailure; simpl. by rewrite lookup_insert_ne. }
    rewrite Hne. clear -Hne. revert f. induction times as [|t times IH]; intros f; simpl; [done|].
    by rewrite IH, Hne.
  - intros r client t t'. unfold syncPeer. rewrite Hs. unfold Before; simpl.
    destruct (_ <? _) eqn:Hlt; bool_to_prop; [split; [split|]; done|].
    split; [|lia]. split; [lia|]. destruct (client _); simpl; [|done].
    by destruct (accept_all _ _ _ _).
  - apply recordPeerSuccess_state.
Qed.

Lemma peer_backoff_witness :
  peer_state (fail_at min_int64 ex_fed "relay-b:1" ([10; 20; 30] ++ [100])) "relay-b:1" =
    mkPeerState 4 (100 + 40 * Second).
Proof.
  apply (peer_backoff min_int64 ex_fed "relay-b:1" [10; 20; 30] 100);
    [vm_compute; reflexivity|vm_compute; discriminate].
Defined.

(** C30: The delay is an [int64] product that nothing clamps from below: at the
    32nd consecutive failure it wraps to a negative duration, so the backoff ends
    before it starts, the peer is asked again at once and counts as healthy; from
    the 56th to the 63rd failure the delay is zero; and whatever the number of
    failures, the delay never exceeds five minutes. *)
Theorem peer_backoff_wraps conv_oob f addr times now
    (Hfresh : peer_state f addr = peerState_zero) (Hlen : len times = 31) :
  let f' := fail_at conv_oob f addr (times ++ [now]) in
  backoffUntil (peer_state f' addr) < now ∧
  Healthy (peer_health f' now addr) = true ∧
  ConsecutiveFailures (peer_health f' now addr) = 32 ∧
  (∀ n, 56 <= n <= 63 → backoff_delay conv_oob n = 0) ∧
  (∀ n, backoff_delay conv_oob n <= circuitBreakerMaxDelay).
Proof.
  cbv zeta. pose proof (fail_at_last conv_oob f addr times now Hfresh) as Hs.
  rewrite Hlen in Hs. specialize (Hs ltac:(unfold max_int64; lia)).
  change (31 + 1) with 32 in Hs.
  assert (backoff_delay conv_oob 32 < 0) as Hneg by (vm_compute; reflexivity).
  assert (peerStates (fail_at conv_oob f addr (times ++ [now])) !! addr =
    Some (mkPeerState 32 (now + backoff_delay conv_oob 32))) as Hp.
  { by apply peer_state_stored. }
  split_and!.
  - rewrite Hs. cbn [backoffUntil]. lia.
  - unfold peer_health. rewrite Hp. cbn [backoffUntil]. unfold Before.
    rewrite (proj2 (Z.ltb_ge _ _)) by lia. done.
  - unfold peer_health. rewrite Hp. cbn [backoffUntil]. by case_match.
  - intros n Hn. assert (n = 56 ∨ n = 57 ∨ n = 58 ∨ n = 59 ∨ n = 60 ∨ n = 61 ∨ n = 62 ∨ n = 63) as Hc by lia.
    destruct Hc as [->|[->|[->|[->|[->|[->|[->| ->]]]]]]]; vm_compute; reflexivity.
  - intros n. apply backoff_delay_bounds.
Qed.

Lemma peer_backoff_wraps_witness :
  backoffUntil (peer_state (fail_at min_int64 ex_fed "relay-c:1"
    (replicate 31 0 ++ [1000000])) "relay-c:1") < 1000000.
Proof.
  apply (peer_backoff_wraps min_int64 ex_fed "relay-c:1" (replicate 31 0) 1000000);
    vm_compute; reflexivity.
Defined.

(** ** A round of parallel pulls *)

(** What the peers deliver in a round. *)
Definition round_updates `{Timestamps} f net addrs : list Registration :=
  omap act_update (concat (round_threads f net addrs)).

(** C6: A round of [syncAll] has one outcome.  However its goroutines
    interleave, the backoff states and synchronisation times end exactly as if
    the peers were synchronised one after the other, in any order, and local
    registrations are not touched.  When the registry has room for the peers
    mentioned and no two different updates about a peer carry the same version and
    origin, the federated registrations and their index end as in that sequence,
    too. *)
Theorem sync_round_deterministic `{Timestamps} conv_oob cfg f r (ord ord' : RangeOrder) net st
    (Hr : reachable cfg r) (Hst : syncAll conv_oob f r ord net st) :
  let st' := sync_seq conv_oob f r net (ord' (clients f)) in
  let updates := round_updates f net (ord (clients f)) in
  st.1 = st'.1 ∧ entries st.2 = entries r ∧ skillIndex st.2 = skillIndex r ∧
  (room r updates → (∀ p, consistent (candidate (federated r !! p) updates p)) →
   federated st.2 = federated st'.2 ∧ fedSkillIndex st.2 = fedSkillIndex st'.2).
Proof.
  destruct Hst as (tr & Hil & ->). cbv zeta.
  pose proof (NoDup_range ord (clients f)) as Hnd. pose proof (NoDup_range ord' (clients f)) as Hnd'.
  rewrite sync_seq_actions by done. set (tr' := concat (round_threads f net (ord' (clients f)))).
  assert (tr ≡ₚ tr') as Hperm.
  { rewrite (interleaving_perm _ _ Hil). unfold tr', round_threads.
    assert (ord (clients f) ≡ₚ ord' (clients f)) as Ho by by rewrite !range_keys_perm.
    clear -Ho. induction Ho as [|a l k _ IH|a b l|l1 l2 l3 _ IH1 _ IH2]; simpl;
      [done|by rewrite IH| |by rewrite IH1, IH2].
    rewrite !(app_assoc (peer_actions _ _ _ _ _)). f_equiv. apply Permutation_app_comm. }
  assert (omap act_update tr ≡ₚ round_updates f net (ord (clients f))) as Hu.
  { unfold round_updates. by rewrite (interleaving_perm _ _ Hil). }
  assert (omap act_update tr' ≡ₚ round_updates f net (ord (clients f))) as Hu'.
  { by rewrite <- Hu, Hperm. }
  rewrite !exec_actions_registry. split_and!; [|apply deliver_all_local..|].
  - pose proof (exec_actions_rest conv_oob tr (f, r)) as (H1 & H2 & H3 & H4).
    pose proof (exec_actions_rest conv_oob tr' (f, r)) as (H1' & H2' & H3' & H4').
    apply Federation_eq; [congruence..|]. intros addr. rewrite !exec_actions_view. f_equal.
    rewrite (round_filter _ _ _ _ _ Hnd Hil).
    rewrite (round_filter f net (ord' (clients f)) tr' addr Hnd' (interleaving_concat _)).
    repeat case_decide; try done; rewrite elem_of_range in *; done.
  - intros Hroom Hc.
    assert (federated (deliver_all r (omap act_update tr)) =
      federated (deliver_all r (omap act_update tr'))) as Hfed.
    { apply deliver_all_converges; [done|..].
      - intros u. by rewrite Hu, Hu'.
      - unfold room in *. by rewrite Hu.
      - unfold room in *. by rewrite Hu'.
      - intros p x y Hx Hy. unfold candidate in Hx, Hy. rewrite Hu in Hx, Hy. by apply (Hc p). }
    split; [done|].
    pose proof (wf_fed _ (wf_deliver_all r (omap act_update tr) (reachable_wf _ _ Hr))) as Hs1.
    pose proof (wf_fed _ (wf_deliver_all r (omap act_update tr') (reachable_wf _ _ Hr))) as Hs2.
    rewrite Hfed in Hs1. by destruct (side_ok_index_unique _ _ _ _ _ Hs1 Hs2).
Qed.

Definition ex_fr (origin : string) (v : Z) : FederatedRegistration :=
  mkFederatedRegistration "agent" origin [mk_pb_SkillInfo "sum" "" ∅] origin ""
    (Some (ts_New 5)) (Some (ts_New 500)) v.

Definition ex_upd (origin : string) : Registration :=
  mkRegistration "agent" [mkSkillInfo "sum" "" ∅] origin "" 5 500 origin 7.

(** Both peers answer with a registration of the same agent. *)
Definition ex_net (addr : string) : PeerNet :=
  mkPeerNet (λ _, Some (mkSyncRegistrationsResponse [ex_fr addr 7] (Some (ts_New 20)))) 10 10.

Definition ex_cfg : Config := mkConfig (30 * Second) 4 4 0.

Lemma sync_round_deterministic_witness :
  let tr := concat (round_threads ex_fed ex_net (canonical_order (clients ex_fed))) in
  (foldl (exec_action min_int64) (ex_fed, Registry_New ex_cfg) tr).1 =
    (sync_seq min_int64 ex_fed (Registry_New ex_cfg) ex_net (reversed_order (clients ex_fed))).1 ∧
  federated (foldl (exec_action min_int64) (ex_fed, Registry_New ex_cfg) tr).2 =
    federated (sync_seq min_int64 ex_fed (Registry_New ex_cfg) ex_net
                 (reversed_order (clients ex_fed))).2.
Proof.
  intros tr.
  destruct (sync_round_deterministic min_int64 ex_cfg ex_fed (Registry_New ex_cfg)
    canonical_order reversed_order ex_net
    (foldl (exec_action min_int64) (ex_fed, Registry_New ex_cfg) tr)) as (H1 & _ & _ & H2).
  - constructor.
  - exists tr. split; [apply interleaving_concat|done].
  - split; [exact H1|]. apply H2; [vm_compute; discriminate|].
    intros p x y Hx Hy _ Ho. unfold candidate in Hx, Hy.
    assert (round_updates ex_fed ex_net (canonical_order (clients ex_fed)) =
      [ex_upd "relay-c:1"; ex_upd "relay-b:1"]) as E
      by (vm_compute; reflexivity).
    rewrite E in Hx, Hy. cbn [federated Registry_New] in Hx, Hy.
    rewrite lookup_empty, !elem_of_cons, elem_of_nil in Hx, Hy.
    destruct Hx as [Hx|[Hx _]]; [discriminate Hx|].
    destruct Hy as [Hy|[Hy _]]; [discriminate Hy|].
    destruct Hx as [->|[->|[]]], Hy as [->|[->|[]]]; first [reflexivity|discriminate Ho].
Defined.

(** ** Two relays *)

(** A pull carries over what the other relay has.  When relay B, not backing
    off, pulls from relay A, and A's live registrations made since B's last pull
    fit in one response and in B's federated registry, then every one of them is
    merged into B's under A's relay ID - stored as it is when B has nothing better
    for the agent - the other federated registrations and all local ones stay, all
    are reported as accepted, the backoff is reset, and A's clock is remembered
    for the next pull. *)
Theorem sync_transfers `{Timestamps} conv_oob cfgA cfgB ra rb s f addr ord tsnap nowA t t'
    (HA : reachable cfgA ra) (HB : reachable cfgB rb)
    (Hids : srv_relayID s ≠ "" ∧ RelayID (fed_cfg f) ≠ "")
    (Hback : backoffUntil (peer_state f addr) <= t) :
  let since := default zero_time (lastSync f !! addr) in
  let regs := LocalRegistrations ra ord tsnap since in
  ∀ (Hfit : len regs <= 1000) (Hroom : room rb (with_origin (srv_relayID s) <$> regs)),
  let '(f', rb', out) := syncPeer conv_oob f rb addr (client_of s ra ord tsnap nowA) t t' in
  out = SyncDone (len regs) ∧
  (∀ p reg, entries ra !! p = Some reg → tsnap <= ExpiresAt reg → since <= RegisteredAt reg →
     federated rb' !! p = Some (merge (with_origin (srv_relayID s) reg) (federated rb !! p))) ∧
  (∀ p, (∀ reg, entries ra !! p = Some reg → ExpiresAt reg < tsnap ∨ RegisteredAt reg < since) →
     federated rb' !! p = federated rb !! p) ∧
  entries rb' = entries rb ∧
  lastSync f' !! addr = Some nowA ∧ peer_state f' addr = peerState_zero.
Proof. by eapply pull_transfers. Qed.

Definition ex_A : Registry :=
  (Register (Registry_New ex_cfg) 100 "agent" [mkSkillInfo "sum" "" ∅] "A" "").1.

Lemma ex_A_reachable : reachable ex_cfg ex_A.
Proof. by eapply (reach_step _ _ (OpRegister 100 "agent" [mkSkillInfo "sum" "" ∅] "A" "")); [constructor|]. Qed.

Lemma sync_transfers_witness :
  let '(_, rb', out) := syncPeer min_int64 ex_fed (Registry_New ex_cfg) "relay-b:1"
    (client_of (mkServer "relay-b") ex_A canonical_order 200 210) 190 190 in
  out = SyncDone 1 ∧
  federated rb' !! "agent" = Some (mkRegistration "agent" [mkSkillInfo "sum" "" ∅] "A" ""
    100 (100 + 30 * Second) "relay-b" 100).
Proof.
  pose proof (sync_transfers min_int64 ex_cfg ex_cfg ex_A (Registry_New ex_cfg) (mkServer "relay-b")
    ex_fed "relay-b:1" canonical_order 200 210 190 190 ex_A_reachable (reach_New _)
    ltac:(split; discriminate) ltac:(vm_compute; discriminate)
    ltac:(vm_compute; discriminate) ltac:(vm_compute; discriminate)) as H.
  destruct (syncPeer _ _ _ _ _ _ _) as [[f' rb'] out]. destruct H as (-> & H & _). split.
  - vm_compute. reflexivity.
  - rewrite (H "agent" (mkRegistration "agent" [mkSkillInfo "sum" "" ∅] "A" ""
      100 (100 + 30 * Second) "" 100)); [|vm_compute; done..].
    vm_compute. reflexivity.
Defined.

(** C31: [SyncRegistrations] refuses a request without relay ID and otherwise
    answers with local registrations that are live and were made at or after
    [Since], no agent twice, under its own relay ID - all of them when they fit
    the limit, which is forced between 1 and 5000, and exactly as many as the
    limit when they do not.  Registrations from other relays are never passed on. *)
Theorem sync_response_exact `{Timestamps} cfg s r ord tsnap now req (Hr : reachable cfg r) :
  match SyncRegistrations s r ord tsnap now req with
  | inr st => sync_RelayId req = "" ∧ st_code st = InvalidArgument
  | inl resp =>
    let all := LocalRegistrations r ord tsnap (sync_since req) in
    let limit := clampSyncLimit (sync_Limit req) in
    sync_RelayId req ≠ "" ∧ 1 <= limit <= 5000 ∧
    NoDup (fr_PeerId <$> sync_Registrations resp) ∧
    len (sync_Registrations resp) = Z.min limit (len all) ∧
    (∀ fr, fr ∈ sync_Registrations resp →
       ∃ reg, fr = toFederated (srv_relayID s) reg ∧ entries r !! fr_PeerId fr = Some reg ∧
         tsnap <= ExpiresAt reg ∧ sync_since req <= RegisteredAt reg) ∧
    (len all <= limit → ∀ p reg, entries r !! p = Some reg → tsnap <= ExpiresAt reg →
       sync_since req <= RegisteredAt reg →
       toFederated (srv_relayID s) reg ∈ sync_Registrations resp)
  end.
Proof.
  pose proof (reachable_wf _ _ Hr) as Hwf.
  destruct (decide (sync_RelayId req = "")) as [He|Hne].
  { unfold SyncRegistrations. by rewrite He. }
  rewrite SyncRegistrations_ok by done. cbv zeta. cbn [sync_Registrations].
  set (all := LocalRegistrations r ord tsnap (sync_since req)).
  pose proof (clampSyncLimit_range (sync_Limit req)) as Hlim.
  set (limit := clampSyncLimit (sync_Limit req)) in *. split_and!; [done|lia|lia|..].
  - rewrite fr_PeerId_toFederated. eapply sublist_NoDup; [|apply fmap_sublist, sublist_take].
    by apply NoDup_LocalRegistrations.
  - unfold len. rewrite length_fmap, length_take. lia.
  - intros fr (reg & -> & Hin)%list_elem_of_fmap. exists reg. split; [done|].
    apply elem_of_take in Hin as (i & Hi & _). apply list_elem_of_lookup_2 in Hi.
    by apply elem_of_LocalRegistrations in Hi.
  - intros Hfit p reg Hp Hlive Hsince. apply list_elem_of_fmap_2.
    rewrite take_ge by (unfold len in Hfit; lia).
    apply elem_of_LocalRegistrations; [done|]. by rewrite (wf_keys _ _ _ Hwf Hp).
Qed.

Lemma sync_response_exact_witness :
  ∃ resp, SyncRegistrations (mkServer "relay-a") ex_A canonical_order 200 210
    (mkSyncRegistrationsRequest "relay-b" None 10) = inl resp ∧
  len (sync_Registrations resp) = 1.
Proof.
  pose proof (sync_response_exact ex_cfg (mkServer "relay-a") ex_A canonical_order 200 210
    (mkSyncRegistrationsRequest "relay-b" None 10) ex_A_reachable) as H.
  destruct (SyncRegistrations _ _ _ _ _ _) as [resp|st] eqn:E; [|by destruct H].
  exists resp. split; [done|]. destruct H as (_ & _ & _ & -> & _). vm_compute. reflexivity.
Defined.

(** C32: The time stamp of a response is the clock after the snapshot, also when
    the limit cut the response.  So a registration older than the stamp that the
    response lacks - cut off, or stored between the snapshot and the stamp - is
    in no later response to a peer that asks from the stamp on, whatever happens
    to the registry, until the agent registers again: heartbeats and partial
    unregistrations keep [RegisteredAt]. *)
Theorem sync_gap `{Timestamps} cfg s r ord tsnap now req resp ops r2 p reg
    (Hr : reachable cfg r)
    (Hresp : SyncRegistrations s r ord tsnap now req = inl resp)
    (Hp : entries r !! p = Some reg) (Hold : RegisteredAt reg < now)
    (Hops : Forall (λ o, ∀ t sk an ad, o ≠ OpRegister t p sk an ad) ops)
    (Hex : exec_all r ops = Some r2) :
  sync_SyncTimestamp resp = Some (ts_New now) ∧
  ∀ ord2 tsnap2 now2 relay limit resp2,
    SyncRegistrations s r2 ord2 tsnap2 now2
      (mkSyncRegistrationsRequest relay (sync_SyncTimestamp resp) limit) = inl resp2 →
    p ∉ fr_PeerId <$> sync_Registrations resp2.
Proof.
  assert (sync_SyncTimestamp resp = Some (ts_New now)) as Hstamp.
  { unfold SyncRegistrations in Hresp. destruct (String.eqb _ _); [done|].
    injection Hresp as <-. done. }
  split; [done|]. intros ord2 tsnap2 now2 relay limit resp2 Hr2 Hin. rewrite Hstamp in Hr2.
  destruct (decide (relay = "")) as [->|Hne]; [done|].
  rewrite SyncRegistrations_ok in Hr2 by done. injection Hr2 as <-.
  cbn [sync_Registrations] in Hin. rewrite fr_PeerId_toFederated in Hin.
  apply list_elem_of_fmap in Hin as (reg2 & -> & Hin).
  apply elem_of_take in Hin as (i & Hi & _). apply list_elem_of_lookup_2 in Hi.
  destruct (exec_all_registered_at ops r r2 (PeerID reg2)
    ltac:(eauto with relay) Hops Hex) as [Hwf2 Hra].
  apply elem_of_LocalRegistrations in Hi as (Hi & _ & Hsince); [|done].
  unfold sync_since in Hsince. simpl in Hsince. rewrite ts_AsTime_New in Hsince.
  specialize (Hra _ Hi) as (reg1 & Hp1 & Hra). rewrite Hp in Hp1. injection Hp1 as <-. lia.
Qed.

(** Two agents, a limit of one: the second agent is in no later response. *)
Definition ex_two : Registry :=
  (Register ex_A 110 "other" [mkSkillInfo "sum" "" ∅] "B" "").1.

Lemma sync_gap_witness :
  ∃ resp, SyncRegistrations (mkServer "relay-a") ex_two canonical_order 200 210
      (mkSyncRegistrationsRequest "relay-b" None 1) = inl resp ∧
    len (sync_Registrations resp) = 1 ∧
    ∀ ord2 tsnap2 now2 resp2,
      SyncRegistrations (mkServer "relay-a") (Heartbeat ex_two 300 "other").1 ord2 tsnap2 now2
        (mkSyncRegistrationsRequest "relay-b" (sync_SyncTimestamp resp) 1000) = inl resp2 →
      "other" ∉ fr_PeerId <$> sync_Registrations resp2 ∧
      "agent" ∉ fr_PeerId <$> sync_Registrations resp2.
Proof.
  assert (reachable ex_cfg ex_two) as Hr.
  { by eapply (reach_step _ _ (OpRegister 110 "other" [mkSkillInfo "sum" "" ∅] "B" ""));
      [apply ex_A_reachable|]. }
  eexists. split; [reflexivity|]. split; [vm_compute; reflexivity|].
  intros ord2 tsnap2 now2 resp2 H2.
  assert (∀ p reg, entries ex_two !! p = Some reg → RegisteredAt reg < 210 →
    p ∉ fr_PeerId <$> sync_Registrations resp2) as Hg.
  { intros p reg Hp Hold.
    eapply (sync_gap ex_cfg (mkServer "relay-a") ex_two canonical_order 200 210
      (mkSyncRegistrationsRequest "relay-b" None 1) _ [OpHeartbeat 300 "other"] _ p reg Hr
      eq_refl Hp Hold); [|reflexivity|exact H2].
    constructor; [|constructor]. intros t sk an ad. discriminate. }
  split; (eapply Hg; [vm_compute; reflexivity|vm_compute; reflexivity]).
Defined.

(** C33: [PushRegistrations] refuses a request without relay ID; otherwise the
    two counts add up to the number of registrations, and with room for all agents
    named exactly those without peer ID are rejected; the registry then holds
    the pushed registrations merged one after the other, under the origin they
    name or else under the pushing relay. *)
Theorem push_registrations_outcome `{Timestamps} cfg r req (Hr : reachable cfg r)
    (Hid : push_RelayId req ≠ "") (Hsize : len (push_Registrations req) < 2 ^ 31) :
  let named := filter (λ fr, fr_PeerId fr ≠ "") (push_Registrations req) in
  let us := pushed_update (push_RelayId req) <$> named in
  let '(r', res) := PushRegistrations r req in
  ∃ resp, res = inl resp ∧
    push_Accepted resp + push_Rejected resp = len (push_Registrations req) ∧
    len (push_Registrations req) - len named <= push_Rejected resp ∧
    (room r us → push_Rejected resp = len (push_Registrations req) - len named) ∧
    r' = deliver_all r us ∧ entries r' = entries r.
Proof.
  cbv zeta. unfold PushRegistrations. apply String.eqb_neq in Hid. rewrite Hid.
  destruct (push_all_spec (push_RelayId req) (push_Registrations req) r 0 0 ltac:(lia) ltac:(lia)
    ltac:(lia)) as (a & j & E & Hsum & Hmin & Hroom). rewrite E.
  eexists. split; [done|]. cbn [push_Accepted push_Rejected]. split_and!; [lia|lia| |done|].
  - intros Hro. specialize (Hroom Hro). lia.
  - apply deliver_all_local.
Qed.

Definition ex_push : PushRegistrationsRequest :=
  mkPushRegistrationsRequest "relay-b"
    [ex_fr "" 3; mkFederatedRegistration "" "" [] "" "" None None 1; ex_fr "relay-c" 4].

Lemma push_registrations_outcome_witness :
  ∃ resp, (PushRegistrations (Registry_New ex_cfg) ex_push).2 = inl resp ∧
    push_Accepted resp + push_Rejected resp = 3 ∧ push_Rejected resp = 1.
Proof.
  pose proof (push_registrations_outcome ex_cfg (Registry_New ex_cfg) ex_push (reach_New _)
    ltac:(discriminate) ltac:(vm_compute; reflexivity)) as H.
  destruct (PushRegistrations (Registry_New ex_cfg) ex_push) as [r' res].
  destruct H as (resp & -> & Hsum & _ & Hrej & _). exists resp. split; [reflexivity|].
  split; [exact Hsum|]. rewrite Hrej; vm_compute; [reflexivity|discriminate].
Defined.
