(* ===== verification/TwoRelays.v ===== *)
(** * Two relays

    An agent registers over gRPC with one relay, another relay pulls from it, and
    clients of the other relay look for the agent there; and a relay that could
    not be reached for a while is asked again. *)
From stdpp Require Import gmap strings list.
From Stdlib Require Import ZArith Lia.
From S2P Require Import Prelude GoStd Registry RegistryInv RegistryDiscover RegistrySpec RegistryLww Proto RegistryGrpc Federation FederationServer FederationRound FederationPull.

Local Open Scope Z_scope.

(** C4: Registering on one relay makes an agent discoverable on another.  An
    agent registers over gRPC with relay A; operations follow there that do not
    touch it or evict it; relay B, not backing off, pulls from A before the agent
    expires, and A's recent registrations fit the response and B's registry.  If B
    knows nothing newer about the agent and has no registration of its own for it,
    then every client of B that asks over gRPC for one of its skills, federated
    answers included, gets the agent with name, description, skills, tags,
    registration time and expiry time as registered on A, until that time. *)
Theorem cross_relay_discovery `{Timestamps} conv_oob cfgA cfgB ra0 nowR req ra1 t opsA ra rb s f addr ordA tsnap nowA tb tb'
    (HA : reachable cfgA ra0) (Hreg : RegisterSkills ra0 nowR req = (ra1, inl t))
    (Hops : Forall (spares (rs_PeerId req) (ts_AsTime t)) opsA) (Hex : exec_all ra1 opsA = Some ra)
    (HAr : reachable cfgA ra) (HB : reachable cfgB rb)
    (Hids : srv_relayID s ≠ "" ∧ RelayID (fed_cfg f) ≠ "")
    (Hback : backoffUntil (peer_state f addr) <= tb)
    (Hlive : tsnap <= ts_AsTime t) (Hsince : default zero_time (lastSync f !! addr) <= nowR)
    (Hown : entries rb !! rs_PeerId req = None)
    (Hnewer : ∀ e, federated rb !! rs_PeerId req = Some e → Version e < uint64 nowR) :
  let regs := LocalRegistrations ra ordA tsnap (default zero_time (lastSync f !! addr)) in
  ∀ (Hfit : len regs <= 1000) (Hroom : room rb (with_origin (srv_relayID s) <$> regs)),
  let '(_, rb', _) := syncPeer conv_oob f rb addr (client_of s ra ordA tsnap nowA) tb tb' in
  ∀ ord ordF now' q sk,
    now' <= ts_AsTime t → sk ∈ rs_Skills req → ds_SkillId q = pb_SkillId sk →
    ds_Tags q ⊆ pb_Tags sk → ds_Federated q = true →
    len (scan_all rb' now' (ds_SkillId q) (ds_Tags q) true) <= clampLimit (ds_Limit q) →
    ∃ agents, GRPCServer_DiscoverBySkill rb' ord ordF now' q = inl agents ∧
      mkSkillRegistration (rs_PeerId req) (rs_Skills req) (rs_AgentName req)
        (rs_AgentDescription req) (ts_New nowR) t ∈ agents.
Proof.
  intros regs Hfit Hroom.
  destruct (RegisterSkills_stored _ _ _ _ _ (reachable_wf _ _ HA) Hreg) as (Hv & Hwf1 & -> & Hent).
  rewrite ts_AsTime_New in *. set (expires := nowR + TTL (config ra0)) in *.
  destruct (spared_kept ra1 opsA ra (rs_PeerId req) (registered req nowR expires)) as [HwA Hp]; [done| |done|done|].
  { by rewrite Hent, lookup_insert_eq. }
  pose proof (pull_transfers conv_oob cfgA cfgB ra rb s f addr ordA tsnap nowA tb tb' HAr HB Hids Hback Hfit Hroom) as Hpull.
  pose proof (syncPeer_actions conv_oob f rb addr (client_of s ra ordA tsnap nowA) tb tb') as Hact.
  destruct (syncPeer _ _ _ _ _ _ _) as [[f' rb'] out]. cbn [fst] in Hact.
  destruct Hpull as (_ & Hin & _ & Hent' & _).
  assert (wf rb') as HwB.
  { apply (f_equal snd) in Hact. cbn [snd] in Hact. rewrite Hact, exec_actions_registry.
    by apply wf_deliver_all, (reachable_wf cfgB). }
  assert (federated rb' !! rs_PeerId req = Some (with_origin (srv_relayID s) (registered req nowR expires))) as Hfed.
  { rewrite (Hin _ _ Hp) by done. f_equal. unfold merge.
    destruct (federated rb !! rs_PeerId req) as [e|] eqn:He; [|done].
    specialize (Hnewer e eq_refl). unfold beats. cbn. rewrite (proj2 (Z.ltb_lt _ _) Hnewer). done. }
  intros ord ordF now' q sk Hnow Hsk Hid Htags Hf Hlen.
  destruct Hv as (_ & _ & Hskids). rewrite Forall_forall in Hskids.
  unfold GRPCServer_DiscoverBySkill. destruct (String.eqb_spec (ds_SkillId q) "") as [Hempty|_].
  { destruct (Hskids _ Hsk). congruence. }
  eexists. split; [done|]. apply list_elem_of_In, in_map_iff.
  exists (with_origin (srv_relayID s) (registered req nowR expires)). rewrite <- list_elem_of_In. split.
  - unfold toSkillRegistration. simpl. by rewrite registrySkills_roundtrip.
  - rewrite Hf. apply DiscoverBySkill_complete_fed; [done..|by eapply registered_offers| |done].
    intros l Hl. cbn in Hl. by rewrite Hent', Hown in Hl.
Qed.

(** Two relays, an agent on the first. *)
Definition ex_cfg2 : Config := mkConfig (30 * Second) 4 4 0.
Definition ex_reg_req : RegisterSkillsRequest :=
  mkRegisterSkillsRequest "agent" [mk_pb_SkillInfo "sum" "adds" (<["lang" := "en"]> ∅)] "A" "demo".
Definition ex_relayA : Registry := (RegisterSkills (Registry_New ex_cfg2) 100 ex_reg_req).1.
Definition ex_fedB : Federation :=
  (Start (Federation_New (mk_fed_Config ["relay-a:50052"] 0 "relay-b")) (λ _, true)).1.
Definition ex_relayB : Registry :=
  (syncPeer min_int64 ex_fedB (Registry_New ex_cfg2) "relay-a:50052"
     (client_of (mkServer "relay-a") ex_relayA canonical_order 200 210) 190 190).1.2.

Lemma ex_relayA_reachable : reachable ex_cfg2 ex_relayA.
Proof.
  by eapply (reach_step _ _ (OpRegister 100 "agent" (pbSkillsToRegistry (rs_Skills ex_reg_req)) "A" "demo")); [constructor|].
Qed.

Lemma ex_relayA_registered :
  RegisterSkills (Registry_New ex_cfg2) 100 ex_reg_req = (ex_relayA, inl (ts_New (100 + 30 * Second))).
Proof. vm_compute. reflexivity. Qed.

(** On the second one it is found, with its expiry time on the first. *)
Lemma cross_relay_discovery_witness :
  ∃ agents, GRPCServer_DiscoverBySkill ex_relayB canonical_order reversed_order 300
      (mkDiscoverBySkillRequest "sum" (<["lang" := "en"]> ∅) 10 true) = inl agents ∧
    mkSkillRegistration "agent" (rs_Skills ex_reg_req) "A" "demo" (ts_New 100) (ts_New (100 + 30 * Second)) ∈ agents.
Proof.
  pose proof (cross_relay_discovery min_int64 ex_cfg2 ex_cfg2 (Registry_New ex_cfg2) 100 ex_reg_req ex_relayA
    (ts_New (100 + 30 * Second)) [] ex_relayA (Registry_New ex_cfg2) (mkServer "relay-a") ex_fedB "relay-a:50052"
    canonical_order 200 210 190 190 (reach_New _) ex_relayA_registered ltac:(constructor) ltac:(reflexivity)
    ex_relayA_reachable (reach_New _) ltac:(split; discriminate) ltac:(vm_compute; discriminate)
    ltac:(rewrite ts_AsTime_New; vm_compute; discriminate) ltac:(vm_compute; discriminate) ltac:(reflexivity)
    ltac:(intros e; discriminate) ltac:(vm_compute; discriminate) ltac:(vm_compute; discriminate)) as H.
  unfold ex_relayB. destruct (syncPeer _ _ _ _ _ _ _) as [[f' rb'] out] eqn:E. cbn [fst snd].
  apply (H canonical_order reversed_order 300 (mkDiscoverBySkillRequest "sum" (<["lang" := "en"]> ∅) 10 true)
    (mk_pb_SkillInfo "sum" "adds" (<["lang" := "en"]> ∅))); [|left|done..|].
  - rewrite ts_AsTime_New. vm_compute. discriminate.
  - assert (rb' = ex_relayB) as -> by (unfold ex_relayB; by rewrite E). vm_compute. discriminate.
Defined.

(** ** A relay that comes back *)

Section catch_up.
Context `{Timestamps} (conv_oob : Z).

(** What a pull from a relay that answers contributes to a round. *)
Lemma peer_actions_server s ra ord tsnap nowA f addr t t' :
  srv_relayID s ≠ "" → RelayID (fed_cfg f) ≠ "" → backoffUntil (peer_state f addr) <= t →
  len (LocalRegistrations ra ord tsnap (default zero_time (lastSync f !! addr))) <= 1000 →
  peer_actions f addr (client_of s ra ord tsnap nowA) t t' =
    ActSuccess addr ::
    (ActRegister addr <$> (toFederated (srv_relayID s) <$>
       LocalRegistrations ra ord tsnap (default zero_time (lastSync f !! addr)))) ++ [ActStamp addr nowA].
Proof.
  intros Hs Hf Hb Hfit. unfold peer_actions, Before. rewrite (proj2 (Z.ltb_ge _ _) Hb).
  rewrite client_response by done. cbn [sync_Registrations sync_SyncTimestamp]. by rewrite ts_AsTime_New.
Qed.

Lemma view_exec_server (l : list FederatedRegistration) addr v nowA :
  foldl (view_exec conv_oob) v (ActSuccess addr :: (ActRegister addr <$> l) ++ [ActStamp addr nowA]) =
    ((λ _, peerState_zero) <$> v.1, Some nowA).
Proof.
  cbn [foldl]. rewrite foldl_app. replace (foldl _ _ (ActRegister addr <$> l)) with (view_exec conv_oob v (ActSuccess addr)); [done|].
  generalize (view_exec conv_oob v (ActSuccess addr)). clear. induction l as [|fr l IH]; intros v; [done|].
  rewrite fmap_cons. cbn [foldl view_exec]. apply IH.
Qed.

Lemma elem_of_round_updates f net addrs addr u :
  addr ∈ addrs →
  u ∈ omap act_update (peer_actions f addr (pn_client (net addr)) (pn_now (net addr)) (pn_now' (net addr))) →
  u ∈ omap act_update (concat (round_threads f net addrs)).
Proof.
  intros Ha (a & Hin & Hu)%list_elem_of_omap. apply list_elem_of_omap. exists a. split; [|done].
  apply list_elem_of_In, in_concat. eexists. rewrite <- !list_elem_of_In. split; [|exact Hin].
  unfold round_threads. apply list_elem_of_fmap. by exists addr.
Qed.
End catch_up.

(** C7: No relay is given up.  Take a started manager and anything that happened
    to it since - any number of failures and successes of any peers.  Five minutes
    after the last failure of a connected peer, whatever their number, a round asks
    that peer again; if it then answers, if its live registrations made since the
    last successful pull are at most 1000 (they fit one response) and if the
    federated registry has room for all agents the peers of the round tell about,
    then in every interleaving with the other peers of the round its failures are
    forgotten, its clock is remembered, and each of these registrations is in the
    federated registry afterwards, or one about the same agent that is at least as
    new. *)
Theorem recovered_peer_catches_up `{Timestamps} conv_oob cfgA cfg dial tr r0 rb addr s ra ordA tsnap nowA
    (ord : RangeOrder) net st (HA : reachable cfgA ra) :
  let f0 := (Start (Federation_New cfg) dial).1 in
  let f := (foldl (exec_action conv_oob) (f0, r0) tr).1 in
  let since := default zero_time (lastSync f !! addr) in
  let regs := LocalRegistrations ra ordA tsnap since in
  ∀ (Hids : srv_relayID s ≠ "" ∧ RelayID cfg ≠ "") (Hclient : addr ∈ clients f)
    (Hnet : pn_client (net addr) = client_of s ra ordA tsnap nowA)
    (Hclock : zero_time <= pn_now (net addr))
    (Hquiet : ∀ now, ActFailure addr now ∈ tr → now + 5 * Minute <= pn_now (net addr))
    (Hfit : len regs <= 1000)
    (Hroom : room rb (omap act_update (concat (round_threads f net (ord (clients f))))))
    (Hround : syncAll conv_oob f rb ord net st),
  peer_state st.1 addr = peerState_zero ∧ lastSync st.1 !! addr = Some nowA ∧
  ∀ p reg, entries ra !! p = Some reg → tsnap <= ExpiresAt reg → since <= RegisteredAt reg →
    ∃ w, federated st.2 !! p = Some w ∧ beats (with_origin (srv_relayID s) reg) w = false.
Proof.
  intros f0 f since regs. intros. destruct Hids as [Hs Hf]. destruct Hround as (tr' & Hil & ->).
  assert (peerStates f0 = ∅) as Hf0 by (unfold f0, Start; by destruct (startOnce _)).
  assert (RelayID (fed_cfg f) ≠ "") as Hfid.
  { unfold f. destruct (exec_actions_rest conv_oob tr (f0, r0)) as (-> & _). unfold f0, Start. cbn [fst].
    destruct (startOnce _); cbn; by destruct (SyncInterval cfg =? 0). }
  pose proof (backoff_after_history conv_oob tr f0 r0 addr _ Hf0 Hclock Hquiet) as Hb. fold f in Hb.
  pose proof (peer_actions_server s ra ordA tsnap nowA f addr (pn_now (net addr)) (pn_now' (net addr)) Hs Hfid Hb Hfit) as Hpa.
  rewrite <- Hnet in Hpa. fold since regs in Hpa.
  assert (peer_view (foldl (exec_action conv_oob) (f, rb) tr').1 addr =
    ((λ _, peerState_zero) <$> peerStates f !! addr, Some nowA)) as Hv.
  { rewrite exec_actions_view, (round_filter f net (ord (clients f))) by (done || apply NoDup_range).
    rewrite decide_True by by apply elem_of_range. by rewrite Hpa, view_exec_server. }
  unfold peer_view in Hv. injection Hv as Hv1 Hv2. split_and!.
  - unfold peer_state. rewrite Hv1. by destruct (peerStates f !! addr).
  - exact Hv2.
  - intros p reg Hp Hlive Hsince. rewrite exec_actions_registry.
    pose proof (reachable_wf _ _ HA) as HwA. pose proof (wf_keys _ _ _ HwA Hp) as <-.
    set (us := omap act_update tr').
    assert (us ≡ₚ omap act_update (concat (round_threads f net (ord (clients f))))) as Hus
      by by rewrite <- (interleaving_perm _ _ Hil).
    assert (with_origin (srv_relayID s) reg ∈ us) as Hin.
    { rewrite Hus. apply (elem_of_round_updates f net _ addr); [by apply elem_of_range|].
      rewrite Hpa. apply list_elem_of_omap. exists (ActRegister addr (toFederated (srv_relayID s) reg)). split.
      - right. apply elem_of_app. left. apply list_elem_of_fmap_2, list_elem_of_fmap_2. by apply elem_of_LocalRegistrations.
      - by apply fed_update_toFederated. }
    assert (room rb us) as Hroom' by (unfold room; by rewrite Hus).
    pose proof (deliver_all_best rb us (PeerID reg) Hroom') as Hbest.
    destruct (federated (deliver_all rb us) !! PeerID reg) as [w|].
    + exists w. split; [done|]. apply Hbest. right. by split.
    + exfalso. eapply Hbest. right. by split; [exact Hin|].
Qed.

(** The relay of the agent could not be reached twice, the second time at 20 s. *)
Definition ex_tr : list sync_action := [ActFailure "relay-a:50052" 10; ActFailure "relay-a:50052" (20 * Second)].
Definition ex_fedB2 : Federation := (foldl (exec_action min_int64) (ex_fedB, Registry_New ex_cfg2) ex_tr).1.
Definition ex_net2 (_ : string) : PeerNet :=
  mkPeerNet (client_of (mkServer "relay-a") ex_relayA canonical_order (25 * Second) (25 * Second))
    (20 * Second + 5 * Minute) 0.
Definition ex_round2 : Federation * Registry :=
  foldl (exec_action min_int64) (ex_fedB2, Registry_New ex_cfg2)
    (concat (round_threads ex_fedB2 ex_net2 (canonical_order (clients ex_fedB2)))).

Lemma ex_round2_run : syncAll min_int64 ex_fedB2 (Registry_New ex_cfg2) canonical_order ex_net2 ex_round2.
Proof. eexists. split; [apply interleaving_concat|]. reflexivity. Qed.

Lemma recovered_peer_catches_up_witness :
  peer_state ex_round2.1 "relay-a:50052" = peerState_zero ∧
  ∃ w, federated ex_round2.2 !! "agent" = Some w ∧ beats (with_origin "relay-a"
    (mkRegistration "agent" (pbSkillsToRegistry (rs_Skills ex_reg_req)) "A" "demo" 100 (100 + 30 * Second) "" 100)) w = false.
Proof.
  destruct (recovered_peer_catches_up min_int64 ex_cfg2 (mk_fed_Config ["relay-a:50052"] 0 "relay-b") (λ _, true) ex_tr
    (Registry_New ex_cfg2) (Registry_New ex_cfg2) "relay-a:50052" (mkServer "relay-a") ex_relayA canonical_order
    (25 * Second) (25 * Second) canonical_order ex_net2 ex_round2 ex_relayA_reachable
    ltac:(split; discriminate) ltac:(apply (bool_decide_unpack _); vm_compute; exact I) eq_refl ltac:(vm_compute; discriminate)
    ltac:(intros now [[= ->]|[[= ->]|?%elem_of_nil]%elem_of_cons]%elem_of_cons; [vm_compute; discriminate..|done])
    ltac:(vm_compute; discriminate) ltac:(vm_compute; discriminate) ex_round2_run) as (H1 & _ & H3).
  split; [exact H1|]. apply H3; vm_compute; [reflexivity|discriminate|discriminate].
Defined.
