(* ===== verification/Http.v ===== *)
(** * The parts of [net/http] and [strconv] that the HTTP handlers use

    A [ResponseWriter] with Go's rules: the header map may be changed at any
    time, but what is sent is the map as it was at the first [WriteHeader] or
    [Write]; a status, once written, stays. *)
From stdpp Require Import gmap strings list.
From Stdlib Require Import ZArith Lia Ascii.
From S2P Require Import Prelude GoStd.

Local Open Scope Z_scope.

(** ** Status codes *)
Definition StatusOK : Z := 200.
Definition StatusCreated : Z := 201.
Definition StatusNoContent : Z := 204.
Definition StatusMovedPermanently : Z := 301.
Definition StatusBadRequest : Z := 400.
Definition StatusForbidden : Z := 403.
Definition StatusNotFound : Z := 404.
Definition StatusMethodNotAllowed : Z := 405.
Definition StatusConflict : Z := 409.

(** ** The response writer

    [rw_sent] is the status with the header map as it was when the status was
    written.  A body is a text or a value that is encoded as JSON. *)
Inductive body (J : Type) := BodyText (s : string) | BodyJson (j : J).
Arguments BodyText {J} s.
Arguments BodyJson {J} j.

Record ResponseWriter (J : Type) := mkRW {
  rw_header : gmap string string;
  rw_sent : option (Z * gmap string string);
  rw_body : list (body J)
}.
Arguments mkRW {J}.
Arguments rw_header {J}.
Arguments rw_sent {J}.
Arguments rw_body {J}.

Definition new_writer {J} : ResponseWriter J := mkRW ∅ None [].

Section writer.
Context {J : Type}.
Implicit Types w : ResponseWriter J.

Definition Header_Set w (k v : string) : ResponseWriter J :=
  mkRW (<[k := v]> (rw_header w)) (rw_sent w) (rw_body w).

(** A second call is ignored. *)
Definition WriteHeader w (statusCode : Z) : ResponseWriter J :=
  match rw_sent w with
  | Some _ => w
  | None => mkRW (rw_header w) (Some (statusCode, rw_header w)) (rw_body w)
  end.

(** The first write sends status 200 when none was written. *)
Definition Write w (b : body J) : ResponseWriter J :=
  let w := WriteHeader w StatusOK in
  mkRW (rw_header w) (rw_sent w) (rw_body w ++ [b]).

(** [http.Error] also deletes headers that the relay never sets. *)
Definition http_Error w (msg : string) (statusCode : Z) : ResponseWriter J :=
  let w := Header_Set w "Content-Type" "text/plain; charset=utf-8" in
  let w := Header_Set w "X-Content-Type-Options" "nosniff" in
  Write (WriteHeader w statusCode) (BodyText (msg +:+ String "010" "")).

(** [http.RedirectHandler] with status 301; [location] is the text of the URL. *)
Definition http_Redirect w (method location : string) : ResponseWriter J :=
  let w := Header_Set w "Location" location in
  let w := if String.eqb method "GET" || String.eqb method "HEAD"
           then Header_Set w "Content-Type" "text/html; charset=utf-8" else w in
  let w := WriteHeader w StatusMovedPermanently in
  if String.eqb method "GET" then Write w (BodyText location) else w.

(** What the client receives: status, headers, bodies.  A handler that wrote
    nothing sends 200. *)
Definition response w : Z * gmap string string * list (body J) :=
  match rw_sent w with
  | Some (c, h) => (c, h, rw_body w)
  | None => (StatusOK, rw_header w, rw_body w)
  end.

Definition response_status w : Z := (response w).1.1.
Definition response_header w : gmap string string := (response w).1.2.
Definition response_body w : list (body J) := (response w).2.
End writer.

(** ** [strconv.Atoi] *)

Definition digit (c : ascii) : option Z :=
  let n := Z.of_nat (nat_of_ascii c) in
  if (48 <=? n) && (n <=? 57) then Some (n - 48) else None.

Fixpoint digits (s : string) (acc : Z) : option Z :=
  match s with
  | EmptyString => Some acc
  | String c s => d ← digit c; digits s (10 * acc + d)
  end.

(** An optional sign, at least one decimal digit, within 64 bits. *)
Definition Atoi (s : string) : option Z :=
  let '(neg, ds) := match s with
                    | String c s' => if Ascii.eqb c "-" then (true, s')
                                     else if Ascii.eqb c "+" then (false, s') else (false, s)
                    | EmptyString => (false, s)
                    end in
  if String.eqb ds "" then None
  else n ← digits ds 0;
    let v := if neg : bool then - n else n in
    if (min_int64 <=? v) && (v <=? max_int64) then Some v else None.

(** ** Requests

    [rq_query] and [rq_path_value] give the empty string for an absent name, as
    [Query().Get] and [PathValue] do; [rq_body] is the body's text. *)
Record Request := mkRequest {
  rq_Method : string;
  rq_Origin : string;
  rq_query : string → string;
  rq_path_value : string → string;
  rq_body : string
}.

Lemma Atoi_range s v : Atoi s = Some v → min_int64 <= v <= max_int64.
Proof.
  unfold Atoi. destruct (match s with EmptyString => _ | String _ _ => _ end) as [neg ds].
  destruct (String.eqb ds ""); [done|]. destruct (digits ds 0) as [n|]; [|done]. simpl.
  destruct (_ && _) eqn:Hb; [|done]. intros [= <-]. bool_to_prop. lia.
Qed.
