(* ===== verification/HttpServer.v ===== *)
(** * Starting and closing an HTTP server ([Start] and [Close] of
    [src/internal/api/server.go] and [src/internal/health/health.go])

    Both servers are an [http.Server] whose [Start] runs [ListenAndServe] in a
    goroutine and whose [Close] calls [Shutdown] with five seconds.  [http_step] is
    one step of that goroutine, of a client, of the caller of [Close], or of the
    clock; the steps inside [ListenAndServe], [Serve] and [Shutdown] are those of
    [net/http], with the checks of [inShutdown] between them. *)
From stdpp Require Import base option list strings relations.
From Stdlib Require Import ZArith Lia.
From S2P Require Import Prelude GoStd.

Local Open Scope Z_scope.

(** What [ListenAndServe] returns. *)
Inductive serve_error := ErrServerClosed | ErrServe (msg : string).

(** The goroutine: not started, before its check and [net.Listen], between
    [net.Listen] and [trackListener], at [Accept], gone. *)
Inductive serve_pc := SvNone | SvSpawned | SvBound | SvAccepting | SvExited (err : serve_error).

(** The caller of [Close]: not called, between setting [inShutdown] and closing the
    listeners, waiting until [deadline], returned. *)
Inductive close_pc := ClNot | ClFlagged (deadline : Z) | ClWaiting (deadline : Z) | ClReturned (err : option string).

(** [hp_listening]: the listener is open; [hp_conns]: requests being served;
    [hp_log]: the errors logged; [hp_start]: what [Start] returned. *)
Record HttpProc := mkHttpProc {
  hp_shutdown : bool;
  hp_listening : bool;
  hp_pc : serve_pc;
  hp_conns : nat;
  hp_log : list string;
  hp_start : option (option string);
  hp_close : close_pc;
  hp_clock : Z
}.

Definition http_new (t0 : Z) : HttpProc := mkHttpProc false false SvNone 0 [] None ClNot t0.

Definition CloseTimeout : Z := 5 * Second.

(** [Start]: spawns the goroutine and returns nil. *)
Definition http_Start (s : HttpProc) : HttpProc :=
  mkHttpProc (hp_shutdown s) (hp_listening s) SvSpawned (hp_conns s) (hp_log s) (Some None) (hp_close s) (hp_clock s).

(** The goroutine after [ListenAndServe]: an error other than [ErrServerClosed] is
    logged; the listener is closed. *)
Definition http_exit (s : HttpProc) (err : serve_error) : HttpProc :=
  mkHttpProc (hp_shutdown s) false (SvExited err) (hp_conns s)
    (match err with ErrServerClosed => hp_log s | ErrServe msg => hp_log s ++ [msg] end)
    (hp_start s) (hp_close s) (hp_clock s).

Definition at_pc (s : HttpProc) (listening : bool) (pc : serve_pc) : HttpProc :=
  mkHttpProc (hp_shutdown s) listening pc (hp_conns s) (hp_log s) (hp_start s) (hp_close s) (hp_clock s).
Definition with_conns (s : HttpProc) (n : nat) : HttpProc :=
  mkHttpProc (hp_shutdown s) (hp_listening s) (hp_pc s) n (hp_log s) (hp_start s) (hp_close s) (hp_clock s).
Definition at_close (s : HttpProc) (c : close_pc) : HttpProc :=
  mkHttpProc (hp_shutdown s) (hp_listening s) (hp_pc s) (hp_conns s) (hp_log s) (hp_start s) c (hp_clock s).

Definition serve_exited (pc : serve_pc) : bool := match pc with SvExited _ => true | _ => false end.

Section server.
(** [net.Listen] on the server's address: an error, or the port. *)
Context (listen : option string).

(** What the goroutine does by itself. *)
Inductive serve_step (s : HttpProc) : HttpProc → Prop :=
| sv_closed : hp_pc s = SvSpawned → hp_shutdown s = true → serve_step s (http_exit s ErrServerClosed)
| sv_listen_err msg :
    hp_pc s = SvSpawned → hp_shutdown s = false → listen = Some msg → serve_step s (http_exit s (ErrServe msg))
| sv_listen :
    hp_pc s = SvSpawned → hp_shutdown s = false → listen = None → serve_step s (at_pc s true SvBound)
| sv_refused : hp_pc s = SvBound → hp_shutdown s = true → serve_step s (http_exit s ErrServerClosed)
| sv_track : hp_pc s = SvBound → hp_shutdown s = false → serve_step s (at_pc s true SvAccepting)
| sv_accept_closed :
    hp_pc s = SvAccepting → hp_listening s = false → hp_shutdown s = true →
    serve_step s (http_exit s ErrServerClosed).

(** What the caller of [Close] does once it has been called.  Closing the
    listeners closes the tracked one; then [Shutdown] waits for [Serve] to return,
    without a limit, and for the requests, until the deadline. *)
Inductive close_step (s : HttpProc) : HttpProc → Prop :=
| cl_listeners d :
    hp_close s = ClFlagged d →
    close_step s (at_close (match hp_pc s with SvAccepting => at_pc s false SvAccepting | _ => s end) (ClWaiting d))
| cl_idle d :
    hp_close s = ClWaiting d → hp_pc s ≠ SvAccepting → hp_conns s = 0%nat → close_step s (at_close s (ClReturned None))
| cl_timeout d :
    hp_close s = ClWaiting d → hp_pc s ≠ SvAccepting → d <= hp_clock s →
    close_step s (at_close s (ClReturned (Some "context deadline exceeded"))).

Inductive http_step (s : HttpProc) : HttpProc → Prop :=
| hs_start : hp_pc s = SvNone → http_step s (http_Start s)
| hs_serve s' : serve_step s s' → http_step s s'
| hs_accept : hp_pc s = SvAccepting → hp_listening s = true → http_step s (with_conns s (S (hp_conns s)))
| hs_accept_err msg :
    hp_pc s = SvAccepting → hp_listening s = true →
    http_step s (http_exit s (if hp_shutdown s then ErrServerClosed else ErrServe msg))
| hs_answered n : hp_conns s = S n → http_step s (with_conns s n)
| hs_close :
    hp_close s = ClNot →
    http_step s (mkHttpProc true (hp_listening s) (hp_pc s) (hp_conns s) (hp_log s) (hp_start s)
      (ClFlagged (hp_clock s + CloseTimeout)) (hp_clock s))
| hs_closing s' : close_step s s' → http_step s s'
| hs_time d :
    0 <= d → http_step s (mkHttpProc (hp_shutdown s) (hp_listening s) (hp_pc s) (hp_conns s) (hp_log s) (hp_start s)
      (hp_close s) (hp_clock s + d)).

(** ** Invariant *)

Definition closing (c : close_pc) : bool := match c with ClNot => false | _ => true end.
Definition closed_listeners (c : close_pc) : bool :=
  match c with ClWaiting _ | ClReturned _ => true | _ => false end.

Record http_inv (s : HttpProc) : Prop := {
  hv_shutdown : hp_shutdown s = closing (hp_close s);
  hv_listening : hp_listening s = true → hp_pc s = SvBound ∨ hp_pc s = SvAccepting;
  hv_accepting : hp_pc s = SvAccepting → hp_listening s = negb (closed_listeners (hp_close s));
  hv_returned err : hp_close s = ClReturned err → hp_pc s ≠ SvAccepting ∧ (err = None → hp_conns s = 0%nat);
  hv_conns : listen ≠ None → hp_conns s = 0%nat ∧ hp_listening s = false ∧ hp_pc s ≠ SvBound ∧ hp_pc s ≠ SvAccepting;
  hv_log : hp_log s = match hp_pc s with SvExited (ErrServe msg) => [msg] | _ => [] end;
  hv_start : hp_start s = match hp_pc s with SvNone => None | _ => Some None end;
  hv_new : hp_pc s = SvNone ∨ hp_pc s = SvSpawned → hp_conns s = 0%nat
}.

Lemma http_inv_new t0 : http_inv (http_new t0).
Proof. by split. Qed.

Lemma http_inv_step s s' : http_inv s → http_step s s' → http_inv s'.
Proof.
  destruct s as [sd li pc co lo st cl ck]. intros [H1 H2 H3 H4 H5 H6 H7 H8] Hs.
  destruct Hs as [Hp|s' Hs|Hp Hl|msg Hp Hl|n Hn|Hc|s' Hs|d Hd]; try destruct Hs;
    try (is_var pc; lazymatch goal with |- http_inv (at_close (match _ with _ => _ end) _) => destruct pc end);
    cbn [hp_shutdown hp_listening hp_pc hp_conns hp_log hp_start hp_close hp_clock] in *; subst; cbn in *;
    split; unfold http_Start, http_exit, at_pc, at_close, with_conns; cbn; try done.
  all: try (intros; discriminate).
  all: try tauto.
  all: try (intros err He; destruct (H4 err He); split; [discriminate|assumption]).
  all: try (intros Hn; destruct (H5 Hn) as (? & ? & ? & ?); split_and!; congruence).
  all: try (intros Hl; destruct (H2 Hl); (discriminate || auto)).
  all: try (intros [?|?]; discriminate).
  all: try (destruct cl; try discriminate); cbn in *; try (specialize (H3 eq_refl); discriminate); intros; try discriminate; auto.
  all: try (match goal with H : _ ∨ _ |- _ => specialize (H8 H); discriminate end).
  - destruct (H4 _ ltac:(eassumption)) as [? Hco]. split; [assumption|]. intros He. specialize (Hco He). discriminate.
  - split; [assumption|]. by simplify_eq.
Qed.

Lemma http_inv_reach t0 s : rtc http_step (http_new t0) s → http_inv s.
Proof. apply rtc_preserves; [apply http_inv_step|apply http_inv_new]. Qed.

(** The deadline is five seconds after the call. *)
Lemma http_deadline t0 s d :
  rtc http_step (http_new t0) s → hp_close s = ClWaiting d → d <= hp_clock s + CloseTimeout.
Proof.
  intros Hrun Hw. cut (∀ d, hp_close s = ClFlagged d ∨ hp_close s = ClWaiting d → d <= hp_clock s + CloseTimeout); [auto|].
  revert Hrun. clear. apply (rtc_preserves _ (λ s, ∀ d, hp_close s = ClFlagged d ∨ hp_close s = ClWaiting d →
    d <= hp_clock s + CloseTimeout)); [|by intros d [?|?]].
  intros x y IH [|x1 []| | | | |x1 []|e]; cbn; auto.
  - intros d [[= <-]|?]; [lia|done].
  - intros d' [?|[= <-]]; [done|]. destruct (hp_pc x); apply IH; auto.
  - by intros d' [?|?].
  - by intros d' [?|?].
  - intros d' Hd'. specialize (IH _ Hd'). lia.
Qed.

(** ** After [Close] *)

(** Nothing is accepted and nothing logged once [Close] has returned, and the only
    listener there may be is one that [trackListener] will refuse. *)
Lemma http_closed_step s s' err :
  http_inv s → hp_close s = ClReturned err → http_step s s' →
  hp_close s' = ClReturned err ∧ (hp_conns s' <= hp_conns s)%nat ∧ hp_log s' = hp_log s.
Proof.
  intros [H1 H2 H3 H4 H5 H6 H7 H8] Hc Hs. destruct (H4 _ Hc) as [Ha _]. rewrite Hc in H1. cbn in H1.
  destruct Hs as [Hp|s' Hs|Hp Hl|msg Hp Hl|n Hn|Hc'|s' Hs|d Hd]; try destruct Hs; cbn; try congruence; auto.
  rewrite Hn. auto.
Qed.

Lemma http_closed_run s s' err :
  http_inv s → hp_close s = ClReturned err → rtc http_step s s' →
  hp_close s' = ClReturned err ∧ (hp_conns s' <= hp_conns s)%nat ∧ hp_log s' = hp_log s.
Proof.
  intros Hi Hc Hrun. induction Hrun as [s|s s1 s' Hs _ IH]; [auto|].
  destruct (http_closed_step _ _ _ Hi Hc Hs) as (H1 & H2 & H3).
  destruct (IH (http_inv_step _ _ Hi Hs) H1) as (H4 & H5 & H6). split_and!; [done|lia|congruence].
Qed.

(** ** [Close] comes to its end *)

(** The steps of the goroutine, of [Close] and of the requests. *)
Inductive settle_step (s : HttpProc) : HttpProc → Prop :=
| st_serve s' : serve_step s s' → settle_step s s'
| st_close s' : close_step s s' → settle_step s s'
| st_answered n : hp_conns s = S n → settle_step s (with_conns s n).

Definition settle_measure (s : HttpProc) : nat :=
  hp_conns s +
  match hp_pc s with SvSpawned => 3 | SvBound => 2 | SvAccepting => 1 | _ => 0 end +
  match hp_close s with ClFlagged _ => 2 | ClWaiting _ => 1 | _ => 0 end.

Lemma settle_step_measure s s' : settle_step s s' → (settle_measure s' < settle_measure s)%nat.
Proof.
  unfold settle_measure.
  destruct 1 as [s' Hs|s' Hs|n Hn]; [destruct Hs|destruct Hs|]; cbn; repeat case_match; cbn in *; try congruence; lia.
Qed.

(** Nothing but a request that is still served, before the deadline, can hold it up. *)
Lemma close_progress s :
  http_inv s → (∀ s', ¬ serve_step s s') → (∀ s', ¬ close_step s s') →
  match hp_close s with
  | ClNot | ClReturned _ => True
  | ClFlagged _ => False
  | ClWaiting d => (0 < hp_conns s)%nat ∧ hp_clock s < d
  end.
Proof.
  intros [H1 H2 H3 H4 H5 H6 H7 H8] Hsv Hcl. destruct (hp_close s) as [|d|d|] eqn:Hc; [done| | |done].
  - eapply Hcl. by apply (cl_listeners _ d).
  - assert (hp_pc s ≠ SvAccepting) as Ha.
    { intros Ha. eapply Hsv, sv_accept_closed; [done|by rewrite H3|done]. }
    split.
    + destruct (hp_conns s) eqn:Hn; [|lia]. exfalso. by eapply Hcl, cl_idle.
    + apply Znot_ge_lt. intros Hd. eapply Hcl, cl_timeout; [done|done|lia].
Qed.
End server.

(** C20: The life of the REST and health servers.  Over every interleaving of
    [Start], the serving goroutine, clients, [Close] and the clock: [Start] always
    reports success, also when the port is taken, in which case nothing is ever
    served and the failure is one line of the log; the log has at most that line,
    and none for a shutdown, also one that overtakes the goroutine; once [Close]
    has returned nothing is accepted or logged any more, and if it returned nil
    every request had been answered.  [Close] returns: the steps of the goroutine,
    of [Close] and of the requests being served are bounded, and after its
    deadline, five seconds after the call, nothing can hold it up. *)
Theorem http_server_lifecycle (listen : option string) t0 s (Hrun : rtc (http_step listen) (http_new t0) s) :
  hp_start s ∈ [None; Some None] ∧
  (∀ msg, listen = Some msg → hp_conns s = 0%nat ∧ hp_listening s = false) ∧
  ((∃ msg, hp_log s = [msg] ∧ hp_pc s = SvExited (ErrServe msg)) ∨
   hp_log s = [] ∧ ∀ msg, hp_pc s ≠ SvExited (ErrServe msg)) ∧
  (∀ err, hp_close s = ClReturned err →
     (err = None → hp_conns s = 0%nat) ∧
     ∀ s', rtc (http_step listen) s s' → (hp_conns s' <= hp_conns s)%nat ∧ hp_log s' = hp_log s) ∧
  (∀ n s', nsteps (settle_step listen) n s s' → (n <= hp_conns s + 5)%nat) ∧
  ((∀ s', ¬ serve_step listen s s') → (∀ s', ¬ close_step s s') →
     match hp_close s with
     | ClNot | ClReturned _ => True
     | ClFlagged _ => False
     | ClWaiting d => (0 < hp_conns s)%nat ∧ hp_clock s < d
     end) ∧
  (∀ d, hp_close s = ClWaiting d → d <= hp_clock s + 5 * Second).
Proof.
  pose proof (http_inv_reach _ _ _ Hrun) as Hi. pose proof Hi as [H1 H2 H3 H4 H5 H6 H7 H8]. split_and!.
  - rewrite H7. destruct (hp_pc s); set_solver.
  - intros msg Hl. destruct (H5 ltac:(congruence)) as (? & ? & _). done.
  - rewrite H6. destruct (hp_pc s) as [| | | |[|msg]]; eauto; right; split; congruence.
  - intros err Hc. split; [by apply (H4 _ Hc)|]. intros s' Hs'.
    by destruct (http_closed_run _ _ _ _ Hi Hc Hs') as (_ & ? & ?).
  - intros n s' Hn. pose proof (nsteps_measure _ settle_measure _ _ _ (settle_step_measure listen) Hn) as Hm.
    unfold settle_measure in Hm at 2. destruct (hp_pc s), (hp_close s); lia.
  - by apply close_progress.
  - intros d. by apply (http_deadline listen t0).
Qed.

(** A port that is taken; and a server that is closed while it serves a request. *)
Definition ex_busy : HttpProc :=
  mkHttpProc false false (SvExited (ErrServe "address already in use")) 0 ["address already in use"] (Some None) ClNot 7.

Lemma ex_busy_run : rtc (http_step (Some "address already in use")) (http_new 7) ex_busy.
Proof.
  eapply rtc_l; [by apply hs_start|]. apply rtc_once, hs_serve.
  by apply (sv_listen_err _ (http_Start (http_new 7))).
Qed.

Definition ex_serving : HttpProc := mkHttpProc false true SvAccepting 1 [] (Some None) ClNot 7.
Definition ex_timed_out : HttpProc :=
  mkHttpProc true false (SvExited ErrServerClosed) 1 [] (Some None) (ClReturned (Some "context deadline exceeded"))
    (7 + CloseTimeout).

Lemma ex_timed_out_run : rtc (http_step None) (http_new 7) ex_timed_out.
Proof.
  eapply rtc_l; [by apply hs_start|]. eapply rtc_l; [by apply hs_serve, sv_listen|].
  eapply rtc_l; [by apply hs_serve, sv_track|]. eapply rtc_l; [by apply hs_accept|].
  change (with_conns _ _) with ex_serving.
  eapply rtc_l; [by apply hs_close|]. eapply rtc_l; [by eapply hs_closing, cl_listeners|]. cbn.
  eapply rtc_l; [by apply hs_serve, sv_accept_closed|].
  eapply rtc_l; [apply (hs_time _ _ CloseTimeout); vm_compute; discriminate|].
  apply rtc_once, hs_closing. by eapply cl_timeout.
Qed.

Lemma http_server_lifecycle_witness :
  (hp_conns ex_busy = 0%nat ∧ hp_listening ex_busy = false) ∧
  ∀ s', rtc (http_step None) ex_timed_out s' → hp_log s' = [].
Proof.
  destruct (http_server_lifecycle (Some "address already in use") 7 ex_busy ex_busy_run) as (_ & Hb & _).
  destruct (http_server_lifecycle None 7 ex_timed_out ex_timed_out_run) as (_ & _ & _ & Hc & _).
  split; [by apply (Hb _ eq_refl)|]. intros s' Hs'. by destruct (proj2 (Hc _ eq_refl) s' Hs').
Defined.
