(* ===== verification/Api.v ===== *)
(** * The REST API: directory endpoints and CORS
    ([src/internal/api/handlers.go], [server.go])

    A handler maps the components it reads, the request and a response writer to
    the writer afterwards.  JSON encoding is left out: a body is the value that is
    encoded.  A handler that calls the registry twice gets the registry, clock and
    iteration order of each call, since requests do not exclude one another. *)
From stdpp Require Import gmap strings list sorting.
From Stdlib Require Import ZArith Lia.
From S2P Require Import Prelude GoStd Registry Breaker BreakerRegistry Policy Namespace Federation Http.

Local Open Scope Z_scope.

(** ** Responses *)

Record SkillResponse := mkSkillResponse {
  skr_ID : string;
  skr_Description : string;
  skr_Tags : gmap string string
}.

(** [ar_ExpiresAt] is formatted to the second, in UTC: here the second itself. *)
Record AgentResponse := mkAgentResponse {
  ar_PeerID : string;
  ar_Name : string;
  ar_Description : string;
  ar_Skills : list SkillResponse;
  ar_Origin : string;
  ar_ExpiresAt : Z
}.

Record SkillSummary := mkSkillSummary { sks_ID : string; sks_AgentCount : Z }.

Record FederationStats := mkFederationStats { fs_Peers : Z; fs_HealthyPeers : Z }.

Record StatsResponse := mkStatsResponse {
  str_Registry : RegistryStats;
  str_Federation : option FederationStats
}.

(** Everything a handler passes to [writeJSON]. *)
Inductive api_json :=
| JAgents (total count : Z) (agents : list AgentResponse)
| JAgent (a : AgentResponse)
| JSkills (count : Z) (skills : list SkillSummary)
| JStats (s : StatsResponse)
| JRule (r : Rule)
| JRules (count : Z) (rules : list Rule)
| JNamespace (ns : Namespace)
| JNamespaces (count : Z) (namespaces : list Namespace)
| JBreakers (count : Z) (circuit_breakers : gmap string BreakerStatus)
| JBreaker (name : string) (s : State).

Abbreviation Writer := (ResponseWriter api_json).

Definition writeJSON (w : Writer) (v : api_json) : Writer :=
  Write (Header_Set w "Content-Type" "application/json") (BodyJson v).

Definition regToAgent (reg : Registration) : AgentResponse :=
  {| ar_PeerID := PeerID reg; ar_Name := AgentName reg;
     ar_Description := AgentDescription reg;
     ar_Skills := map (λ s, mkSkillResponse (SkillID s) (Description s) (Tags s)) (Skills reg);
     ar_Origin := Origin reg; ar_ExpiresAt := ExpiresAt reg / Second |}.

(** ** [GET /api/v1/agents] *)

Definition query_limit (limitStr : string) : Z :=
  if negb (String.eqb limitStr "") then
    match Atoi limitStr with
    | Some v => if (v >? 0) && (v <=? 1000) then v else 100
    | None => 100
    end
  else 100.

Definition query_offset (offsetStr : string) : Z :=
  if negb (String.eqb offsetStr "") then
    match Atoi offsetStr with
    | Some v => if v >=? 0 then v else 0
    | None => 0
    end
  else 0.

(** One call of the registry: its state, the clock, and the map orders. *)
Record RegRead := mkRegRead {
  rd_reg : Registry;
  rd_now : Z;
  rd_ord : RangeOrder;
  rd_ordF : RangeOrder
}.

(** The registrations before sorting; [b] is the second call, when there is one. *)
Definition collect_agents (a b : RegRead) (skillFilter : string) : list Registration :=
  if negb (String.eqb skillFilter "")
  then DiscoverBySkill (rd_reg a) (rd_ord a) (rd_ordF a) (rd_now a) skillFilter ∅ MaxDiscoverLimit true
  else AllRegistrations (rd_reg a) (rd_ord a) (rd_now a) ++
       FederatedRegistrations (rd_reg b) (rd_ord b) (rd_now b).

Definition by_peer_id (r1 r2 : Registration) : bool := str_lt (PeerID r1) (PeerID r2).

(** [regs[offset:end]] with the two clamps. *)
Definition paginate (regs : list Registration) (offset limit : Z) : list Registration :=
  if offset >=? len regs then []
  else
    let end_ := offset + limit in
    let end_ := if end_ >? len regs then len regs else end_ in
    take (Z.to_nat (end_ - offset)) (drop (Z.to_nat offset) regs).

Definition handleListAgents `{SortSlice} (a b : RegRead) (w : Writer) (r : Request) : Writer :=
  let skillFilter := rq_query r "skill" in
  let limit := query_limit (rq_query r "limit") in
  let offset := query_offset (rq_query r "offset") in
  let regs := sort_slice by_peer_id (collect_agents a b skillFilter) in
  let total := len regs in
  let agents := map regToAgent (paginate regs offset limit) in
  writeJSON w (JAgents total (len agents) agents).

(** ** [GET /api/v1/agents/{peer_id}] *)

Definition handleGetAgent (a : RegRead) (w : Writer) (r : Request) : Writer :=
  let peerID := rq_path_value r "peer_id" in
  if String.eqb peerID "" then http_Error w "peer_id required" StatusBadRequest
  else
    match GetRegistration (rd_reg a) (rd_now a) peerID with
    | None => http_Error w "agent not found" StatusNotFound
    | Some reg => writeJSON w (JAgent (regToAgent reg))
    end.

(** ** [GET /api/v1/skills] *)

(** [skillCounts[id]++] *)
Definition incr_count (counts : gmap string Z) (id : string) : gmap string Z :=
  <[id := default 0 (counts !! id) + 1]> counts.

Definition count_skills (regs : list Registration) : gmap string Z :=
  foldl (λ counts reg, foldl (λ counts skill, incr_count counts (SkillID skill)) counts (Skills reg))
    ∅ regs.

Definition handleListSkills `{SortSlice} (a b : RegRead) (ord : RangeOrder) (w : Writer) : Writer :=
  let allRegs := AllRegistrations (rd_reg a) (rd_ord a) (rd_now a) ++
                 FederatedRegistrations (rd_reg b) (rd_ord b) (rd_now b) in
  let skillCounts := count_skills allRegs in
  let skills := omap (λ id, mkSkillSummary id <$> skillCounts !! id) (ord (dom skillCounts)) in
  let skills := sort_slice (λ x y, str_lt (sks_ID x) (sks_ID y)) skills in
  writeJSON w (JSkills (len skills) skills).

(** ** [GET /api/v1/stats] *)

(** [fed]: the federation, when enabled, with the order and clock of its
    snapshot. *)
Definition handleStats (r : Registry) (fed : option (Federation * RangeOrder * Z)) (w : Writer)
    : Writer :=
  let resp := Stats r in
  let federation :=
    match fed with
    | Some (f, ord, now) =>
      let fh := HealthStatus f ord now in
      Some (mkFederationStats (Peers fh) (HealthyPeers fh))
    | None => None
    end in
  writeJSON w (JStats (mkStatsResponse resp federation)).

(** ** CORS *)

Fixpoint isAllowedOrigin (corsOrigins : list string) (origin : string) : bool :=
  match corsOrigins with
  | [] => false
  | allowed :: rest =>
    if String.eqb allowed "*" || String.eqb allowed origin then true
    else isAllowedOrigin rest origin
  end.

Definition corsMiddleware (corsOrigins : list string) (next : Writer → Request → Writer)
    (w : Writer) (r : Request) : Writer :=
  let origin := rq_Origin r in
  let w :=
    if negb (String.eqb origin "") && isAllowedOrigin corsOrigins origin then
      let w := Header_Set w "Access-Control-Allow-Origin" origin in
      let w := Header_Set w "Access-Control-Allow-Methods" "GET, POST, PUT, DELETE, OPTIONS" in
      let w := Header_Set w "Access-Control-Allow-Headers" "Content-Type" in
      Header_Set w "Vary" "Origin"
    else w in
  if String.eqb (rq_Method r) "OPTIONS" then WriteHeader w StatusNoContent
  else next w r.

(** ** Lemmas on sorting and pages *)

Lemma sorted_agents `{SortSlice} l :
  sorted_by by_peer_id (sort_slice by_peer_id l) ∧ sort_slice by_peer_id l ≡ₚ l.
Proof. split; [apply sort_slice_sorted, (strict_weak_str PeerID)|apply sort_slice_perm]. Qed.

Lemma query_limit_range s : 1 <= query_limit s <= 1000.
Proof. unfold query_limit. case_match; [|lia]. case_match; [|lia]. case_ifs; bool_to_prop; lia. Qed.

Lemma query_offset_range s : 0 <= query_offset s.
Proof. unfold query_offset. case_match; [|lia]. case_match; [|lia]. case_ifs; bool_to_prop; lia. Qed.

Lemma paginate_take regs offset limit :
  0 <= offset → 0 <= limit →
  paginate regs offset limit = take (Z.to_nat limit) (drop (Z.to_nat offset) regs).
Proof.
  intros Ho Hl. unfold paginate. case_if Hge; bool_to_prop.
  - rewrite drop_ge by (unfold len in *; lia). by rewrite take_nil.
  - cbv zeta. case_if Hend; bool_to_prop; [|do 2 f_equal; lia].
    rewrite !take_ge; [done|rewrite length_drop; unfold len in *; lia..].
Qed.

(** The pages of [n] requests, one after the other. *)
Definition pages (regs : list Registration) (limit : Z) (n : nat) : list Registration :=
  concat (map (λ i, paginate regs (Z.of_nat i * limit) limit) (seq 0 n)).

Lemma pages_take regs limit n :
  0 <= limit → pages regs limit n = take (n * Z.to_nat limit) regs.
Proof.
  intros Hl. unfold pages. induction n as [|n IH]; [done|].
  rewrite seq_S, map_app, concat_app, IH. simpl. rewrite app_nil_r, paginate_take by lia.
  replace (Z.to_nat (Z.of_nat n * limit)) with (n * Z.to_nat limit)%nat by lia.
  rewrite (Nat.add_comm (Z.to_nat limit)). by rewrite <- take_take_drop.
Qed.

(** ** Lemmas on counting skills *)

Definition occurrences (id : string) (ids : list string) : Z := len (filter (λ x, x = id) ids).

Lemma occurrences_app id l k : occurrences id (l ++ k) = occurrences id l + occurrences id k.
Proof. unfold occurrences. by rewrite filter_app, len_app. Qed.

Lemma occurrences_nonneg id l : 0 <= occurrences id l.
Proof. apply len_nonneg. Qed.

Lemma occurrences_pos id l : 0 < occurrences id l ↔ id ∈ l.
Proof.
  unfold occurrences. induction l as [|x l IH].
  - unfold len. simpl. split; [lia|by intros ?%elem_of_nil].
  - rewrite filter_cons, elem_of_cons. pose proof (occurrences_nonneg id l) as Hn.
    unfold occurrences in Hn. case_decide as Hx; rewrite ?len_cons.
    + split; [by left|lia].
    + rewrite IH. naive_solver.
Qed.

#[export] Instance occurrences_perm id : Proper ((≡ₚ) ==> (=)) (occurrences id).
Proof. intros l k Hp. unfold occurrences, len. by rewrite Hp. Qed.

Definition offered_ids (regs : list Registration) : list string :=
  concat (map (λ reg, SkillID <$> Skills reg) regs).

Lemma foldl_incr_count ids counts id :
  default 0 (foldl incr_count counts ids !! id) = default 0 (counts !! id) + occurrences id ids ∧
  (is_Some (foldl incr_count counts ids !! id) ↔ is_Some (counts !! id) ∨ id ∈ ids).
Proof.
  revert counts. induction ids as [|x ids IH]; intros counts; cbn [foldl].
  { change (occurrences id []) with 0. split; [lia|]. split; [by left|]. by intros [?|?%elem_of_nil]. }
  destruct (IH (incr_count counts x)) as [-> ->].
  replace (occurrences id (x :: ids)) with (occurrences id [x] + occurrences id ids)
    by (by rewrite <- occurrences_app).
  unfold incr_count. rewrite elem_of_cons.
  assert (occurrences id [x] = if decide (x = id) then 1 else 0) as ->.
  { unfold occurrences. rewrite filter_cons. by case_decide. }
  destruct (decide (x = id)) as [->|Hne].
  - rewrite lookup_insert_eq. simpl. split; [lia|].
    split; [intros _; by right; left|intros _; left; by eexists].
  - rewrite lookup_insert_ne by done. split; [lia|]. naive_solver.
Qed.

Lemma count_skills_fold regs : count_skills regs = foldl incr_count ∅ (offered_ids regs).
Proof.
  unfold count_skills, offered_ids. generalize (∅ : gmap string Z) as counts.
  induction regs as [|reg regs IH]; intros counts; [done|]. cbn [foldl map concat].
  rewrite foldl_app, <- IH. f_equal. clear. revert counts.
  induction (Skills reg) as [|s sk IHs]; intros counts; [done|]. cbn [foldl fmap list_fmap]. by rewrite IHs.
Qed.

Lemma count_skills_lookup regs id n :
  count_skills regs !! id = Some n ↔ id ∈ offered_ids regs ∧ n = occurrences id (offered_ids regs).
Proof.
  rewrite count_skills_fold. destruct (foldl_incr_count (offered_ids regs) ∅ id) as [Hd Hs].
  rewrite lookup_empty in Hd, Hs. simpl in Hd. split.
  - intros Hn. rewrite Hn in Hd. simpl in Hd. split; [|lia].
    destruct (proj1 Hs (mk_is_Some _ _ Hn)) as [[? ?]|]; done.
  - intros [Hin ->]. destruct (proj2 Hs (or_intror Hin)) as [m Hm]. rewrite Hm in Hd |- *.
    simpl in Hd. by rewrite Hd.
Qed.

(** ** Lemmas on origins *)

Lemma isAllowedOrigin_spec corsOrigins origin :
  isAllowedOrigin corsOrigins origin = true ↔ "*" ∈ corsOrigins ∨ origin ∈ corsOrigins.
Proof.
  induction corsOrigins as [|a l IH]; simpl.
  - split; [done|]. by intros [?%elem_of_nil|?%elem_of_nil].
  - rewrite !elem_of_cons. destruct (String.eqb_spec a "*"), (String.eqb_spec a origin); simpl;
      rewrite ?IH; intuition congruence.
Qed.

(** What a handler sends that only writes JSON. *)
Lemma writeJSON_response (w : Writer) v :
  rw_sent w = None → rw_body w = [] →
  response (writeJSON w v) =
    (StatusOK, <["Content-Type" := "application/json"]> (rw_header w), [BodyJson v]).
Proof.
  intros Hs Hb. unfold writeJSON, Write, WriteHeader, Header_Set, response. simpl. rewrite Hs. simpl. by rewrite Hb.
Qed.

(** ** The list of skills *)

Section skill_list.
Context `{SortSlice}.

(** The list [handleListSkills] sends. *)
Definition skill_list (a b : RegRead) (ord : RangeOrder) : list SkillSummary :=
  let counts := count_skills (AllRegistrations (rd_reg a) (rd_ord a) (rd_now a) ++
                              FederatedRegistrations (rd_reg b) (rd_ord b) (rd_now b)) in
  sort_slice (λ x y, str_lt (sks_ID x) (sks_ID y))
    (omap (λ id, mkSkillSummary id <$> counts !! id) (ord (dom counts))).

Lemma handleListSkills_response a b ord :
  response (handleListSkills a b ord new_writer) =
    (StatusOK, {["Content-Type" := "application/json"]},
     [BodyJson (JSkills (len (skill_list a b ord)) (skill_list a b ord))]).
Proof. unfold handleListSkills. by rewrite writeJSON_response. Qed.

(** What is offered, whatever the order in which the maps are read. *)
Lemma offered_ids_perm (regs regs' : list Registration) :
  regs ≡ₚ regs' → offered_ids regs ≡ₚ offered_ids regs'.
Proof.
  unfold offered_ids. induction 1 as [|r l k _ IH|r s l|l1 l2 l3 _ IH1 _ IH2]; simpl;
    [done|by rewrite IH| |by rewrite IH1, IH2].
  rewrite !(app_assoc (SkillID <$> _)). f_equiv. apply Permutation_app_comm.
Qed.

Definition live_of (m : gmap string Registration) (now : Z) : list Registration :=
  filter (λ reg, Before now (ExpiresAt reg)) (map_to_list m).*2.

Lemma live_of_perm (ord : RangeOrder) m now :
  filter (λ reg, Before now (ExpiresAt reg)) (range_values ord m) ≡ₚ live_of m now.
Proof. unfold live_of. by rewrite range_values_perm. Qed.
End skill_list.

Lemma elem_of_skill_list `{SortSlice} a b ord id n :
  mkSkillSummary id n ∈ skill_list a b ord ↔
    let offered := offered_ids (live_of (entries (rd_reg a)) (rd_now a) ++
                                live_of (federated (rd_reg b)) (rd_now b)) in
    id ∈ offered ∧ n = occurrences id offered.
Proof.
  cbv zeta. unfold skill_list. cbv zeta. rewrite (sort_slice_perm (λ x y, str_lt (sks_ID x) (sks_ID y))).
  set (regs := AllRegistrations _ _ _ ++ _).
  assert (offered_ids regs ≡ₚ offered_ids (live_of (entries (rd_reg a)) (rd_now a) ++
    live_of (federated (rd_reg b)) (rd_now b))) as Hp.
  { apply offered_ids_perm. unfold regs, AllRegistrations, FederatedRegistrations.
    by rewrite !live_of_perm. }
  rewrite <- Hp, <- count_skills_lookup. rewrite list_elem_of_omap. split.
  - intros (k & _ & Hk). apply fmap_Some_1 in Hk as (m & Hm & Heq). by injection Heq as -> ->.
  - intros Hn. exists id. rewrite elem_of_range, elem_of_dom, Hn. by split; [eexists|].
Qed.

Lemma skill_list_ids `{SortSlice} a b ord :
  sorted_by (λ x y, str_lt (sks_ID x) (sks_ID y)) (skill_list a b ord) ∧
  NoDup (sks_ID <$> skill_list a b ord).
Proof.
  unfold skill_list. cbv zeta. split; [apply sort_slice_sorted, (strict_weak_str sks_ID)|].
  rewrite (sort_slice_perm (λ x y, str_lt (sks_ID x) (sks_ID y))).
  apply (NoDup_fmap_omap_inv _ sks_ID); [|apply NoDup_range].
  intros id y (n & _ & ->)%fmap_Some_1. done.
Qed.

Lemma skill_list_unique (S1 S2 : SortSlice) a b ord a' b' ord' :
  rd_reg a' = rd_reg a → rd_now a' = rd_now a → rd_reg b' = rd_reg b → rd_now b' = rd_now b →
  @skill_list S2 a' b' ord' = @skill_list S1 a b ord.
Proof.
  intros H1 H2 H3 H4. destruct (@skill_list_ids S1 a b ord) as [Hs Hn].
  destruct (@skill_list_ids S2 a' b' ord') as [Hs' Hn'].
  apply (sorted_by_str_unique sks_ID); [done|done| |done].
  apply NoDup_Permutation; [by eapply NoDup_fmap_1|by eapply NoDup_fmap_1|].
  intros [id n]. rewrite !elem_of_skill_list. by rewrite H1, H2, H3, H4.
Qed.
