(* ===== verification/ApiControl.v ===== *)
(** * The REST API of the control plane
    ([src/internal/api/handlers_policy.go], [handlers_namespace.go] and
    [handlers_resilience.go])

    Handlers that change a component return it with the writer.  Decoding a JSON
    body is a parameter with an error text as its failure, and so is the quoting
    of an ID in an error text ([%q]); neither influences more than the text of a
    response or the rule that arrives. *)
From stdpp Require Import gmap strings list sorting.
From Stdlib Require Import ZArith Lia.
From S2P Require Import Prelude GoStd Registry Breaker BreakerRegistry Policy Namespace Federation Http Api.

Local Open Scope Z_scope.

Section control.
Context (quote : string → string).
Context (decode_rule : string → Rule + string).

(** [createNamespaceRequest]: name and description. *)
Record createNamespaceRequest := mkCreateNamespaceRequest { cn_Name : string; cn_Description : string }.
Context (decode_ns : string → createNamespaceRequest + string).

(** ** Policies *)

Definition policy_error_text (err : policy_error) : string :=
  match err with
  | RuleAlreadyExists id => "rule with id " +:+ quote id +:+ " already exists"
  | RuleNotFound id => "rule with id " +:+ quote id +:+ " not found"
  end.

Definition set_rule_ID (rule : Rule) (id : string) : Rule :=
  mkRule id (Priority rule) (Subject rule) (Action rule) (Resource rule) (Effect rule)
    (RateLimit rule) (rule_Namespace rule).

Definition handleCreatePolicy (e : Engine) (w : Writer) (r : Request) : Engine * Writer :=
  match decode_rule (rq_body r) with
  | inr err => (e, http_Error w ("invalid JSON: " +:+ err) StatusBadRequest)
  | inl rule =>
    if String.eqb (rule_ID rule) "" then (e, http_Error w "rule id is required" StatusBadRequest)
    else if String.eqb (Effect rule) ""
    then (e, http_Error w "rule effect is required" StatusBadRequest)
    else
      let '(e, err) := AddRule e rule in
      match err with
      | Some err => (e, http_Error w (policy_error_text err) StatusConflict)
      | None => (e, writeJSON (WriteHeader w StatusCreated) (JRule rule))
      end
  end.

Definition handleListPolicies (e : Engine) (w : Writer) : Writer :=
  writeJSON w (JRules (len (ListRules e)) (ListRules e)).

Definition handleUpdatePolicy (e : Engine) (w : Writer) (r : Request) : Engine * Writer :=
  let id := rq_path_value r "id" in
  if String.eqb id "" then (e, http_Error w "policy id is required" StatusBadRequest)
  else
    match decode_rule (rq_body r) with
    | inr err => (e, http_Error w ("invalid JSON: " +:+ err) StatusBadRequest)
    | inl rule =>
      let rule := set_rule_ID rule id in
      let '(e, err) := UpdateRule e rule in
      match err with
      | Some err => (e, http_Error w (policy_error_text err) StatusNotFound)
      | None => (e, writeJSON w (JRule rule))
      end
    end.

Definition handleDeletePolicy (e : Engine) (w : Writer) (r : Request) : Engine * Writer :=
  let id := rq_path_value r "id" in
  if String.eqb id "" then (e, http_Error w "policy id is required" StatusBadRequest)
  else
    let '(e, err) := RemoveRule e id in
    match err with
    | Some err => (e, http_Error w (policy_error_text err) StatusNotFound)
    | None => (e, WriteHeader w StatusNoContent)
    end.

(** ** Namespaces *)

Definition ns_error_text (err : ns_error) : string :=
  match err with
  | NsEmptyName => "namespace name cannot be empty"
  | NsAlreadyExists name => "namespace " +:+ quote name +:+ " already exists"
  | NsCannotDelete name => "cannot delete the " +:+ quote name +:+ " namespace"
  | NsNotFound name => "namespace " +:+ quote name +:+ " not found"
  end.

Definition handleCreateNamespace (m : Manager) (now : Z) (w : Writer) (r : Request)
    : Manager * Writer :=
  match decode_ns (rq_body r) with
  | inr err => (m, http_Error w ("invalid JSON: " +:+ err) StatusBadRequest)
  | inl req =>
    if String.eqb (cn_Name req) ""
    then (m, http_Error w "namespace name is required" StatusBadRequest)
    else
      let '(m, res) := Create m (cn_Name req) (cn_Description req) now in
      match res with
      | inr err => (m, http_Error w (ns_error_text err) StatusConflict)
      | inl ns => (m, writeJSON (WriteHeader w StatusCreated) (JNamespace ns))
      end
  end.

Definition handleListNamespaces `{SortSlice} (m : Manager) (ord : RangeOrder) (w : Writer) : Writer :=
  let namespaces := Manager_List m ord in
  writeJSON w (JNamespaces (len namespaces) namespaces).

Definition handleDeleteNamespace (m : Manager) (w : Writer) (r : Request) : Manager * Writer :=
  let name := rq_path_value r "name" in
  if String.eqb name "" then (m, http_Error w "namespace name is required" StatusBadRequest)
  else
    let '(m, err) := Delete m name in
    match err with
    | Some err =>
      if String.eqb name "default"
      then (m, http_Error w (ns_error_text err) StatusForbidden)
      else (m, http_Error w (ns_error_text err) StatusNotFound)
    | None => (m, WriteHeader w StatusNoContent)
    end.

(** ** Circuit breakers *)

Definition handleListBreakers (br : BreakerRegistry) (ord : RangeOrder) (now : string → Z)
    (w : Writer) : BreakerRegistry * Writer :=
  let '(br, statuses) := BreakerRegistry_List br ord now in
  (br, writeJSON w (JBreakers (map_len statuses) statuses)).

(** [Get] makes the breaker when there is none of that name. *)
Definition handleResetBreaker (br : BreakerRegistry) (now : Z) (w : Writer) (r : Request)
    : BreakerRegistry * Writer :=
  let name := rq_path_value r "name" in
  if String.eqb name ""
  then (br, http_Error w "circuit breaker name is required" StatusBadRequest)
  else
    let '(br, cb) := BreakerRegistry_Get br name in
    let br := call br cb CbReset in
    let state := match heap br !! cb with
                 | Some b => (GetState b now).2
                 | None => StateClosed
                 end in
    let br := call br cb (CbGetState now) in
    (br, writeJSON w (JBreaker name state)).
End control.
