(* ===== verification/ApiProps.v ===== *)
(** * What the REST API guarantees *)
From stdpp Require Import gmap strings list sorting.
From Stdlib Require Import ZArith Lia.
From S2P Require Import Prelude GoStd Registry RegistryInv RegistryDiscover Breaker BreakerRegistry Policy Namespace Federation Http Api ApiControl.

Local Open Scope Z_scope.

(** ** The agent directory *)

(** The registrations that a filter by skill finds in a plain scan of one map. *)
Lemma scan_skill m now skill reg :
  reg ∈ scan m now skill ∅ ↔
  (∃ p, m !! p = Some reg) ∧ now <= ExpiresAt reg ∧ ∃ s, s ∈ Skills reg ∧ SkillID s = skill.
Proof.
  rewrite elem_of_scan. unfold offers, After. split.
  - intros (p & Hp & [Ht (sk & Hs & Hid & _)%hasSkill_spec]%andb_true_iff).
    apply negb_true_iff, Z.ltb_ge in Ht. split_and!; eauto.
  - intros ((p & Hp) & Ht & sk & Hs & Hid). exists p. split; [done|]. apply andb_true_iff.
    split; [by apply negb_true_iff, Z.ltb_ge|]. apply hasSkill_spec. exists sk. split_and!; [done..|].
    apply matchTags_spec. intros k v. by rewrite lookup_empty.
Qed.

(** What is collected: with a filter a cut arrangement of the scan of both maps,
    without one everything live. *)
Lemma collect_agents_spec cfg a b skill (Hr : reachable cfg (rd_reg a)) :
  (skill = "" → collect_agents a b skill ≡ₚ
     filter (λ reg, Before (rd_now a) (ExpiresAt reg)) (map_to_list (entries (rd_reg a))).*2 ++
     filter (λ reg, Before (rd_now b) (ExpiresAt reg)) (map_to_list (federated (rd_reg b))).*2) ∧
  (skill ≠ "" → ∃ locals feds,
     locals ≡ₚ scan (entries (rd_reg a)) (rd_now a) skill ∅ ∧
     locals ++ feds ≡ₚ scan_all (rd_reg a) (rd_now a) skill ∅ true ∧
     collect_agents a b skill = take 1000 (locals ++ feds)).
Proof.
  unfold collect_agents. split.
  - intros ->. cbn. unfold AllRegistrations, FederatedRegistrations. by rewrite !range_values_perm.
  - intros Hne. apply String.eqb_neq in Hne. rewrite Hne. cbn [negb].
    destruct (DiscoverBySkill_scan (rd_reg a) (rd_ord a) (rd_ordF a) (rd_now a) skill ∅ MaxDiscoverLimit true)
      as (locals & feds & Hl & Hf & ->); [by eapply reachable_wf|].
    exists locals, feds. split_and!; [done|by apply (scan_all_perm _ _ _ _ true)|done].
Qed.

(** C35: [GET /api/v1/agents] answers 200 with JSON: the number of matching
    registrations and one page of them, sorted by peer ID.  Without a skill filter
    the matches are all live local and all live federated registrations, the
    latter as the second call of the registry sees them.  With one they are what a
    plain scan finds: the local registrations that have not expired and list a
    skill of that ID, and the federated ones that do and whose agent is not among
    the former - all of them up to 1000, and beyond that 1000 of them, the local
    ones first, so that the number reported is at most 1000.  The page starts at
    the offset and holds at most the limit, which is between 1 and 1000 whatever
    the query says; and reading page after page of one snapshot gives every
    match once, in order. *)
Theorem list_agents_pages `{SortSlice} cfg (a b : RegRead) (r : Request) (Hr : reachable cfg (rd_reg a)) :
  let skill := rq_query r "skill" in
  let offset := query_offset (rq_query r "offset") in
  let limit := query_limit (rq_query r "limit") in
  let now := rd_now a in
  ∃ regs,
    (skill = "" → regs ≡ₚ
       filter (λ reg, now < ExpiresAt reg) (map_to_list (entries (rd_reg a))).*2 ++
       filter (λ reg, rd_now b < ExpiresAt reg) (map_to_list (federated (rd_reg b))).*2) ∧
    (skill ≠ "" → ∃ locals feds,
       locals ≡ₚ scan (entries (rd_reg a)) now skill ∅ ∧
       locals ++ feds ≡ₚ scan_all (rd_reg a) now skill ∅ true ∧
       regs ≡ₚ take 1000 (locals ++ feds) ∧
       ∀ m reg, reg ∈ scan m now skill ∅ ↔
         (∃ p, m !! p = Some reg) ∧ now <= ExpiresAt reg ∧ ∃ s, s ∈ Skills reg ∧ SkillID s = skill) ∧
    (let page := take (Z.to_nat limit) (drop (Z.to_nat offset) regs) in
     response (handleListAgents a b new_writer r) =
       (StatusOK, {["Content-Type" := "application/json"]},
        [BodyJson (JAgents (len regs) (len page) (map regToAgent page))])) ∧
    1 <= limit <= 1000 ∧ 0 <= offset ∧
    StronglySorted (λ x y, str_le (PeerID x) (PeerID y) = true) regs ∧
    (∀ l n, 0 < l → len regs <= Z.of_nat n * l → pages regs l n = regs).
Proof.
  cbv zeta. pose proof (query_limit_range (rq_query r "limit")).
  pose proof (query_offset_range (rq_query r "offset")).
  exists (sort_slice by_peer_id (collect_agents a b (rq_query r "skill"))).
  destruct (sorted_agents (collect_agents a b (rq_query r "skill"))) as [Hs Hp].
  destruct (collect_agents_spec cfg a b (rq_query r "skill") Hr) as [Hall Hskill].
  split_and!; [| | |lia|lia|lia| |].
  - intros Hne. rewrite Hp, Hall by done. f_equiv; erewrite list_filter_iff; try reflexivity;
      intros reg; unfold Before; by rewrite Is_true_true, Z.ltb_lt.
  - intros Hne. destruct (Hskill Hne) as (locals & feds & Hl & Hf & Hc). exists locals, feds.
    split_and!; [done|done|by rewrite Hp, Hc|]. intros m reg. apply scan_skill.
  - unfold handleListAgents. rewrite writeJSON_response by done. f_equal. f_equal. f_equal.
    rewrite paginate_take by lia. f_equal. unfold len. by rewrite length_map.
  - eapply StronglySorted_impl; [exact Hs|].
    intros x y. unfold by_peer_id. by rewrite str_lt_le, negb_false_iff.
  - intros l n Hl Hn. rewrite pages_take by lia. apply take_ge. unfold len in Hn. nia.
Qed.

(** What the list holds.  With a skill filter, no agent appears twice and at
    most 1000 are counted; without a filter the list is every live local and every
    live federated registration, so an agent known both ways appears twice. *)
Theorem list_agents_content cfg (a : RegRead) (skill : string)
    (Hr : reachable cfg (rd_reg a)) :
  let regs := collect_agents a a skill in
  let live := λ m p reg, m !! p = Some reg ∧ rd_now a < ExpiresAt reg in
  (skill ≠ "" → NoDup (PeerID <$> regs) ∧ len regs <= 1000 ∧
     ∀ reg, reg ∈ regs → hasSkill reg skill ∅ = true ∧ rd_now a <= ExpiresAt reg) ∧
  (skill = "" →
     (∀ reg, reg ∈ regs ↔ ∃ p, live (entries (rd_reg a)) p reg ∨ live (federated (rd_reg a)) p reg) ∧
     (∀ p l f, live (entries (rd_reg a)) p l → live (federated (rd_reg a)) p f →
        ∃ i j, i ≠ j ∧ PeerID <$> regs !! i = Some p ∧ PeerID <$> regs !! j = Some p)).
Proof.
  pose proof (reachable_wf _ _ Hr) as Hwf. cbv zeta. unfold collect_agents.
  assert (∀ m (ord : RangeOrder) reg,
    reg ∈ filter (λ reg, Before (rd_now a) (ExpiresAt reg)) (range_values ord m) ↔
    ∃ p, m !! p = Some reg ∧ rd_now a < ExpiresAt reg) as Hlive.
  { intros m ord reg. rewrite list_elem_of_filter, elem_of_range_values, Is_true_true.
    unfold Before. rewrite Z.ltb_lt. naive_solver. }
  split.
  - intros Hne. apply String.eqb_neq in Hne. rewrite Hne. simpl.
    destruct (DiscoverBySkill_facts (rd_reg a) (rd_ord a) (rd_ordF a) (rd_now a) skill ∅
      MaxDiscoverLimit true Hwf) as (Hlen & Hnd & Hall). split_and!; [done|exact Hlen|].
    intros reg Hreg. by destruct (Hall reg Hreg) as (? & ? & _).
  - intros ->. simpl. unfold AllRegistrations, FederatedRegistrations. split.
    + intros reg. rewrite elem_of_app, !Hlive. naive_solver.
    + intros p l f [Hl Hll] [Hf Hff].
      set (ls := filter _ (range_values (rd_ord a) (entries (rd_reg a)))).
      set (fs := filter _ (range_values (rd_ord a) (federated (rd_reg a)))).
      assert (∃ i, ls !! i = Some l) as [i Hi] by (apply list_elem_of_lookup, Hlive; eauto).
      assert (∃ j, fs !! j = Some f) as [j Hj] by (apply list_elem_of_lookup, Hlive; eauto).
      pose proof (lookup_lt_Some _ _ _ Hi) as Hlt.
      exists i, (length ls + j)%nat. split_and!; [lia|..].
      * rewrite lookup_app_l, Hi by done. simpl. by rewrite (wf_keys _ _ _ Hwf Hl).
      * rewrite lookup_app_r by lia. rewrite Nat.add_comm, Nat.add_sub, Hj. simpl.
        by rewrite (wf_fed_keys _ _ _ Hwf Hf).
Qed.

Definition ex_cfg : Registry.Config := Registry.mkConfig (30 * Second) 4 4 0.

(** An agent registered here and, through another relay, once more. *)
Definition ex_dir : Registry :=
  (RegisterFederated
     (Register (Registry_New ex_cfg) 100 "p" [mkSkillInfo "sum" "" ∅; mkSkillInfo "echo" "" ∅] "P" "").1
     "p" "relay-b" [mkSkillInfo "sum" "" ∅] "P" "" 90 (40 * Second) 90).1.

Lemma ex_dir_reachable : reachable ex_cfg ex_dir.
Proof.
  eapply (reach_step _ _ (OpRegisterFederated "p" "relay-b" [mkSkillInfo "sum" "" ∅] "P" ""
    90 (40 * Second) 90)); [|reflexivity].
  by eapply (reach_step _ _ (OpRegister 100 "p" [mkSkillInfo "sum" "" ∅; mkSkillInfo "echo" "" ∅] "P" ""));
    [constructor|].
Qed.

Definition ex_read : RegRead := mkRegRead ex_dir 200 canonical_order canonical_order.

(** A client asks for the agents with the skill "sum". *)
Definition ex_agents_request : Request :=
  mkRequest "GET" "" (λ n, if String.eqb n "skill" then "sum" else "") (λ _, "") "".

Lemma list_agents_pages_witness :
  ∃ regs,
    response (handleListAgents ex_read ex_read new_writer ex_agents_request) =
      (StatusOK, {["Content-Type" := "application/json"]},
       [BodyJson (JAgents (len regs) (len (take 100 regs)) (map regToAgent (take 100 regs)))]) ∧
    regs ≡ₚ scan_all ex_dir 200 "sum" ∅ true ∧ len regs = 1.
Proof.
  destruct (list_agents_pages ex_cfg ex_read ex_read ex_agents_request ex_dir_reachable)
    as (regs & _ & Hskill & Hresp & _).
  destruct (Hskill ltac:(discriminate)) as (locals & feds & _ & Hscan & Hregs & _).
  assert (length (locals ++ feds) = 1%nat) as Hlen by (rewrite Hscan; reflexivity).
  rewrite take_ge in Hregs by (rewrite Hlen; lia).
  exists regs. split; [exact Hresp|]. split; [by rewrite Hregs|].
  unfold len. by rewrite Hregs, Hlen.
Defined.

Lemma list_agents_content_witness :
  len (collect_agents ex_read ex_read "sum") <= 1000 ∧
  ∃ i j, i ≠ j ∧ PeerID <$> collect_agents ex_read ex_read "" !! i = Some "p" ∧
                 PeerID <$> collect_agents ex_read ex_read "" !! j = Some "p".
Proof.
  split.
  - destruct (list_agents_content ex_cfg ex_read "sum" ex_dir_reachable) as [H _].
    by apply H.
  - destruct (list_agents_content ex_cfg ex_read "" ex_dir_reachable) as [_ H].
    destruct (H eq_refl) as [_ Hd]. eapply (Hd "p"); (split; [vm_compute; reflexivity|vm_compute; reflexivity]).
Defined.

(** C36: [GET /api/v1/skills] lists every skill that a live registration offers,
    once, in strictly increasing order, with the number of times it is offered;
    the answer does not depend on map orders or on the sorting algorithm.  An
    agent known both locally and through federation is counted twice. *)
Theorem list_skills_counts `{SortSlice} (a b : RegRead) (ord : RangeOrder) :
  let offered := offered_ids
    (filter (λ reg, Before (rd_now a) (ExpiresAt reg)) (map_to_list (entries (rd_reg a))).*2 ++
     filter (λ reg, Before (rd_now b) (ExpiresAt reg)) (map_to_list (federated (rd_reg b))).*2) in
  ∃ skills,
    response (handleListSkills a b ord new_writer) =
      (StatusOK, {["Content-Type" := "application/json"]}, [BodyJson (JSkills (len skills) skills)]) ∧
    StronglySorted (λ x y, str_lt (sks_ID x) (sks_ID y) = true) skills ∧
    (∀ id n, mkSkillSummary id n ∈ skills ↔ id ∈ offered ∧ n = occurrences id offered) ∧
    (∀ (S2 : SortSlice) a' b' ord', rd_reg a' = rd_reg a → rd_now a' = rd_now a →
       rd_reg b' = rd_reg b → rd_now b' = rd_now b →
       response (@handleListSkills S2 a' b' ord' new_writer) = response (handleListSkills a b ord new_writer)).
Proof.
  cbv zeta. exists (skill_list a b ord). rewrite handleListSkills_response.
  destruct (skill_list_ids a b ord) as [Hs Hnd]. split_and!; [done|by apply sorted_by_strict| |].
  - intros id n. apply elem_of_skill_list.
  - intros S2 a' b' ord' H1 H2 H3 H4. rewrite !handleListSkills_response.
    by rewrite (skill_list_unique _ S2 a b ord a' b' ord').
Qed.

(** ** CORS *)

(** The CORS headers are sent exactly when the request has an origin that is
    configured or the configuration has a star; they then name the request's
    origin.  An OPTIONS request is answered 204 without reaching the handler; any
    other request gets from a JSON handler the same status and body as without
    the middleware. *)
Theorem cors_headers (corsOrigins : list string) (next : Writer → Request → Writer) (r : Request)
    (v : api_json) (Hnext : ∀ w, next w r = writeJSON w v) :
  let w := corsMiddleware corsOrigins next new_writer r in
  let allowed := rq_Origin r ≠ "" ∧ ("*" ∈ corsOrigins ∨ rq_Origin r ∈ corsOrigins) in
  (allowed → response_header w !! "Access-Control-Allow-Origin" = Some (rq_Origin r) ∧
             response_header w !! "Vary" = Some "Origin") ∧
  (¬ allowed → response_header w !! "Access-Control-Allow-Origin" = None) ∧
  (rq_Method r = "OPTIONS" → response_status w = StatusNoContent ∧ response_body w = []) ∧
  (rq_Method r ≠ "OPTIONS" → response_status w = StatusOK ∧ response_body w = [BodyJson v] ∧
     response_header w !! "Content-Type" = Some "application/json").
Proof.
  cbv zeta. unfold corsMiddleware.
  assert ((rq_Origin r ≠ "" ∧ ("*" ∈ corsOrigins ∨ rq_Origin r ∈ corsOrigins)) ↔
    negb (String.eqb (rq_Origin r) "") && isAllowedOrigin corsOrigins (rq_Origin r) = true) as Hiff.
  { rewrite andb_true_iff, negb_true_iff, String.eqb_neq, isAllowedOrigin_spec. done. }
  rewrite Hiff. destruct (_ && _); destruct (String.eqb_spec (rq_Method r) "OPTIONS") as [Ho|Ho];
    rewrite ?Hnext; (split_and!; intros ?; try done); cbn; by simplify_map_eq.
Qed.

Definition ex_get (m o : string) : Request :=
  mkRequest m o (λ _, "") (λ n, if String.eqb n "name" then "db" else "rule-1") "".

Lemma cors_headers_witness :
  response_header (corsMiddleware ["https://app"] (λ w _, writeJSON w (JSkills 0 [])) new_writer
    (ex_get "GET" "https://app")) !! "Access-Control-Allow-Origin" = Some "https://app".
Proof.
  apply (cors_headers ["https://app"] (λ w _, writeJSON w (JSkills 0 [])) (ex_get "GET" "https://app")
    (JSkills 0 []) (λ w, eq_refl)).
  split; [discriminate|]. right. left.
Defined.

(** ** Circuit breakers *)

(** Resetting a breaker over HTTP answers 200 with state "closed" for every
    non-empty name, also for one that nobody has used: a fresh breaker is
    registered under it.  Afterwards the named breaker is closed, with no counts,
    and admits requests; no other name changes. *)
Theorem reset_endpoint (br : BreakerRegistry) (now : Z) (r : Request) (Hwf : br_wf br)
    (Hname : rq_path_value r "name" ≠ "") :
  let name := rq_path_value r "name" in
  let '(br', w) := handleResetBreaker br now new_writer r in
  response_status w = StatusOK ∧ response_body w = [BodyJson (JBreaker name StateClosed)] ∧
  (∃ l cb, breakers br' !! name = Some l ∧ heap br' !! l = Some cb ∧
     state cb = StateClosed ∧ failureCount cb = 0 ∧ successCount cb = 0 ∧ (Allow cb now).2 = true) ∧
  (∀ nm, nm ≠ name → breakers br' !! nm = breakers br !! nm ∧
     ∀ l, breakers br !! nm = Some l → heap br' !! l = heap br !! l).
Proof.
  cbv zeta. unfold handleResetBreaker. apply String.eqb_neq in Hname. rewrite Hname.
  destruct (BreakerRegistry_Get_spec br (rq_path_value r "name") Hwf)
    as (br1 & l & cb & -> & Hl & Hcb & Hothers).
  rewrite (call_found _ _ _ _ Hcb). set (br2 := mkBreakerRegistry _ _ _).
  assert (heap br2 !! l = Some (Reset cb)) as H2 by (unfold br2; cbn [heap]; by rewrite lookup_insert_eq).
  rewrite H2, (call_found _ _ _ _ H2). unfold br2. cbn [heap breakers]. split_and!; [done|done| |].
  - exists l, (GetState (Reset cb) now).1. rewrite lookup_insert_eq. by split_and!.
  - intros nm Hnm. destruct (Hothers nm Hnm) as [Hb Hh]. split; [done|].
    intros l' Hl'. destruct (Hh _ Hl') as [Hne Hheap]. by rewrite !lookup_insert_ne.
Qed.

Lemma reset_endpoint_witness :
  response_status (handleResetBreaker (NewBreakerRegistry (mkBreakerConfig 5 3 30)) 0 new_writer
    (ex_get "POST" "")).2 = StatusOK.
Proof.
  pose proof (reset_endpoint (NewBreakerRegistry (mkBreakerConfig 5 3 30)) 0 (ex_get "POST" "")
    (br_wf_New _) ltac:(discriminate)) as H.
  destruct (handleResetBreaker _ _ _ _) as [br' w]. by destruct H as [H _].
Defined.
