(* ===== verification/ControlProps.v ===== *)
(** * What the control-plane API guarantees

    The policy and namespace endpoints over sequences of requests, against a
    specification on plain maps. *)
From stdpp Require Import gmap strings list sorting.
From Stdlib Require Import ZArith Lia Ascii.
From S2P Require Import Prelude GoStd Registry Breaker BreakerRegistry Policy Namespace Federation Http Api ApiControl.

Local Open Scope Z_scope.

Section control_props.
Context `{SortSlice} (quote : string → string) (decode_rule : string → Rule + string).
Context (decode_ns : string → createNamespaceRequest + string).

(** ** The requests to both resources, and what a client sees *)

Inductive control_req :=
| GetPolicies
| PostPolicy (r : Request)
| PutPolicy (r : Request)
| DeletePolicy (r : Request)
| GetNamespaces (ord : RangeOrder)
| PostNamespace (now : Z) (r : Request)
| DeleteNamespace (r : Request).

(** Status, headers, and everything written to the body. *)
Definition seen : Type := Z * gmap string string * list (body api_json).

Definition serve (st : Engine * Manager) (q : control_req) : (Engine * Manager) * seen :=
  let '(e, m) := st in
  match q with
  | GetPolicies => (st, response (handleListPolicies e new_writer))
  | PostPolicy r =>
    let '(e, w) := handleCreatePolicy quote decode_rule e new_writer r in ((e, m), response w)
  | PutPolicy r =>
    let '(e, w) := handleUpdatePolicy quote decode_rule e new_writer r in ((e, m), response w)
  | DeletePolicy r =>
    let '(e, w) := handleDeletePolicy quote e new_writer r in ((e, m), response w)
  | GetNamespaces ord => (st, response (handleListNamespaces m ord new_writer))
  | PostNamespace now r =>
    let '(m, w) := handleCreateNamespace quote decode_ns m now new_writer r in ((e, m), response w)
  | DeleteNamespace r =>
    let '(m, w) := handleDeleteNamespace quote m new_writer r in ((e, m), response w)
  end.

(** ** The specification: two maps, and the order in which the rules were made *)

Record spec_state := mkSpec {
  sp_rules : gmap string Rule;
  sp_made : list string;
  sp_namespaces : gmap string Namespace
}.

Definition json_header : gmap string string := {["Content-Type" := "application/json"]}.
Definition error_header : gmap string string :=
  {["Content-Type" := "text/plain; charset=utf-8"; "X-Content-Type-Options" := "nosniff"]}.

(** The text of an error ends with a newline. *)
Definition failed (code : Z) (text : string) : seen := (code, error_header, [BodyText (text +:+ String "010" "")]).
Definition json_ok (j : api_json) : seen := (StatusOK, json_header, [BodyJson j]).

(** A created value is sent without the content type of JSON. *)
Definition created (j : api_json) : seen := (StatusCreated, ∅, [BodyJson j]).
Definition no_content : seen := (StatusNoContent, ∅, []).

Definition by_made (rs : gmap string Rule) (ids : list string) : list Rule := omap (λ id, rs !! id) ids.
Definition by_name (ns : gmap string Namespace) : list Namespace :=
  insertion_sort (λ a b, str_lt (ns_Name a) (ns_Name b)) (map_to_list ns).*2.

Definition spec_serve (a : spec_state) (q : control_req) : spec_state * seen :=
  let '(mkSpec rs ids ns) := a in
  match q with
  | GetPolicies => (a, json_ok (JRules (map_len rs) (by_made rs ids)))
  | PostPolicy r =>
    match decode_rule (rq_body r) with
    | inr err => (a, failed StatusBadRequest ("invalid JSON: " +:+ err))
    | inl rule =>
      if decide (rule_ID rule = "") then (a, failed StatusBadRequest "rule id is required")
      else if decide (Effect rule = "") then (a, failed StatusBadRequest "rule effect is required")
      else match rs !! rule_ID rule with
           | Some _ => (a, failed StatusConflict ("rule with id " +:+ quote (rule_ID rule) +:+ " already exists"))
           | None => (mkSpec (<[rule_ID rule := rule]> rs) (ids ++ [rule_ID rule]) ns, created (JRule rule))
           end
    end
  | PutPolicy r =>
    let id := rq_path_value r "id" in
    if decide (id = "") then (a, failed StatusBadRequest "policy id is required")
    else match decode_rule (rq_body r) with
         | inr err => (a, failed StatusBadRequest ("invalid JSON: " +:+ err))
         | inl rule =>
           let rule := set_rule_ID rule id in
           match rs !! id with
           | None => (a, failed StatusNotFound ("rule with id " +:+ quote id +:+ " not found"))
           | Some _ => (mkSpec (<[id := rule]> rs) ids ns, json_ok (JRule rule))
           end
         end
  | DeletePolicy r =>
    let id := rq_path_value r "id" in
    if decide (id = "") then (a, failed StatusBadRequest "policy id is required")
    else match rs !! id with
         | None => (a, failed StatusNotFound ("rule with id " +:+ quote id +:+ " not found"))
         | Some _ => (mkSpec (delete id rs) (filter (λ id', id' ≠ id) ids) ns, no_content)
         end
  | GetNamespaces _ => (a, json_ok (JNamespaces (map_len ns) (by_name ns)))
  | PostNamespace now r =>
    match decode_ns (rq_body r) with
    | inr err => (a, failed StatusBadRequest ("invalid JSON: " +:+ err))
    | inl req =>
      let name := cn_Name req in
      if decide (name = "") then (a, failed StatusBadRequest "namespace name is required")
      else match ns !! name with
           | Some _ => (a, failed StatusConflict ("namespace " +:+ quote name +:+ " already exists"))
           | None =>
             let n := mkNamespace name (cn_Description req) now in
             (mkSpec rs ids (<[name := n]> ns), created (JNamespace n))
           end
    end
  | DeleteNamespace r =>
    let name := rq_path_value r "name" in
    if decide (name = "") then (a, failed StatusBadRequest "namespace name is required")
    else if decide (name = "default")
    then (a, failed StatusForbidden ("cannot delete the " +:+ quote "default" +:+ " namespace"))
    else match ns !! name with
         | None => (a, failed StatusNotFound ("namespace " +:+ quote name +:+ " not found"))
         | Some _ => (mkSpec rs ids (delete name ns), no_content)
         end
  end.

(** Serves a sequence of requests, collecting what the clients see. *)
Fixpoint run_reqs {S} (f : S → control_req → S * seen) (s : S) (qs : list control_req) : S * list seen :=
  match qs with
  | [] => (s, [])
  | q :: qs => let '(s, o) := f s q in let '(s, os) := run_reqs f s qs in (s, o :: os)
  end.

(** ** The lists *)

(** The IDs in the order of the list. *)
Definition ids_exec (ids : list string) (o : policy_op) (err : option policy_error) : list string :=
  match o, err with
  | PolAdd r, None => ids ++ [rule_ID r]
  | PolRemove id, None => filter (λ id', id' ≠ id) ids
  | _, _ => ids
  end.

Lemma filter_other (id : string) (ids : list string) : id ∉ ids → filter (λ id', id' ≠ id) ids = ids.
Proof.
  induction ids as [|x ids IH]; [done|]. rewrite not_elem_of_cons. intros [Hne Hn].
  rewrite filter_cons_True by congruence. by rewrite IH.
Qed.

Lemma engine_ids e o :
  ids_unique e →
  rule_ID <$> rules (policy_exec e o).1 = ids_exec (rule_ID <$> rules e) o (policy_exec e o).2.
Proof.
  unfold ids_unique. intros Hu. destruct o as [r|r|id]; cbn [policy_exec]; unfold AddRule, UpdateRule, RemoveRule;
    destruct (rule_index _ _) as [i|] eqn:Hi; try done; cbn [fst snd rules ids_exec].
  - by rewrite fmap_app.
  - apply rule_index_Some in Hi as (r' & pre & post & Hr & <- & Hid). rewrite Hr.
    rewrite insert_app_r_alt, Nat.sub_diag by lia. cbn. rewrite !fmap_app. cbn. by rewrite Hid.
  - apply rule_index_Some in Hi as (r' & pre & post & Hr & <- & <-). rewrite Hr in *.
    rewrite take_app_length, drop_app_add. cbn. rewrite drop_0.
    rewrite !fmap_app, fmap_cons in *. rewrite filter_app, filter_cons_False by (intros Hn; by apply Hn).
    apply NoDup_app in Hu as (_ & Hpre & [Hr' _]%NoDup_cons).
    rewrite !filter_other; [done|done|]. intros Hin. apply (Hpre _ Hin). by left.
Qed.

Lemma rules_by_made e : ids_unique e → by_made (table_of e) (rule_ID <$> rules e) = ListRules e.
Proof.
  intros Hu. unfold by_made, ListRules.
  assert (∀ r, r ∈ rules e → table_of e !! rule_ID r = Some r) as Ht by (intros r; by apply ListRules_table).
  clear Hu. revert Ht. generalize (table_of e). intros t. induction (rules e) as [|r rs IH]; intros Ht; [done|].
  cbn. rewrite Ht by by left. f_equal. apply IH. intros r' Hr. apply Ht. by right.
Qed.

Lemma table_size e : ids_unique e → map_len (table_of e) = len (ListRules e).
Proof.
  intros Hu. unfold map_len, len, ListRules. f_equal.
  rewrite <- (length_fmap rule_ID (rules e)). unfold ids_unique in Hu. unfold table_of.
  induction (rules e) as [|r rs IH]; [done|]. cbn in *. apply NoDup_cons in Hu as [Hr Hu].
  rewrite map_size_insert_None, IH; [done|done|]. by apply (table_lookup_None (mkEngine rs)).
Qed.

Lemma by_name_list m ord :
  (∀ k ns, namespaces m !! k = Some ns → ns_Name ns = k) → Manager_List m ord = by_name (namespaces m).
Proof.
  intros Hkey. apply (sorted_by_str_unique ns_Name); [apply Manager_List_sorted| | |by apply Manager_List_NoDup].
  - apply insertion_sort_sorted, strict_weak_str.
  - unfold by_name. by rewrite insertion_sort_perm, Manager_List_perm, range_values_perm.
Qed.

(** ** Simulation *)

Record sim (st : Engine * Manager) (a : spec_state) : Prop := {
  sim_unique : ids_unique st.1;
  sim_rules : table_of st.1 = sp_rules a;
  sim_made : rule_ID <$> rules st.1 = sp_made a;
  sim_namespaces : namespaces st.2 = sp_namespaces a;
  sim_keys k ns : namespaces st.2 !! k = Some ns → ns_Name ns = k
}.

(** One engine operation, read through the table. *)
Lemma engine_op e o e' err :
  policy_exec e o = (e', err) → ids_unique e →
  ids_unique e' ∧ table_exec (table_of e) o = (table_of e', err) ∧
  rule_ID <$> rules e' = ids_exec (rule_ID <$> rules e) o err.
Proof.
  intros E Hu. pose proof (policy_exec_table e o Hu) as [? ?]. pose proof (engine_ids e o Hu). by rewrite E in *.
Qed.

Lemma serve_sim st a q :
  sim st a → sim (serve st q).1 (spec_serve a q).1 ∧ (serve st q).2 = (spec_serve a q).2.
Proof.
  destruct st as [e m], a as [rs ids ns]. intros Hsim. pose proof Hsim as [Hu Ht Hi Hn Hk].
  cbn [fst snd sp_rules sp_made sp_namespaces] in Hu, Ht, Hi, Hn, Hk. subst rs ids ns.
  destruct q as [|r|r|r|ord|now r|r]; cbn [serve spec_serve].
  - split; [done|]. cbn [snd]. rewrite rules_by_made, table_size by done. reflexivity.
  - unfold handleCreatePolicy. destruct (decode_rule (rq_body r)) as [rule|]; [|done].
    destruct (String.eqb_spec (rule_ID rule) ""); [by rewrite decide_True by done|]. rewrite decide_False by done.
    destruct (String.eqb_spec (Effect rule) ""); [by rewrite decide_True by done|]. rewrite decide_False by done.
    destruct (AddRule e rule) as [e' err] eqn:E. apply (engine_op e (PolAdd rule)) in E as (Hu' & Ht & Hi); [|done].
    cbn [table_exec ids_exec] in Ht, Hi. destruct (table_of e !! rule_ID rule); injection Ht as Ht <-; by split; [split|].
  - unfold handleUpdatePolicy. destruct (String.eqb_spec (rq_path_value r "id") "");
      [by rewrite decide_True by done|]. rewrite decide_False by done.
    destruct (decode_rule (rq_body r)) as [rule|]; [|done]. set (rule' := set_rule_ID rule _).
    destruct (UpdateRule e rule') as [e' err] eqn:E.
    apply (engine_op e (PolUpdate rule')) in E as (Hu' & Ht & Hi); [|done]. cbn [table_exec ids_exec] in Ht, Hi.
    change (rule_ID rule') with (rq_path_value r "id") in Ht.
    destruct (table_of e !! _); injection Ht as Ht <-; by split; [split|].
  - unfold handleDeletePolicy. destruct (String.eqb_spec (rq_path_value r "id") "");
      [by rewrite decide_True by done|]. rewrite decide_False by done.
    destruct (RemoveRule e _) as [e' err] eqn:E.
    apply (engine_op e (PolRemove _)) in E as (Hu' & Ht & Hi); [|done]. cbn [table_exec ids_exec] in Ht, Hi.
    destruct (table_of e !! _); injection Ht as Ht <-; by split; [split|].
  - split; [done|]. cbn [snd]. unfold handleListNamespaces. rewrite <- (by_name_list m ord) by done.
    replace (map_len (namespaces m)) with (len (Manager_List m ord)); [reflexivity|].
    unfold len, map_len. by rewrite Manager_List_perm, length_range_values.
  - unfold handleCreateNamespace, Create. destruct (decode_ns (rq_body r)) as [req|]; [|done].
    destruct (String.eqb_spec (cn_Name req) ""); [by rewrite decide_True by done|].
    rewrite decide_False by done. destruct (namespaces m !! cn_Name req); [done|]. split; [|done]. split; try done.
    cbn. intros k ns [[<- <-]|[_ ?]]%lookup_insert_Some; [done|by apply Hk].
  - unfold handleDeleteNamespace, Delete, defaultNamespace.
    destruct (String.eqb_spec (rq_path_value r "name") ""); [by rewrite decide_True by done|].
    rewrite (decide_False (P:=_ = "")) by done.
    destruct (String.eqb_spec (rq_path_value r "name") "default"); [by rewrite decide_True by done|].
    rewrite decide_False by done. destruct (namespaces m !! rq_path_value r "name"); [|done]. split; [|done].
    split; try done. cbn. intros k ns [_ ?]%lookup_delete_Some. by apply Hk.
Qed.

Lemma run_sim qs st a :
  sim st a →
  sim (run_reqs serve st qs).1 (run_reqs spec_serve a qs).1 ∧
  (run_reqs serve st qs).2 = (run_reqs spec_serve a qs).2.
Proof.
  revert st a. induction qs as [|q qs IH]; intros st a Hs; [done|]. cbn [run_reqs].
  destruct (serve_sim st a q Hs) as [Hs' Ho].
  destruct (serve st q) as [st' o], (spec_serve a q) as [a' o']. cbn [fst snd] in *. subst o'.
  destruct (IH _ _ Hs') as [Hs'' Hos].
  destruct (run_reqs serve st' qs), (run_reqs spec_serve a' qs). cbn [fst snd] in *. by subst.
Qed.

(** C17: For every sequence of requests to a fresh relay, the seven policy and
    namespace endpoints answer exactly like two plain maps - status, headers and the
    whole body: 400 for undecodable bodies and missing names, IDs or (for POST only)
    effects, 409 for a name in use, 404 for an unknown one, 403 for deleting the
    default namespace, each with its text and nothing else; otherwise 201, 200 or 204
    with the stored value, or for the lists the rules in the order they were made
    and the namespaces in the order of their names, with their number; only changes
    that are answered with success happen; and afterwards the engine lists exactly
    the rules of the map, each ID once, and the manager knows exactly its
    namespaces. *)
Theorem control_api_refines (t0 : Z) (reqs : list control_req) :
  let '((e, m), out) := run_reqs serve (NewEngine, NewManager t0) reqs in
  let '(a, spec_out) :=
    run_reqs spec_serve (mkSpec ∅ [] {["default" := mkNamespace "default" "" t0]}) reqs in
  out = spec_out ∧
  NoDup (rule_ID <$> ListRules e) ∧ (∀ r, r ∈ ListRules e ↔ sp_rules a !! rule_ID r = Some r) ∧
  (∀ name, Manager_Get m name = sp_namespaces a !! name).
Proof.
  assert (sim (NewEngine, NewManager t0) (mkSpec ∅ [] {["default" := mkNamespace "default" "" t0]})) as H0.
  { split; try done; [constructor|]. cbn. intros k ns. by intros [[<- <-]|[_ ?]]%lookup_insert_Some. }
  destruct (run_sim reqs _ _ H0) as [[Hu Ht _ Hn _] Ho].
  destruct (run_reqs serve _ _) as [[e m] out], (run_reqs spec_serve _ _) as [[rs ids ns] out'].
  cbn [fst snd sp_rules sp_namespaces] in *. subst rs ns. split_and!; [done|done| |].
  - intros r. by apply ListRules_table.
  - intros name. unfold Manager_Get. by destruct (namespaces m !! name).
Qed.
End control_props.
