(* ===== verification/ApiServer.v ===== *)
(** * The REST server ([src/internal/api/server.go], [embed.go])

    [New] registers the endpoints of the components it is given with a
    [ServeMux], everything else goes to the embedded web pages, and the CORS
    middleware is around both.  [serve] is the handler of the HTTP server: one
    request to a response and to the state of the control plane afterwards. *)
From stdpp Require Import gmap strings list sorting.
From Stdlib Require Import ZArith Lia Ascii.
From S2P Require Import Prelude GoStd GoMatch GoMux Registry Breaker BreakerRegistry Policy Namespace Federation Http Api ApiControl.

Local Open Scope Z_scope.

(** ** The endpoints *)

Inductive endpoint :=
| EpListAgents | EpGetAgent | EpListSkills | EpStats
| EpCreatePolicy | EpListPolicies | EpUpdatePolicy | EpDeletePolicy
| EpCreateNamespace | EpListNamespaces | EpDeleteNamespace
| EpListBreakers | EpResetBreaker.

#[export] Instance endpoint_eq_dec : EqDecision endpoint.
Proof. solve_decision. Defined.

(** What [New] registers, in its order, by which components there are. *)
Definition api_routes (policyEngine namespaceMgr breakerRegistry : bool) : list (mux_route endpoint) :=
  [HandleFunc "GET /api/v1/agents" EpListAgents;
   HandleFunc "GET /api/v1/agents/{peer_id}" EpGetAgent;
   HandleFunc "GET /api/v1/skills" EpListSkills;
   HandleFunc "GET /api/v1/stats" EpStats] ++
  (if policyEngine then
    [HandleFunc "POST /api/v1/policies" EpCreatePolicy;
     HandleFunc "GET /api/v1/policies" EpListPolicies;
     HandleFunc "PUT /api/v1/policies/{id}" EpUpdatePolicy;
     HandleFunc "DELETE /api/v1/policies/{id}" EpDeletePolicy] else []) ++
  (if namespaceMgr then
    [HandleFunc "POST /api/v1/namespaces" EpCreateNamespace;
     HandleFunc "GET /api/v1/namespaces" EpListNamespaces;
     HandleFunc "DELETE /api/v1/namespaces/{name}" EpDeleteNamespace] else []) ++
  (if breakerRegistry then
    [HandleFunc "GET /api/v1/circuit-breakers" EpListBreakers;
     HandleFunc "POST /api/v1/circuit-breakers/{name}/reset" EpResetBreaker] else []).

(** ** Requests and state *)

(** A request as it arrives: [hr_Path] is the escaped path of the URL. *)
Record HttpRequest := mkHttpRequest {
  hr_Method : string;
  hr_Path : bytes;
  hr_Origin : string;
  hr_query : string → string;
  hr_body : string
}.

Definition request_of (hr : HttpRequest) (values : list (string * string)) : Request :=
  mkRequest (hr_Method hr) (hr_Origin hr) (hr_query hr) (path_value values) (hr_body hr).

(** The optional components of the server that its requests change. *)
Record ApiState := mkApiState {
  as_pol : option Engine;
  as_ns : option Manager;
  as_brk : option BreakerRegistry
}.

(** What a handler reads besides: one or two calls of the registry, the
    federation, the order of a walk over a map, the clock. *)
Record Ambient := mkAmbient {
  am_first : RegRead;
  am_second : RegRead;
  am_fed : option (Federation * RangeOrder * Z);
  am_ord : RangeOrder;
  am_now : Z;
  am_clock : string → Z
}.

Section server.
Context `{SortSlice} (quote : string → string) (decode_rule : string → Rule + string).
Context (decode_ns : string → createNamespaceRequest + string).

(** The files embedded with the program, [opens]; the file server of [net/http],
    by the path of the URL it is given; the text of a redirect's URL. *)
Context (opens : bytes → bool) (file_server : bytes → Writer → Writer) (redirect_url : bytes → string).

(** [WebHandler]: the file when there is one, else the root, that is
    [index.html].  [path] is the decoded path; [None]: the slice expression
    panics. *)
Definition WebHandler (path : bytes) (w : Writer) : option Writer :=
  let p := if decide (path = [slash]) then bytes_of "/index.html" else path in
  match p with
  | [] => None
  | _ :: rest => Some (if opens rest then file_server path w else file_server [slash] w)
  end.

Definition set_pol (st : ApiState) (r : Engine * Writer) : ApiState * Writer :=
  (mkApiState (Some r.1) (as_ns st) (as_brk st), r.2).
Definition set_ns (st : ApiState) (r : Manager * Writer) : ApiState * Writer :=
  (mkApiState (as_pol st) (Some r.1) (as_brk st), r.2).
Definition set_brk (st : ApiState) (r : BreakerRegistry * Writer) : ApiState * Writer :=
  (mkApiState (as_pol st) (as_ns st) (Some r.1), r.2).

(** The handler of an endpoint.  An endpoint without its component is not
    registered. *)
Definition handle_endpoint (st : ApiState) (am : Ambient) (ep : endpoint) (w : Writer) (r : Request)
    : ApiState * Writer :=
  match ep with
  | EpListAgents => (st, handleListAgents (am_first am) (am_second am) w r)
  | EpGetAgent => (st, handleGetAgent (am_first am) w r)
  | EpListSkills => (st, handleListSkills (am_first am) (am_second am) (am_ord am) w)
  | EpStats => (st, handleStats (rd_reg (am_first am)) (am_fed am) w)
  | EpCreatePolicy => from_option (λ e, set_pol st (handleCreatePolicy quote decode_rule e w r)) (st, w) (as_pol st)
  | EpListPolicies => from_option (λ e, (st, handleListPolicies e w)) (st, w) (as_pol st)
  | EpUpdatePolicy => from_option (λ e, set_pol st (handleUpdatePolicy quote decode_rule e w r)) (st, w) (as_pol st)
  | EpDeletePolicy => from_option (λ e, set_pol st (handleDeletePolicy quote e w r)) (st, w) (as_pol st)
  | EpCreateNamespace =>
    from_option (λ m, set_ns st (handleCreateNamespace quote decode_ns m (am_now am) w r)) (st, w) (as_ns st)
  | EpListNamespaces => from_option (λ m, (st, handleListNamespaces m (am_ord am) w)) (st, w) (as_ns st)
  | EpDeleteNamespace => from_option (λ m, set_ns st (handleDeleteNamespace quote m w r)) (st, w) (as_ns st)
  | EpListBreakers =>
    from_option (λ br, set_brk st (handleListBreakers br (am_ord am) (am_clock am) w)) (st, w) (as_brk st)
  | EpResetBreaker => from_option (λ br, set_brk st (handleResetBreaker br (am_now am) w r)) (st, w) (as_brk st)
  end.

(** The routes of a server with this state. *)
Definition routes_of (st : ApiState) : list (mux_route endpoint) :=
  api_routes (bool_decide (is_Some (as_pol st))) (bool_decide (is_Some (as_ns st)))
    (bool_decide (is_Some (as_brk st))).

(** The mux that [New] builds; [None] as the writer when the handler panics. *)
Definition api_mux (st : ApiState) (am : Ambient) (hr : HttpRequest) (w : Writer) : ApiState * option Writer :=
  match ServeMux (routes_of st) (hr_Method hr) (hr_Path hr) with
  | Redirect path => (st, Some (http_Redirect w (hr_Method hr) (redirect_url path)))
  | Handle ep values =>
    let '(st, w) := handle_endpoint st am ep w (request_of hr values) in (st, Some w)
  | CatchAll => (st, WebHandler (pathUnescape (hr_Path hr)) w)
  end.

(** The handler of the HTTP server.  The middleware answers OPTIONS itself. *)
Definition serve (corsOrigins : list string) (st : ApiState) (am : Ambient) (hr : HttpRequest)
    : ApiState * Writer :=
  let next w (_ : Request) := default w (api_mux st am hr w).2 in
  (if String.eqb (hr_Method hr) "OPTIONS" then st else (api_mux st am hr new_writer).1,
   corsMiddleware corsOrigins next new_writer (request_of hr [])).
End server.

(** ** The table *)

Lemma api_routes_parsed : 
  api_routes true true true =
    let p := λ l, Lit (bytes_of l) in
    [mkMuxRoute "GET" [p "api"; p "v1"; p "agents"] EpListAgents;
     mkMuxRoute "GET" [p "api"; p "v1"; p "agents"; Wild "peer_id"] EpGetAgent;
     mkMuxRoute "GET" [p "api"; p "v1"; p "skills"] EpListSkills;
     mkMuxRoute "GET" [p "api"; p "v1"; p "stats"] EpStats;
     mkMuxRoute "POST" [p "api"; p "v1"; p "policies"] EpCreatePolicy;
     mkMuxRoute "GET" [p "api"; p "v1"; p "policies"] EpListPolicies;
     mkMuxRoute "PUT" [p "api"; p "v1"; p "policies"; Wild "id"] EpUpdatePolicy;
     mkMuxRoute "DELETE" [p "api"; p "v1"; p "policies"; Wild "id"] EpDeletePolicy;
     mkMuxRoute "POST" [p "api"; p "v1"; p "namespaces"] EpCreateNamespace;
     mkMuxRoute "GET" [p "api"; p "v1"; p "namespaces"] EpListNamespaces;
     mkMuxRoute "DELETE" [p "api"; p "v1"; p "namespaces"; Wild "name"] EpDeleteNamespace;
     mkMuxRoute "GET" [p "api"; p "v1"; p "circuit-breakers"] EpListBreakers;
     mkMuxRoute "POST" [p "api"; p "v1"; p "circuit-breakers"; Wild "name"; p "reset"] EpResetBreaker].
Proof. vm_compute. reflexivity. Qed.

Fixpoint all_pairs {A} (f : A → A → bool) (l : list A) : bool :=
  match l with [] => true | x :: l => forallb (f x) l && all_pairs f l end.

Lemma all_pairs_sound {A} (f : A → A → bool) l : all_pairs f l = true → ForallOrdPairs (λ x y, f x y = true) l.
Proof.
  induction l as [|x l IH]; simpl; [constructor|]. intros [H1 H2]%andb_true_iff. constructor; [|by apply IH].
  apply Forall_forall. intros y Hy. rewrite forallb_forall in H1. by apply H1, list_elem_of_In.
Qed.

Lemma api_routes_exclusive p n b : exclusive (api_routes p n b).
Proof. apply all_pairs_sound. by destruct p, n, b; vm_compute. Qed.

Lemma api_routes_lits p n b r : r ∈ api_routes p n b → Forall lit_ok (mr_pat r) ∧ mr_pat r ≠ [].
Proof.
  intros Hr. assert (Forall (λ r, Forall lit_ok (mr_pat r) ∧ mr_pat r ≠ []) (api_routes p n b)) as H.
  { apply (bool_decide_unpack _). by destruct p, n, b; vm_compute. }
  rewrite Forall_forall in H. by apply H.
Qed.
