(* ===== verification/ApiServerProps.v ===== *)
(** * What the REST server guarantees

    Which request reaches which endpoint, what each endpoint may answer, and which
    requests can change anything. *)
From stdpp Require Import gmap strings list sorting.
From Stdlib Require Import ZArith Lia Ascii.
From S2P Require Import Prelude GoStd GoMatch GoMux Registry Breaker BreakerRegistry Policy Namespace Federation Http Api ApiControl ApiServer.

Local Open Scope Z_scope.

(** ** Routing *)

(** A wildcard's value is a segment of the path: never empty. *)
Lemma match_segs_values pat (segs : list bytes) vs :
  Forall (λ s : bytes, s ≠ []) segs → match_segs pat segs = Some vs →
  vs.*1 = wild_names pat ∧ Forall (λ nv, nv.2 ≠ "" ∧ nv.2 ≠ "/") vs.
Proof.
  intros Hs. revert segs vs Hs. induction pat as [|[l|n] pat IH]; intros [|s segs] vs Hs; simpl; try done.
  - intros [= <-]. by split.
  - apply Forall_cons in Hs as [_ Hs]. destruct (decide (s = l)); [|done]. by apply IH.
  - apply Forall_cons in Hs as [Hn Hs]. destruct (decide (s = [slash])) as [|Hsl]; [done|].
    intros (vs' & Hm & [= <-])%bind_Some. destruct (IH _ _ Hs Hm) as [Hk Hv]. rewrite fmap_cons, Hk.
    split; [done|]. constructor; [|done]. cbn [snd]. split; intros He; apply (f_equal bytes_of) in He;
      rewrite bytes_of_string_of in He; [exact (Hn He)|exact (Hsl He)].
Qed.

Lemma segments_of_nonempty (parts : list bytes) :
  Forall (λ p : bytes, p ≠ []) (removelast parts) → Forall (λ s : bytes, s ≠ []) (segments_of parts).
Proof.
  induction parts as [|p parts IH]; [constructor|]. intros Hp. destruct parts as [|q parts].
  - destruct p as [|c p]; cbn [segments_of]; [by constructor|]. constructor; [|constructor].
    unfold pathUnescape. cbn [PathUnescape]. destruct (Ascii.eqb c "%"); [destruct p as [|h [|l p]]; try done|].
    + destruct (hex_value h), (hex_value l), (PathUnescape p); done.
    + by destruct (PathUnescape p).
  - cbn [removelast] in Hp. apply Forall_cons in Hp as [Hn Hp].
    destruct p as [|c p]; [done|]. cbn [segments_of]. constructor; [|by apply IH].
    unfold pathUnescape. cbn [PathUnescape]. destruct (Ascii.eqb c "%"); [destruct p as [|h [|l p]]; try done|].
    + destruct (hex_value h), (hex_value l), (PathUnescape p); done.
    + by destruct (PathUnescape p).
Qed.

(** ** Clean paths *)

Lemma split_slash_no_slash s : Forall no_slash_seg (split_slash s).
Proof.
  induction s as [|c s IH]; simpl; [by repeat constructor; apply not_elem_of_nil|].
  destruct (Ascii.eqb_spec c slash) as [|Hc]; [constructor; [apply not_elem_of_nil|done]|].
  destruct (split_slash s) as [|p ps].
  - constructor; [|done]. apply not_elem_of_cons. split; [congruence|apply not_elem_of_nil].
  - apply Forall_cons in IH as [Hp Hps]. constructor; [|done]. apply not_elem_of_cons. by split; [congruence|].
Qed.

Lemma clean_parts_plain_all acc parts :
  Forall plain acc → Forall no_slash_seg parts → Forall plain (clean_parts acc parts).
Proof.
  intros Ha Hp. revert acc Ha. induction Hp as [|p parts Hp _ IH]; intros acc Ha; cbn [clean_parts].
  - by apply Forall_reverse.
  - destruct (decide (p = [] ∨ p = bytes_of ".")) as [|Hn]; [by apply IH|].
    destruct (decide (p = bytes_of "..")); apply IH; [by destruct Ha|].
    constructor; [|done]. split_and!; [done|tauto|tauto|done].
Qed.

Lemma split_slash_plain (parts : list bytes) : Forall plain parts → parts ≠ [] →
  split_slash (join_parts parts) = [] :: parts ∧ split_slash (join_parts parts ++ [slash]) = [] :: parts ++ [[]].
Proof.
  intros Hp Hne. pose proof (plain_no_slash _ Hp) as Hs.
  destruct parts as [|p parts]; [done|]. unfold join_parts. split.
  - apply (split_slash_concat []). constructor; [apply not_elem_of_nil|done].
  - assert (concat (map (cons slash) (p :: parts)) ++ [slash] = [] ++ concat (map (cons slash) ((p :: parts) ++ [[]])))
      as -> by by rewrite (map_app _ (p :: parts)), concat_app.
    apply split_slash_concat. constructor; [apply not_elem_of_nil|]. apply Forall_app. split; [done|].
    repeat constructor. apply not_elem_of_nil.
Qed.

Lemma removelast_plain (parts : list bytes) : Forall plain parts → Forall (λ p : bytes, p ≠ []) (removelast parts).
Proof.
  induction 1 as [|p parts (_ & Hp & _) Hps IH]; [constructor|]. cbn [removelast]. destruct parts; [constructor|].
  by constructor.
Qed.

(** The segments of a clean path are not empty. *)
Lemma segments_clean path : cleanPath path = path → Forall (λ s : bytes, s ≠ []) (segments path).
Proof.
  intros Hc. apply segments_of_nonempty.
  assert (Forall plain (clean_parts [] (split_slash path))) as Hcs
    by (apply clean_parts_plain_all; [constructor|apply split_slash_no_slash]).
  revert Hc Hcs. unfold cleanPath. generalize (bool_decide (last path = Some slash)).
  generalize (clean_parts [] (split_slash path)). intros cs trailing Hc Hcs. revert Hc.
  destruct (decide (cs = [])) as [He|Hne].
  { rewrite He. cbn [join_parts]. rewrite (bool_decide_false ([slash] ≠ [slash])) by tauto.
    rewrite andb_false_r. intros <-. vm_compute. constructor. }
  destruct (split_slash_plain cs Hcs Hne) as [H1 H2].
  destruct (trailing && _); intros <-; [rewrite H2|rewrite H1]; cbn [tail].
  - rewrite removelast_last. eapply Forall_impl; [exact Hcs|]. by intros p (_ & ? & _).
  - by apply removelast_plain.
Qed.

Lemma clean_parts_trailing acc parts :
  Forall plain parts → clean_parts acc (parts ++ [[]]) = reverse acc ++ parts.
Proof.
  intros Hp. revert acc. induction Hp as [|p parts (_ & H1 & H2 & H3) _ IH]; intros acc; cbn [app clean_parts].
  - rewrite decide_True by by left. by rewrite app_nil_r.
  - rewrite decide_False by tauto. rewrite decide_False by done. rewrite IH, reverse_cons. by rewrite <- app_assoc.
Qed.

(** Cleaning once is enough. *)
Lemma cleanPath_idempotent path : cleanPath (cleanPath path) = cleanPath path.
Proof.
  assert (Forall plain (clean_parts [] (split_slash path))) as Hcs
    by (apply clean_parts_plain_all; [constructor|apply split_slash_no_slash]).
  revert Hcs. unfold cleanPath at 2 3. generalize (bool_decide (last path = Some slash)).
  generalize (clean_parts [] (split_slash path)). intros cs trailing Hcs.
  destruct (decide (cs = [])) as [->|Hne].
  { cbn [join_parts]. rewrite (bool_decide_false ([slash] ≠ [slash])), andb_false_r by tauto. vm_compute. reflexivity. }
  assert (join_parts cs ≠ [slash]) as Hj.
  { intros Hj. pose proof (last_join cs Hcs Hne) as Hl. by rewrite Hj in Hl. }
  rewrite bool_decide_true, andb_true_r by done. destruct trailing; [|by apply cleanPath_join].
  unfold cleanPath. rewrite (proj2 (split_slash_plain cs Hcs Hne)). cbn [clean_parts].
  rewrite decide_True by by left. rewrite clean_parts_trailing by done. cbn [reverse app].
  change (reverse [] ++ cs) with cs. rewrite last_snoc, (bool_decide_true (Some slash = Some slash)) by done.
  by rewrite bool_decide_true.
Qed.

(** C13: Routing of the REST API.  For every choice of components, the patterns
    [New] registers exclude each other, so that the order of registration does
    not matter; a request with a clean path reaches an endpoint exactly when the
    endpoint is registered, its pattern's method is the request's (or GET for
    HEAD) and the decoded segments match, and then each wildcard's value is a
    decoded segment, neither empty nor a slash - the handlers' own checks for
    empty names never apply; an unclean path is redirected to its clean form,
    which is clean; and the URL built from a pattern by percent-encoding any such
    values comes back to that endpoint with exactly these values. *)
Theorem api_routing p n b :
  let routes := api_routes p n b in
  (∀ routes' method path, routes' ≡ₚ routes → ServeMux routes' method path = ServeMux routes method path) ∧
  (∀ method path ep vs, ServeMux routes method path = Handle ep vs →
     cleanPath path = path ∧ Forall (λ nv, nv.2 ≠ "" ∧ nv.2 ≠ "/") vs ∧
     ∃ r, r ∈ routes ∧ mr_handler r = ep ∧ method_matches (mr_method r) method = true ∧
          match_segs (mr_pat r) (segments path) = Some vs ∧ vs.*1 = wild_names (mr_pat r)) ∧
  (∀ method path q, ServeMux routes method path = Redirect q → q = cleanPath path ∧ q ≠ path ∧ cleanPath q = q) ∧
  (∀ method path, ServeMux routes method path = CatchAll ↔
     cleanPath path = path ∧
     ∀ r, r ∈ routes → method_matches (mr_method r) method = true →
          match_segs (mr_pat r) (segments path) = None) ∧
  (∀ r vals, r ∈ routes → Forall sendable vals → length vals = length (wild_names (mr_pat r)) →
     ServeMux routes (mr_method r) (url_for (mr_pat r) vals) =
       Handle (mr_handler r) (zip (wild_names (mr_pat r)) (string_of <$> vals))).
Proof.
  cbv zeta. pose proof (api_routes_exclusive p n b) as Hex. split_and!.
  - intros routes' method path Hp. unfold ServeMux. by rewrite (exclusive_perm (api_routes p n b) routes').
  - intros method path ep vs. unfold ServeMux. destruct (decide _) as [Hc|]; [|done].
    destruct (match_routes _ _ _) as [[h ws]|] eqn:Hm; [|done]. intros [= -> ->].
    apply match_routes_Some in Hm as (r & Hin & Hh & Hme & Hs); [|done].
    destruct (match_segs_values _ _ _ (segments_clean _ Hc) Hs). eauto 10.
  - intros method path q. unfold ServeMux. destruct (decide _) as [|Hc]; [by destruct (match_routes _ _ _) as [[]|]|].
    intros [= <-]. split_and!; [done|done|apply cleanPath_idempotent].
  - intros method path. unfold ServeMux. destruct (decide _) as [Hc|Hc]; [|by split; [done|intros []]].
    pose proof (match_routes_Some (api_routes p n b) method (segments path)) as Hm.
    destruct (match_routes _ _ _) as [[h vs]|] eqn:E.
    + split; [done|]. intros [_ Hnone]. exfalso.
      destruct (proj1 (Hm h vs Hex) eq_refl) as (r & Hin & _ & Hme & Hs). by rewrite Hnone in Hs.
    + split; [|done]. intros _. split; [done|]. intros r Hin Hme.
      destruct (match_segs _ _) as [vs|] eqn:Hs; [|done].
      by pose proof (proj2 (Hm (mr_handler r) vs Hex) (ex_intro _ r (conj Hin (conj eq_refl (conj Hme Hs))))).
  - intros r vals Hr Hv Hlen. destruct (api_routes_lits p n b r Hr) as [Hl Hne].
    pose proof (fill_plain _ _ Hl Hv Hlen) as Hpl.
    assert (fill (mr_pat r) vals ≠ []) as Hf.
    { destruct (mr_pat r) as [|[l|nm] pat]; [done..|]. by destruct vals. }
    unfold ServeMux, url_for. rewrite decide_True by by apply cleanPath_join.
    rewrite segments_join by done.
    assert (match_routes (api_routes p n b) (mr_method r) (map pathUnescape (fill (mr_pat r) vals)) =
      Some (mr_handler r, zip (wild_names (mr_pat r)) (string_of <$> vals))) as ->; [|done].
    apply match_routes_Some; [done|]. exists r. split_and!; [done..| |by apply match_fill].
    unfold method_matches. by rewrite String.eqb_refl.
Qed.

(** ** What an endpoint may answer *)

(** The status of success: 204 has no body. *)
Definition ep_status (ep : endpoint) : Z :=
  match ep with
  | EpCreatePolicy | EpCreateNamespace => StatusCreated
  | EpDeletePolicy | EpDeleteNamespace => StatusNoContent
  | _ => StatusOK
  end.

(** The shape of the JSON value of a success. *)
Definition ep_json (ep : endpoint) (j : api_json) : bool :=
  match ep, j with
  | EpListAgents, JAgents _ _ _ | EpGetAgent, JAgent _ | EpListSkills, JSkills _ _ | EpStats, JStats _
  | EpCreatePolicy, JRule _ | EpListPolicies, JRules _ _ | EpUpdatePolicy, JRule _
  | EpCreateNamespace, JNamespace _ | EpListNamespaces, JNamespaces _ _
  | EpListBreakers, JBreakers _ _ | EpResetBreaker, JBreaker _ _ => true
  | _, _ => false
  end.

(** The error statuses. *)
Definition ep_errors (ep : endpoint) : list Z :=
  match ep with
  | EpGetAgent | EpDeletePolicy => [StatusNotFound]
  | EpCreatePolicy | EpCreateNamespace => [StatusBadRequest; StatusConflict]
  | EpUpdatePolicy => [StatusBadRequest; StatusNotFound]
  | EpDeleteNamespace => [StatusForbidden; StatusNotFound]
  | _ => []
  end.

Definition typed_answer (ep : endpoint) (w : Writer) : Prop :=
  (response_status w = ep_status ep ∧
   ((∃ j, response_body w = [BodyJson j] ∧ ep_json ep j = true) ∨
    ep_status ep = StatusNoContent ∧ response_body w = [])) ∨
  (response_status w ∈ ep_errors ep ∧ ∃ msg, response_body w = [BodyText msg]).

Definition unsent (w : Writer) : Prop := rw_sent w = None ∧ rw_body w = [].

Lemma typed_error ep w msg c : unsent w → c ∈ ep_errors ep → typed_answer ep (http_Error w msg c).
Proof.
  intros [Hs Hb] Hc. right. unfold response_status, response_body, response, http_Error, Write, WriteHeader.
  destruct w; simpl in *; subst. eauto.
Qed.

Lemma typed_json ep w j :
  unsent w → ep_json ep j = true → ep_status ep = StatusOK → typed_answer ep (writeJSON w j).
Proof.
  intros [Hs Hb] Hj Hok. left. unfold response_status, response_body. rewrite writeJSON_response by done.
  cbn [fst snd]. split; [done|]. left. eauto.
Qed.

Lemma typed_created ep w j :
  unsent w → ep_json ep j = true → ep_status ep = StatusCreated →
  typed_answer ep (writeJSON (WriteHeader w StatusCreated) j).
Proof.
  intros [Hs Hb] Hj Hok. left. unfold response_status, response_body, response, writeJSON, Write, WriteHeader.
  destruct w; simpl in *; subst. split; [done|]. left. eauto.
Qed.

Lemma typed_no_content ep w :
  unsent w → ep_status ep = StatusNoContent → typed_answer ep (WriteHeader w StatusNoContent).
Proof.
  intros [Hs Hb] Hok. left. unfold response_status, response_body, response, WriteHeader.
  destruct w; simpl in *; subst. split; [done|]. by right.
Qed.

#[export] Hint Resolve typed_error typed_json typed_created typed_no_content : relay.

(** The path values an endpoint gets are those of its pattern. *)
Definition ep_wild (ep : endpoint) : list string :=
  match ep with
  | EpGetAgent => ["peer_id"]
  | EpUpdatePolicy | EpDeletePolicy => ["id"]
  | EpDeleteNamespace | EpResetBreaker => ["name"]
  | _ => []
  end.

Lemma api_routes_wild p n b r : r ∈ api_routes p n b → wild_names (mr_pat r) = ep_wild (mr_handler r).
Proof.
  intros Hr. assert (Forall (λ r, wild_names (mr_pat r) = ep_wild (mr_handler r)) (api_routes p n b)) as H.
  { apply (bool_decide_unpack _). by destruct p, n, b; vm_compute. }
  rewrite Forall_forall in H. by apply H.
Qed.

Lemma path_value_found name v vs : v.1 = name → path_value (v :: vs) name = v.2.
Proof. intros Hn. unfold path_value. cbn [list_find]. by rewrite decide_True. Qed.

(** The value of the only wildcard is not empty. *)
Lemma values_nonempty vs name :
  vs.*1 = [name] → Forall (λ nv, nv.2 ≠ "" ∧ nv.2 ≠ "/") vs → String.eqb (path_value vs name) "" = false.
Proof.
  intros Hk Hv. destruct vs as [|[k v] [|]]; simplify_eq/=. apply Forall_singleton in Hv as [Hv _].
  rewrite path_value_found by done. by apply String.eqb_neq.
Qed.

Section responses.
Context `{SortSlice} (quote : string → string) (decode_rule : string → Rule + string).
Context (decode_ns : string → createNamespaceRequest + string).
Context (opens : bytes → bool) (file_server : bytes → Writer → Writer) (redirect_url : bytes → string).

Local Abbreviation handle := (handle_endpoint quote decode_rule decode_ns).

(** The component an endpoint needs. *)
Definition ep_ready (st : ApiState) (ep : endpoint) : bool :=
  match ep with
  | EpCreatePolicy | EpListPolicies | EpUpdatePolicy | EpDeletePolicy => bool_decide (is_Some (as_pol st))
  | EpCreateNamespace | EpListNamespaces | EpDeleteNamespace => bool_decide (is_Some (as_ns st))
  | EpListBreakers | EpResetBreaker => bool_decide (is_Some (as_brk st))
  | _ => true
  end.

Lemma routes_ready st r : r ∈ routes_of st → ep_ready st (mr_handler r) = true.
Proof.
  unfold routes_of. intros Hr.
  assert (Forall (λ r, ep_ready st (mr_handler r) = true) (api_routes (bool_decide (is_Some (as_pol st)))
    (bool_decide (is_Some (as_ns st))) (bool_decide (is_Some (as_brk st))))) as Hall.
  { unfold api_routes. rewrite !Forall_app. split_and!; [by repeat constructor|..];
      case_if Hc; repeat (constructor; [exact Hc|]); constructor. }
  rewrite Forall_forall in Hall. by apply Hall.
Qed.

Lemma handle_typed st am ep w hr vs :
  unsent w → ep_ready st ep = true → vs.*1 = ep_wild ep → Forall (λ nv, nv.2 ≠ "" ∧ nv.2 ≠ "/") vs →
  typed_answer ep (handle st am ep w (request_of hr vs)).2.
Proof.
  intros Hw Hr Hk Hv. destruct ep; cbn [handle_endpoint ep_ready ep_wild] in *;
    try (destruct (as_pol st) as [e|]; [|by case_bool_decide as Hs; destruct Hs]);
    try (destruct (as_ns st) as [m|]; [|by case_bool_decide as Hs; destruct Hs]);
    try (destruct (as_brk st) as [br|]; [|by case_bool_decide as Hs; destruct Hs]);
    cbn [from_option snd set_pol set_ns set_brk];
    try (pose proof (values_nonempty _ _ Hk Hv) as Hne).
  - by apply typed_json.
  - unfold handleGetAgent. cbn [request_of rq_path_value]. rewrite Hne.
    destruct (GetRegistration _ _ _); [by apply typed_json|apply typed_error; [done|left]].
  - by apply typed_json.
  - by apply typed_json.
  - unfold handleCreatePolicy. destruct (decode_rule _) as [rule|]; [|apply typed_error; [done|left]].
    destruct (String.eqb (rule_ID rule) ""); [apply typed_error; [done|left]|].
    destruct (String.eqb (Effect rule) ""); [apply typed_error; [done|left]|].
    destruct (AddRule e rule) as [e' [err|]]; [apply typed_error; [done|right; left]|by apply typed_created].
  - by apply typed_json.
  - unfold handleUpdatePolicy. cbn [request_of rq_path_value]. rewrite Hne.
    destruct (decode_rule _) as [rule|]; [|apply typed_error; [done|left]].
    destruct (UpdateRule e _) as [e' [err|]]; [apply typed_error; [done|right; left]|by apply typed_json].
  - unfold handleDeletePolicy. cbn [request_of rq_path_value]. rewrite Hne.
    destruct (RemoveRule e _) as [e' [err|]]; [apply typed_error; [done|left]|by apply typed_no_content].
  - unfold handleCreateNamespace. destruct (decode_ns _) as [req|]; [|apply typed_error; [done|left]].
    destruct (String.eqb (cn_Name req) ""); [apply typed_error; [done|left]|].
    destruct (Create m _ _ _) as [m' [ns|err]]; [by apply typed_created|apply typed_error; [done|right; left]].
  - by apply typed_json.
  - unfold handleDeleteNamespace. cbn [request_of rq_path_value]. rewrite Hne.
    destruct (Delete m _) as [m' [err|]]; [|by apply typed_no_content].
    destruct (String.eqb _ "default"); apply typed_error; try done; [left|right; left].
  - unfold handleListBreakers. destruct (BreakerRegistry_List br _ _). by apply typed_json.
  - unfold handleResetBreaker. cbn [request_of rq_path_value]. rewrite Hne.
    destruct (BreakerRegistry_Get br _). by apply typed_json.
Qed.

(** The writer the middleware hands on. *)
Lemma cors_next corsOrigins next w r :
  unsent w → ∃ w', unsent w' ∧ corsMiddleware corsOrigins next w r =
    if String.eqb (rq_Method r) "OPTIONS" then WriteHeader w' StatusNoContent else next w' r.
Proof.
  intros Hw. unfold corsMiddleware. eexists. split; [|reflexivity]. by destruct (_ && _).
Qed.

Definition mutating (ep : endpoint) : bool :=
  match ep with
  | EpCreatePolicy | EpUpdatePolicy | EpDeletePolicy | EpCreateNamespace | EpDeleteNamespace => true
  | _ => false
  end.

Lemma mutating_method p n b r :
  r ∈ api_routes p n b → mutating (mr_handler r) = true → mr_method r ∈ ["POST"; "PUT"; "DELETE"].
Proof.
  intros Hr. assert (Forall (λ r, mutating (mr_handler r) = true → mr_method r ∈ ["POST"; "PUT"; "DELETE"])
    (api_routes p n b)) as H'.
  { apply (bool_decide_unpack _). by destruct p, n, b; vm_compute. }
  rewrite Forall_forall in H'. by apply H'.
Qed.

Lemma handle_keeps st am ep w r :
  mutating ep = false →
  as_pol (handle st am ep w r).1 = as_pol st ∧ as_ns (handle st am ep w r).1 = as_ns st.
Proof.
  intros Hm. destruct st as [[] [] []], ep; try discriminate Hm; split; reflexivity.
Qed.

Lemma cleanPath_nil : cleanPath [] ≠ [].
Proof. done. Qed.

Lemma pathUnescape_nonempty s : s ≠ [] → pathUnescape s ≠ [].
Proof.
  intros Hs. unfold pathUnescape. destruct s as [|c s]; [done|]. cbn [PathUnescape].
  destruct (Ascii.eqb c "%"); [destruct s as [|h [|l s]]; try done|].
  - by destruct (hex_value h), (hex_value l), (PathUnescape s).
  - by destruct (PathUnescape s).
Qed.

Local Abbreviation mux := (api_mux quote decode_rule decode_ns opens file_server redirect_url).
Local Abbreviation srv := (serve quote decode_rule decode_ns opens file_server redirect_url).

(** No request makes the handlers panic. *)
Lemma mux_total st am hr w : is_Some (mux st am hr w).2.
Proof.
  unfold api_mux, ServeMux. destruct (decide _) as [Hc|]; [|by eexists].
  destruct (match_routes _ _ _) as [[ep vs]|]; [by destruct (handle _ _ _ _ _); eexists|].
  cbn [snd]. unfold WebHandler. assert (pathUnescape (hr_Path hr) ≠ []) as Hne.
  { apply pathUnescape_nonempty. intros He. rewrite He in Hc. by apply cleanPath_nil. }
  destruct (decide _); [by eexists|]. destruct (pathUnescape (hr_Path hr)); [done|by eexists].
Qed.

(** C12: Every answer of the REST server is well-typed.  No request makes a
    handler panic; OPTIONS is answered 204 without a body and changes nothing; a
    request that reaches an endpoint gets exactly one body, the JSON value of that
    endpoint with the endpoint's status - or 204 and no body for a deletion - or a
    text with one of the endpoint's error statuses; an unclean path gets 301; the
    policies and namespaces change only by a POST, PUT or DELETE that reaches one
    of the five endpoints that change them; and everything else is given to the
    embedded web pages, also an API path with a method it has no route for: there
    is no 404 or 405. *)
Theorem api_responses_typed corsOrigins st am hr :
  let method := hr_Method hr in
  let target := ServeMux (routes_of st) method (hr_Path hr) in
  let '(st', w') := srv corsOrigins st am hr in
  (∀ w, is_Some (mux st am hr w).2) ∧
  (method = "OPTIONS" → response_status w' = StatusNoContent ∧ response_body w' = [] ∧ st' = st) ∧
  (method ≠ "OPTIONS" →
     (∀ ep vs, target = Handle ep vs → typed_answer ep w') ∧
     (∀ q, target = Redirect q → response_status w' = 301) ∧
     (target = CatchAll →
        st' = st ∧ ∃ path w, unsent w ∧ w' = file_server path w ∧
          (path = [slash] ∨ path = pathUnescape (hr_Path hr)))) ∧
  ((as_pol st', as_ns st') ≠ (as_pol st, as_ns st) →
     method ∈ ["POST"; "PUT"; "DELETE"] ∧ ∃ ep vs, target = Handle ep vs ∧ mutating ep = true).
Proof.
  cbv zeta. unfold serve.
  destruct (cors_next corsOrigins (λ w _, default w (mux st am hr w).2) new_writer (request_of hr []))
    as (w0 & Hw0 & ->); [done|]. cbn [request_of rq_Method].
  split; [intros; apply mux_total|]. split.
  { intros ->. rewrite String.eqb_refl. destruct Hw0 as [Hs Hb]. destruct w0; simpl in *; by subst. }
  split.
  - intros Hm. apply String.eqb_neq in Hm. rewrite Hm. unfold api_mux. split_and!.
    + intros ep vs Ht. rewrite Ht.
      assert (∃ r, r ∈ routes_of st ∧ mr_handler r = ep ∧ vs.*1 = wild_names (mr_pat r) ∧
        Forall (λ nv, nv.2 ≠ "" ∧ nv.2 ≠ "/") vs) as (r & Hin & <- & Hk & Hv).
      { unfold ServeMux in Ht. destruct (decide _) as [Hc|]; [|done].
        destruct (match_routes _ _ _) as [[ep' vs']|] eqn:Em; [|done]. injection Ht as -> ->.
        apply match_routes_Some in Em as (r & Hin & Hh & _ & Hs); [|apply api_routes_exclusive].
        destruct (match_segs_values _ _ _ (segments_clean _ Hc) Hs). eauto. }
      unfold routes_of in Hin. pose proof (api_routes_wild _ _ _ _ Hin) as Hw. rewrite Hw in Hk.
      pose proof (handle_typed st am (mr_handler r) w0 hr vs Hw0 (routes_ready st r Hin) Hk Hv) as Hty.
      by destruct (handle st am (mr_handler r) w0 (request_of hr vs)).
    + intros q ->. cbn [snd default]. unfold http_Redirect. destruct Hw0 as [Hs Hb].
      destruct w0 as [h sent body]; simpl in *; subst.
      by destruct (String.eqb _ "GET"), (String.eqb _ "HEAD").
    + intros Ht. rewrite Ht. split; [done|]. cbn [snd].
      pose proof (mux_total st am hr w0) as [w1 Hw1]. unfold api_mux in Hw1. rewrite Ht in Hw1. cbn [snd] in Hw1.
      rewrite Hw1. unfold WebHandler in Hw1. destruct (decide _) as [Hroot|].
      * cbn in Hw1. destruct (opens _); injection Hw1 as <-; eauto 10.
      * destruct (pathUnescape (hr_Path hr)) as [|c p]; [done|]. destruct (opens p); injection Hw1 as <-; eauto 10.
  - intros Hne. destruct (String.eqb (hr_Method hr) "OPTIONS"); [done|]. unfold api_mux in Hne.
    destruct (ServeMux _ _ _) as [q|ep vs|] eqn:Ht; cbn [fst] in Hne; [done| |done].
    assert (mutating ep = true) as Hmu.
    { destruct (mutating ep) eqn:Hmu; [done|].
      destruct (handle_keeps st am ep new_writer (request_of hr vs) Hmu) as [H1 H2].
      destruct (handle st am ep new_writer (request_of hr vs)). cbn [fst] in *. congruence. }
    split; [|eauto]. unfold ServeMux in Ht. destruct (decide _) as [Hc|]; [|done].
    destruct (match_routes _ _ _) as [[ep' vs']|] eqn:Em; [|done]. injection Ht as -> ->.
    apply match_routes_Some in Em as (r & Hin & <- & Hmeth & _); [|apply api_routes_exclusive].
    pose proof (mutating_method _ _ _ _ Hin Hmu) as Hmm. unfold method_matches in Hmeth.
    apply orb_true_iff in Hmeth as [He|[He _]%andb_true_iff]; apply String.eqb_eq in He; [by rewrite <- He|].
    rewrite He in Hmm. by apply (bool_decide_unpack _) in Hmm || (rewrite !elem_of_cons, elem_of_nil in Hmm; naive_solver).
Qed.
End responses.

(** A wrong method and an unknown path below [/api]. *)
Example wrong_method_is_web : ServeMux (api_routes true true true) "POST" (bytes_of "/api/v1/agents") = CatchAll.
Proof. vm_compute. reflexivity. Qed.
Example unknown_api_is_web : ServeMux (api_routes true true true) "GET" (bytes_of "/api/v2/agents") = CatchAll.
Proof. vm_compute. reflexivity. Qed.
Example head_is_get : ServeMux (api_routes true true true) "HEAD" (bytes_of "/api/v1/agents/a%2Fb") =
  Handle EpGetAgent [("peer_id", "a/b")].
Proof. vm_compute. reflexivity. Qed.
