(* ===== verification/Mcp.v ===== *)
(** * The MCP tools and the health endpoint
    ([src/internal/mcp/tools.go], [server.go], [src/internal/health/health.go])

    The tool handlers read the registry and the libp2p host.  A request's
    arguments arrive decoded by the MCP library, as a parameter; the texts of the
    results are kept as constructors with the values printed in them.  The host
    is what the handlers ask it for. *)
From stdpp Require Import gmap strings list sorting.
From Stdlib Require Import ZArith Lia.
From S2P Require Import Prelude GoStd Registry RegistryInv RegistryDiscover Federation Http Api.

Local Open Scope Z_scope.

(** ** The host *)

Record Host := mkHost {
  host_ID : string;
  host_Addrs : list string;
  host_Peers : list (string * bool)   (* peer and whether it is connected *)
}.

(** ** [discover_agents] *)

Record agentResult := mkAgentResult {
  agr_PeerID : string;
  agr_AgentName : string;
  agr_Description : string;
  agr_Skills : list string
}.

Record skillSummary := mkSkillSummary {
  ss_SkillID : string;
  ss_Description : string;
  ss_AgentCount : Z
}.

Record relayInfo := mkRelayInfo {
  ri_PeerID : string;
  ri_ListenAddrs : list string;
  ri_ConnectedPeers : Z;
  ri_RegisteredAgts : Z
}.

Inductive tool_result :=
| ToolError (msg : string)
| NoAgentsFound (skillID : string)
| FoundAgents (n : Z) (skillID : string) (results : list agentResult)
| NoSkillsRegistered
| SkillsAvailable (n : Z) (skills : list skillSummary)
| RelayInfoText (info : relayInfo).

Definition toAgentResult (reg : Registration) : agentResult :=
  mkAgentResult (PeerID reg) (AgentName reg) (AgentDescription reg) (map SkillID (Skills reg)).

(** [skill_id]: the required argument, if it is a string; [limitArg]: the
    [limit] argument or its default of 20. *)
Definition handleDiscoverAgents (a : RegRead) (skill_id : option string) (limitArg : Z) : tool_result :=
  match skill_id with
  | None => ToolError "skill_id is required"
  | Some skillID =>
    let limit := limitArg in
    let limit := if limit >? 100 then 100 else limit in
    let regs := DiscoverBySkill (rd_reg a) (rd_ord a) (rd_ordF a) (rd_now a) skillID ∅ limit true in
    let results := map toAgentResult regs in
    if len results =? 0 then NoAgentsFound skillID
    else FoundAgents (len results) skillID results
  end.

(** ** [list_skills] *)

(** The map from skill IDs to summaries: the first description seen stays. *)
Definition count_skill (skillMap : gmap string skillSummary) (sk : SkillInfo)
    : gmap string skillSummary :=
  match skillMap !! SkillID sk with
  | Some e =>
    <[SkillID sk := mkSkillSummary (ss_SkillID e) (ss_Description e) (ss_AgentCount e + 1)]> skillMap
  | None => <[SkillID sk := mkSkillSummary (SkillID sk) (Description sk) 1]> skillMap
  end.

Definition mcp_handleListSkills (a : RegRead) (ord : RangeOrder) : tool_result :=
  let allRegs := AllRegistrations (rd_reg a) (rd_ord a) (rd_now a) in
  let skillMap :=
    foldl (λ m reg, foldl count_skill m (Skills reg)) (∅ : gmap string skillSummary) allRegs in
  let skills := range_values ord skillMap in
  if len skills =? 0 then NoSkillsRegistered else SkillsAvailable (len skills) skills.

(** ** [get_relay_info] *)

Definition handleGetRelayInfo (r : Registry) (h : Host) : tool_result :=
  let connectedPeers := len (filter (λ p, p.2 = true) (host_Peers h)) in
  RelayInfoText {| ri_PeerID := host_ID h; ri_ListenAddrs := host_Addrs h;
                   ri_ConnectedPeers := connectedPeers; ri_RegisteredAgts := Count r |}.

(** The tools [registerTools] offers. *)
Definition tool_names : list string := ["discover_agents"; "list_skills"; "get_relay_info"].

(** [New]: the defaulted listen address. *)
Definition mcp_listen_addr (cfgListenAddr : string) : string :=
  if String.eqb cfgListenAddr "" then ":8080" else cfgListenAddr.

(** ** [GET /health] *)

Inductive Status := StatusHealthy | StatusDegraded | StatusUnhealthy.

Record HealthResponse := mkHealthResponse {
  hr_Status : Status;
  hr_Version : string;
  hr_PeerID : string;
  hr_Uptime : Z;
  hr_Registry : RegistryStats;
  hr_Federation : option FederationHealth;
  hr_ConnectedPeers : Z
}.

(** [now] is the clock when the uptime is computed; the uptime is kept in
    nanoseconds. *)
Definition handleHealth (version : string) (startTime now : Z) (h : Host) (r : Registry)
    (fed : option (Federation * RangeOrder * Z)) (w : ResponseWriter HealthResponse)
    : ResponseWriter HealthResponse :=
  let fh := match fed with
            | Some (f, ord, nowF) => Some (HealthStatus f ord nowF)
            | None => None
            end in
  let status := match fh with
                | Some fh =>
                  if (Peers fh >? 0) && (HealthyPeers fh <? Peers fh)
                  then StatusDegraded else StatusHealthy
                | None => StatusHealthy
                end in
  let resp := {| hr_Status := status; hr_Version := version; hr_PeerID := host_ID h;
                 hr_Uptime := now - startTime; hr_Registry := Stats r; hr_Federation := fh;
                 hr_ConnectedPeers := len (host_Peers h) |} in
  Write (Header_Set w "Content-Type" "application/json") (BodyJson resp).

(** ** The skills map *)

Lemma count_skill_fold (sks : list SkillInfo) m :
  (∀ k e, m !! k = Some e → ss_SkillID e = k) →
  let m' := foldl count_skill m sks in
  (∀ k e, m' !! k = Some e → ss_SkillID e = k) ∧
  (∀ k, default 0 (ss_AgentCount <$> m' !! k) =
     default 0 (ss_AgentCount <$> m !! k) + occurrences k (SkillID <$> sks)) ∧
  (∀ k, is_Some (m' !! k) ↔ is_Some (m !! k) ∨ k ∈ SkillID <$> sks).
Proof.
  revert m. induction sks as [|sk sks IH]; intros m Hk; cbn [foldl].
  { split_and!; [done| |].
    - intros k. change (occurrences k (SkillID <$> [])) with 0. lia.
    - intros k. split; [by left|]. by intros [?|?%elem_of_nil]. }
  assert (∀ k, count_skill m sk !! k =
    if decide (SkillID sk = k)
    then Some (mkSkillSummary k (from_option ss_Description (Description sk) (m !! k))
                 (default 0 (ss_AgentCount <$> m !! k) + 1))
    else m !! k) as Hstep.
  { intros k. unfold count_skill. destruct (m !! SkillID sk) as [e|] eqn:He;
      rewrite lookup_insert; case_decide as Hd; subst; rewrite ?He; simpl; try done.
    by rewrite (Hk _ _ He). }
  destruct (IH (count_skill m sk)) as (H1 & H2 & H3).
  { intros k e. rewrite Hstep. case_decide; [by intros [= <-]|apply Hk]. }
  split_and!; [exact H1| |].
  - intros k. rewrite H2, Hstep, fmap_cons.
    replace (occurrences k (SkillID sk :: (SkillID <$> sks)))
      with ((if decide (SkillID sk = k) then 1 else 0) + occurrences k (SkillID <$> sks)).
    + case_decide; simpl; lia.
    + unfold occurrences. rewrite filter_cons. case_decide; rewrite ?len_cons; lia.
  - intros k. rewrite H3, Hstep, fmap_cons, elem_of_cons.
    case_decide as Hd; [|naive_solver].
    split; [intros _; right; by left|]. intros _. left. by eexists.
Qed.

Lemma NoDup_range_values_of {A} (f : A → string) (ord : RangeOrder) (m : gmap string A) :
  (∀ k x, m !! k = Some x → f x = k) → NoDup (f <$> range_values ord m).
Proof.
  intros Hf. unfold range_values. apply (NoDup_fmap_omap_inv _ f); [|apply NoDup_range].
  intros k x. apply Hf.
Qed.

(** The summaries of [list_skills], before they are printed. *)
Definition mcp_skills (a : RegRead) (ord : RangeOrder) : list skillSummary :=
  range_values ord (foldl (λ m reg, foldl count_skill m (Skills reg)) (∅ : gmap string skillSummary)
    (AllRegistrations (rd_reg a) (rd_ord a) (rd_now a))).

(** A description is that of an offer, the first one of the skill. *)
Lemma count_skill_description (sks : list SkillInfo) m k e :
  foldl count_skill m sks !! k = Some e →
  (∃ sk, sk ∈ sks ∧ SkillID sk = k ∧ Description sk = ss_Description e) ∨
  (∃ e0, m !! k = Some e0 ∧ ss_Description e0 = ss_Description e).
Proof.
  revert m. induction sks as [|sk sks IH]; intros m; cbn [foldl]; [eauto|].
  intros [(sk' & Hin & Hsk)|(e0 & He & Hd)]%IH; [left; exists sk'; split; [by right|done]|].
  unfold count_skill in He.
  destruct (m !! SkillID sk) as [old|] eqn:Ho; apply lookup_insert_Some in He as [[<- <-]|[_ He]]; eauto.
  left. exists sk. split; [by left|done].
Qed.

Lemma elem_of_offers sk (regs : list Registration) :
  sk ∈ concat (map Skills regs) ↔ ∃ reg, reg ∈ regs ∧ sk ∈ Skills reg.
Proof.
  rewrite list_elem_of_In, in_concat. setoid_rewrite in_map_iff. setoid_rewrite list_elem_of_In. naive_solver.
Qed.

Lemma mcp_skills_spec a ord :
  let live := live_of (entries (rd_reg a)) (rd_now a) in
  NoDup (ss_SkillID <$> mcp_skills a ord) ∧
  (∀ id n, (∃ d, mkSkillSummary id d n ∈ mcp_skills a ord) ↔
     id ∈ offered_ids live ∧ n = occurrences id (offered_ids live)) ∧
  (∀ s, s ∈ mcp_skills a ord → ∃ reg sk, reg ∈ live ∧ sk ∈ Skills reg ∧
     SkillID sk = ss_SkillID s ∧ Description sk = ss_Description s).
Proof.
  cbv zeta. unfold mcp_skills. set (regs := AllRegistrations _ _ _).
  assert (regs ≡ₚ live_of (entries (rd_reg a)) (rd_now a)) as Hr by (unfold regs, AllRegistrations; by rewrite live_of_perm).
  pose proof (offered_ids_perm _ _ Hr) as Hp.
  assert (∀ l m, foldl (λ m reg, foldl count_skill m (Skills reg)) m l =
    foldl count_skill m (concat (map Skills l))) as Hflat.
  { induction l as [|reg l IH]; intros m; [done|]. cbn [foldl map concat]. by rewrite foldl_app, IH. }
  assert (SkillID <$> concat (map Skills regs) = offered_ids regs) as Hids.
  { unfold offered_ids. clear. induction regs as [|reg l IH]; [done|].
    cbn [map concat]. by rewrite fmap_app, IH. }
  rewrite Hflat. destruct (count_skill_fold (concat (map Skills regs)) ∅) as (H1 & H2 & H3).
  { by intros k e ?%lookup_empty_Some. }
  split; [by apply NoDup_range_values_of|]. split.
  - intros id n. rewrite <- Hp, <- Hids. specialize (H2 id). specialize (H3 id). rewrite lookup_empty in H2, H3. split.
    + intros (d & [k Hk]%elem_of_range_values). pose proof (H1 _ _ Hk) as E. cbn in E. subst k. rewrite Hk in H2, H3.
      destruct (proj1 H3 (mk_is_Some _ _ eq_refl)) as [[? ?]|]; [done|]. split; [done|]. cbn in H2. lia.
    + intros [Hin ->]. destruct (proj2 H3 (or_intror Hin)) as [[id' d n] Hs]. exists d.
      apply elem_of_range_values. exists id. rewrite Hs in H2. cbn in H2. rewrite Hs.
      pose proof (H1 _ _ Hs) as E. cbn in E. by subst.
  - intros s [k Hk]%elem_of_range_values. pose proof (H1 _ _ Hk) as E. subst k.
    apply count_skill_description in Hk as [(sk & (reg & Hreg & Hin)%elem_of_offers & Hsk)|(e0 & ?%lookup_empty_Some & _)];
      [|done]. exists reg, sk. by rewrite <- Hr.
Qed.
