(* ===== verification/McpProps.v ===== *)
(** * What the MCP tools and the health endpoint guarantee *)
From stdpp Require Import gmap strings list sorting.
From Stdlib Require Import ZArith Lia.
From S2P Require Import Prelude GoStd Registry RegistryInv RegistryDiscover Federation Http Api Mcp.

Local Open Scope Z_scope.

Definition ex_cfg : Registry.Config := Registry.mkConfig (30 * Second) 4 4 0.
Definition ex_local : Registry :=
  (Register (Registry_New ex_cfg) 100 "p" [mkSkillInfo "sum" "adds" ∅] "P" "").1.

Lemma ex_local_reachable : reachable ex_cfg ex_local.
Proof. by eapply (reach_step _ _ (OpRegister 100 "p" [mkSkillInfo "sum" "adds" ∅] "P" "")); [constructor|]. Qed.

(** C38: [discover_agents] without a skill is an error; otherwise it reports
    nobody exactly when no live registration, local or federated, offers the
    skill, and else between 1 and 100 different agents that do, as many as the
    limit lets through.  [list_skills] lists exactly the skills that live local
    registrations offer, each once, with the number of their offers and the
    description of one of them, and says that there are none exactly when there
    are none - skills that only federated agents offer are not listed, although
    [discover_agents] finds them. *)
Theorem mcp_tools cfg (a : RegRead) (ord : RangeOrder) (skill : string) (limit : Z)
    (Hr : reachable cfg (rd_reg a)) :
  handleDiscoverAgents a None limit = ToolError "skill_id is required" ∧
  (match handleDiscoverAgents a (Some skill) limit with
   | NoAgentsFound s => s = skill ∧ scan_all (rd_reg a) (rd_now a) skill ∅ true = []
   | FoundAgents n s results =>
       s = skill ∧ n = len results ∧ 1 <= n <= 100 ∧
       n = Z.min (clampLimit (Z.min limit 100)) (len (scan_all (rd_reg a) (rd_now a) skill ∅ true)) ∧
       NoDup (agr_PeerID <$> results) ∧
       ∀ x, x ∈ results → skill ∈ agr_Skills x ∧ ∃ reg, x = toAgentResult reg ∧
         rd_now a <= ExpiresAt reg ∧
         (entries (rd_reg a) !! agr_PeerID x = Some reg ∨ federated (rd_reg a) !! agr_PeerID x = Some reg)
   | _ => False
   end) ∧
  (let live := live_of (entries (rd_reg a)) (rd_now a) in
   match mcp_handleListSkills a ord with
   | NoSkillsRegistered => offered_ids live = []
   | SkillsAvailable n skills =>
       n = len skills ∧ skills ≠ [] ∧ NoDup (ss_SkillID <$> skills) ∧
       (∀ id count, (∃ d, mkSkillSummary id d count ∈ skills) ↔
          id ∈ offered_ids live ∧ count = occurrences id (offered_ids live)) ∧
       (∀ s, s ∈ skills → ∃ reg sk, reg ∈ live ∧ sk ∈ Skills reg ∧
          SkillID sk = ss_SkillID s ∧ Description sk = ss_Description s)
   | _ => False
   end).
Proof.
  pose proof (reachable_wf _ _ Hr) as Hwf. split; [done|]. split.
  - unfold handleDiscoverAgents. cbv zeta. set (lim := if limit >? 100 then 100 else limit).
    assert (lim = Z.min limit 100) as Hmin by (unfold lim; destruct (limit >? 100) eqn:E; bool_to_prop; lia).
    assert (clampLimit lim <= 100) as Hlim.
    { unfold lim. clear. destruct (limit >? 100) eqn:E; [done|].
      unfold clampLimit, DefaultDiscoverLimit, MaxDiscoverLimit. case_ifs; bool_to_prop; lia. }
    pose proof (clampLimit_range lim) as Hpos.
    destruct (DiscoverBySkill_facts (rd_reg a) (rd_ord a) (rd_ordF a) (rd_now a) skill ∅ lim true Hwf)
      as (Hlen & Hnd & Hall).
    destruct (DiscoverBySkill_scan (rd_reg a) (rd_ord a) (rd_ordF a) (rd_now a) skill ∅ lim true Hwf)
      as (locals & feds & Hl & Hf & Hd).
    pose proof (scan_all_perm _ _ _ _ true _ _ Hl Hf) as Hp.
    set (regs := DiscoverBySkill _ _ _ _ _ _ _ _) in *.
    assert (len (map toAgentResult regs) = len regs) as Hmap by (unfold len; by rewrite length_map).
    rewrite Hmap. destruct (len regs =? 0) eqn:Hz; bool_to_prop.
    + split; [done|]. apply len_zero_inv in Hz. rewrite Hz in Hd.
      destruct (locals ++ feds) as [|x l] eqn:E; [by apply Permutation_nil|].
      replace (Z.to_nat (clampLimit lim)) with (S (Z.to_nat (clampLimit lim - 1))) in Hd by lia.
      done.
    + split_and!; [done|done|pose proof (len_nonneg regs); lia|lia| | |].
      * rewrite Hd, <- Hmin. unfold len. rewrite <- Hp, length_take. lia.
      * change (NoDup (map agr_PeerID (map toAgentResult regs))). by rewrite map_map.
      * intros x Hx. apply list_elem_of_fmap in Hx as (reg & -> & Hreg).
        destruct (Hall reg Hreg) as (Hh & Hexp & Hst). split.
        -- by apply hasSkill_skill_ids in Hh.
        -- exists reg. split_and!; [done|done|]. simpl. naive_solver.
  - unfold mcp_handleListSkills. cbv zeta. fold (mcp_skills a ord).
    destruct (mcp_skills_spec a ord) as (Hnd & Hs & Hdesc).
    destruct (len (mcp_skills a ord) =? 0) eqn:Hz; bool_to_prop.
    + apply len_zero_inv in Hz. rewrite Hz in Hs. apply elem_of_nil_inv. intros id Hid.
      destruct (proj2 (Hs id _) (conj Hid eq_refl)) as [d ?%elem_of_nil]. done.
    + split_and!; [done|intros E; by rewrite E in Hz; apply Hz|done..].
Qed.

Lemma mcp_tools_witness :
  ∃ results, handleDiscoverAgents (mkRegRead ex_local 200 canonical_order canonical_order)
    (Some "sum") 1000 = FoundAgents 1 "sum" results ∧ NoDup (agr_PeerID <$> results).
Proof.
  destruct (mcp_tools ex_cfg (mkRegRead ex_local 200 canonical_order canonical_order)
    canonical_order "sum" 1000 ex_local_reachable) as (_ & H & _).
  eexists. split; [vm_compute; reflexivity|]. by destruct H as (_ & _ & _ & _ & H & _).
Defined.

(** C39: The health endpoint says "degraded" exactly when federation is on and
    some connected peer is backing off at that moment, and otherwise "healthy";
    it never says "unhealthy".  Version, peer ID, uptime, the statistics of the
    registry and the number of connected hosts are what they are.  The federation
    details list every connected peer once, with the failures and the end of the
    backoff that the manager keeps for it: a peer is healthy, and without such an
    end, exactly when it is not backing off; and as many are healthy as reported. *)
Theorem health_status version startTime now h r fed :
  ∃ resp, response (handleHealth version startTime now h r fed new_writer) =
    (StatusOK, {["Content-Type" := "application/json"]}, [BodyJson resp]) ∧
  hr_Status resp ≠ StatusUnhealthy ∧ hr_Version resp = version ∧ hr_PeerID resp = host_ID h ∧
  hr_Uptime resp = now - startTime ∧ hr_Registry resp = Stats r ∧ hr_ConnectedPeers resp = len (host_Peers h) ∧
  (hr_Status resp = StatusDegraded ↔
     ∃ f ord nowF addr, fed = Some (f, ord, nowF) ∧ addr ∈ clients f ∧
       ∃ st, peerStates f !! addr = Some st ∧ nowF < backoffUntil st) ∧
  (fed = None → hr_Federation resp = None) ∧
  (∀ f ord nowF, fed = Some (f, ord, nowF) → ∃ fh, hr_Federation resp = Some fh ∧
     Peers fh = PeerCount f ∧ Peers fh = len (PeerDetails fh) ∧ 0 <= HealthyPeers fh <= Peers fh ∧
     (Address <$> PeerDetails fh) ≡ₚ elements (clients f) ∧
     HealthyPeers fh = len (filter (λ d, Healthy d = true) (PeerDetails fh)) ∧
     ∀ d, d ∈ PeerDetails fh →
       match peerStates f !! Address d with
       | None => Healthy d = true ∧ ConsecutiveFailures d = 0 ∧ BackoffUntil d = None
       | Some st =>
         ConsecutiveFailures d = consecutiveFailures st ∧
         (nowF < backoffUntil st → Healthy d = false ∧ BackoffUntil d = Some (backoffUntil st)) ∧
         (backoffUntil st <= nowF → Healthy d = true ∧ BackoffUntil d = None)
       end).
Proof.
  eexists. split; [reflexivity|]. cbn [hr_Status hr_Version hr_PeerID hr_Uptime hr_Registry hr_Federation hr_ConnectedPeers].
  destruct fed as [[[f ord] nowF]|].
  2:{ split_and!; try done. split; [done|]. by intros (? & ? & ? & ? & ? & _). }
  unfold HealthStatus. rewrite health_fold. cbn [Peers HealthyPeers PeerDetails].
  rewrite Z.add_0_l, app_nil_l.
  set (healthy := filter (λ addr, Healthy (peer_health f nowF addr)) (ord (clients f))).
  assert (len healthy <= set_len (clients f)) as Hle.
  { unfold len, set_len. rewrite <- (length_range ord). unfold healthy.
    pose proof (length_filter (λ addr, Healthy (peer_health f nowF addr)) (ord (clients f))). lia. }
  assert (∀ addr, Healthy (peer_health f nowF addr) = false ↔
    ∃ st, peerStates f !! addr = Some st ∧ nowF < backoffUntil st) as Hh.
  { intros addr. unfold peer_health, Before. destruct (peerStates f !! addr) as [st|]; simpl.
    - destruct (nowF <? backoffUntil st) eqn:E; bool_to_prop; simpl; split; try done; eauto.
      intros (? & [= <-] & ?). lia.
    - split; [done|]. by intros (? & ? & _). }
  assert (len healthy < set_len (clients f) ↔
    ∃ addr, addr ∈ clients f ∧ Healthy (peer_health f nowF addr) = false) as Hdeg.
  { unfold set_len, len. rewrite <- (length_range ord). unfold healthy.
    setoid_rewrite <- (elem_of_range ord). apply filter_shorter. }
  pose proof (len_nonneg healthy) as H0. split_and!.
  - by case_match.
  - done.
  - done.
  - done.
  - done.
  - done.
  - transitivity (len healthy < set_len (clients f)).
    + destruct (_ && _) eqn:E; bool_to_prop; [split; [intros _; done|done]|].
      split; [done|]. intros Hlt. apply andb_false_iff in E as [E|E]; [|bool_to_prop; lia].
      rewrite Z.gtb_ltb in E. bool_to_prop. lia.
    + rewrite Hdeg. setoid_rewrite Hh. naive_solver.
  - done.
  - intros f' ord' nowF' [= <- <- <-]. eexists. split; [done|]. cbn [Peers HealthyPeers PeerDetails].
    split_and!; [done| |lia|lia| | |].
    + unfold len, set_len. by rewrite length_fmap, length_range.
    + rewrite <- list_fmap_compose. rewrite <- (range_keys_perm ord). apply reflexive_eq.
      rewrite <- (list_fmap_id (ord (clients f))) at 2. apply list_fmap_ext.
      intros i addr _. simpl. unfold peer_health. by repeat case_match.
    + unfold healthy. clear. induction (ord (clients f)) as [|addr l IH]; [done|].
      rewrite fmap_cons, !filter_cons. destruct (Healthy (peer_health f nowF addr)) eqn:E; simpl;
        rewrite ?len_cons, ?IH; done.
    + intros d (addr & -> & _)%list_elem_of_fmap. unfold peer_health, Before.
      destruct (peerStates f !! addr) as [st|] eqn:Hst; cbn; [|by rewrite Hst].
      destruct (nowF <? backoffUntil st) eqn:E; bool_to_prop; cbn; rewrite Hst; split_and!; done || lia.
Qed.
