(* ===== verification/McpServer.v ===== *)
(** * The MCP server ([New], [Start], [Addr], [Close] of
    [src/internal/mcp/server.go])

    Unlike the other two servers this one listens in [Start] itself, so that a
    port that is taken is reported, and it is closed by closing its listener.
    [mcp_step] is one step of its goroutine, of a client or of a caller. *)
From stdpp Require Import base option list strings relations.
From Stdlib Require Import ZArith Lia.
From S2P Require Import Prelude GoStd Mcp.

Local Open Scope Z_scope.

(** The text of [net.ErrClosed]. *)
Definition ErrNetClosed : string := "use of closed network connection".

Inductive mcp_pc := MpNone | MpAccepting | MpExited (err : string).

(** [ms_listener]: the address the system gave, and whether the listener is open.
    [ms_conns]: requests being served.  [ms_log]: the errors logged. *)
Record McpServer := mkMcpServer {
  ms_tools : list string;
  ms_listenAddr : string;
  ms_listener : option (string * bool);
  ms_pc : mcp_pc;
  ms_conns : nat;
  ms_log : list string
}.

(** [New]; it returns no error. *)
Definition mcp_New (cfgListenAddr : string) : McpServer :=
  mkMcpServer tool_names (mcp_listen_addr cfgListenAddr) None MpNone 0 [].

Section mcp.
(** [net.Listen]: the address bound, or an error. *)
Context (net_Listen : string → string + string).

Definition mcp_Start (s : McpServer) : McpServer * option string :=
  match net_Listen (ms_listenAddr s) with
  | inr err => (s, Some ("MCP server listen: " +:+ err))
  | inl addr =>
    (mkMcpServer (ms_tools s) (ms_listenAddr s) (Some (addr, true)) MpAccepting (ms_conns s) (ms_log s), None)
  end.

Definition mcp_Addr (s : McpServer) : string :=
  match ms_listener s with Some (addr, _) => addr | None => "" end.

Definition mcp_Close (s : McpServer) : McpServer * option string :=
  match ms_listener s with
  | Some (addr, open) =>
    if open : bool
    then (mkMcpServer (ms_tools s) (ms_listenAddr s) (Some (addr, false)) (ms_pc s) (ms_conns s) (ms_log s), None)
    else (s, Some ErrNetClosed)
  | None => (s, None)
  end.

Definition ms_with_conns (s : McpServer) (n : nat) : McpServer :=
  mkMcpServer (ms_tools s) (ms_listenAddr s) (ms_listener s) (ms_pc s) n (ms_log s).

(** [http.Serve] returned: its server was never shut down, so the error is not
    [ErrServerClosed] and is logged.  [Serve] closes the listener. *)
Definition mcp_exit (s : McpServer) (err : string) : McpServer :=
  mkMcpServer (ms_tools s) (ms_listenAddr s) ((λ l, (l.1, false)) <$> ms_listener s) (MpExited err) (ms_conns s)
    (ms_log s ++ [err]).

(** The goroutine by itself. *)
Inductive mcp_serve (s : McpServer) : McpServer → Prop :=
| mcp_accept_closed addr :
    ms_pc s = MpAccepting → ms_listener s = Some (addr, false) → mcp_serve s (mcp_exit s ErrNetClosed).

(** [Start] is called once, on a new server. *)
Inductive mcp_step (s : McpServer) : McpServer → Prop :=
| mcp_start : ms_pc s = MpNone → ms_listener s = None → mcp_step s (mcp_Start s).1
| mcp_close : mcp_step s (mcp_Close s).1
| mcp_served s' : mcp_serve s s' → mcp_step s s'
| mcp_accept addr :
    ms_pc s = MpAccepting → ms_listener s = Some (addr, true) → mcp_step s (ms_with_conns s (S (ms_conns s)))
| mcp_accept_err addr err :
    ms_pc s = MpAccepting → ms_listener s = Some (addr, true) → mcp_step s (mcp_exit s err)
| mcp_answered n : ms_conns s = S n → mcp_step s (ms_with_conns s n).

(** ** Invariant *)

Definition mcp_open (s : McpServer) : bool := match ms_listener s with Some (_, b) => b | None => false end.

Record mcp_inv (cfgListenAddr : string) (s : McpServer) : Prop := {
  mv_config : ms_tools s = tool_names ∧ ms_listenAddr s = mcp_listen_addr cfgListenAddr;
  mv_listener addr b : ms_listener s = Some (addr, b) → net_Listen (ms_listenAddr s) = inl addr;
  mv_pc : match ms_pc s with
          | MpNone => ms_listener s = None ∧ ms_conns s = 0%nat ∧ ms_log s = []
          | MpAccepting => is_Some (ms_listener s) ∧ ms_log s = []
          | MpExited err => is_Some (ms_listener s) ∧ mcp_open s = false ∧ ms_log s = [err]
          end
}.

Lemma mcp_inv_New a : mcp_inv a (mcp_New a).
Proof. by split. Qed.

Lemma mcp_inv_Start a s :
  ms_pc s = MpNone → ms_listener s = None → mcp_inv a s → mcp_inv a (mcp_Start s).1.
Proof.
  intros Hp Hl Hi. pose proof Hi as [H1 H2 H3]. rewrite Hp in H3. unfold mcp_Start.
  destruct (net_Listen _) as [addr|err] eqn:E; cbn; [|done].
  split; cbn; [done|by intros ? ? [= <- <-]|naive_solver].
Qed.

Lemma mcp_inv_Close a s : mcp_inv a s → mcp_inv a (mcp_Close s).1.
Proof.
  intros [H1 H2 H3]. unfold mcp_Close. destruct (ms_listener s) as [[addr []]|] eqn:Hl; cbn; [|by split; rewrite ?Hl..].
  split; cbn; [done|intros ? ? [= <- <-]; eauto|]. destruct (ms_pc s); naive_solver.
Qed.

Lemma mcp_inv_exit a s err : ms_pc s = MpAccepting → mcp_inv a s → mcp_inv a (mcp_exit s err).
Proof.
  intros Hp [H1 H2 H3]. rewrite Hp in H3. destruct H3 as [[[addr b] Hl] Hlog].
  split; cbn; rewrite ?Hl; cbn; [done|intros ? ? [= <- <-]; eauto|]. rewrite Hlog. unfold mcp_open. cbn. by rewrite Hl.
Qed.

Lemma mcp_inv_step a s s' : mcp_inv a s → mcp_step s s' → mcp_inv a s'.
Proof.
  intros Hi Hs. destruct Hs as [Hp Hl| |s' [addr Hp Hl]|addr Hp Hl|addr err Hp Hl|n Hn];
    auto using mcp_inv_Start, mcp_inv_Close, mcp_inv_exit; destruct Hi as [H1 H2 H3]; split; cbn; auto.
  - by rewrite Hp in *.
  - by destruct (ms_pc s); [lia| |].
Qed.

Lemma mcp_inv_reach a s : rtc mcp_step (mcp_New a) s → mcp_inv a s.
Proof. apply rtc_preserves; [apply mcp_inv_step|apply mcp_inv_New]. Qed.

(** ** Once the listener is closed *)

Lemma mcp_closed_step a s s' :
  mcp_inv a s → is_Some (ms_listener s) → mcp_open s = false → mcp_step s s' →
  is_Some (ms_listener s') ∧ mcp_open s' = false ∧ mcp_Addr s' = mcp_Addr s ∧ (ms_conns s' <= ms_conns s)%nat.
Proof.
  unfold mcp_open. intros Hi [[addr b] Hl] Ho Hs. rewrite Hl in Ho. subst b.
  destruct Hs as [Hp Hn| |s' [addr' Hp Hl']|addr' Hp Hl'|addr' err Hp Hl'|n Hn]; try congruence;
    unfold mcp_Close, mcp_Addr; rewrite ?Hl; cbn; rewrite ?Hl; cbn; eauto with lia.
Qed.

Lemma mcp_closed_run a s s' :
  mcp_inv a s → is_Some (ms_listener s) → mcp_open s = false → rtc mcp_step s s' →
  is_Some (ms_listener s') ∧ mcp_open s' = false ∧ (ms_conns s' <= ms_conns s)%nat.
Proof.
  intros Hi Hl Ho Hrun. induction Hrun as [s|s s1 s' Hs _ IH]; [auto|].
  destruct (mcp_closed_step _ _ _ Hi Hl Ho Hs) as (H1 & H2 & _ & H3).
  destruct (IH (mcp_inv_step _ _ _ Hi Hs) H1 H2) as (H4 & H5 & H6). split_and!; [done|done|lia].
Qed.

(** The address stays. *)
Lemma mcp_Addr_step a s s' :
  mcp_inv a s → mcp_step s s' → is_Some (ms_listener s) → mcp_Addr s' = mcp_Addr s ∧ is_Some (ms_listener s').
Proof.
  intros Hi Hs [[addr b] Hl]. destruct Hs as [Hp Hn| |s' [addr' Hp Hl']|addr' Hp Hl'|addr' err Hp Hl'|n Hn];
    try congruence; unfold mcp_Close, mcp_Addr; rewrite ?Hl; try destruct b; cbn; rewrite ?Hl; cbn; eauto.
Qed.

Lemma mcp_Addr_run a s s' :
  mcp_inv a s → rtc mcp_step s s' → is_Some (ms_listener s) → mcp_Addr s' = mcp_Addr s.
Proof.
  intros Hi Hrun. induction Hrun as [s|s s1 s' Hs _ IH]; [done|]. intros Hl.
  destruct (mcp_Addr_step _ _ _ Hi Hs Hl) as [<- Hl1]. apply IH; [|done]. by eapply mcp_inv_step.
Qed.
End mcp.

(** C22: The life of the MCP server.  Over every interleaving of [Start], the
    serving goroutine, clients and [Close]: [Start] on a new server fails exactly
    when listening fails and then leaves it as it was; the address is empty before
    and the one the system gave ever after, closing included; [Close] of an open
    server stops accepting at once and for good but cuts off no request, a second
    one is an error, and one without [Start] does nothing.  The log has at most one
    error, written exactly when the goroutine ends - and a closed server's
    goroutine has one step left, which logs one: every orderly shutdown reports a
    server error. *)
Theorem mcp_server_lifecycle (net_Listen : string → string + string) a s
    (Hrun : rtc (mcp_step net_Listen) (mcp_New a) s) :
  ((mcp_Start net_Listen (mcp_New a)).2 = None ↔ ∃ addr, net_Listen (mcp_listen_addr a) = inl addr) ∧
  ((mcp_Start net_Listen (mcp_New a)).2 ≠ None → (mcp_Start net_Listen (mcp_New a)).1 = mcp_New a) ∧
  (ms_listener s = None → mcp_Addr s = "" ∧ mcp_Close s = (s, None)) ∧
  (is_Some (ms_listener s) →
     net_Listen (mcp_listen_addr a) = inl (mcp_Addr s) ∧
     ∀ s', rtc (mcp_step net_Listen) s s' → mcp_Addr s' = mcp_Addr s) ∧
  (mcp_open s = true →
     (mcp_Close s).2 = None ∧ ms_conns (mcp_Close s).1 = ms_conns s ∧
     (mcp_Close (mcp_Close s).1).2 = Some ErrNetClosed ∧
     ∀ s', rtc (mcp_step net_Listen) (mcp_Close s).1 s' → mcp_open s' = false ∧ (ms_conns s' <= ms_conns s)%nat) ∧
  ms_log s = match ms_pc s with MpExited err => [err] | _ => [] end ∧
  (is_Some (ms_listener s) → mcp_open s = false → ms_pc s = MpAccepting →
     (∃ s', mcp_serve s s') ∧ ∀ s', mcp_serve s s' → ms_log s' = [ErrNetClosed] ∧ ∀ s'', ¬ mcp_serve s' s'').
Proof.
  pose proof (mcp_inv_reach _ _ _ Hrun) as Hi. pose proof Hi as [[H1 H1'] H2 H3]. split_and!.
  - unfold mcp_Start. cbn. destruct (net_Listen (mcp_listen_addr a)); naive_solver.
  - unfold mcp_Start. cbn. by destruct (net_Listen (mcp_listen_addr a)).
  - intros Hl. unfold mcp_Addr, mcp_Close. by rewrite Hl.
  - intros Hl. pose proof Hl as [[addr b] Hl']. split.
    + unfold mcp_Addr. rewrite Hl', <- H1'. by eapply H2.
    + intros s' Hs'. by eapply mcp_Addr_run.
  - intros Ho. unfold mcp_open in Ho. destruct (ms_listener s) as [[addr b]|] eqn:Hl; [subst b|done].
    pose proof (mcp_inv_Close _ a s Hi) as Hi'. revert Hi'. unfold mcp_Close. rewrite Hl. cbn. intros Hi'.
    split_and!; [done..|]. intros s' Hs'. edestruct mcp_closed_run as (_ & ? & ?); [exact Hi'| | |exact Hs'|]; cbn; eauto.
  - destruct (ms_pc s); naive_solver.
  - intros [[addr b] Hl] Ho Hp. unfold mcp_open in Ho. rewrite Hl in Ho. subst b. rewrite Hp in H3.
    split; [eexists; by eapply mcp_accept_closed|]. intros s' [addr' _ _]. cbn.
    destruct H3 as [_ ->]. split; [done|]. intros s'' Hs''. destruct Hs'' as [? Hp' _]. done.
Qed.

(** A server that is started, gets a request and is closed. *)
Definition ex_listen (addr : string) : string + string :=
  if String.eqb addr ":8080" then inl "[::]:8080" else inr "address already in use".
Definition ex_mcp_serving : McpServer :=
  mkMcpServer tool_names ":8080" (Some ("[::]:8080", true)) MpAccepting 1 [].
Definition ex_mcp_closed : McpServer :=
  mkMcpServer tool_names ":8080" (Some ("[::]:8080", false)) MpAccepting 1 [].

Lemma ex_mcp_run : rtc (mcp_step ex_listen) (mcp_New "") ex_mcp_serving.
Proof.
  eapply rtc_l; [by apply mcp_start|]. apply rtc_once. by eapply mcp_accept.
Qed.

Lemma ex_mcp_closed_run : rtc (mcp_step ex_listen) (mcp_New "") ex_mcp_closed.
Proof. eapply rtc_r; [exact ex_mcp_run|]. exact (mcp_close ex_listen ex_mcp_serving). Qed.

Lemma mcp_server_lifecycle_witness :
  (mcp_Close (mcp_Close ex_mcp_serving).1).2 = Some ErrNetClosed ∧
  ∃ s', mcp_serve ex_mcp_closed s' ∧ ms_log s' = [ErrNetClosed].
Proof.
  destruct (mcp_server_lifecycle ex_listen "" ex_mcp_serving ex_mcp_run) as (_ & _ & _ & _ & Hc & _).
  destruct (mcp_server_lifecycle ex_listen "" ex_mcp_closed ex_mcp_closed_run) as (_ & _ & _ & _ & _ & _ & Hl).
  split; [by apply (Hc eq_refl)|].
  destruct (Hl (mk_is_Some _ _ eq_refl) eq_refl eq_refl) as [[s' Hs'] Hlog].
  exists s'. split; [exact Hs'|]. by apply Hlog.
Defined.
