(* ===== verification/HealthServer.v ===== *)
(** * The health server's routes ([New] of [src/internal/health/health.go])

    Two patterns and nothing for ["/"]: what matches neither is answered by
    [ServeMux] itself, with 405 when another method would do and with 404
    otherwise. *)
From stdpp Require Import gmap strings list.
From Stdlib Require Import ZArith Lia Ascii.
From S2P Require Import Prelude GoStd GoMatch GoMux Registry Federation Http Mcp.

Local Open Scope Z_scope.

Inductive health_endpoint := EpHealth | EpMetrics.

#[export] Instance health_endpoint_eq_dec : EqDecision health_endpoint.
Proof. solve_decision. Defined.

Definition health_routes : list (mux_route health_endpoint) :=
  [HandleFunc "GET /health" EpHealth; HandleFunc "GET /metrics" EpMetrics].

(** ** What [ServeMux] answers without a pattern for ["/"] *)

(** [matchingMethods]: those of the patterns for the path, or for the path with a
    slash after it, and HEAD with GET; sorted. *)
Definition matchingMethods {A} (routes : list (mux_route A)) (path : bytes) : list string :=
  let matching segs := filter (λ r, is_Some (match_segs (mr_pat r) segs)) routes in
  let rs := matching (segments path) ++
    (if bool_decide (last path = Some slash) then [] else matching (segments (path ++ [slash]))) in
  let ms := mr_method <$> rs in
  let ms := if bool_decide ("GET" ∈ ms) then "HEAD" :: ms else ms in
  insertion_sort str_lt (remove_dups ms).

Definition strings_Join (l : list string) (sep : string) : string :=
  match l with [] => "" | s :: l => foldl (λ acc x, acc +:+ sep +:+ x) s l end.

Section health.
Context {J : Type}.
Notation Writer := (ResponseWriter J).

Definition no_match {A} (routes : list (mux_route A)) (path : bytes) (w : Writer) : Writer :=
  match matchingMethods routes path with
  | [] => http_Error w "404 page not found" StatusNotFound
  | ms => http_Error (Header_Set w "Allow" (strings_Join ms ", ")) "Method Not Allowed" StatusMethodNotAllowed
  end.

(** The text of a redirect's URL; the handler of the Prometheus library. *)
Context (redirect_url : bytes → string) (metrics : Writer → Writer) (health : Writer → Writer).

Definition health_mux (method : string) (path : bytes) (w : Writer) : Writer :=
  match ServeMux health_routes method path with
  | Redirect q => http_Redirect w method (redirect_url q)
  | Handle EpHealth _ => health w
  | Handle EpMetrics _ => metrics w
  | CatchAll => no_match health_routes path w
  end.
End health.

(** ** The table *)

Lemma health_routes_parsed :
  health_routes = [mkMuxRoute "GET" [Lit (bytes_of "health")] EpHealth;
                   mkMuxRoute "GET" [Lit (bytes_of "metrics")] EpMetrics].
Proof. vm_compute. reflexivity. Qed.

(** The endpoint a clean path names. *)
Definition health_target (path : bytes) : option health_endpoint :=
  if decide (segments path = [bytes_of "health"]) then Some EpHealth
  else if decide (segments path = [bytes_of "metrics"]) then Some EpMetrics
  else None.

Lemma match_one_lit (l : bytes) segs : match_segs [Lit l] segs = if decide (segs = [l]) then Some [] else None.
Proof.
  destruct segs as [|s [|]]; simpl; [done| |].
  - destruct (decide (s = l)) as [->|Hn]; [by rewrite decide_True|by rewrite decide_False by congruence].
  - rewrite (decide_False (P := s :: _ :: _ = [l])) by done. by destruct (decide (s = l)).
Qed.

Lemma health_dispatch method path :
  ServeMux health_routes method path =
    if decide (cleanPath path = path) then
      match health_target path with
      | Some ep => if method_matches "GET" method then Handle ep [] else CatchAll
      | None => CatchAll
      end
    else Redirect (cleanPath path).
Proof.
  unfold ServeMux. destruct (decide (cleanPath path = path)) as [_|]; [|done]. rewrite health_routes_parsed.
  cbn [match_routes mr_method mr_pat mr_handler]. rewrite !match_one_lit. unfold health_target.
  destruct (decide (segments path = [bytes_of "health"])) as [->|Hh]; [by destruct (method_matches _ _)|].
  destruct (decide (segments path = [bytes_of "metrics"])), (method_matches "GET" method); done.
Qed.

(** A path with a slash after it has one segment more. *)
Lemma segments_slash path : length (segments (path ++ [slash])) = S (length (segments path)).
Proof.
  unfold segments. assert (∀ l, split_slash (l ++ [slash]) = split_slash l ++ [[]]) as Hs.
  { induction l as [|c l IH]; [done|]. simpl. rewrite IH. destruct (Ascii.eqb c slash); [done|].
    destruct (split_slash l) as [|p ps] eqn:E; [|done]. destruct l; simpl in E; repeat case_match; done. }
  rewrite Hs. assert (∀ ps, length (segments_of ps) = length ps) as Hl.
  { induction ps as [|p ps IH]; [done|]. destruct p, ps; simpl in *; lia. }
  destruct (split_slash path) as [|p ps] eqn:E.
  - exfalso. destruct path; simpl in E; repeat case_match; done.
  - cbn [app tail]. rewrite !Hl, length_app. simpl. lia.
Qed.

Lemma cleanPath_rooted path : ∃ rest, cleanPath path = slash :: rest.
Proof.
  unfold cleanPath. set (cs := clean_parts [] (split_slash path)).
  assert (∃ rest, join_parts cs = slash :: rest) as [rest Hj] by (destruct cs; simpl; eauto).
  rewrite Hj. destruct (_ && _); simpl; eauto.
Qed.

Lemma split_slash_nonempty s : split_slash s ≠ [].
Proof. destruct s as [|c s]; simpl; [done|]. by destruct (Ascii.eqb c slash), (split_slash s). Qed.

Lemma segments_nonempty path : cleanPath path = path → segments path ≠ [].
Proof.
  intros Hc. destruct (cleanPath_rooted path) as [rest Hr]. rewrite <- Hc, Hr. unfold segments. simpl.
  pose proof (split_slash_nonempty rest). destruct (split_slash rest) as [|[] []]; done.
Qed.

Lemma filter_health_routes segs :
  filter (λ r, is_Some (match_segs (mr_pat r) segs)) health_routes =
    if decide (segs = [bytes_of "health"]) then [HandleFunc "GET /health" EpHealth]
    else if decide (segs = [bytes_of "metrics"]) then [HandleFunc "GET /metrics" EpMetrics] else [].
Proof.
  assert (∀ r, HandleFunc "GET /health" EpHealth = r → mr_pat r = [Lit (bytes_of "health")]) as H1 by by intros ? <-.
  assert (∀ r, HandleFunc "GET /metrics" EpMetrics = r → mr_pat r = [Lit (bytes_of "metrics")]) as H2 by by intros ? <-.
  unfold health_routes. rewrite !filter_cons, filter_nil, (H1 _ eq_refl), (H2 _ eq_refl), !match_one_lit.
  destruct (decide (segs = [bytes_of "health"])) as [->|]; [done|].
  by destruct (decide (segs = [bytes_of "metrics"])).
Qed.

Lemma health_methods path :
  cleanPath path = path →
  matchingMethods health_routes path = match health_target path with Some _ => ["GET"; "HEAD"] | None => [] end.
Proof.
  intros Hc. unfold matchingMethods.
  assert ((if bool_decide (last path = Some slash) then []
    else filter (λ r, is_Some (match_segs (mr_pat r) (segments (path ++ [slash])))) health_routes) = []) as ->.
  { destruct (bool_decide _); [done|]. rewrite filter_health_routes.
    assert (∀ l, segments (path ++ [slash]) ≠ [l]) as Hn.
    { intros l Hl. pose proof (segments_slash path) as Hs. rewrite Hl in Hs. simpl in Hs.
      pose proof (segments_nonempty path Hc). destruct (segments path); simpl in Hs; [done|lia]. }
    by rewrite !decide_False by apply Hn. }
  rewrite app_nil_r, filter_health_routes. unfold health_target.
  destruct (decide (segments path = [bytes_of "health"])); [vm_compute; reflexivity|].
  destruct (decide (segments path = [bytes_of "metrics"])); vm_compute; reflexivity.
Qed.

(** C34: Routing of the health server, for every request.  An unclean path is
    redirected to its clean form; [/health] and [/metrics], percent-encoded in
    whatever way, reach their handlers with GET and HEAD and answer every other
    method with 405 and the methods allowed; every other path, one with a slash
    after it included, is 404. *)
Theorem health_routing {J} (redirect_url : bytes → string) (metrics health : ResponseWriter J → ResponseWriter J)
    method path :
  let w' := health_mux redirect_url metrics health method path new_writer in
  (cleanPath path ≠ path →
     response_status w' = 301 ∧ response_header w' !! "Location" = Some (redirect_url (cleanPath path))) ∧
  (cleanPath path = path →
     (∀ ep, health_target path = Some ep → method = "GET" ∨ method = "HEAD" →
        w' = match ep with EpHealth => health new_writer | EpMetrics => metrics new_writer end) ∧
     (∀ ep, health_target path = Some ep → method ≠ "GET" → method ≠ "HEAD" →
        response_status w' = 405 ∧ response_header w' !! "Allow" = Some "GET, HEAD" ∧
        response_body w' = [BodyText ("Method Not Allowed" +:+ String "010" "")]) ∧
     (health_target path = None →
        response_status w' = 404 ∧ response_header w' !! "Allow" = None)) ∧
  (∀ seg, seg ≠ [] → seg ≠ [slash] →
     health_target (url_for [Wild "segment"] [seg]) =
       if decide (seg = bytes_of "health") then Some EpHealth
       else if decide (seg = bytes_of "metrics") then Some EpMetrics else None).
Proof.
  cbv zeta. unfold health_mux. rewrite health_dispatch. split_and!.
  - intros Hn. rewrite decide_False by done. unfold http_Redirect.
    destruct (String.eqb method "GET"), (String.eqb method "HEAD"); split; vm_compute response_status; try done;
      cbn [orb]; unfold response_header, response; cbn; by rewrite ?lookup_insert, ?lookup_insert_ne.
  - intros Hc. rewrite decide_True by done. split_and!.
    + intros ep Ht Hm. rewrite Ht. replace (method_matches "GET" method) with true; [by destruct ep|].
      by destruct Hm as [-> | ->].
    + intros ep Ht H1 H2. rewrite Ht. replace (method_matches "GET" method) with false.
      * unfold no_match. rewrite health_methods, Ht by done. vm_compute. done.
      * apply String.eqb_neq in H2. unfold method_matches. rewrite H2.
        assert (String.eqb "GET" method = false) as -> by (apply String.eqb_neq; congruence). done.
    + intros Ht. rewrite Ht. unfold no_match. rewrite health_methods, Ht by done. done.
  - intros seg H1 H2. unfold health_target, url_for. cbn [fill].
    rewrite segments_join; [|repeat constructor; by apply escape_plain|done]. cbn [map].
    unfold pathUnescape. rewrite PathUnescape_escape. cbn [default].
    destruct (decide (seg = bytes_of "health")) as [->|Hh]; [done|].
    rewrite (decide_False (P := [seg] = [bytes_of "health"])) by (intros [= ?]; done).
    destruct (decide (seg = bytes_of "metrics")) as [->|Hm]; [done|].
    by rewrite (decide_False (P := [seg] = [bytes_of "metrics"])) by (intros [= ?]; done).
Qed.
