(* ===== verification/Telemetry.v ===== *)
(** * Tracing setup ([src/internal/telemetry/telemetry.go])

    [Setup] decides whether there is tracing, brings the sampling rate into range,
    and installs a tracer provider and a propagator in the process-wide state of
    OpenTelemetry.  The exporter, the resource and the provider are the library's:
    making one is a parameter that may fail, and so is a provider's shutdown.  A
    [float64] is an IEEE 754 number ([SpecFloat]). *)
From stdpp Require Import base option list strings.
From Stdlib Require Import ZArith Lia SpecFloat.
From S2P Require Import Prelude GoStd.

Local Open Scope Z_scope.

(** ** [float64] *)

Definition f64_zero : spec_float := S754_zero false.
Definition f64_one : spec_float := S754_finite false 4503599627370496 (-52).

(** [x <= y] and [x > y], false when one of them is not a number. *)
Definition f64_le (x y : spec_float) : bool := SFleb x y.
Definition f64_gt (x y : spec_float) : bool := SFltb y x.

Section telemetry.
(** The library's exporters and resources, and how it makes them: from an
    endpoint and whether the connection is plain, from attributes. *)
Context {Exporter Resource : Type}.
Context (otlptracegrpc_New : string → bool → Exporter + string).
Context (resource_New : list (string * string) → Resource + string).

Inductive Sampler := TraceIDRatioBased (rate : spec_float) | ParentBased (root : Sampler).

Record TracerProvider := mkTracerProvider {
  tp_batcher : Exporter;
  tp_resource : Resource;
  tp_sampler : Sampler
}.

(** [tp.Shutdown] with a deadline. *)
Context (tp_Shutdown : TracerProvider → Z → option string).

(** ** The process-wide state

    [otel_running] has the exporters that were started, [otel_log] the lines
    [Setup] logged: endpoint and rate. *)
Inductive GlobalProvider := DelegateProvider | NoopProvider | SdkProvider (tp : TracerProvider).

Inductive Propagator := TraceContext | Baggage.

Record Otel := mkOtel {
  otel_provider : GlobalProvider;
  otel_propagators : list Propagator;
  otel_running : list Exporter;
  otel_log : list (string * spec_float)
}.

Definition SetTracerProvider (g : Otel) (p : GlobalProvider) : Otel :=
  mkOtel p (otel_propagators g) (otel_running g) (otel_log g).
Definition SetTextMapPropagator (g : Otel) (ps : list Propagator) : Otel :=
  mkOtel (otel_provider g) ps (otel_running g) (otel_log g).
Definition exporter_started (g : Otel) (e : Exporter) : Otel :=
  mkOtel (otel_provider g) (otel_propagators g) (otel_running g ++ [e]) (otel_log g).
Definition log_enabled (g : Otel) (endpoint : string) (rate : spec_float) : Otel :=
  mkOtel (otel_provider g) (otel_propagators g) (otel_running g) (otel_log g ++ [(endpoint, rate)]).

(** ** [Setup] *)

Record TelemetryConfig := mkTelemetryConfig {
  tc_Enabled : bool;
  tc_OTLPEndpoint : string;
  tc_SampleRate : spec_float;
  tc_Version : string
}.

Definition sample_rate (rate : spec_float) : spec_float :=
  let rate := if f64_le rate f64_zero then f64_one else rate in
  if f64_gt rate f64_one then f64_one else rate.

(** The closure [Setup] returns. *)
Inductive ShutdownFunc := ShutdownNoop | ShutdownProvider (tp : TracerProvider).

Definition Setup (g : Otel) (cfg : TelemetryConfig) : Otel * (ShutdownFunc + string) :=
  if negb (tc_Enabled cfg) || String.eqb (tc_OTLPEndpoint cfg) "" then
    (SetTracerProvider g NoopProvider, inl ShutdownNoop)
  else
    let rate := sample_rate (tc_SampleRate cfg) in
    match otlptracegrpc_New (tc_OTLPEndpoint cfg) true with
    | inr err => (g, inr err)
    | inl exporter =>
      let g := exporter_started g exporter in
      match resource_New [("service.name", "agentanycast-relay"); ("service.version", tc_Version cfg)] with
      | inr err => (g, inr err)
      | inl res =>
        let tp := mkTracerProvider exporter res (ParentBased (TraceIDRatioBased rate)) in
        let g := SetTracerProvider g (SdkProvider tp) in
        let g := SetTextMapPropagator g [TraceContext; Baggage] in
        (log_enabled g (tc_OTLPEndpoint cfg) rate, inl (ShutdownProvider tp))
      end
    end.

(** [context.WithTimeout]: the earlier of the two deadlines. *)
Definition WithTimeout (parent : option Z) (now d : Z) : Z :=
  match parent with Some p => Z.min p (now + d) | None => now + d end.

(** Calling the closure with a context at time [now]. *)
Definition run_shutdown (f : ShutdownFunc) (parent : option Z) (now : Z) : option string :=
  match f with
  | ShutdownNoop => None
  | ShutdownProvider tp => tp_Shutdown tp (WithTimeout parent now (5 * Second))
  end.
End telemetry.

Arguments Otel : clear implicits.
Arguments ShutdownFunc : clear implicits.
Arguments TracerProvider : clear implicits.

(** ** The sampling rate *)

Definition is_nan (x : spec_float) : bool := match x with S754_nan => true | _ => false end.

Lemma SFcompare_swap x y : SFcompare y x = CompOpp <$> SFcompare x y.
Proof.
  destruct x as [[]|[]| |[] m e], y as [[]|[]| |[] m' e']; try done; simpl; f_equal;
    rewrite (Z.compare_antisym e' e); change (Pos.compare_cont Eq) with Pos.compare;
    rewrite (Pos.compare_antisym m' m); by destruct (e' ?= e), (m' ?= m)%positive.
Qed.

Lemma SFcompare_number x y : is_nan x = false → is_nan y = false → is_Some (SFcompare x y).
Proof. by destruct x as [[]|[]| |[] m e], y as [[]|[]| |[] m' e']; simpl; eauto. Qed.

(** Numbers compare one way or the other. *)
Lemma f64_le_gt x y : is_nan x = false → is_nan y = false → f64_gt x y = negb (f64_le x y).
Proof.
  intros Hx Hy. destruct (SFcompare_number x y Hx Hy) as [c Hc].
  unfold f64_le, f64_gt, SFleb, SFltb. rewrite (SFcompare_swap x y), Hc. by destruct c.
Qed.

Lemma sample_rate_range rate :
  is_nan rate = false → let q := sample_rate rate in f64_gt q f64_zero = true ∧ f64_le q f64_one = true.
Proof.
  intros Hr. unfold sample_rate. cbv zeta. destruct (f64_le rate f64_zero) eqn:Hz; [done|].
  destruct (f64_gt rate f64_one) eqn:Ho; [done|]. rewrite f64_le_gt in Ho |- * by done.
  rewrite Hz. split; [done|]. by apply negb_false_iff.
Qed.

Lemma sample_rate_id rate :
  is_nan rate = true ∨ f64_gt rate f64_zero = true ∧ f64_le rate f64_one = true → sample_rate rate = rate.
Proof.
  intros [Hn|[Hz Ho]]; [by destruct rate|]. destruct (is_nan rate) eqn:Hn; [by destruct rate|].
  rewrite f64_le_gt in Hz by done. unfold sample_rate. cbv zeta. apply negb_true_iff in Hz.
  by rewrite Hz, f64_le_gt, Ho.
Qed.

(** ** Setting up *)

(** Rates that are not in (0, 1] become one. *)
Lemma sample_rate_out rate :
  f64_le rate f64_zero = true ∨ f64_gt rate f64_one = true → sample_rate rate = f64_one.
Proof.
  unfold sample_rate. cbv zeta. destruct (f64_le rate f64_zero); [done|]. intros [?|H]; [done|by rewrite H].
Qed.

(** C40: Tracing setup, for every exporter, resource and configuration.  Disabled
    or without an endpoint it installs the provider that does nothing, cannot fail
    and its shutdown cannot either.  Otherwise it makes an exporter for the endpoint
    and a resource with the name and the version of the relay.  An error of either
    is returned and leaves provider, propagators and log as they were - but the
    exporter made before a failing resource keeps running; if both are made, it
    returns the shutdown of one provider for that exporter, resource and rate, which
    is installed with both propagators and logged.  The rate is a number in (0, 1]
    unless it is not a number at all: a rate in range is taken as it is, every
    other number becomes one.  Shutting down is given five seconds, or until the
    caller's deadline when that is earlier. *)
Theorem telemetry_setup {Exporter Resource : Type} (newE : string → bool → Exporter + string)
    (newR : list (string * string) → Resource + string) (stop : TracerProvider Exporter Resource → Z → option string)
    (g : Otel Exporter Resource) cfg :
  let '(g', out) := Setup newE newR g cfg in
  let q := sample_rate (tc_SampleRate cfg) in
  let endpoint := tc_OTLPEndpoint cfg in
  let attributes := [("service.name", "agentanycast-relay"); ("service.version", tc_Version cfg)] in
  (tc_Enabled cfg = false ∨ endpoint = "" →
     out = inl ShutdownNoop ∧ otel_provider g' = NoopProvider ∧ otel_propagators g' = otel_propagators g ∧
     otel_running g' = otel_running g ∧ otel_log g' = otel_log g) ∧
  (tc_Enabled cfg = true → endpoint ≠ "" →
     (∀ err, newE endpoint true = inr err → out = inr err ∧ g' = g) ∧
     (∀ e err, newE endpoint true = inl e → newR attributes = inr err →
        out = inr err ∧ otel_provider g' = otel_provider g ∧ otel_propagators g' = otel_propagators g ∧
        otel_running g' = otel_running g ++ [e] ∧ otel_log g' = otel_log g) ∧
     (∀ e res, newE endpoint true = inl e → newR attributes = inl res →
        let tp := mkTracerProvider e res (ParentBased (TraceIDRatioBased q)) in
        out = inl (ShutdownProvider tp) ∧ otel_provider g' = SdkProvider tp ∧
        otel_propagators g' = [TraceContext; Baggage] ∧ otel_running g' = otel_running g ++ [e] ∧
        otel_log g' = otel_log g ++ [(endpoint, q)])) ∧
  (is_nan (tc_SampleRate cfg) = false → f64_gt q f64_zero = true ∧ f64_le q f64_one = true) ∧
  (is_nan (tc_SampleRate cfg) = true ∨
   f64_gt (tc_SampleRate cfg) f64_zero = true ∧ f64_le (tc_SampleRate cfg) f64_one = true → q = tc_SampleRate cfg) ∧
  (f64_le (tc_SampleRate cfg) f64_zero = true ∨ f64_gt (tc_SampleRate cfg) f64_one = true → q = f64_one) ∧
  (∀ parent now, run_shutdown stop ShutdownNoop parent now = None) ∧
  (∀ tp parent now, ∃ d, run_shutdown stop (ShutdownProvider tp) parent now = stop tp d ∧
     d <= now + 5 * Second ∧ (∀ p, parent = Some p → d <= p) ∧ (d = now + 5 * Second ∨ parent = Some d)).
Proof.
  destruct (Setup newE newR g cfg) as [g' out] eqn:Hs. cbv zeta.
  pose proof (sample_rate_range (tc_SampleRate cfg)) as Hr. pose proof (sample_rate_id (tc_SampleRate cfg)) as Hi.
  pose proof (sample_rate_out (tc_SampleRate cfg)) as Ho.
  assert (∀ tp parent now, ∃ d, run_shutdown stop (ShutdownProvider tp) parent now = stop tp d ∧
    d <= now + 5 * Second ∧ (∀ p, parent = Some p → d <= p) ∧ (d = now + 5 * Second ∨ parent = Some d)) as Hstop.
  { intros tp parent now. eexists. split; [done|]. unfold WithTimeout. generalize (5 * Second). intros d.
    destruct parent as [p|]; [|split_and!; [lia|done|by left]]. split_and!; [lia|intros ? [= <-]; lia|].
    destruct (Z.min_spec p (now + d)) as [[_ ->]|[_ ->]]; auto. }
  unfold Setup in Hs. destruct (tc_Enabled cfg) eqn:He; simpl in Hs;
    [destruct (String.eqb_spec (tc_OTLPEndpoint cfg) "") as [Hp|Hp]|].
  - simplify_eq. by split_and!.
  - destruct (newE _ _) as [e|err] eqn:HE; [destruct (newR _) as [res|err] eqn:HR|];
      simplify_eq/=; split_and!; try done; intros Hd; try (by destruct Hd);
      intros _; split_and!; intros; simplify_eq/=; by split_and!.
  - simplify_eq. by split_and!.
Qed.

(** What the rates of a configuration become: two, a half, minus one, not a number. *)
Example rate_two : sample_rate (S754_finite false 4503599627370496 (-51)) = f64_one.
Proof. vm_compute. reflexivity. Qed.
Example rate_half : sample_rate (S754_finite false 4503599627370496 (-53)) = S754_finite false 4503599627370496 (-53).
Proof. vm_compute. reflexivity. Qed.
Example rate_minus : sample_rate (S754_finite true 4503599627370496 (-52)) = f64_one.
Proof. vm_compute. reflexivity. Qed.
Example rate_nan : sample_rate S754_nan = S754_nan.
Proof. vm_compute. reflexivity. Qed.
