(* ===== verification/Main.v ===== *)
(** * The relay's main program ([src/cmd/relay/main.go])

    The decisions [main] takes itself: log level, listen addresses, the list of
    federation peers and CORS origins, the identity key, the fixed configuration
    of the control plane, and the loop that forgets disconnected peers.  What it
    hands to libp2p, gRPC and the operating system is a parameter or left out. *)
From stdpp Require Import gmap strings list.
From Stdlib Require Import ZArith Lia Ascii.
From S2P Require Import Prelude GoStd GoMatch Registry RegistryInv RegistrySpec BreakerRegistry.

Local Open Scope Z_scope.

(** ** [strings] *)

(** [strings.Split] by one byte: always at least one part. *)
Fixpoint Split (sep : ascii) (s : bytes) : list bytes :=
  match s with
  | [] => [[]]
  | c :: s =>
    if Ascii.eqb c sep then [] :: Split sep s
    else match Split sep s with
         | part :: parts => (c :: part) :: parts
         | [] => [[c]]
         end
  end.

(** The UTF-8 encodings of the runes [unicode.IsSpace] accepts. *)
Definition byte (n : nat) : ascii := ascii_of_nat n.
Definition space_encodings : list bytes :=
  map (map byte)
    [[9]; [10]; [11]; [12]; [13]; [32]; [194; 133]; [194; 160]; [225; 154; 128];
     [226; 128; 128]; [226; 128; 129]; [226; 128; 130]; [226; 128; 131]; [226; 128; 132];
     [226; 128; 133]; [226; 128; 134]; [226; 128; 135]; [226; 128; 136]; [226; 128; 137];
     [226; 128; 138]; [226; 128; 168]; [226; 128; 169]; [226; 128; 175]; [226; 129; 159];
     [227; 128; 128]]%nat.

(** Drops encoded spaces from the front of [s]; [encs] are the encodings, [fuel]
    bounds the rounds, each of which drops at least a byte. *)
Fixpoint trim_front (encs : list bytes) (fuel : nat) (s : bytes) : bytes :=
  match fuel with
  | O => s
  | S fuel =>
    match head (omap (λ e, strip e s) encs) with
    | Some rest => trim_front encs fuel rest
    | None => s
    end
  end.

(** [strings.TrimSpace]: from the front, then, reversed, from the back. *)
Definition TrimSpace (s : bytes) : bytes :=
  let s := trim_front space_encodings (length s) s in
  reverse (trim_front (map reverse space_encodings) (length s) (reverse s)).

(** [strings.Replace(s, old, new, 1)] for a non-empty [old]. *)
Fixpoint Replace1 (old new s : bytes) : bytes :=
  match strip old s with
  | Some rest => new ++ rest
  | None => match s with [] => [] | c :: s => c :: Replace1 old new s end
  end.

(** ** Flags *)

Inductive Level := LevelDebug | LevelInfo | LevelWarn | LevelError.

Definition log_level (flagLogLevel : string) : Level :=
  if String.eqb flagLogLevel "debug" then LevelDebug
  else if String.eqb flagLogLevel "warn" then LevelWarn
  else if String.eqb flagLogLevel "error" then LevelError
  else LevelInfo.

Definition quic_addr (listen : bytes) : bytes :=
  Replace1 (bytes_of "/tcp/") (bytes_of "/udp/") listen ++ bytes_of "/quic-v1".

Definition webtransport_addr (listen : bytes) : bytes :=
  Replace1 (bytes_of "/tcp/") (bytes_of "/udp/") listen ++ bytes_of "/quic-v1/webtransport".

(** The listen addresses; [None] when one of them is refused by the multiaddr
    parser [valid] and the program exits. *)
Definition listen_addrs (valid : bytes → bool) (listen : bytes) (enableWebTransport : bool)
    : option (list bytes) :=
  if negb (valid listen) then None
  else if negb (valid (quic_addr listen)) then None
  else if enableWebTransport then
    if negb (valid (webtransport_addr listen)) then None
    else Some [listen; quic_addr listen; webtransport_addr listen]
  else Some [listen; quic_addr listen].

(** The trimmed, non-empty parts of the flag. *)
Definition federation_peers (flag : bytes) : list bytes :=
  match flag with
  | [] => []
  | _ => filter (λ p, p ≠ []) (map TrimSpace (Split "," flag))
  end.

(** The parts of the flag as they are. *)
Definition cors_origins (flag : bytes) : list bytes :=
  match flag with [] => [] | _ => Split "," flag end.

Definition main_breaker_config : BreakerConfig := mkBreakerConfig 5 3 (30 * Second).

(** ** The disconnect watcher *)

Inductive Connectedness := Connected | NotConnected | OtherConnectedness.

#[export] Instance Connectedness_eq_dec : EqDecision Connectedness.
Proof. solve_decision. Defined.

(** An event of the bus: of the subscribed type, or not. *)
Definition watch_step (r : Registry) (evt : option (string * Connectedness)) : Registry :=
  match evt with
  | None => r
  | Some (peer, NotConnected) => RemovePeer r peer
  | Some _ => r
  end.

Definition watch (r : Registry) (evts : list (option (string * Connectedness))) : Registry :=
  foldl watch_step r evts.

(** ** The identity key *)

Inductive read_result := ReadOk (data : string) | ReadNotExist | ReadError (err : string).

Inductive fs_effect := MkdirAll (dir : bytes) | WriteFile (path : bytes) (raw : string).

Section key.
Context {K : Type}.
(** libp2p's key functions: generation may fail, encoding may fail, decoding is
    of what a file holds. *)
Context (generate : option K) (marshal : K → option string) (unmarshal : string → option K).

(** [KeyPanic]: the slice expression is out of range. *)
Inductive key_outcome := KeyOk (k : K) | KeyErr | KeyPanic.

(** [read]: what [os.ReadFile] says.  A failing [MkdirAll] or [WriteFile] is only
    logged; the effects are the attempts. *)
Definition loadOrGenerateKey (path : bytes) (read : read_result) : key_outcome * list fs_effect :=
  match path with
  | [] => (match generate with Some k => KeyOk k | None => KeyErr end, [])
  | _ =>
    match read with
    | ReadOk data => (match unmarshal data with Some k => KeyOk k | None => KeyErr end, [])
    | ReadNotExist =>
      match generate with
      | None => (KeyErr, [])
      | Some priv =>
        match marshal priv with
        | None => (KeyErr, [])
        | Some raw =>
          if len path - len (bytes_of "/key") <? 0 then (KeyPanic, [])
          else
            let dir := take (Z.to_nat (len path - len (bytes_of "/key"))) path in
            (KeyOk priv, [MkdirAll dir; WriteFile path raw])
        end
      end
    | ReadError _ => (KeyErr, [])
    end
  end.
End key.
