(* ===== verification/MainProps.v ===== *)
(** * What the main program guarantees *)
From stdpp Require Import gmap strings list.
From Stdlib Require Import ZArith Lia Ascii.
From S2P Require Import Prelude GoStd GoMatch Registry RegistryInv RegistrySpec Main.

Local Open Scope Z_scope.

(** ** The identity key *)

(** C37: The relay's identity.  Without a path it is generated and nothing is
    written.  With a path whose file is missing and that ends in "/key", the
    directory before it is made, the new key is written there, and the next start,
    which reads what was written, has the same identity.  A path of fewer than
    four bytes makes the program panic; any other path is written to all the same,
    but the directory made is the path without its last four bytes, whatever they
    are. *)
Theorem identity_key {K} (generate : option K) (marshal : K → option string)
    (unmarshal : string → option K) (path : bytes) (k : K) (raw : string)
    (Hlaw : ∀ k raw, marshal k = Some raw → unmarshal raw = Some k)
    (Hgen : generate = Some k) (Hraw : marshal k = Some raw) :
  let load := loadOrGenerateKey generate marshal unmarshal in
  load [] ReadNotExist = (KeyOk k, []) ∧
  (∀ dir, path = dir ++ bytes_of "/key" →
     load path ReadNotExist = (KeyOk k, [MkdirAll dir; WriteFile path raw]) ∧
     load path (ReadOk raw) = (KeyOk k, [])) ∧
  (path ≠ [] → len path < 4 → load path ReadNotExist = (KeyPanic, [])) ∧
  (4 <= len path → ∃ dir ext, path = dir ++ ext ∧ len ext = 4 ∧
     load path ReadNotExist = (KeyOk k, [MkdirAll dir; WriteFile path raw])) ∧
  (∀ data, path ≠ [] → unmarshal data = None → load path (ReadOk data) = (KeyErr, [])).
Proof.
  cbv zeta. unfold loadOrGenerateKey. rewrite Hgen, Hraw.
  change (len (bytes_of "/key")) with 4. split_and!.
  - done.
  - intros dir ->. assert (dir ++ bytes_of "/key" ≠ []) as Hne by (by destruct dir).
    destruct (dir ++ bytes_of "/key") as [|c p] eqn:E; [done|]. rewrite <- E.
    assert (len (dir ++ bytes_of "/key") = len dir + 4) as Hlen by (rewrite len_app; done).
    pose proof (len_nonneg dir). rewrite (proj2 (Z.ltb_ge _ _)) by lia. split.
    + do 3 f_equal. rewrite Hlen. replace (len dir + 4 - 4) with (len dir) by lia.
      unfold len. rewrite Nat2Z.id. by rewrite take_app_length.
    + by rewrite (Hlaw _ _ Hraw).
  - intros Hne Hlen. destruct path as [|c p]; [done|]. rewrite (proj2 (Z.ltb_lt _ _)) by lia. done.
  - intros Hlen. exists (take (Z.to_nat (len path - 4)) path), (drop (Z.to_nat (len path - 4)) path).
    split; [by rewrite take_drop|]. split; [unfold len in *; rewrite length_drop; lia|].
    destruct path as [|c p]; [by vm_compute in Hlen|].
    rewrite (proj2 (Z.ltb_ge _ _)) by lia. done.
  - intros data Hne Hd. destruct path; [done|]. by rewrite Hd.
Qed.

(** Keys that are strings, encoded as themselves: "relay.key" makes a directory
    "./relay". *)
Lemma identity_key_witness :
  loadOrGenerateKey (Some "secret") Some Some (bytes_of "/data/key") ReadNotExist =
    (KeyOk "secret", [MkdirAll (bytes_of "/data"); WriteFile (bytes_of "/data/key") "secret"]) ∧
  loadOrGenerateKey (Some "secret") Some Some (bytes_of "k") ReadNotExist = (KeyPanic, []) ∧
  loadOrGenerateKey (Some "secret") Some Some (bytes_of "./relay.key") ReadNotExist =
    (KeyOk "secret", [MkdirAll (bytes_of "./relay"); WriteFile (bytes_of "./relay.key") "secret"]).
Proof.
  assert (∀ k raw : string, Some k = Some raw → Some raw = Some k) as Hlaw by (by intros k raw [= ->]).
  destruct (identity_key (Some "secret") Some Some (bytes_of "/data/key") "secret" "secret" Hlaw
    eq_refl eq_refl) as (_ & H & _).
  destruct (identity_key (Some "secret") Some Some (bytes_of "k") "secret" "secret" Hlaw
    eq_refl eq_refl) as (_ & _ & Hk & _).
  split_and!.
  - by apply (H (bytes_of "/data")).
  - apply Hk; [discriminate|vm_compute; reflexivity].
  - vm_compute. reflexivity.
Defined.

(** ** Disconnected peers *)

(** After the watcher has seen some events, exactly the peers it saw disconnect
    are gone. *)
Theorem watch_forgets cfg r evts p :
  reachable cfg r →
  wf (watch r evts) ∧ federated (watch r evts) = federated r ∧
  entries (watch r evts) !! p =
    if bool_decide (Some (p, NotConnected) ∈ evts) then None else entries r !! p.
Proof.
  intros Hr. pose proof (reachable_wf _ _ Hr) as Hwf. clear Hr. unfold watch. revert r Hwf.
  induction evts as [|evt evts IH]; intros r Hwf; cbn [foldl].
  { split_and!; [done|done|]. rewrite bool_decide_false; [done|]. by intros ?%elem_of_nil. }
  assert (∀ q, abs (RemovePeer r q) = a_exec (abs r) (OpRemovePeer q)) as Ha
    by (intros q; apply abs_RemovePeer).
  assert (wf (watch_step r evt) ∧ federated (watch_step r evt) = federated r ∧
    entries (watch_step r evt) !! p =
      if bool_decide (evt = Some (p, NotConnected)) then None else entries r !! p) as (H1 & H2 & H3).
  { destruct evt as [[q []]|]; cbn [watch_step].
    - rewrite bool_decide_false by naive_solver. done.
    - specialize (Ha q). unfold abs in Ha. simpl in Ha. injection Ha as He Hf _.
      split_and!; [by apply wf_RemovePeer|done|]. rewrite He.
      destruct (decide (q = p)) as [->|Hq].
      + by rewrite bool_decide_true, lookup_delete_eq.
      + by rewrite bool_decide_false, lookup_delete_ne by congruence.
    - rewrite bool_decide_false by naive_solver. done.
    - rewrite bool_decide_false by naive_solver. done. }
  destruct (IH _ H1) as (H4 & H5 & H6). split_and!; [done|congruence|]. rewrite H6, H3.
  destruct (decide (Some (p, NotConnected) ∈ evts)) as [Hin|Hin].
  { by rewrite (bool_decide_true _ Hin), bool_decide_true by by right. }
  rewrite (bool_decide_false _ Hin). destruct (decide (evt = Some (p, NotConnected))) as [->|He].
  { by rewrite !bool_decide_true by (done || left). }
  rewrite (bool_decide_false _ He), bool_decide_false; [done|].
  by intros [?|?]%elem_of_cons.
Qed.

(** ** The list of federation peers *)

Lemma trim_front_clean encs fuel s :
  Forall (λ e, e ≠ []) encs → (length s <= fuel)%nat →
  ∀ e, e ∈ encs → strip e (trim_front encs fuel s) = None.
Proof.
  intros Henc. revert s. induction fuel as [|fuel IH]; intros s Hlen e He.
  - destruct s; [|simpl in Hlen; lia]. rewrite Forall_forall in Henc. specialize (Henc _ He).
    simpl. by destruct e.
  - cbn [trim_front]. destruct (head (omap (λ e, strip e s) encs)) as [rest|] eqn:Hh.
    + apply IH; [|done]. apply head_Some_elem_of, list_elem_of_omap in Hh as (e' & He' & Hs).
      apply strip_Some in Hs. subst s. rewrite length_app in Hlen.
      rewrite Forall_forall in Henc. specialize (Henc _ He'). destruct e'; [done|]. simpl in Hlen. lia.
    + apply head_None in Hh. destruct (strip e s) eqn:Hs; [|done].
      exfalso. assert (b ∈ omap (λ e, strip e s) encs) as Hin by (apply list_elem_of_omap; eauto).
      rewrite Hh in Hin. by apply elem_of_nil in Hin.
Qed.

(** Every peer address is non-empty and has no space at its end. *)
Theorem federation_peers_trimmed flag p :
  p ∈ federation_peers flag → p ≠ [] ∧ ∀ e, e ∈ space_encodings → ¬ ∃ q, p = q ++ e.
Proof.
  unfold federation_peers. destruct flag as [|c flag]; [by intros ?%elem_of_nil|].
  intros [Hne Hin]%list_elem_of_filter. split; [done|]. intros e He (q & Hq).
  apply list_elem_of_In, in_map_iff in Hin as (s & <- & _). unfold TrimSpace in Hq.
  set (t := trim_front space_encodings (length s) s) in Hq.
  pose proof (trim_front_clean (map reverse space_encodings) (length t) (reverse t)) as Hc.
  rewrite length_reverse in Hc.
  assert (Forall (λ e, e ≠ []) (map reverse space_encodings)) as Hf
    by (apply (bool_decide_unpack _); vm_compute; exact I).
  specialize (Hc Hf ltac:(lia) (reverse e)).
  apply (f_equal reverse) in Hq. rewrite reverse_involutive, reverse_app in Hq.
  rewrite Hq in Hc.
  assert (strip (reverse e) (reverse e ++ reverse q) = Some (reverse q)) as Hs by by apply strip_Some.
  rewrite Hs in Hc. discriminate Hc. apply list_elem_of_In, in_map, list_elem_of_In. done.
Qed.

(** Origins are not trimmed: the second one keeps its space, and matches no
    [Origin] header. *)
Example cors_origin_space :
  string_of <$> cors_origins (bytes_of "https://a, https://b") = ["https://a"; " https://b"].
Proof. vm_compute. reflexivity. Qed.
