(* ===== verification/System.v ===== *)
(** * The relay as a whole

    [main] makes one registry, at most one federation manager, one policy engine,
    one namespace manager and one breaker registry, and starts the goroutines
    that share them.  [sys_step] has one event for every critical section in which
    one of them changes something: gRPC clients, pushes of other relays, this
    relay's own pulls, the disconnect watcher, the eviction ticker, and the
    control-plane API.  A run is any sequence of them, so [sys_reach] covers every
    interleaving.  Readers are not events: they change nothing. *)
From stdpp Require Import gmap strings list.
From Stdlib Require Import ZArith Lia.
From S2P Require Import Prelude GoStd Registry RegistryInv RegistrySpec RegistryLww Breaker BreakerRegistry GoMatch Policy Namespace Proto RegistryGrpc Federation FederationServer FederationRound Http Api ApiControl Main.

Local Open Scope Z_scope.

(** The flags that reach the components. *)
Record Flags := mkFlags {
  flagRegistryTTL : Z;
  flagFederationPeers : bytes;
  flagFederationSyncInterval : Z
}.

Record System := mkSystem {
  sys_reg : Registry;
  sys_fed : option Federation;
  sys_pol : Engine;
  sys_ns : Manager;
  sys_brk : BreakerRegistry
}.

Definition registry_config (fl : Flags) : Registry.Config :=
  Registry.mkConfig (flagRegistryTTL fl) 0 0 0.

(** What [main] sets up; [relayID] is the host's peer ID, [dial] says which
    addresses gRPC accepts, [now] is the time at which the namespaces are made.
    Without federation peers there is no manager. *)
Definition sys_init (fl : Flags) (relayID : string) (dial : string → bool) (now : Z) : System :=
  let peers := map string_of (federation_peers (flagFederationPeers fl)) in
  {| sys_reg := Registry_New (registry_config fl);
     sys_fed := if len peers >? 0
                then Some (Start (Federation_New
                       (mk_fed_Config peers (flagFederationSyncInterval fl) relayID)) dial).1
                else None;
     sys_pol := NewEngine;
     sys_ns := NewManager now;
     sys_brk := NewBreakerRegistry main_breaker_config |}.

Definition with_reg (s : System) (r : Registry) : System :=
  mkSystem r (sys_fed s) (sys_pol s) (sys_ns s) (sys_brk s).
Definition with_pol (s : System) (e : Engine) : System :=
  mkSystem (sys_reg s) (sys_fed s) e (sys_ns s) (sys_brk s).
Definition with_ns (s : System) (m : Manager) : System :=
  mkSystem (sys_reg s) (sys_fed s) (sys_pol s) m (sys_brk s).
Definition with_brk (s : System) (br : BreakerRegistry) : System :=
  mkSystem (sys_reg s) (sys_fed s) (sys_pol s) (sys_ns s) br.

Section system.
Context `{Timestamps} (conv_oob : Z) (quote : string → string).
Context (decode_rule : string → Rule + string).
Context (decode_ns : string → createNamespaceRequest + string).

(** [EvPushed] is one turn of the loop of [PushRegistrations], which locks the
    registry anew for each registration; [EvSync] is one critical section of a
    [syncPeer] goroutine.  The two breaker handlers, which lock the breaker
    registry and single breakers in turn, are one event each. *)
Inductive sys_event :=
| EvRegister (now : Z) (req : RegisterSkillsRequest)
| EvUnregister (req : UnregisterSkillsRequest)
| EvHeartbeat (now : Z) (req : HeartbeatRequest)
| EvConnectedness (evt : option (string * Connectedness))
| EvEvict (ord ordF : RangeOrder) (now : Z)
| EvPushed (relayId : string) (fedReg : FederatedRegistration)
| EvSync (act : sync_action)
| EvCreatePolicy (rq : Request)
| EvUpdatePolicy (rq : Request)
| EvDeletePolicy (rq : Request)
| EvCreateNamespace (now : Z) (rq : Request)
| EvDeleteNamespace (rq : Request)
| EvListBreakers (ord : RangeOrder) (now : string → Z)
| EvResetBreaker (now : Z) (rq : Request).

Inductive sys_step (s : System) : sys_event → System → Prop :=
| sys_register now req :
    sys_step s (EvRegister now req) (with_reg s (RegisterSkills (sys_reg s) now req).1)
| sys_unregister req :
    sys_step s (EvUnregister req) (with_reg s (UnregisterSkills (sys_reg s) req).1)
| sys_heartbeat now req :
    sys_step s (EvHeartbeat now req) (with_reg s (GRPCServer_Heartbeat (sys_reg s) now req).1)
| sys_connectedness evt :
    sys_step s (EvConnectedness evt) (with_reg s (watch_step (sys_reg s) evt))
| sys_evict ord ordF now :
    sys_step s (EvEvict ord ordF now) (with_reg s (evictExpired (sys_reg s) ord ordF now))
| sys_pushed f relayId fedReg :
    sys_fed s = Some f → relayId ≠ "" →
    sys_step s (EvPushed relayId fedReg) (with_reg s (push_one relayId (sys_reg s) fedReg).1)
| sys_sync f act st :
    sys_fed s = Some f → act_addr act ∈ clients f →
    st = exec_action conv_oob (f, sys_reg s) act →
    sys_step s (EvSync act) (mkSystem st.2 (Some st.1) (sys_pol s) (sys_ns s) (sys_brk s))
| sys_create_policy rq :
    sys_step s (EvCreatePolicy rq)
      (with_pol s (handleCreatePolicy quote decode_rule (sys_pol s) new_writer rq).1)
| sys_update_policy rq :
    sys_step s (EvUpdatePolicy rq)
      (with_pol s (handleUpdatePolicy quote decode_rule (sys_pol s) new_writer rq).1)
| sys_delete_policy rq :
    sys_step s (EvDeletePolicy rq) (with_pol s (handleDeletePolicy quote (sys_pol s) new_writer rq).1)
| sys_create_namespace now rq :
    sys_step s (EvCreateNamespace now rq)
      (with_ns s (handleCreateNamespace quote decode_ns (sys_ns s) now new_writer rq).1)
| sys_delete_namespace rq :
    sys_step s (EvDeleteNamespace rq) (with_ns s (handleDeleteNamespace quote (sys_ns s) new_writer rq).1)
| sys_list_breakers ord now :
    sys_step s (EvListBreakers ord now)
      (with_brk s (handleListBreakers (sys_brk s) ord now new_writer).1)
| sys_reset_breaker now rq :
    sys_step s (EvResetBreaker now rq)
      (with_brk s (handleResetBreaker (sys_brk s) now new_writer rq).1).

(** A run: the events of all goroutines in some order. *)
Inductive sys_run : System → list sys_event → System → Prop :=
| run_nil s : sys_run s [] s
| run_cons s e s' es s'' : sys_step s e s' → sys_run s' es s'' → sys_run s (e :: es) s''.

Lemma sys_run_app s es s' es' s'' : sys_run s es s' → sys_run s' es' s'' → sys_run s (es ++ es') s''.
Proof. induction 1; [done|]. intros ?. simpl. econstructor; eauto. Qed.

(** ** Atomic handlers are runs

    The handlers whose loops lock the registry several times, taken alone. *)

Lemma sync_actions_run tr s f :
  sys_fed s = Some f → Forall (λ a, act_addr a ∈ clients f) tr →
  let st := foldl (exec_action conv_oob) (f, sys_reg s) tr in
  sys_run s (EvSync <$> tr) (mkSystem st.2 (Some st.1) (sys_pol s) (sys_ns s) (sys_brk s)).
Proof.
  revert s f. induction tr as [|a tr IH]; intros s f Hf Htr; cbv zeta.
  - simpl. rewrite <- Hf. destruct s. constructor.
  - apply Forall_cons in Htr as [Ha Htr]. rewrite fmap_cons. cbn [foldl].
    econstructor; [by eapply (sys_sync _ _ a (exec_action conv_oob (f, sys_reg s) a))|].
    destruct (exec_action conv_oob (f, sys_reg s) a) as [f' r'] eqn:E.
    assert (clients f' = clients f) as Hc.
    { pose proof (exec_actions_rest conv_oob [a] (f, sys_reg s)) as Hr.
      cbn [foldl fst] in Hr. rewrite E in Hr. apply Hr. }
    apply (IH (mkSystem r' (Some f') (sys_pol s) (sys_ns s) (sys_brk s)) f'); [done|].
    by rewrite Hc.
Qed.

(** A whole round of [syncAll]. *)
Lemma sync_round_run s f ord net st :
  sys_fed s = Some f → syncAll conv_oob f (sys_reg s) ord net st →
  ∃ tr, sys_run s (EvSync <$> tr) (mkSystem st.2 (Some st.1) (sys_pol s) (sys_ns s) (sys_brk s)).
Proof.
  intros Hf (tr & Htr & ->). exists tr. apply sync_actions_run; [done|].
  apply interleaving_perm in Htr. rewrite Htr. apply List.Forall_concat.
  apply Forall_fmap, Forall_forall. intros addr Haddr. simpl.
  eapply Forall_impl; [apply peer_actions_addr|]. simpl. intros a ->. by apply (elem_of_range ord).
Qed.

(** A whole [PushRegistrations]. *)
Lemma push_run s f req :
  sys_fed s = Some f → push_RelayId req ≠ "" →
  sys_run s (EvPushed (push_RelayId req) <$> push_Registrations req)
    (with_reg s (PushRegistrations (sys_reg s) req).1).
Proof.
  intros Hf Hid. unfold PushRegistrations. pose proof Hid as Hid'. apply String.eqb_neq in Hid'.
  rewrite Hid'. generalize 0 at 1 as a. generalize 0 as j.
  revert s Hf. induction (push_Registrations req) as [|fr regs IH]; intros s Hf j a; simpl.
  - destruct s. constructor.
  - econstructor; [by eapply sys_pushed|].
    destruct (push_one (push_RelayId req) (sys_reg s) fr) as [r' ok]. simpl.
    destruct ok; apply (IH (with_reg s r') Hf).
Qed.

(** ** Every event is a history of registry operations *)

(** The event leaves the registration of [p] alone. *)
Definition spares_event (p : string) (deadline : Z) (e : sys_event) : Prop :=
  match e with
  | EvRegister _ req => rs_PeerId req ≠ p
  | EvUnregister req => us_PeerId req ≠ p
  | EvHeartbeat _ req => hb_PeerId req ≠ p
  | EvConnectedness evt => evt ≠ Some (p, NotConnected)
  | EvEvict _ _ now => now <= deadline
  | _ => True
  end.

Definition deliver_op (u : Registration) : op :=
  OpRegisterFederated (PeerID u) (Origin u) (Skills u) (AgentName u) (AgentDescription u)
    (RegisteredAt u) (ExpiresAt u) (Version u).

Lemma exec_all_deliver r us : exec_all r (deliver_op <$> us) = Some (deliver_all r us).
Proof. revert r. induction us as [|u us IH]; intros r; [done|]. apply (IH (deliver r u)). Qed.

Lemma push_one_deliver relayId r fr : ∃ us, (push_one relayId r fr).1 = deliver_all r us.
Proof.
  rewrite push_one_cases. destruct (decide _); [by exists [pushed_update relayId fr]|by exists []].
Qed.

Lemma sync_one_deliver f r a : ∃ us, (exec_action conv_oob (f, r) a).2 = deliver_all r us.
Proof. eexists. apply (exec_actions_registry conv_oob [a] f r). Qed.

Lemma spares_deliver p t us : Forall (spares p t) (deliver_op <$> us).
Proof. by apply Forall_fmap, Forall_true. Qed.

Definition local_op (o : op) : Prop :=
  match o with OpRegisterFederated _ _ _ _ _ _ _ _ => False | _ => True end.

(** The registry operations behind an event; they spare whom the event spares. *)
Lemma sys_step_ops s e s' :
  sys_step s e s' →
  ∃ ops, exec_all (sys_reg s) ops = Some (sys_reg s') ∧
         (∀ p t, spares_event p t e → Forall (spares p t) ops) ∧
         (sys_fed s = None → Forall local_op ops).
Proof.
  destruct 1 as [now req|req|now req|evt|ord ordF now|f rid fr Hf _|f a st Hf _ ->| | | | | | | ];
    cbn [sys_reg with_reg with_pol with_ns with_brk spares_event].
  - rewrite RegisterSkills_cases. case_decide; [|by exists []].
    exists [OpRegister now (rs_PeerId req) (pbSkillsToRegistry (rs_Skills req))
      (rs_AgentName req) (rs_AgentDescription req)]. simpl.
    destruct (Register _ now _ _ _ _) as [r' [t err]]. split; [done|]. by repeat constructor.
  - unfold UnregisterSkills. destruct (String.eqb _ _); [by exists []|].
    exists [OpUnregister (us_PeerId req) (us_SkillIds req)]. split; [done|]. by repeat constructor.
  - unfold GRPCServer_Heartbeat. destruct (String.eqb _ _); [by exists []|].
    exists [OpHeartbeat now (hb_PeerId req)]. simpl. destruct (Heartbeat _ now _) as [r' t].
    split; [by destruct (IsZero t)|]. by repeat constructor.
  - destruct evt as [[p []]|]; simpl; [by exists []| |by exists []..].
    exists [OpRemovePeer p]. split_and!; [done| |by repeat constructor].
    intros q t Hq. repeat constructor; simpl. intros ->. by apply Hq.
  - exists [OpEvict ord ordF now]. split; [done|]. by repeat constructor.
  - destruct (push_one_deliver rid (sys_reg s) fr) as [us ->]. exists (deliver_op <$> us).
    split_and!; [apply exec_all_deliver|intros; apply spares_deliver|by rewrite Hf].
  - destruct (sync_one_deliver f (sys_reg s) a) as [us ->]. exists (deliver_op <$> us).
    split_and!; [apply exec_all_deliver|intros; apply spares_deliver|by rewrite Hf].
  - by exists [].
  - by exists [].
  - by exists [].
  - by exists [].
  - by exists [].
  - by exists [].
  - by exists [].
Qed.

Lemma local_ops_federated r ops r' :
  wf r → exec_all r ops = Some r' → Forall local_op ops → federated r = ∅ → federated r' = ∅.
Proof.
  intros Hwf Hex Hops Hr. destruct (exec_all_simulates r ops Hwf) as (r2 & E & _ & Ha).
  simplify_eq. change (a_fed (abs r') = ∅). rewrite Ha. change (a_fed (abs r) = ∅) in Hr.
  clear -Hops Hr. revert Hr. generalize (abs r) as a. induction Hops as [|o ops Ho _ IH]; simpl; [done|].
  intros a Hr. apply IH. destruct o; simpl in *; try done. rewrite Hr. apply map_filter_empty.
Qed.

Lemma exec_all_app r ops r' ops' :
  exec_all r ops = Some r' → exec_all r (ops ++ ops') = exec_all r' ops'.
Proof.
  revert r. induction ops as [|o ops IH]; intros r; simpl; [by intros [= ->]|].
  destruct (exec r o) as [r1|]; [|done]. apply IH.
Qed.

Lemma sys_run_ops s es s' :
  sys_run s es s' →
  ∃ ops, exec_all (sys_reg s) ops = Some (sys_reg s') ∧
         ∀ p t, Forall (spares_event p t) es → Forall (spares p t) ops.
Proof.
  induction 1 as [s|s e s' es s'' Hstep _ (ops & Hex & Hsp)]; [by exists []|].
  destruct (sys_step_ops _ _ _ Hstep) as (ops1 & Hex1 & Hsp1 & _). exists (ops1 ++ ops).
  split; [by erewrite exec_all_app|]. intros p t [H1 H2]%Forall_cons. apply Forall_app. eauto.
Qed.

(** ** Invariants *)

(** What the gRPC service makes sure of for a local registration. *)
Definition served (p : string) (reg : Registration) : Prop :=
  p ≠ "" ∧ Skills reg ≠ [] ∧ Forall (λ s, SkillID s ≠ "") (Skills reg).

Definition all_served (r : Registry) : Prop := ∀ p reg, entries r !! p = Some reg → served p reg.

Lemma all_served_RegisterSkills r now req : all_served r → all_served (RegisterSkills r now req).1.
Proof.
  intros Hs. rewrite RegisterSkills_cases. destruct (decide (valid_register req)) as [Hv|]; [|done].
  destruct (Register r now _ _ _ _) as [r' [t [err|]]] eqn:E; simpl.
  - unfold Register in E. destruct (negb _ && _); by simplify_eq.
  - destruct (Register_ok _ _ _ _ _ _ _ _ E) as (_ & He & _). intros p reg. rewrite He.
    intros [[<- <-]|[_ Hp]]%lookup_insert_Some; [|by apply Hs].
    destruct Hv as (H1 & H2 & H3). split_and!; [done| |]; simpl.
    + by destruct (rs_Skills req).
    + unfold pbSkillsToRegistry. apply Forall_fmap. exact H3.
Qed.

Lemma all_served_Unregister r p ids : all_served r → all_served (Unregister r p ids).
Proof.
  intros Hs. pose proof (abs_Unregister r p ids) as Ha. unfold abs in Ha; simpl in Ha.
  injection Ha as He _ _. intros q reg. rewrite He. destruct (decide (q = p)) as [->|Hne].
  2:{ rewrite lookup_partial_alter_ne by done. apply Hs. }
  rewrite lookup_partial_alter_eq. destruct (entries r !! p) as [old|] eqn:Hp; [|done].
  destruct (Hs _ _ Hp) as (H1 & H2 & H3). unfold unregister_entry; simpl.
  destruct ids as [|i ids]; [done|].
  destruct (filter _ (Skills old)) as [|k kept] eqn:Hk; [done|]. intros [= <-].
  split_and!; [done|done|]. simpl. rewrite <- Hk.
  apply Forall_forall. intros k' [_ Hk']%list_elem_of_filter. by eapply (proj1 (Forall_forall _ _) H3).
Qed.

Lemma all_served_sub r r' :
  (∀ p reg, entries r' !! p = Some reg → ∃ old, entries r !! p = Some old ∧ Skills reg = Skills old) →
  all_served r → all_served r'.
Proof.
  intros Hsub Hs p reg Hp. destruct (Hsub _ _ Hp) as (old & Ho & Hk).
  destruct (Hs _ _ Ho) as (H1 & H2 & H3). unfold served. by rewrite Hk.
Qed.

(** *** The registry *)

Lemma sys_step_served s e s' :
  sys_step s e s' → wf (sys_reg s) → all_served (sys_reg s) → all_served (sys_reg s').
Proof.
  destruct 1 as [now req|req|now req|evt|ord ordF now|f rid fr _ _|f a st _ _ ->| | | | | | | ];
    cbn [sys_reg with_reg with_pol with_ns with_brk]; intros Hwf Hs; try done.
  - by apply all_served_RegisterSkills.
  - unfold UnregisterSkills. destruct (String.eqb _ _); [done|]. by apply all_served_Unregister.
  - unfold GRPCServer_Heartbeat. destruct (String.eqb _ _); [done|].
    destruct (Heartbeat _ now _) as [r' t] eqn:E.
    assert (all_served r') as Hr'; [|by destruct (IsZero t)].
    eapply all_served_sub; [|exact Hs]. unfold Heartbeat in E.
    destruct (entries (sys_reg s) !! hb_PeerId req) as [old|] eqn:Hp; injection E as <- _; [|eauto].
    intros q reg. cbn [entries with_local]. intros [[<- <-]|[_ Hq]]%lookup_insert_Some; eauto.
  - destruct evt as [[p []]|]; simpl; [done| |done|done]. eapply all_served_sub; [|exact Hs].
    pose proof (abs_RemovePeer (sys_reg s) p) as Ha. unfold abs in Ha; simpl in Ha.
    injection Ha as He _ _. intros q reg. rewrite He. intros [_ Hq]%lookup_delete_Some. eauto.
  - eapply all_served_sub; [|exact Hs]. destruct (evictExpired_parts _ ord ordF now Hwf) as [He _].
    intros q reg. rewrite He. intros [Hq _]%map_lookup_filter_Some. eauto.
  - destruct (push_one_deliver rid (sys_reg s) fr) as [us ->].
    eapply all_served_sub; [|exact Hs]. destruct (deliver_all_local (sys_reg s) us) as [-> _]. eauto.
  - destruct (sync_one_deliver f (sys_reg s) a) as [us ->].
    eapply all_served_sub; [|exact Hs]. destruct (deliver_all_local (sys_reg s) us) as [-> _]. eauto.
Qed.

(** *** The federation manager *)

(** The clients are those [Start] connected, and only they have a backoff state
    or a time stamp. *)
Record fed_ok (cfg : fed_Config) (dial : string → bool) (f : Federation) : Prop := {
  fed_ok_cfg : fed_cfg f = fed_cfg (Federation_New cfg);
  fed_ok_started : started f = true;
  fed_ok_clients addr : addr ∈ clients f ↔ addr ∈ PeerRelays cfg ∧ dial addr = true;
  fed_ok_view addr : addr ∉ clients f → peer_view f addr = (None, None)
}.

Lemma fed_ok_Start cfg dial : fed_ok cfg dial (Start (Federation_New cfg) dial).1.
Proof.
  unfold Start, Federation_New; simpl. split; simpl; [done|done| |done].
  intros addr. rewrite connect_spec. destruct (SyncInterval cfg =? 0); set_solver.
Qed.

Lemma fed_ok_action cfg dial f r a :
  fed_ok cfg dial f → act_addr a ∈ clients f → fed_ok cfg dial (exec_action conv_oob (f, r) a).1.
Proof.
  intros [Hc Hs Hcl Hv] Ha. destruct (exec_actions_rest conv_oob [a] (f, r)) as (Ec & Ecl & _ & Es).
  cbn [foldl fst] in *. split.
  - by rewrite Ec.
  - by rewrite Es.
  - intros addr. rewrite Ecl. apply Hcl.
  - intros addr. rewrite Ecl. intros Hn. rewrite exec_action_view. simpl.
    destruct (decide _) as [<-|]; [done|by apply Hv].
Qed.

(** *** The policy engine *)

Definition policies_ok (e : Engine) : Prop := ids_unique e ∧ "" ∉ rule_ID <$> ListRules e.

Definition op_ID (o : policy_op) : string :=
  match o with PolAdd r | PolUpdate r => rule_ID r | PolRemove id => id end.

Lemma policies_ok_exec e o : op_ID o ≠ "" → policies_ok e → policies_ok (policy_exec e o).1.
Proof.
  intros Ho [Hu He]. destruct (policy_exec_table e o Hu) as [Hu' Ht]. split; [done|].
  apply table_lookup_None. apply table_lookup_None in He.
  pose proof (f_equal fst Ht) as Ht1. cbn [fst] in Ht1. rewrite <- Ht1.
  destruct o as [r|r|id]; simpl in *; case_match; simpl; try done;
    rewrite ?lookup_insert_ne, ?lookup_delete_ne by done; done.
Qed.

Lemma policies_ok_create e w rq :
  policies_ok e → policies_ok (handleCreatePolicy quote decode_rule e w rq).1.
Proof.
  intros He. unfold handleCreatePolicy. destruct (decode_rule _) as [rule|]; [|done].
  destruct (String.eqb_spec (rule_ID rule) ""); [done|]. destruct (String.eqb (Effect rule) ""); [done|].
  pose proof (policies_ok_exec e (PolAdd rule) ltac:(done) He) as Hx. simpl in Hx.
  by destruct (AddRule e rule) as [e' []].
Qed.

Lemma policies_ok_update e w rq :
  policies_ok e → policies_ok (handleUpdatePolicy quote decode_rule e w rq).1.
Proof.
  intros He. unfold handleUpdatePolicy. destruct (String.eqb_spec (rq_path_value rq "id") ""); [done|].
  destruct (decode_rule _) as [rule|]; [|done].
  pose proof (policies_ok_exec e (PolUpdate (set_rule_ID rule (rq_path_value rq "id"))) ltac:(done) He) as Hx.
  simpl in Hx. by destruct (UpdateRule e _) as [e' []].
Qed.

Lemma policies_ok_delete e w rq :
  policies_ok e → policies_ok (handleDeletePolicy quote e w rq).1.
Proof.
  intros He. unfold handleDeletePolicy. destruct (String.eqb_spec (rq_path_value rq "id") ""); [done|].
  pose proof (policies_ok_exec e (PolRemove (rq_path_value rq "id")) ltac:(done) He) as Hx.
  simpl in Hx. by destruct (RemoveRule e _) as [e' []].
Qed.

(** *** The namespaces *)

Lemma ns_wf_create t0 m now w rq :
  ns_wf t0 m → ns_wf t0 (handleCreateNamespace quote decode_ns m now w rq).1.
Proof.
  intros Hm. unfold handleCreateNamespace. destruct (decode_ns _) as [req|]; [|done].
  destruct (String.eqb _ _); [done|].
  pose proof (ns_wf_exec t0 m (NsCreate (cn_Name req) (cn_Description req) now) Hm) as Hx. simpl in Hx.
  by destruct (Create m _ _ _) as [m' []].
Qed.

Lemma ns_wf_delete t0 m w rq : ns_wf t0 m → ns_wf t0 (handleDeleteNamespace quote m w rq).1.
Proof.
  intros Hm. unfold handleDeleteNamespace. destruct (String.eqb _ _); [done|].
  pose proof (ns_wf_exec t0 m (NsDelete (rq_path_value rq "name")) Hm) as Hx. simpl in Hx.
  destruct (Delete m _) as [m' []]; [|done]. by destruct (String.eqb _ _).
Qed.

(** *** The breakers

    The API only resets and lists them. *)

Definition resting (cb : CircuitBreaker) : Prop := state cb = StateClosed ∧ failureCount cb = 0.

Definition all_resting (br : BreakerRegistry) : Prop := ∀ l cb, heap br !! l = Some cb → resting cb.

Lemma GetState_resting cb now : resting cb → GetState cb now = (cb, StateClosed).
Proof.
  intros [Hs _]. unfold GetState. rewrite bool_decide_false by by rewrite Hs. simpl. by rewrite Hs.
Qed.

Lemma list_resting now br kls res :
  all_resting br → (foldl (list_step now) (heap br, res) kls).1 = heap br.
Proof.
  intros Hr. revert res. induction kls as [|[k l] kls IH]; intros res; [done|]. cbn [foldl].
  unfold list_step at 2. cbn [fst snd]. destruct (heap br !! l) as [cb|] eqn:Hl; [|apply IH].
  rewrite GetState_resting by eauto. rewrite insert_id by done. apply IH.
Qed.

Lemma handleListBreakers_resting br ord now w :
  all_resting br → (handleListBreakers br ord now w).1 = br.
Proof.
  intros Hr. unfold handleListBreakers, BreakerRegistry_List.
  pose proof (list_resting now br (omap (λ k, (λ l, (k, l)) <$> breakers br !! k)
    (ord (dom (breakers br)))) ∅ Hr) as Hh.
  destruct (foldl _ _ _) as [h res]. simpl in *. subst h. by destruct br.
Qed.

Lemma all_resting_call br l o :
  (∀ cb, resting cb → resting (cb_exec cb o)) → all_resting br → all_resting (call br l o).
Proof.
  intros Ho Hr. unfold call. destruct (heap br !! l) as [cb|] eqn:Hl; [|done].
  intros l' cb'. simpl. intros [[<- <-]|[_ Hl']]%lookup_insert_Some; eauto.
Qed.

Lemma all_resting_Get br nm : all_resting br → all_resting (BreakerRegistry_Get br nm).1.
Proof.
  intros Hr. unfold BreakerRegistry_Get, get_read, get_write. destruct (breakers br !! nm); [done|].
  intros l cb. simpl. intros [[<- <-]|[_ Hl]]%lookup_insert_Some; [done|eauto].
Qed.

Lemma brk_ok_reset br now w rq :
  br_wf br ∧ all_resting br →
  let br' := (handleResetBreaker br now w rq).1 in br_wf br' ∧ all_resting br'.
Proof.
  intros [Hwf Hr]. unfold handleResetBreaker. destruct (String.eqb _ _); [done|].
  assert (br_wf (BreakerRegistry_Get br (rq_path_value rq "name")).1) as Hwf'.
  { unfold BreakerRegistry_Get, get_read. destruct (breakers br !! _); [done|]. by apply br_wf_get_write. }
  pose proof (all_resting_Get br (rq_path_value rq "name") Hr) as Hr'.
  destruct (BreakerRegistry_Get br _) as [br' cb]. simpl in *. split; [by do 2 apply br_wf_call|].
  apply all_resting_call; [|by apply all_resting_call]. intros cb' Hcb.
  change (resting (GetState cb' now).1). by rewrite GetState_resting.
Qed.

(** ** The invariant of the whole *)

(** [main]'s federation configuration. *)
Definition main_fed_config (fl : Flags) (relayID : string) : fed_Config :=
  mk_fed_Config (map string_of (federation_peers (flagFederationPeers fl)))
    (flagFederationSyncInterval fl) relayID.

Definition fed_inv (fl : Flags) (relayID : string) (dial : string → bool) (s : System) : Prop :=
  match sys_fed s with
  | None => federation_peers (flagFederationPeers fl) = [] ∧ federated (sys_reg s) = ∅
  | Some f => federation_peers (flagFederationPeers fl) ≠ [] ∧ fed_ok (main_fed_config fl relayID) dial f
  end.

Record sys_inv (fl : Flags) (relayID : string) (dial : string → bool) (t0 : Z) (s : System) : Prop := {
  inv_reg : reachable (registry_config fl) (sys_reg s);
  inv_served : all_served (sys_reg s);
  inv_fed : fed_inv fl relayID dial s;
  inv_pol : policies_ok (sys_pol s);
  inv_ns : ns_wf t0 (sys_ns s);
  inv_brk : br_wf (sys_brk s) ∧ all_resting (sys_brk s);
  inv_brk_defaults : defaults (sys_brk s) = main_breaker_config
}.

Lemma sys_inv_init fl relayID dial t0 : sys_inv fl relayID dial t0 (sys_init fl relayID dial t0).
Proof.
  split; simpl.
  - constructor.
  - intros p reg Hp. cbn in Hp. by rewrite lookup_empty in Hp.
  - unfold fed_inv, sys_init. cbn [sys_fed sys_reg].
    destruct (federation_peers (flagFederationPeers fl)) as [|p ps] eqn:Hps; [done|].
    rewrite map_cons, len_cons. pose proof (len_nonneg (map string_of ps)).
    rewrite (proj2 (Z.gtb_lt _ _)) by lia. pose proof (fed_ok_Start (main_fed_config fl relayID) dial) as Hf.
    unfold main_fed_config in *. rewrite Hps in Hf |- *. by split.
  - split; [constructor|]. apply not_elem_of_nil.
  - apply ns_wf_new.
  - split; [apply br_wf_New|]. intros l cb Hl. cbn in Hl. by rewrite lookup_empty in Hl.
  - done.
Qed.

Lemma sys_step_fed s e s' fl relayID dial :
  sys_step s e s' → wf (sys_reg s) →
  fed_inv fl relayID dial s → fed_inv fl relayID dial s'.
Proof.
  unfold fed_inv. intros Hstep Hwf Hs. destruct (sys_step_ops _ _ _ Hstep) as (ops & Hex & _ & Hloc).
  destruct (sys_fed s) as [f|] eqn:Hf.
  - destruct Hstep as [| | | | | |g a st Hg Ha ->| | | | | | |];
      cbn [sys_fed with_reg with_pol with_ns with_brk]; rewrite ?Hf; try done.
    rewrite Hf in Hg. injection Hg as <-. destruct Hs. split; [done|]. by apply fed_ok_action.
  - assert (sys_fed s' = None) as ->.
    { destruct Hstep as [| | | | | |g a st Hg Ha ->| | | | | | |]; (done || congruence). }
    destruct Hs as [Hp Hfed]. split; [done|]. eapply local_ops_federated; eauto.
Qed.

Lemma sys_step_defaults s e s' : sys_step s e s' → defaults (sys_brk s') = defaults (sys_brk s).
Proof.
  destruct 1; try done; cbn [sys_brk with_brk].
  - unfold handleListBreakers, BreakerRegistry_List. by destruct (foldl _ _ _).
  - unfold handleResetBreaker, BreakerRegistry_Get, get_read, get_write, create, call.
    destruct (String.eqb _ _); [done|]. repeat case_match; by simplify_eq/=.
Qed.

Lemma sys_inv_step fl relayID dial t0 s e s' :
  sys_inv fl relayID dial t0 s → sys_step s e s' → sys_inv fl relayID dial t0 s'.
Proof.
  intros [Hr Hse Hf Hp Hn Hb Hd] Hstep. pose proof (reachable_wf _ _ Hr) as Hwf. split.
  - destruct (sys_step_ops _ _ _ Hstep) as (ops & Hex & _). by eapply reachable_exec_all.
  - by eapply sys_step_served.
  - by eapply sys_step_fed.
  - destruct Hstep; try done; cbn [sys_pol with_pol];
      auto using policies_ok_create, policies_ok_update, policies_ok_delete.
  - destruct Hstep; try done; cbn [sys_ns with_ns]; auto using ns_wf_create, ns_wf_delete.
  - destruct Hstep; try done; cbn [sys_brk with_brk]; [|by apply brk_ok_reset].
    by rewrite handleListBreakers_resting by apply Hb.
  - by rewrite (sys_step_defaults _ _ _ Hstep).
Qed.

Lemma sys_inv_run fl relayID dial t0 s es s' :
  sys_inv fl relayID dial t0 s → sys_run s es s' → sys_inv fl relayID dial t0 s'.
Proof. intros Hs Hrun. induction Hrun; eauto using sys_inv_step. Qed.

End system.
