(* ===== verification/SystemProps.v ===== *)
(** * What the relay guarantees as a whole

    Theorems about every run of the system: any sequence of client requests,
    pushes, pulls, disconnects, evictions and control-plane calls. *)
From stdpp Require Import gmap strings list.
From Stdlib Require Import ZArith Lia.
From S2P Require Import Prelude GoStd Registry RegistryInv RegistryDiscover RegistrySpec RegistryLww Breaker BreakerRegistry GoMatch Policy Namespace Proto RegistryGrpc RegistryGrpcProps Federation FederationServer FederationRound Http Api ApiControl Main System.

Local Open Scope Z_scope.

(** A relay with one reachable and one misspelt peer, in which an agent registers,
    another relay pushes, a pull fails and somebody resets a breaker. *)
Definition ex_flags : Flags := mkFlags (30 * Second) (bytes_of " relay-b:1 ,bad,") 0.
Definition ex_dial (addr : string) : bool := negb (String.eqb addr "bad").
Definition ex_sys0 : System := sys_init ex_flags "relay-a" ex_dial 5.
Definition ex_sys1 : System :=
  with_reg ex_sys0 (RegisterSkills (sys_reg ex_sys0) 1000 (ex_req "p")).1.
Definition ex_pushed : FederatedRegistration :=
  mkFederatedRegistration "p" "" [mk_pb_SkillInfo "sum" "" ∅] "B" "" None None 7.
Definition ex_sys2 : System := with_reg ex_sys1 (push_one "relay-b" (sys_reg ex_sys1) ex_pushed).1.
Definition ex_sys3 : System :=
  mkSystem (sys_reg ex_sys2) ((λ f, recordPeerFailure min_int64 f "relay-b:1" 2000) <$> sys_fed ex_sys2)
    (sys_pol ex_sys2) (sys_ns ex_sys2) (sys_brk ex_sys2).
Definition ex_reset : Request := mkRequest "POST" "" (λ _, "") (λ _, "relay-b:1") "".
Definition ex_sys4 : System :=
  with_brk ex_sys3 (handleResetBreaker (sys_brk ex_sys3) 3000 new_writer ex_reset).1.

Definition ex_events : list sys_event :=
  [EvPushed "relay-b" ex_pushed; EvSync (ActFailure "relay-b:1" 2000); EvResetBreaker 3000 ex_reset].

Definition ex_run := sys_run min_int64 (λ s, s) (λ _, inr "no rule") (λ _, inr "no namespace").

Lemma ex_run_events : ex_run ex_sys1 ex_events ex_sys4.
Proof.
  assert (is_Some (sys_fed ex_sys1)) as [f Hf] by (vm_compute; eauto).
  assert ("relay-b:1" ∈ clients f) as Hb.
  { assert ((λ f, bool_decide ("relay-b:1" ∈ clients f)) <$> sys_fed ex_sys1 = Some true) as Hx
      by (vm_compute; reflexivity).
    rewrite Hf in Hx. injection Hx as Hx. by apply bool_decide_eq_true in Hx. }
  eapply run_cons; [by eapply (sys_pushed _ _ _ _ _ f)|].
  eapply run_cons; [|eapply run_cons; [apply sys_reset_breaker|apply run_nil]].
  assert (ex_sys3 = mkSystem (sys_reg ex_sys2)
    (Some (recordPeerFailure min_int64 f "relay-b:1" 2000)) (sys_pol ex_sys2) (sys_ns ex_sys2) (sys_brk ex_sys2)) as E.
  { unfold ex_sys3. change (sys_fed ex_sys2) with (sys_fed ex_sys1). by rewrite Hf. }
  change (with_reg ex_sys1 _) with ex_sys2. fold ex_sys3. rewrite E.
  by eapply (sys_sync _ _ _ _ ex_sys2 f (ActFailure "relay-b:1" 2000) (_, sys_reg ex_sys2)).
Qed.

Lemma ex_run_all : ex_run ex_sys0 (EvRegister 1000 (ex_req "p") :: ex_events) ex_sys4.
Proof. eapply run_cons; [apply sys_register|apply ex_run_events]. Qed.

Section system_properties.
Context `{Timestamps} (conv_oob : Z) (quote : string → string).
Context (decode_rule : string → Rule + string).
Context (decode_ns : string → createNamespaceRequest + string).
Local Abbreviation run := (sys_run conv_oob quote decode_rule decode_ns).

(** C8: In every state a relay can get into: both registration counts are within
    their maxima; a local registration has its key as peer ID, no origin, a skill,
    and an ID for each skill; without federation peers there are no federated
    registrations, and with them the clients are exactly the configured addresses
    that could be dialled, and only clients have a backoff or a time stamp; policy
    rules have distinct, non-empty IDs; the default namespace is there and none is
    unnamed; and every circuit breaker is closed without a failure, because
    nothing in the relay ever reports an outcome to one. *)
Theorem system_invariant fl relayID dial t0 es s
    (Hrun : run (sys_init fl relayID dial t0) es s) :
  let peers := map string_of (federation_peers (flagFederationPeers fl)) in
  map_len (entries (sys_reg s)) <= DefaultMaxRegistrations ∧
  map_len (federated (sys_reg s)) <= DefaultMaxFederatedRegistrations ∧
  (∀ p reg, entries (sys_reg s) !! p = Some reg →
     PeerID reg = p ∧ p ≠ "" ∧ Origin reg = "" ∧ Skills reg ≠ [] ∧
     ∀ sk, sk ∈ Skills reg → SkillID sk ≠ "") ∧
  (peers = [] ↔ sys_fed s = None) ∧ (peers = [] → federated (sys_reg s) = ∅) ∧
  (∀ f, sys_fed s = Some f →
     started f = true ∧
     ∀ addr, (addr ∈ clients f ↔ addr ∈ peers ∧ dial addr = true) ∧
       (addr ∉ clients f → peerStates f !! addr = None ∧ lastSync f !! addr = None)) ∧
  NoDup (rule_ID <$> ListRules (sys_pol s)) ∧ "" ∉ rule_ID <$> ListRules (sys_pol s) ∧
  is_Some (Manager_Get (sys_ns s) defaultNamespace) ∧ Manager_Get (sys_ns s) "" = None ∧
  (∀ nm l, breakers (sys_brk s) !! nm = Some l →
     ∃ cb, heap (sys_brk s) !! l = Some cb ∧ name cb = nm ∧
       state cb = StateClosed ∧ failureCount cb = 0).
Proof.
  cbv zeta. pose proof (sys_inv_run conv_oob quote decode_rule decode_ns fl relayID dial t0 _ es s
    (sys_inv_init quote decode_rule decode_ns fl relayID dial t0) Hrun)
    as [Hr Hse Hf [Hu He] Hns [Hb Hrest] _].
  pose proof (reachable_wf _ _ Hr) as Hwf. pose proof (reachable_config _ _ Hr) as Hcfg.
  unfold fed_inv in Hf. assert (∀ l : list bytes, map string_of l = [] ↔ l = []) as Hmap by (intros []; done).
  split_and!.
  - pose proof (wf_local_cap _ Hwf) as Hc. by rewrite Hcfg in Hc.
  - pose proof (wf_fed_cap _ Hwf) as Hc. by rewrite Hcfg in Hc.
  - intros p reg Hp. destruct (Hse _ _ Hp) as (H1 & H2 & H3). rewrite Forall_forall in H3.
    split_and!; [by eapply wf_keys|done|by eapply wf_origin|done|done].
  - rewrite Hmap. destruct (sys_fed s) as [f|]; naive_solver.
  - rewrite Hmap. destruct (sys_fed s) as [f|]; naive_solver.
  - intros f Hsf. rewrite Hsf in Hf. destruct Hf as [_ [_ Hst Hcl Hv]]. split; [done|]. intros addr. split; [apply Hcl|].
    intros Hn. by injection (Hv _ Hn).
  - done.
  - done.
  - destruct Hns as [_ Hd _]. unfold Manager_Get. rewrite Hd. eauto.
  - destruct Hns as [_ _ Hd]. unfold Manager_Get. by rewrite Hd.
  - intros nm l Hl. destruct (br_alloc _ Hb _ _ Hl) as (cb & Hcb & Hn). exists cb.
    split_and!; [done|done|apply (Hrest _ _ Hcb)..].
Qed.

(** C3: A registration survives the rest of the system.  In every run in which
    [RegisterSkills] succeeds, whatever the other goroutines do afterwards - other
    clients, pushes, pulls, the control plane, evictions up to the deadline - as
    long as no client touches this peer and it does not disconnect: discovery over
    gRPC returns the agent for each of its skills up to the time the client was
    told, and the REST API answers 200 with the agent strictly before that time. *)
Theorem system_registration_isolated fl relayID dial t0 es s now req r1 t es' s'
    (Hrun : run (sys_init fl relayID dial t0) es s)
    (Hreg : RegisterSkills (sys_reg s) now req = (r1, inl t))
    (Hrun' : run (with_reg s r1) es' s')
    (Hspare : Forall (spares_event (rs_PeerId req) (ts_AsTime t)) es') :
  (∀ ord ordF now' q sk,
     now' <= ts_AsTime t → sk ∈ rs_Skills req → ds_SkillId q = pb_SkillId sk →
     ds_Tags q ⊆ pb_Tags sk →
     len (scan_all (sys_reg s') now' (ds_SkillId q) (ds_Tags q) (ds_Federated q)) <=
       clampLimit (ds_Limit q) →
     ∃ agents, GRPCServer_DiscoverBySkill (sys_reg s') ord ordF now' q = inl agents ∧
       mkSkillRegistration (rs_PeerId req) (rs_Skills req) (rs_AgentName req)
         (rs_AgentDescription req) (ts_New now) t ∈ agents) ∧
  (∀ ord ordF now' rq,
     now' < ts_AsTime t → rq_path_value rq "peer_id" = rs_PeerId req →
     let w := handleGetAgent (mkRegRead (sys_reg s') now' ord ordF) new_writer rq in
     response_status w = StatusOK ∧
     response_body w = [BodyJson (JAgent (regToAgent (registered req now (ts_AsTime t))))]).
Proof.
  pose proof (sys_inv_run conv_oob quote decode_rule decode_ns fl relayID dial t0 _ es s
    (sys_inv_init quote decode_rule decode_ns fl relayID dial t0) Hrun) as [Hr _ _ _ _ _ _].
  destruct (RegisterSkills_stored _ _ _ _ _ (reachable_wf _ _ Hr) Hreg) as (Hv & Hwf1 & -> & Hent).
  rewrite ts_AsTime_New in *.
  destruct (sys_run_ops _ _ _ _ _ _ _ Hrun') as (ops & Hex & Hsp).
  set (reg := registered req now (now + TTL (Registry.config (sys_reg s)))) in *.
  destruct (spared_kept r1 ops (sys_reg s') (rs_PeerId req) reg) as [Hwf2 Hp];
    [done| |by apply Hsp|done|].
  { by rewrite Hent, lookup_insert_eq. }
  split; [intros; by eapply registered_discovered|]. intros ord ordF now' rq Hlt Hid. cbv zeta.
  unfold handleGetAgent. rewrite Hid. destruct Hv as (Hne & _). apply String.eqb_neq in Hne.
  rewrite Hne. cbn [rd_reg rd_now]. unfold GetRegistration, lookup_live. rewrite Hp. unfold Before.
  change (ExpiresAt reg) with (now + TTL (Registry.config (sys_reg s))). rewrite (proj2 (Z.ltb_lt _ _) Hlt).
  unfold response_status, response_body. by rewrite writeJSON_response.
Qed.
End system_properties.


Lemma system_invariant_witness :
  sys_fed ex_sys4 ≠ None ∧ map_len (entries (sys_reg ex_sys4)) = 1 ∧
  map_len (federated (sys_reg ex_sys4)) <= DefaultMaxFederatedRegistrations.
Proof.
  pose proof (system_invariant _ _ _ _ _ _ _ _ _ _ ex_run_all) as (_ & Hfed & _ & Hp & _).
  split_and!; [|vm_compute; reflexivity|exact Hfed].
  intros Hn. apply Hp in Hn. vm_compute in Hn. discriminate.
Defined.

Lemma system_registration_isolated_witness :
  response_status (handleGetAgent (mkRegRead (sys_reg ex_sys4) 4000 canonical_order canonical_order)
    new_writer (mkRequest "GET" "" (λ _, "") (λ _, "p") "")) = StatusOK.
Proof.
  destruct (system_registration_isolated min_int64 (λ s, s) (λ _, inr "no rule") (λ _, inr "no namespace")
    ex_flags "relay-a" ex_dial 5 [] ex_sys0 1000 (ex_req "p")
    (RegisterSkills (sys_reg ex_sys0) 1000 (ex_req "p")).1 (ts_New (1000 + 30 * Second)) ex_events ex_sys4)
    as [_ Hget]; [apply run_nil|vm_compute; reflexivity|apply ex_run_events|repeat constructor|].
  apply Hget; [rewrite ts_AsTime_New; vm_compute; reflexivity|reflexivity].
Defined.
