(* ===== verification/Startup.v ===== *)
(** * [main] from its flags to its exit ([src/cmd/relay/main.go])

    [main] is a sequence of calls, most of which may fail; a failure is logged and
    ends the process through [os.Exit], which runs no deferred call, while the
    return of [main] and a panic of [main] run them.  [Main] is the monad of such
    programs: the effects so far and the result, or how the process ended.  The
    two goroutines that make a ticker when they start are effects too, with whether
    the ticker panics; such a panic ends the process at any later point of [main],
    and [process] is the relation of all the ways a process can go to its end.  The
    calls that [main] waits for return, and no signal comes before [main] asks for
    it.  libp2p, the network and the key functions are parameters; the components
    are made with their own definitions. *)
From stdpp Require Import gmap strings list.
From Stdlib Require Import ZArith Lia SpecFloat.
From S2P Require Import Prelude GoStd GoMatch Telemetry Registry BreakerRegistry Policy Namespace Federation Mcp McpServer Main System RegistryLoop.

Local Open Scope Z_scope.
Local Open Scope relay_scope.

(** ** Flags *)

Record MainFlags := mkMainFlags {
  fListenAddr : bytes;
  fKeyPath : bytes;
  fMaxReservations : Z;
  fLogLevel : string;
  fRegistryListen : string;
  fRegistryTTL : Z;
  fEnableWebTransport : bool;
  fMCPListen : string;
  fMetricsListen : string;
  fAPIListen : string;
  fAPICORSOrigins : bytes;
  fOTLPEndpoint : string;
  fFederationPeers : bytes;
  fFederationSyncInterval : Z;
  fVersion : bool
}.

Definition default_flags : MainFlags :=
  {| fListenAddr := bytes_of "/ip4/0.0.0.0/tcp/4001";
     fKeyPath := [];
     fMaxReservations := 128;
     fLogLevel := "info";
     fRegistryListen := ":50052";
     fRegistryTTL := 30 * Second;
     fEnableWebTransport := false;
     fMCPListen := ":8080";
     fMetricsListen := ":9090";
     fAPIListen := ":8081";
     fAPICORSOrigins := [];
     fOTLPEndpoint := "";
     fFederationPeers := [];
     fFederationSyncInterval := 10 * Second;
     fVersion := false |}.

(** The flags that reach the shared components. *)
Definition sys_flags (fl : MainFlags) : Flags :=
  mkFlags (fRegistryTTL fl) (fFederationPeers fl) (fFederationSyncInterval fl).

(** ** Effects *)

(** The deferred calls, in the order of their [defer] statements. *)
Inductive deferred :=
| DeferTelemetry | DeferHostClose | DeferRegistryClose | DeferFederationCancel | DeferStopSignals.

#[export] Instance deferred_eq_dec : EqDecision deferred.
Proof. solve_decision. Defined.

(** The goroutines that make a ticker when they start. *)
Inductive goroutine := CleanupLoop | SyncLoop.

#[export] Instance goroutine_eq_dec : EqDecision goroutine.
Proof. solve_decision. Defined.

Record RelayResources := mkRelayResources {
  rr_Duration : Z;
  rr_Data : Z;
  rr_MaxReservations : Z;
  rr_MaxCircuits : Z;
  rr_BufferSize : Z;
  rr_MaxReservationsPerPeer : Z;
  rr_MaxReservationsPerIP : Z
}.

Inductive effect :=
| Printf (line : string)
| Log (lvl : Level) (msg : string)
| SetLogLevel (lvl : Level)
| SetupTelemetry (cfg : TelemetryConfig)
| KeyFile (e : fs_effect)
| HostUp (listenAddrs : list bytes) (webtransport : bool)
| RelayUp (res : RelayResources)
| RegistryUp (cfg : Registry.Config)
| Go (g : goroutine) (panics : bool)
| WatcherUp
| GrpcListening (addr : string)
| GrpcService (name : string)
| FederationUp (cfg : fed_Config)
| GrpcServing
| McpUp (addr : string)
| HealthUp (addr : string) (federation : bool)
| ControlPlaneUp (cfg : BreakerConfig)
| ApiUp (addr : string) (corsOrigins : list bytes) (federation : bool)
| Defer (d : deferred)
| SignalReceived
| ApiClosed | HealthClosed | FederationStopped | McpClosed | GrpcStopped
| RunDeferred (d : deferred).

(** How a process ends before [main] returns: [os.Exit], or a panic. *)
Inductive halt := Exit (code : Z) | Panic.

Definition Main (A : Type) : Type := list effect * (A + halt).

Definition main_ret {A} (a : A) : Main A := ([], inl a).
Definition main_bind {A B} (m : Main A) (f : A → Main B) : Main B :=
  match m.2 with
  | inl a => let '(effects, r) := f a in (m.1 ++ effects, r)
  | inr h => (m.1, inr h)
  end.
Notation "'let*' x := m 'in' k" := (main_bind m (λ x, k)) (at level 200, x name, right associativity) : relay_scope.
Notation "'do*' m 'in' k" := (main_bind m (λ _, k)) (at level 200, right associativity) : relay_scope.

Definition emit (e : effect) : Main unit := ([e], inl tt).
Definition emit_if (b : bool) (es : list effect) : Main unit := (if b then es else [], inl tt).

(** [if err != nil { logger.Error(msg); os.Exit(1) }] *)
Definition must {A} (r : A + string) (msg : string) : Main A :=
  match r with
  | inl a => main_ret a
  | inr _ => ([Log LevelError msg], inr (Exit 1))
  end.

Definition nonempty (s : string) : bool := negb (String.eqb s "").

Section main.
Context {K Exporter Resource : Type}.
Context (version : string).

(** Tracing, the key, multiaddresses, the host, the network, the clock. *)
Context (otlptracegrpc_New : string → bool → Exporter + string).
Context (resource_New : list (string * string) → Resource + string).
Context (generate : option K) (marshal : K → option string) (unmarshal : string → option K).
Context (ReadFile : bytes → read_result).
Context (valid : bytes → bool).
Context (libp2p_New : K → list bytes → bool → (string * list string) + string).
Context (relay_New : RelayResources → unit + string).
Context (Subscribe : unit + string).
Context (net_Listen : string → string + string).
Context (dial : string → bool).
Context (now : Z).

Definition otel_init : Otel Exporter Resource := mkOtel DelegateProvider [] [] [].

Definition telemetry_config (fl : MainFlags) : TelemetryConfig :=
  mkTelemetryConfig (nonempty (fOTLPEndpoint fl)) (fOTLPEndpoint fl) f64_one version.

Definition load_key (fl : MainFlags) : Main K :=
  let '(out, fs) := loadOrGenerateKey generate marshal unmarshal (fKeyPath fl) (ReadFile (fKeyPath fl)) in
  do* (KeyFile <$> fs, inl tt) in
  match out with
  | KeyOk k => main_ret k
  | KeyErr => must (inr "") "failed to load key"
  | KeyPanic => ([], inr Panic)
  end.

(** [multiaddr.NewMultiaddr]. *)
Definition parse_addr (a : bytes) : bytes + string := if valid a then inl a else inr "".

Definition parse_listen_addrs (fl : MainFlags) : Main (list bytes) :=
  let* listenMA := must (parse_addr (fListenAddr fl)) "invalid listen address" in
  let* quicMA := must (parse_addr (quic_addr (fListenAddr fl))) "invalid QUIC listen address" in
  if fEnableWebTransport fl then
    let* wtMA := must (parse_addr (webtransport_addr (fListenAddr fl))) "invalid WebTransport listen address" in
    do* emit (Log LevelInfo "WebTransport enabled") in
    main_ret [listenMA; quicMA; wtMA]
  else main_ret [listenMA; quicMA].

Definition relay_resources (fl : MainFlags) : RelayResources :=
  mkRelayResources (2 * Minute) 131072 (fMaxReservations fl) 16 4096 4 8.

Definition is_some {A} (o : option A) : bool := match o with Some _ => true | None => false end.

(** The registry, whose [New] starts the cleanup loop. *)
Definition start_registry (fl : MainFlags) : Main Registry :=
  let cfg := registry_config (sys_flags fl) in
  do* emit (RegistryUp cfg) in
  do* emit (Go CleanupLoop (negb (is_some (Registry_spawn cfg now)))) in
  do* emit (Defer DeferRegistryClose) in
  main_ret (Registry_New cfg).

(** Federation: the manager, its service on the gRPC server, its start.  [Start]
    reports no error; with a connection it starts the sync loop, which makes its ticker. *)
Definition start_federation (fl : MainFlags) (hostID : string) : Main (option Federation) :=
  let federationPeers := map string_of (federation_peers (fFederationPeers fl)) in
  if len federationPeers >? 0 then
    let cfg := mk_fed_Config federationPeers (fFederationSyncInterval fl) hostID in
    let '(fed, loop) := Start (Federation_New cfg) dial in
    do* emit (GrpcService "FederationService") in
    do* emit (Defer DeferFederationCancel) in
    do* emit (FederationUp cfg) in
    do* emit_if loop [Go SyncLoop (negb (is_some (NewTicker (SyncInterval (fed_cfg fed)))))] in
    do* emit (Log LevelInfo "federation enabled") in
    main_ret (Some fed)
  else main_ret None.

(** The MCP server, when it has an address: [New] does not fail, [Start] does when
    it cannot listen. *)
Definition start_mcp (fl : MainFlags) : Main unit :=
  if nonempty (fMCPListen fl) then
    match (mcp_Start net_Listen (mcp_New (fMCPListen fl))).2 with
    | None => emit (McpUp (fMCPListen fl))
    | Some err => must (inr err) "failed to start MCP server"
    end
  else main_ret tt.

(** The health server, when it has an address.  [Start] reports no error. *)
Definition start_health (fl : MainFlags) (fed : bool) : Main unit :=
  emit_if (nonempty (fMetricsListen fl))
    [HealthUp (fMetricsListen fl) fed; Log LevelInfo "health/metrics server started"].

(** The REST API, when it has an address.  [Start] reports no error. *)
Definition start_api (fl : MainFlags) (fed : bool) : Main unit :=
  emit_if (nonempty (fAPIListen fl)) [ApiUp (fAPIListen fl) (cors_origins (fAPICORSOrigins fl)) fed].

(** The lines on standard output. *)
Definition banner (fl : MainFlags) (hostID : string) (addrs : list string) : list string :=
  ((λ addr, "RELAY_ADDR=" +:+ addr +:+ "/p2p/" +:+ hostID) <$> addrs) ++
  ["REGISTRY_ADDR=" +:+ fRegistryListen fl] ++
  (if nonempty (fMCPListen fl) then ["MCP_ADDR=" +:+ fMCPListen fl] else []) ++
  (if nonempty (fMetricsListen fl) then ["METRICS_ADDR=" +:+ fMetricsListen fl] else []) ++
  (if nonempty (fAPIListen fl) then ["API_ADDR=" +:+ fAPIListen fl] else []).

(** Up to the banner. *)
Definition startup (fl : MainFlags) : Main System :=
  do* emit (SetLogLevel (log_level (fLogLevel fl))) in
  do* emit (SetupTelemetry (telemetry_config fl)) in
  let* otelShutdown := must (Setup otlptracegrpc_New resource_New otel_init (telemetry_config fl)).2 "failed to initialize telemetry" in
  do* emit (Defer DeferTelemetry) in
  let* privKey := load_key fl in
  let* listenAddrs := parse_listen_addrs fl in
  let* host := must (libp2p_New privKey listenAddrs (fEnableWebTransport fl)) "failed to create host" in
  do* emit (HostUp listenAddrs (fEnableWebTransport fl)) in
  do* emit (Defer DeferHostClose) in
  do* must (relay_New (relay_resources fl)) "failed to enable relay" in
  do* emit (RelayUp (relay_resources fl)) in
  let* reg := start_registry fl in
  do* must Subscribe "failed to subscribe to peer events" in
  do* emit WatcherUp in
  do* must (net_Listen (fRegistryListen fl)) "failed to listen for gRPC" in
  do* emit (GrpcListening (fRegistryListen fl)) in
  do* emit (GrpcService "RegistryService") in
  let* fed := start_federation fl host.1 in
  do* emit GrpcServing in
  do* start_mcp fl in
  do* start_health fl (is_some fed) in
  let policyEngine := NewEngine in
  let namespaceMgr := NewManager now in
  let breakerRegistry := NewBreakerRegistry main_breaker_config in
  do* emit (ControlPlaneUp main_breaker_config) in
  do* emit (Log LevelInfo "mesh control plane initialized") in
  do* start_api fl (is_some fed) in
  do* emit (Log LevelInfo "agentanycast-relay started") in
  do* (Printf <$> banner fl host.1 host.2, inl tt) in
  main_ret (mkSystem reg fed policyEngine namespaceMgr breakerRegistry).

(** After the signal. *)
Definition shutdown (fl : MainFlags) (fed : bool) : Main unit :=
  do* emit (Defer DeferStopSignals) in
  do* emit SignalReceived in
  do* emit (Log LevelInfo "shutting down") in
  do* emit_if (nonempty (fAPIListen fl)) [ApiClosed] in
  do* emit_if (nonempty (fMetricsListen fl)) [HealthClosed] in
  do* emit_if fed [FederationStopped] in
  do* emit_if (nonempty (fMCPListen fl)) [McpClosed] in
  emit GrpcStopped.

Definition main (fl : MainFlags) : Main unit :=
  if fVersion fl then do* emit (Printf ("agentanycast-relay " +:+ version)) in ([], inr (Exit 0))
  else let* s := startup fl in shutdown fl (is_some (sys_fed s)).

Definition deferred_of (e : effect) : option deferred := match e with Defer d => Some d | _ => None end.

(** What the thread of [main] does and the status it ends with.  Deferred calls run
    last first, unless [os.Exit] ended it; a panic ends it with status 2. *)
Definition finish (m : Main unit) : list effect * Z :=
  let deferred_calls := RunDeferred <$> reverse (omap deferred_of m.1) in
  match m.2 with
  | inl _ => (m.1 ++ deferred_calls, 0)
  | inr (Exit c) => (m.1, c)
  | inr Panic => (m.1 ++ deferred_calls, 2)
  end.

Definition crashes (e : effect) : bool := match e with Go _ panics => panics | _ => false end.

(** How the process goes: to the end of [main], or to the panic of a goroutine that
    [main] has started, which ends it with status 2 wherever [main] is and runs no
    deferred call of [main].  [main] waits for the signal with nothing else to do,
    so every goroutine started before has run when the signal comes. *)
Inductive process (m : Main unit) : list effect → Z → Prop :=
| process_main :
    (∀ before after, m.1 = before ++ SignalReceived :: after → existsb crashes before = false) →
    process m (finish m).1 (finish m).2
| process_crash before after :
    m.1 = before ++ after → existsb crashes before = true → SignalReceived ∉ before →
    process m before 2.

End main.
