(* ===== verification/StartupProps.v ===== *)
(** * How the process starts and ends

    The checks of [main] as a list, the flags for which a goroutine panics, and the
    theorems: the first check that fails and these flags decide how the process can
    end, and a process that starts sets up the relay of [System.v], closes whatever
    it opened and runs every deferred call. *)
From stdpp Require Import gmap strings list.
From Stdlib Require Import ZArith Lia SpecFloat.
From S2P Require Import Prelude GoStd GoMatch Telemetry Registry BreakerRegistry Policy Namespace Federation Mcp McpServer Main System RegistryInv RegistryLoop Proto FederationLoop Startup.

Local Open Scope Z_scope.

(** ** Reading a trace *)

Definition printed (e : effect) : option string := match e with Printf l => Some l | _ => None end.
Definition run_of (e : effect) : option deferred := match e with RunDeferred d => Some d | _ => None end.

Inductive service := SvcGrpc | SvcFederation | SvcMcp | SvcHealth | SvcApi.

#[export] Instance service_eq_dec : EqDecision service.
Proof. solve_decision. Defined.

Definition opened (e : effect) : option service :=
  match e with
  | GrpcListening _ => Some SvcGrpc
  | FederationUp _ => Some SvcFederation
  | McpUp _ => Some SvcMcp
  | HealthUp _ _ => Some SvcHealth
  | ApiUp _ _ _ => Some SvcApi
  | _ => None
  end.

Definition closed (e : effect) : option service :=
  match e with
  | GrpcStopped => Some SvcGrpc
  | FederationStopped => Some SvcFederation
  | McpClosed => Some SvcMcp
  | HealthClosed => Some SvcHealth
  | ApiClosed => Some SvcApi
  | _ => None
  end.

Definition is_signal (e : effect) : bool := match e with SignalReceived => true | _ => false end.
Definition signal_of (e : effect) : option () := if is_signal e then Some () else None.

Lemma omap_signal tr : omap signal_of tr = [] → SignalReceived ∉ tr.
Proof.
  intros Hs Hin. assert (() ∈ omap signal_of tr) as Hu by (apply list_elem_of_omap; by exists SignalReceived).
  rewrite Hs in Hu. by apply elem_of_nil in Hu.
Qed.

(** Effects of the start before the banner: nothing printed, closed or run, and no
    signal. *)
Definition quiet (e : effect) : bool :=
  negb (is_some (printed e) || is_some (run_of e) || is_some (closed e) || is_signal e).

Lemma quiet_omaps tr :
  Forall (λ e, quiet e = true) tr →
  omap printed tr = [] ∧ omap run_of tr = [] ∧ omap closed tr = [] ∧ SignalReceived ∉ tr.
Proof.
  induction 1 as [|e tr He _ (H1 & H2 & H3 & H4)]; [split_and!; try done; apply not_elem_of_nil|].
  unfold quiet in He. simpl.
  destruct (printed e), (run_of e), (closed e); try done. rewrite not_elem_of_cons. split_and!; [done..| |done].
  by intros <-.
Qed.

(** ** The ways of a process *)

Lemma process_quiet (m : Main unit) tr code :
  existsb crashes m.1 = false → process m tr code ↔ (tr, code) = finish m.
Proof.
  intros Hc. split.
  - destruct 1 as [_|before after Hm Hb _]; [by destruct (finish m)|].
    by rewrite Hm, existsb_app, Hb in Hc.
  - intros Heq. destruct (finish m) as [tr' code'] eqn:Hf. injection Heq as -> ->.
    change tr' with (tr', code').1. change code' with (tr', code').2 at 2. rewrite <- Hf. apply process_main.
    intros before after Hm. rewrite Hm, existsb_app in Hc. by apply orb_false_iff in Hc as [? _].
Qed.

(** Before the signal, a process that fails may also end by the panic. *)
Lemma process_before_signal trm h tr code :
  SignalReceived ∉ trm →
  process (trm, inr h) tr code ↔
    (tr, code) = finish (trm, inr h) ∨ (code = 2 ∧ (∃ after, trm = tr ++ after) ∧ existsb crashes tr = true).
Proof.
  intros Hn. split.
  - destruct 1 as [_|before after Hm Hb _]; [left; by destruct (finish _)|right]. split_and!; [done|by exists after|done].
  - intros [Heq|(-> & [after Hm] & Hc)].
    + destruct (finish (trm, inr h)) as [tr' code'] eqn:Hf. injection Heq as -> ->.
      change tr' with (tr', code').1. change code' with (tr', code').2 at 2. rewrite <- Hf. apply process_main.
      intros before after Hm. cbn in Hm. subst trm. rewrite not_elem_of_app, not_elem_of_cons in Hn. naive_solver.
    + apply (process_crash (trm, inr h) tr after Hm Hc). subst trm. rewrite not_elem_of_app in Hn. by destruct Hn.
Qed.

(** With a panicking goroutine [main] does not get past the signal. *)
Lemma process_crashes up down a tr code :
  existsb crashes up = true → SignalReceived ∉ up →
  process (up ++ SignalReceived :: down, inl a) tr code ↔
    code = 2 ∧ (∃ after, up = tr ++ after) ∧ existsb crashes tr = true.
Proof.
  intros Hc Hn. split.
  - destruct 1 as [Hm|before after Hm Hb Hs]; [by rewrite (Hm up down eq_refl) in Hc|]. cbn in Hm.
    split_and!; [done| |done]. revert Hs Hm. clear Hn Hc Hb.
    revert up. induction before as [|e before IH]; intros up Hs Hm; [by exists up|].
    destruct up as [|e' up]; injection Hm as <- Hm; [by destruct Hs; left|].
    rewrite not_elem_of_cons in Hs. destruct (IH up ltac:(by apply Hs) Hm) as [l ->]. by exists l.
  - intros (-> & [after ->] & Hb). apply (process_crash _ tr (after ++ SignalReceived :: down)); [cbn; by rewrite <- app_assoc|done|].
    rewrite not_elem_of_app in Hn. by destruct Hn.
Qed.

(** ** The checks *)

Inductive gate := Pass | Fails (msg : string) | Panics.

Fixpoint first_stop (gs : list gate) : gate :=
  match gs with
  | [] => Pass
  | Pass :: gs => first_stop gs
  | g :: _ => g
  end.

Definition gate_if (ok : bool) (msg : string) : gate := if ok then Pass else Fails msg.
Definition ok {A} (r : A + string) : bool := match r with inl _ => true | inr _ => false end.

Section props.
Context {K Exporter Resource : Type} (version : string).
Context (newE : string → bool → Exporter + string) (newR : list (string * string) → Resource + string).
Context (generate : option K) (marshal : K → option string) (unmarshal : string → option K).
Context (ReadFile : bytes → read_result) (valid : bytes → bool).
Context (libp2p_New : K → list bytes → bool → (string * list string) + string).
Context (relay_New : RelayResources → unit + string) (Subscribe : unit + string).
Context (net_Listen : string → string + string) (dial : string → bool) (now : Z).

Local Abbreviation start := (startup version newE newR generate marshal unmarshal ReadFile valid libp2p_New
  relay_New Subscribe net_Listen dial now).
Local Abbreviation run := (process (main version newE newR generate marshal unmarshal ReadFile valid libp2p_New
  relay_New Subscribe net_Listen dial now _)).
Local Abbreviation setup fl := (Setup newE newR otel_init (telemetry_config version fl)).
Local Abbreviation key fl := (loadOrGenerateKey generate marshal unmarshal (fKeyPath fl) (ReadFile (fKeyPath fl))).

(** The listen addresses that the host gets. *)
Definition all_addrs (fl : MainFlags) : list bytes :=
  [fListenAddr fl; quic_addr (fListenAddr fl)] ++
  (if fEnableWebTransport fl then [webtransport_addr (fListenAddr fl)] else []).

Definition gates (fl : MainFlags) : list gate :=
  [gate_if (ok (setup fl).2) "failed to initialize telemetry";
   match (key fl).1 with KeyOk _ => Pass | KeyErr => Fails "failed to load key" | KeyPanic => Panics end;
   gate_if (valid (fListenAddr fl)) "invalid listen address";
   gate_if (valid (quic_addr (fListenAddr fl))) "invalid QUIC listen address";
   gate_if (negb (fEnableWebTransport fl) || valid (webtransport_addr (fListenAddr fl)))
     "invalid WebTransport listen address";
   match (key fl).1 with
   | KeyOk k => gate_if (ok (libp2p_New k (all_addrs fl) (fEnableWebTransport fl))) "failed to create host"
   | _ => Pass
   end;
   gate_if (ok (relay_New (relay_resources fl))) "failed to enable relay";
   gate_if (ok Subscribe) "failed to subscribe to peer events";
   gate_if (ok (net_Listen (fRegistryListen fl))) "failed to listen for gRPC";
   gate_if (negb (nonempty (fMCPListen fl)) || ok (net_Listen (fMCPListen fl))) "failed to start MCP server"].

(** ** Stage by stage *)

(** The stages that make several calls, as what they do and how they end. *)
Lemma parse_listen_addrs_eq fl :
  match first_stop [gate_if (valid (fListenAddr fl)) "invalid listen address";
   gate_if (valid (quic_addr (fListenAddr fl))) "invalid QUIC listen address";
   gate_if (negb (fEnableWebTransport fl) || valid (webtransport_addr (fListenAddr fl)))
     "invalid WebTransport listen address"] with
  | Pass => parse_listen_addrs valid fl =
      ((if fEnableWebTransport fl then [Log LevelInfo "WebTransport enabled"] else []), inl (all_addrs fl))
  | Fails msg => parse_listen_addrs valid fl = ([Log LevelError msg], inr (Exit 1))
  | Panics => False
  end.
Proof.
  unfold parse_listen_addrs, parse_addr, all_addrs.
  by destruct (valid (fListenAddr fl)), (valid (quic_addr (fListenAddr fl))), (fEnableWebTransport fl),
    (valid (webtransport_addr (fListenAddr fl))).
Qed.

(** The addresses are those of [listen_addrs]. *)
Lemma parse_listen_addrs_listen_addrs fl :
  listen_addrs valid (fListenAddr fl) (fEnableWebTransport fl) =
    match (parse_listen_addrs valid fl).2 with inl l => Some l | inr _ => None end.
Proof.
  unfold listen_addrs, parse_listen_addrs, parse_addr.
  by destruct (valid (fListenAddr fl)), (valid (quic_addr (fListenAddr fl))), (fEnableWebTransport fl),
    (valid (webtransport_addr (fListenAddr fl))).
Qed.

Lemma load_key_eq fl :
  load_key generate marshal unmarshal ReadFile fl =
    match (key fl).1 with
    | KeyOk k => (KeyFile <$> (key fl).2, inl k)
    | KeyErr => ((KeyFile <$> (key fl).2) ++ [Log LevelError "failed to load key"], inr (Exit 1))
    | KeyPanic => (KeyFile <$> (key fl).2, inr Panic)
    end.
Proof.
  unfold load_key. destruct (key fl) as [[k| |] fs]; unfold main_bind; simpl; by rewrite ?app_nil_r.
Qed.

Lemma start_mcp_eq fl :
  start_mcp net_Listen fl =
    if negb (nonempty (fMCPListen fl)) || ok (net_Listen (fMCPListen fl))
    then ((if nonempty (fMCPListen fl) then [McpUp (fMCPListen fl)] else []), inl tt)
    else ([Log LevelError "failed to start MCP server"], inr (Exit 1)).
Proof.
  unfold start_mcp, nonempty, mcp_Start, mcp_New, mcp_listen_addr. cbn [ms_listenAddr].
  destruct (String.eqb (fMCPListen fl) "") eqn:E; simpl; [done|].
  by destruct (net_Listen (fMCPListen fl)).
Qed.

(** ** The goroutines that panic *)

(** [time.NewTicker] gets half of the TTL, or the interval of the flag. *)
Definition cleanup_panics (fl : MainFlags) : bool := (fRegistryTTL fl =? 1) || (fRegistryTTL fl <? 0).
Definition dials (fl : MainFlags) : bool := existsb (λ p, dial (string_of p)) (federation_peers (fFederationPeers fl)).
Definition sync_panics (fl : MainFlags) : bool := (fFederationSyncInterval fl <? 0) && dials fl.
Definition goroutine_panics (fl : MainFlags) : bool := cleanup_panics fl || sync_panics fl.

Definition registry_effects (fl : MainFlags) : list effect :=
  [RegistryUp (registry_config (sys_flags fl)); Go CleanupLoop (cleanup_panics fl); Defer DeferRegistryClose].

Lemma start_registry_eq fl :
  start_registry now fl = (registry_effects fl, inl (Registry_New (registry_config (sys_flags fl)))).
Proof.
  unfold start_registry, registry_effects. cbn.
  enough (negb (is_some (Registry_spawn (registry_config (sys_flags fl)) now)) = cleanup_panics fl) as -> by done.
  pose proof (Registry_spawn_None (registry_config (sys_flags fl)) now eq_refl) as H. cbn [registry_config sys_flags TTL flagRegistryTTL] in H.
  unfold cleanup_panics. destruct (Registry_spawn _ now); cbn.
  - symmetry. assert (¬ (fRegistryTTL fl = 1 ∨ fRegistryTTL fl < 0)) as Hn by (intros Hp; by apply H in Hp).
    apply orb_false_iff. split; [apply Z.eqb_neq|apply Z.ltb_ge]; lia.
  - symmetry. apply orb_true_iff. rewrite Z.eqb_eq, Z.ltb_lt. by apply H.
Qed.

Definition has_peers (fl : MainFlags) : bool := bool_decide (federation_peers (fFederationPeers fl) ≠ []).

Definition fed_effects (fl : MainFlags) (hostID : string) : list effect :=
  if has_peers fl then
    [GrpcService "FederationService"; Defer DeferFederationCancel;
     FederationUp (main_fed_config (sys_flags fl) hostID)] ++
    (if dials fl then [Go SyncLoop (fFederationSyncInterval fl <? 0)] else []) ++
    [Log LevelInfo "federation enabled"]
  else [].

Lemma connect_dials (ps : list bytes) :
  negb (set_len (connect dial (map string_of ps) ∅) =? 0) = existsb (λ p, dial (string_of p)) ps.
Proof.
  rewrite set_len_zero. case_bool_decide as He; cbn; symmetry.
  - apply not_true_iff_false. intros (p & Hp & Hd)%existsb_exists.
    assert (string_of p ∈ connect dial (map string_of ps) ∅) as Hin; [|by rewrite He in Hin; apply elem_of_empty in Hin].
    apply connect_spec. right. split; [|done]. apply list_elem_of_In, in_map, Hp.
  - apply set_choose_L in He as (a & [?%elem_of_empty|[Ha Hd]]%connect_spec); [done|].
    apply list_elem_of_In, in_map_iff in Ha as (p & <- & Hp). apply existsb_exists. by exists p.
Qed.

Lemma new_ticker_default cfg : is_some (NewTicker (SyncInterval (fed_cfg (Federation_New cfg)))) = negb (SyncInterval cfg <? 0).
Proof.
  unfold Federation_New. cbn [fed_cfg]. destruct (Z.eqb_spec (SyncInterval cfg) 0) as [->|Hz]; [done|].
  unfold NewTicker. case_if Hc; cbn; bool_to_prop; symmetry; [apply negb_false_iff, Z.ltb_lt|apply negb_true_iff, Z.ltb_ge]; lia.
Qed.

(** The two flags panic where the models of the loops say so. *)
Lemma panics_loops `{Timestamps} fl hostID r :
  (cleanup_panics fl = true ↔ Registry_spawn (registry_config (sys_flags fl)) now = None) ∧
  (sync_panics fl = true ↔ fed_start (fed_new (main_fed_config (sys_flags fl) hostID) r) dial = None).
Proof.
  split.
  - rewrite Registry_spawn_None by done. unfold cleanup_panics. by rewrite orb_true_iff, Z.eqb_eq, Z.ltb_lt.
  - rewrite fed_start_None. unfold sync_panics, dials. rewrite andb_true_iff, Z.ltb_lt, <- connect_dials.
    cbn [main_fed_config sys_flags SyncInterval PeerRelays flagFederationSyncInterval flagFederationPeers].
    rewrite set_len_zero. case_bool_decide; naive_solver.
Qed.

Lemma Start_new cfg :
  (Start (Federation_New cfg) dial).2 = negb (set_len (connect dial (PeerRelays cfg) ∅) =? 0) ∧
  fed_cfg (Start (Federation_New cfg) dial).1 = fed_cfg (Federation_New cfg).
Proof. unfold Start, Federation_New. cbn. by destruct (SyncInterval cfg =? 0). Qed.

Lemma start_federation_eq fl hostID :
  start_federation dial fl hostID = (fed_effects fl hostID, inl (sys_fed (sys_init (sys_flags fl) hostID dial now))) ∧
  is_some (sys_fed (sys_init (sys_flags fl) hostID dial now)) = has_peers fl.
Proof.
  unfold start_federation, fed_effects, has_peers, dials, sys_init, main_fed_config.
  cbn [sys_fed sys_flags flagFederationPeers flagFederationSyncInterval].
  rewrite <- connect_dials. destruct (federation_peers (fFederationPeers fl)) as [|p ps]; [done|].
  rewrite bool_decide_eq_true_2 by done.
  assert (len (map string_of (p :: ps)) >? 0 = true) as ->.
  { rewrite map_cons, len_cons. pose proof (len_nonneg (map string_of ps)). apply Z.gtb_lt. lia. }
  set (cfg := mk_fed_Config (map string_of (p :: ps)) (fFederationSyncInterval fl) hostID).
  destruct (Start_new cfg) as [Hl Hc]. pose proof (new_ticker_default cfg) as Ht. rewrite <- Hc in Ht.
  change (connect dial (map string_of (p :: ps)) ∅) with (connect dial (PeerRelays cfg) ∅). rewrite <- Hl.
  destruct (Start (Federation_New cfg) dial) as [f loop]. cbn [fst snd] in *. rewrite Ht, negb_involutive.
  by destruct loop.
Qed.

(** ** The whole start *)

Definition start_trace (fl : MainFlags) (fs : list fs_effect) (hostID : string) : list effect :=
  [SetLogLevel (log_level (fLogLevel fl)); SetupTelemetry (telemetry_config version fl); Defer DeferTelemetry] ++
  (KeyFile <$> fs) ++
  (if fEnableWebTransport fl then [Log LevelInfo "WebTransport enabled"] else []) ++
  [HostUp (all_addrs fl) (fEnableWebTransport fl); Defer DeferHostClose; RelayUp (relay_resources fl)] ++ registry_effects fl ++ [WatcherUp; GrpcListening (fRegistryListen fl); GrpcService "RegistryService"] ++
  fed_effects fl hostID ++ [GrpcServing] ++
  (if nonempty (fMCPListen fl) then [McpUp (fMCPListen fl)] else []) ++
  (if nonempty (fMetricsListen fl)
   then [HealthUp (fMetricsListen fl) (has_peers fl); Log LevelInfo "health/metrics server started"] else []) ++
  [ControlPlaneUp main_breaker_config; Log LevelInfo "mesh control plane initialized"] ++
  (if nonempty (fAPIListen fl)
   then [ApiUp (fAPIListen fl) (cors_origins (fAPICORSOrigins fl)) (has_peers fl)] else []) ++
  [Log LevelInfo "agentanycast-relay started"].

Lemma bind_ok {A B} (m : Main A) tr a (f : A → Main B) tr' r :
  m = (tr, inl a) → f a = (tr', r) → main_bind m f = (tr ++ tr', r).
Proof. intros -> Hf. unfold main_bind. cbn [fst snd]. by rewrite Hf. Qed.

(** When the check of [msg] fails, a goroutine that panics has already been started:
    the cleanup loop by the checks after the registry, the sync loop by the MCP
    server's. *)
Definition crash_before (fl : MainFlags) (msg : string) : bool :=
  (cleanup_panics fl && existsb (String.eqb msg) ["failed to subscribe to peer events"; "failed to listen for gRPC";
     "failed to start MCP server"]) ||
  (sync_panics fl && String.eqb msg "failed to start MCP server").

(** The program logs [msg] and exits, having done nothing but quiet effects; [c]
    says whether a panicking goroutine was started before [m]. *)
Definition stops {A} (fl : MainFlags) (c : bool) (m : Main A) (msg : string) : Prop :=
  ∃ tr, m = (tr ++ [Log LevelError msg], inr (Exit 1)) ∧ Forall (λ e, quiet e = true) tr ∧
    c || existsb crashes tr = crash_before fl msg.

Lemma stops_here {A B} fl c tr msg (m : Main A) (f : A → Main B) :
  m = (tr ++ [Log LevelError msg], inr (Exit 1)) → Forall (λ e, quiet e = true) tr →
  c || existsb crashes tr = crash_before fl msg → stops fl c (main_bind m f) msg.
Proof. intros -> Ht Hc. by exists tr. Qed.

Lemma stops_next {A B} fl c tr a msg (m : Main A) (f : A → Main B) :
  m = (tr, inl a) → Forall (λ e, quiet e = true) tr → stops fl (c || existsb crashes tr) (f a) msg →
  stops fl c (main_bind m f) msg.
Proof.
  intros -> Ht (tr' & Hf & Ht' & Hc). exists (tr ++ tr'). unfold main_bind. cbn [fst snd]. rewrite Hf. cbn [fst snd].
  split; [by rewrite app_assoc|]. split; [by apply Forall_app|]. by rewrite existsb_app, orb_assoc.
Qed.

Lemma crashes_keyfile fs : existsb crashes (KeyFile <$> fs) = false.
Proof. by induction fs. Qed.

Lemma crashes_registry fl : existsb crashes (registry_effects fl) = cleanup_panics fl.
Proof. cbn. by rewrite orb_false_r. Qed.

Lemma crashes_fed fl hostID : existsb crashes (fed_effects fl hostID) = sync_panics fl.
Proof.
  unfold fed_effects, sync_panics, has_peers, dials. rewrite andb_comm.
  destruct (federation_peers (fFederationPeers fl)) as [|p ps]; [done|].
  rewrite bool_decide_eq_true_2 by done. rewrite !existsb_app. cbn.
  destruct (dial (string_of p) || existsb _ ps); cbn; by rewrite ?orb_false_r.
Qed.

Lemma quiet_keyfile fs : Forall (λ e, quiet e = true) (KeyFile <$> fs).
Proof. apply Forall_fmap, Forall_forall. done. Qed.

Lemma quiet_fed fl hostID : Forall (λ e, quiet e = true) (fed_effects fl hostID).
Proof. unfold fed_effects. destruct (has_peers fl), (dials fl); repeat constructor. Qed.

Lemma quiet_webtransport fl :
  Forall (λ e, quiet e = true) (if fEnableWebTransport fl then [Log LevelInfo "WebTransport enabled"] else []).
Proof. destruct (fEnableWebTransport fl); repeat constructor. Qed.

(** Which goroutines were started before a check. *)
Ltac crash :=
  unfold crash_before; rewrite ?existsb_app, ?crashes_keyfile, ?crashes_registry, ?crashes_fed;
  cbn -[cleanup_panics sync_panics];
  repeat match goal with |- context [if ?b then _ else _] => destruct b; cbn -[cleanup_panics sync_panics] end;
  by rewrite ?andb_true_r, ?andb_false_r, ?orb_false_r.

(** Passes the calls up to the one that fails. *)
Ltac next := eapply stops_next; [reflexivity|try (repeat constructor; fail)|cbv beta].
Ltac here := eapply (stops_here _ _ []); [first [reflexivity|eassumption]|exact (Forall_nil_2 _)|crash].

Ltac step := eapply bind_ok; [reflexivity|cbv beta].

Lemma startup_stops fl msg : first_stop (gates fl) = Fails msg → stops fl false (start fl) msg.
Proof.
  unfold startup, gates. pose proof (parse_listen_addrs_eq fl) as Hp.
  destruct (setup fl).2 as [sd|err]; cbn [ok gate_if first_stop must].
  2:{ intros [= <-]. do 2 next. here. }
  intros Hg. do 4 next. rewrite load_key_eq. destruct (key fl) as [out fs]. cbn [fst snd] in *.
  destruct out as [k| |]; [|injection Hg as <-; eapply stops_here; [reflexivity|apply quiet_keyfile|crash]|done].
  eapply stops_next; [reflexivity|apply quiet_keyfile|cbv beta]. revert Hg.
  destruct (valid (fListenAddr fl)); cbn [gate_if first_stop] in *; [|intros [= <-]; here].
  destruct (valid (quic_addr (fListenAddr fl))); cbn [gate_if first_stop] in *; [|intros [= <-]; here].
  destruct (negb (fEnableWebTransport fl) || _); cbn [gate_if first_stop] in *; [|intros [= <-]; here].
  intros Hg. eapply stops_next; [exact Hp|apply quiet_webtransport|cbv beta]. revert Hg. clear Hp.
  destruct (libp2p_New k (all_addrs fl) (fEnableWebTransport fl)) as [[hostID addrs]|]; cbn [ok gate_if first_stop must fst snd];
    [|intros [= <-]; here].
  intros Hg. do 3 next. revert Hg.
  destruct (relay_New (relay_resources fl)); cbn [ok gate_if first_stop must]; [|intros [= <-]; here].
  intros Hg. do 2 next. eapply stops_next; [apply start_registry_eq|repeat constructor|cbv beta]. revert Hg.
  destruct Subscribe; cbn [ok gate_if first_stop must]; [|intros [= <-]; here].
  intros Hg. do 2 next. revert Hg.
  destruct (net_Listen (fRegistryListen fl)); cbn [ok gate_if first_stop must]; [|intros [= <-]; here].
  intros Hg. do 3 next.
  eapply stops_next; [apply start_federation_eq|apply quiet_fed|cbv beta]. next.
  rewrite start_mcp_eq. revert Hg. destruct (negb (nonempty (fMCPListen fl)) || _); cbn [gate_if first_stop]; [done|].
  intros [= <-]. here.
Qed.

Lemma startup_panics fl :
  first_stop (gates fl) = Panics →
  ∃ tr, start fl = (tr, inr Panic) ∧ Forall (λ e, quiet e = true) tr ∧ omap deferred_of tr = [DeferTelemetry] ∧
    existsb crashes tr = false.
Proof.
  intros Hg. unfold gates, gate_if in Hg. unfold startup.
  destruct (setup fl).2 as [sd|err]; cbn [ok first_stop must] in *; [|done].
  rewrite load_key_eq. destruct (key fl) as [out fs]. cbn [fst snd] in *.
  destruct out as [k| |]; [|done|].
  - exfalso. revert Hg. repeat case_match; simplify_eq; done.
  - eexists. split; [reflexivity|]. cbn. split; [repeat constructor; apply quiet_keyfile|].
    split; [f_equal; by induction fs|]. by induction fs.
Qed.

Lemma startup_passes fl :
  first_stop (gates fl) = Pass →
  ∃ k hostID addrs, (key fl).1 = KeyOk k ∧
    libp2p_New k (all_addrs fl) (fEnableWebTransport fl) = inl (hostID, addrs) ∧
    start fl = (start_trace fl (key fl).2 hostID ++ (Printf <$> banner fl hostID addrs),
                inl (sys_init (sys_flags fl) hostID dial now)).
Proof.
  unfold startup, gates. pose proof (parse_listen_addrs_eq fl) as Hp.
  destruct (setup fl).2 as [sd|err]; cbn [ok gate_if first_stop must]; [|done].
  rewrite load_key_eq. unfold start_trace. destruct (key fl) as [out fs]. cbn [fst snd].
  destruct out as [k| |]; [|done|done].
  destruct (valid (fListenAddr fl)); cbn [gate_if first_stop] in *; [|done].
  destruct (valid (quic_addr (fListenAddr fl))); cbn [gate_if first_stop] in *; [|done].
  destruct (negb (fEnableWebTransport fl) || _); cbn [gate_if first_stop] in *; [|done].
  destruct (libp2p_New k (all_addrs fl) (fEnableWebTransport fl)) as [[hostID addrs]|] eqn:Hl; cbn [ok gate_if first_stop]; [|done].
  destruct (relay_New (relay_resources fl)); cbn [ok gate_if first_stop must]; [|done].
  destruct Subscribe; cbn [ok gate_if first_stop must]; [|done].
  destruct (net_Listen (fRegistryListen fl)); cbn [ok gate_if first_stop must]; [|done].
  rewrite start_mcp_eq. destruct (negb (nonempty (fMCPListen fl)) || _); cbn [gate_if first_stop]; [|done].
  intros _. exists k, hostID, addrs. split; [done|]. split; [done|]. rewrite Hp.
  destruct (start_federation_eq fl hostID) as [Hf Hb].
  match goal with |- ?m = _ => eassert (m = (_, _)) as -> end.
  { do 6 step. eapply bind_ok; [rewrite Hl; reflexivity|cbv beta; cbn [fst snd]]. do 4 step.
    eapply bind_ok; [apply start_registry_eq|cbv beta]. do 5 step.
    eapply bind_ok; [exact Hf|cbv beta]. do 8 step. reflexivity. }
  f_equal. rewrite Hb. unfold emit_if. cbn [app].
  repeat (rewrite <- app_assoc || rewrite <- app_comm_cons || rewrite app_nil_r). reflexivity.
Qed.
(** ** The process *)

Local Abbreviation prog := (main version newE newR generate marshal unmarshal ReadFile valid libp2p_New
  relay_New Subscribe net_Listen dial now).

(** The same flags with other addresses for the metrics and API servers. *)
Definition with_http_addrs (fl : MainFlags) (metrics api : string) : MainFlags :=
  mkMainFlags (fListenAddr fl) (fKeyPath fl) (fMaxReservations fl) (fLogLevel fl) (fRegistryListen fl)
    (fRegistryTTL fl) (fEnableWebTransport fl) (fMCPListen fl) metrics api (fAPICORSOrigins fl) (fOTLPEndpoint fl)
    (fFederationPeers fl) (fFederationSyncInterval fl) (fVersion fl).

Lemma main_bind_stop {A B} (m : Main A) tr h (f : A → Main B) : m = (tr, inr h) → main_bind m f = (tr, inr h).
Proof. by intros ->. Qed.

Lemma main_stops fl msg :
  fVersion fl = false → first_stop (gates fl) = Fails msg →
  ∃ tr, prog fl = (tr ++ [Log LevelError msg], inr (Exit 1)) ∧ Forall (λ e, quiet e = true) tr ∧
    existsb crashes tr = crash_before fl msg.
Proof.
  intros Hv Hg. destruct (startup_stops fl msg Hg) as (tr & Hs & Hq). exists tr. split; [|done].
  unfold main. rewrite Hv. by apply main_bind_stop.
Qed.

Lemma main_panics fl :
  fVersion fl = false → first_stop (gates fl) = Panics →
  ∃ tr, prog fl = (tr, inr Panic) ∧ Forall (λ e, quiet e = true) tr ∧ omap deferred_of tr = [DeferTelemetry] ∧
    existsb crashes tr = false.
Proof.
  intros Hv Hg. destruct (startup_panics fl Hg) as (tr & Hs & Hq). exists tr. split; [|done].
  unfold main. rewrite Hv. by apply main_bind_stop.
Qed.

Definition shutdown_trace (fl : MainFlags) : list effect :=
  [Log LevelInfo "shutting down"] ++
  (if nonempty (fAPIListen fl) then [ApiClosed] else []) ++
  (if nonempty (fMetricsListen fl) then [HealthClosed] else []) ++
  (if has_peers fl then [FederationStopped] else []) ++
  (if nonempty (fMCPListen fl) then [McpClosed] else []) ++
  [GrpcStopped].

Lemma main_passes fl :
  fVersion fl = false → first_stop (gates fl) = Pass →
  ∃ k hostID addrs, (key fl).1 = KeyOk k ∧
    libp2p_New k (all_addrs fl) (fEnableWebTransport fl) = inl (hostID, addrs) ∧
    (start fl).2 = inl (sys_init (sys_flags fl) hostID dial now) ∧
    prog fl = ((start_trace fl (key fl).2 hostID ++ (Printf <$> banner fl hostID addrs)) ++
               Defer DeferStopSignals :: SignalReceived :: shutdown_trace fl, inl tt).
Proof.
  intros Hv Hg. destruct (startup_passes fl Hg) as (k & hostID & addrs & Hk & Hl & Hs).
  exists k, hostID, addrs. split_and!; [done|done|by rewrite Hs|].
  unfold main. rewrite Hv. eapply bind_ok; [exact Hs|].
  rewrite (proj2 (start_federation_eq fl hostID)). unfold shutdown, shutdown_trace, emit_if, emit, main_bind.
  reflexivity.
Qed.

Lemma shutdown_crashes fl : existsb crashes (SignalReceived :: shutdown_trace fl) = false.
Proof.
  unfold shutdown_trace. cbn. rewrite !existsb_app.
  by destruct (nonempty (fAPIListen fl)), (nonempty (fMetricsListen fl)), (has_peers fl), (nonempty (fMCPListen fl)).
Qed.

Lemma omap_if {A B} (f : A → option B) (b : bool) l : omap f (if b then l else []) = if b then omap f l else [].
Proof. by destruct b. Qed.

Lemma start_trace_reads fl fs hostID :
  omap printed (start_trace fl fs hostID) = [] ∧ omap closed (start_trace fl fs hostID) = [] ∧
  omap run_of (start_trace fl fs hostID) = [] ∧
  omap opened (start_trace fl fs hostID) =
    [SvcGrpc] ++ (if has_peers fl then [SvcFederation] else []) ++
    (if nonempty (fMCPListen fl) then [SvcMcp] else []) ++
    (if nonempty (fMetricsListen fl) then [SvcHealth] else []) ++
    (if nonempty (fAPIListen fl) then [SvcApi] else []) ∧
  omap deferred_of (start_trace fl fs hostID) =
    [DeferTelemetry; DeferHostClose; DeferRegistryClose] ++ (if has_peers fl then [DeferFederationCancel] else []) ∧
  omap signal_of (start_trace fl fs hostID) = [].
Proof.
  assert (∀ B (f : effect → option B), (∀ x, f (KeyFile x) = None) → omap f (KeyFile <$> fs) = []) as Hfs.
  { intros B f Hf. induction fs as [|x l IH]; [done|]. simpl. by rewrite Hf. }
  unfold start_trace, registry_effects, fed_effects.
  split_and!; rewrite !omap_app, Hfs, !omap_if by done; cbn;
    destruct (has_peers fl), (dials fl), (nonempty (fMCPListen fl)), (nonempty (fMetricsListen fl)), (nonempty (fAPIListen fl)),
      (fEnableWebTransport fl); done.
Qed.

Lemma omap_printf {B} (f : effect → option B) (l : list string) : (∀ s, f (Printf s) = None) → omap f (Printf <$> l) = [].
Proof. intros Hf. induction l as [|x l IH]; [done|]. simpl. by rewrite Hf. Qed.

Lemma omap_printed (l : list string) : omap printed (Printf <$> l) = l.
Proof. induction l as [|x l IH]; [done|]. simpl. f_equal. exact IH. Qed.

Lemma omap_run {B} (f : effect → option B) (l : list deferred) : (∀ d, f (RunDeferred d) = None) → omap f (RunDeferred <$> l) = [].
Proof. intros Hf. induction l as [|x l IH]; [done|]. simpl. by rewrite Hf. Qed.

(** All that [main] does before the signal. *)
Definition up_trace (fl : MainFlags) (fs : list fs_effect) (hostID : string) (addrs : list string) : list effect :=
  (start_trace fl fs hostID ++ (Printf <$> banner fl hostID addrs)) ++ [Defer DeferStopSignals].

Lemma omap_up {B} (f : effect → option B) fl fs hostID addrs :
  (∀ s, f (Printf s) = None) →
  omap f (up_trace fl fs hostID addrs) = omap f (start_trace fl fs hostID) ++ omap f [Defer DeferStopSignals].
Proof. intros Hf. unfold up_trace. rewrite !omap_app, (omap_printf f) by done. by rewrite app_nil_r. Qed.

Lemma up_trace_crashes fl fs hostID addrs :
  existsb crashes (up_trace fl fs hostID addrs) = goroutine_panics fl ∧ SignalReceived ∉ up_trace fl fs hostID addrs.
Proof.
  split.
  - assert (existsb crashes (Printf <$> banner fl hostID addrs) = false) as Hb by (by induction (banner fl hostID addrs)).
    unfold up_trace, start_trace. rewrite !existsb_app, Hb, crashes_keyfile, crashes_registry, crashes_fed.
    unfold goroutine_panics. generalize (cleanup_panics fl), (sync_panics fl). intros b1 b2. cbn.
    by destruct b1, b2, (fEnableWebTransport fl), (nonempty (fMCPListen fl)), (nonempty (fMetricsListen fl)),
      (nonempty (fAPIListen fl)).
  - apply omap_signal. rewrite omap_up by done.
    by destruct (start_trace_reads fl fs hostID) as (_ & _ & _ & _ & _ & ->).
Qed.

Lemma main_up fl :
  fVersion fl = false → first_stop (gates fl) = Pass →
  ∃ k hostID addrs, (key fl).1 = KeyOk k ∧
    libp2p_New k (all_addrs fl) (fEnableWebTransport fl) = inl (hostID, addrs) ∧
    (start fl).2 = inl (sys_init (sys_flags fl) hostID dial now) ∧
    prog fl = (up_trace fl (key fl).2 hostID addrs ++ SignalReceived :: shutdown_trace fl, inl tt).
Proof.
  intros Hv Hg. destruct (main_passes fl Hv Hg) as (k & hostID & addrs & Hk & Hl & Hs & Hm).
  exists k, hostID, addrs. split_and!; [done..|]. rewrite Hm. unfold up_trace.
  by rewrite <- (app_assoc _ [Defer DeferStopSignals]).
Qed.

(** The statuses that a process can end with. *)
Definition exit_codes (fl : MainFlags) : list Z :=
  if fVersion fl then [0] else
  match first_stop (gates fl) with
  | Pass => if goroutine_panics fl then [2] else [0]
  | Fails msg => if crash_before fl msg then [1; 2] else [1]
  | Panics => [2]
  end.

Lemma process_codes fl code : (∃ tr, process (prog fl) tr code) ↔ code ∈ exit_codes fl.
Proof.
  unfold exit_codes. destruct (fVersion fl) eqn:Hv.
  { unfold main. rewrite Hv. setoid_rewrite process_quiet; [|done]. rewrite list_elem_of_singleton. cbn.
    split; [by intros (? & [= _ ->])|intros ->; by eexists]. }
  destruct (first_stop (gates fl)) as [|msg|] eqn:Hg.
  - destruct (main_up fl Hv Hg) as (k & hostID & addrs & _ & _ & _ & ->).
    destruct (up_trace_crashes fl (key fl).2 hostID addrs) as [Hc Hn]. rewrite <- Hc.
    destruct (existsb crashes (up_trace _ _ _ _)) eqn:He; rewrite list_elem_of_singleton.
    + setoid_rewrite process_crashes; [|done..]. split; [by intros (? & -> & _)|]. intros ->.
      eexists. split_and!; [done|by exists []; rewrite app_nil_r|done].
    + setoid_rewrite process_quiet; [|cbn [fst]; rewrite existsb_app, He; by apply shutdown_crashes].
      cbn. split; [by intros (? & [= _ ->])|intros ->; by eexists].
  - destruct (main_stops fl msg Hv Hg) as (tr & -> & Hq & Hc). rewrite <- Hc.
    destruct (quiet_omaps _ Hq) as (_ & _ & _ & Hn).
    setoid_rewrite process_before_signal; [|rewrite not_elem_of_app, list_elem_of_singleton; naive_solver].
    cbn. destruct (existsb crashes tr) eqn:He.
    + rewrite !elem_of_cons. split.
      * intros (? & [[= _ ->]|(-> & _)]); auto.
      * intros [->|[->|?%elem_of_nil]]; [eexists; by left| |done]. exists tr. right. split_and!; [done|by eexists|done].
    + rewrite list_elem_of_singleton. split; [|intros ->; eexists; by left].
      intros (tr' & [[= _ ->]|(_ & [after Ht] & Hx)]); [done|]. exfalso.
      apply (f_equal (existsb crashes)) in Ht. rewrite !existsb_app, He, Hx in Ht. done.
  - destruct (main_panics fl Hv Hg) as (tr & -> & _ & _ & Hc).
    setoid_rewrite process_quiet; [|done]. rewrite list_elem_of_singleton. cbn.
    split; [by intros (? & [= _ ->])|intros ->; by eexists].
Qed.

(** C21: How the process ends, for all flags and all outcomes of the calls it
    makes.  [exit_codes] are exactly the statuses it can end with: 0 for [-version];
    otherwise the first check of [gates] that fails decides, with 1, or 2 when the
    key path panics.  For a registry TTL of 1 ns or a negative one the cleanup loop
    panics, and for a negative sync interval with a peer that can be dialled the
    sync loop does, wherever [main] is by then: a process that could start ends
    with 2 and closes nothing and runs nothing of what was deferred, and one that
    fails a later check may end with 2 instead of 1.  If all checks pass and no
    goroutine panics the status is 0.  A process that ends with 1 has logged the
    failure last, and a process that failed has printed nothing, closed nothing and
    run nothing of what was deferred; one whose key path panics has run the
    tracing shutdown only.  Whether the addresses of the metrics and API servers can be bound, or
    which they are, changes nothing of the status. *)
Theorem main_exits fl :
  (∀ code, (∃ tr, process (prog fl) tr code) ↔ code ∈ exit_codes fl) ∧
  (∀ tr code, process (prog fl) tr code →
     (fVersion fl = true → tr = [Printf ("agentanycast-relay " +:+ version)]) ∧
     (fVersion fl = false →
        match first_stop (gates fl) with
        | Pass => code = 2 → omap run_of tr = [] ∧ omap closed tr = []
        | Fails msg => omap printed tr = [] ∧ omap run_of tr = [] ∧ omap closed tr = [] ∧
            (code = 1 → last tr = Some (Log LevelError msg))
        | Panics => omap printed tr = [] ∧ omap closed tr = [] ∧ omap run_of tr = [DeferTelemetry]
        end)) ∧
  (∀ metrics api code, (∃ tr, process (prog (with_http_addrs fl metrics api)) tr code) ↔
     ∃ tr, process (prog fl) tr code).
Proof.
  split; [apply process_codes|]. split; [|intros metrics api code; by rewrite !process_codes].
  intros tr code Hp. split; intros Hv.
  { unfold main in Hp. rewrite Hv in Hp. apply process_quiet in Hp; [|done]. by injection Hp as -> _. }
  destruct (first_stop (gates fl)) as [|msg|] eqn:Hg.
  - intros ->. destruct (main_up fl Hv Hg) as (k & hostID & addrs & _ & _ & _ & Hm). rewrite Hm in Hp.
    destruct (up_trace_crashes fl (key fl).2 hostID addrs) as [Hc Hn].
    destruct (start_trace_reads fl (key fl).2 hostID) as (_ & H2 & H3 & _).
    destruct (existsb crashes (up_trace _ _ _ _)) eqn:He.
    + apply process_crashes in Hp as (_ & [after Hu] & _); [|done..].
      assert (∀ B (f : effect → option B), omap f (up_trace fl (key fl).2 hostID addrs) = [] → omap f tr = []) as Hpre.
      { intros B f Hf. rewrite Hu, omap_app in Hf. by apply app_eq_nil in Hf as [? _]. }
      split; apply Hpre; rewrite omap_up by done; [by rewrite H3|by rewrite H2].
    + apply process_quiet in Hp; [done|]. cbn [fst]. rewrite existsb_app, He. apply shutdown_crashes.
  - destruct (main_stops fl msg Hv Hg) as (tr' & Hm & Hq & _). rewrite Hm in Hp.
    assert (Forall (λ e, quiet e = true) (tr' ++ [Log LevelError msg])) as Hq' by (apply Forall_app; by repeat constructor).
    destruct (quiet_omaps _ Hq') as (H1 & H2 & H3 & Hn).
    apply process_before_signal in Hp as [[= -> ->]|(-> & [after Ht] & _)]; [by rewrite last_snoc| |done].
    rewrite Ht in Hq'. apply Forall_app in Hq' as [Hq' _]. destruct (quiet_omaps _ Hq') as (? & ? & ? & _).
    by split_and!.
  - destruct (main_panics fl Hv Hg) as (tr' & Hm & Hq & Hd & Hc). rewrite Hm in Hp.
    apply process_quiet in Hp; [|done]. cbn in Hp. rewrite Hd in Hp. injection Hp as -> ->.
    destruct (quiet_omaps _ Hq) as (H1 & H2 & H3 & _). by rewrite !omap_app, H1, H2, H3.
Qed.

(** C9: What a process does whose checks pass and whose goroutines do not panic.
    It can go in one way only.  It sets up exactly the relay that
    [System.sys_init] describes, for the host's peer ID; prints where to reach it,
    a line per address of the host and per server that is on; opens the gRPC
    server and, as the flags say, federation, MCP, metrics and API; and after the
    signal closes each of them exactly once, the gRPC server last, runs every
    deferred call, last registered first, and ends with 0. *)
Theorem main_runs fl (Hv : fVersion fl = false) (Hg : first_stop (gates fl) = Pass)
    (Hp : goroutine_panics fl = false) :
  ∃ k hostID addrs, (key fl).1 = KeyOk k ∧
    libp2p_New k (all_addrs fl) (fEnableWebTransport fl) = inl (hostID, addrs) ∧
    (start fl).2 = inl (sys_init (sys_flags fl) hostID dial now) ∧
    ∃ up down,
      (∀ tr code, process (prog fl) tr code ↔
        tr = up ++ SignalReceived :: down ++ (RunDeferred <$> reverse (omap deferred_of up)) ∧ code = 0) ∧
      omap printed (up ++ down) = banner fl hostID addrs ∧
      omap opened up = [SvcGrpc] ++ (if has_peers fl then [SvcFederation] else []) ++
        (if nonempty (fMCPListen fl) then [SvcMcp] else []) ++
        (if nonempty (fMetricsListen fl) then [SvcHealth] else []) ++
        (if nonempty (fAPIListen fl) then [SvcApi] else []) ∧
      omap closed up = [] ∧ omap opened down = [] ∧ omap closed down ≡ₚ omap opened up ∧
      last (omap closed down) = Some SvcGrpc ∧ omap run_of (up ++ down) = [] ∧
      reverse (omap deferred_of up) =
        [DeferStopSignals] ++ (if has_peers fl then [DeferFederationCancel] else []) ++
        [DeferRegistryClose; DeferHostClose; DeferTelemetry].
Proof.
  destruct (main_up fl Hv Hg) as (k & hostID & addrs & Hk & Hl & Hs & Hm). exists k, hostID, addrs.
  split_and!; [done..|].
  destruct (start_trace_reads fl (key fl).2 hostID) as (H1 & H2 & H3 & H4 & H5 & _).
  destruct (up_trace_crashes fl (key fl).2 hostID addrs) as [Hc _]. rewrite Hp in Hc.
  assert (omap deferred_of (shutdown_trace fl) = []) as Hd.
  { unfold shutdown_trace. rewrite !omap_app, !omap_if. cbn. by repeat case_match. }
  exists (up_trace fl (key fl).2 hostID addrs), (shutdown_trace fl). split_and!.
  - intros tr code. rewrite Hm, process_quiet by (cbn [fst]; rewrite existsb_app, Hc; apply shutdown_crashes).
    unfold finish. cbn [fst snd]. rewrite omap_app.
    change (omap deferred_of (SignalReceived :: shutdown_trace fl)) with (omap deferred_of (shutdown_trace fl)).
    rewrite Hd, app_nil_r, <- app_assoc. split; [by intros [= -> ->]|by intros [-> ->]].
  - rewrite omap_app. unfold up_trace. rewrite !omap_app, H1, omap_printed. cbn.
    unfold shutdown_trace. rewrite !omap_app, !omap_if. cbn. repeat case_match; by rewrite !app_nil_r.
  - rewrite omap_up, H4 by done. cbn. by rewrite app_nil_r.
  - by rewrite omap_up, H2 by done.
  - unfold shutdown_trace. rewrite !omap_app, !omap_if. cbn. by repeat case_match.
  - rewrite omap_up, H4 by done. unfold shutdown_trace. rewrite !omap_app, !omap_if. cbn.
    destruct (has_peers fl), (nonempty (fMCPListen fl)), (nonempty (fMetricsListen fl)), (nonempty (fAPIListen fl));
      by apply (bool_decide_unpack _); vm_compute.
  - unfold shutdown_trace. rewrite !omap_app, !omap_if. cbn. by repeat case_match.
  - rewrite omap_app, omap_up, H3 by done. unfold shutdown_trace. rewrite !omap_app, !omap_if. cbn. by repeat case_match.
  - rewrite omap_up, H5 by done. rewrite !reverse_app. by destruct (has_peers fl).
Qed.
End props.

(** A relay with one federation peer, its REST API off; one whose MCP port is taken;
    and ones whose registry TTL or sync interval makes a ticker panic. *)
Definition ex_flags : MainFlags :=
  mkMainFlags (bytes_of "/ip4/0.0.0.0/tcp/4001") [] 128 "info" ":50052" (30 * Second) false ":8080" ":9090" ""
    [] "" (bytes_of " relay-b:50052 ,") (10 * Second) false.

Definition ex_flags_ttl (ttl interval : Z) : MainFlags :=
  mkMainFlags (bytes_of "/ip4/0.0.0.0/tcp/4001") [] 128 "info" ":50052" ttl false ":8080" ":9090" ""
    [] "" (bytes_of "relay-b:50052") interval false.

Definition ex_main (net_Listen : string → string + string) (fl : MainFlags) : Main unit :=
  main (K := unit) (Exporter := unit) (Resource := unit) "dev" (λ _ _, inl tt) (λ _, inl tt) (Some tt)
    (λ _, Some "raw") (λ _, Some tt) (λ _, ReadNotExist) (λ _, true)
    (λ _ _ _, inl ("12D3", ["/ip4/10.0.0.1/tcp/4001"])) (λ _, inl tt) (inl tt) net_Listen (λ _, true) 5 fl.

Definition ex_taken (addr : string) : string + string :=
  if String.eqb addr ":8080" then inr "address already in use" else inl addr.

Example ex_main_taken :
  let '(tr, code) := finish (ex_main ex_taken ex_flags) in
  code = 1 ∧ last tr = Some (Log LevelError "failed to start MCP server") ∧ omap opened tr = [SvcGrpc; SvcFederation].
Proof. vm_compute. done. Qed.

Example ex_version : finish (ex_main inl (mkMainFlags [] [] 0 "" "" 0 false "" "" "" [] "" [] 0 true)) =
  ([Printf "agentanycast-relay dev"], 0).
Proof. vm_compute. reflexivity. Qed.

(** Which goroutines [main] starts that panic: the cleanup loop for a TTL of 1 ns,
    the sync loop for a negative interval. *)
Example ex_crashes :
  filter (λ e, crashes e = true) (ex_main inl (ex_flags_ttl 1 Second)).1 = [Go CleanupLoop true] ∧
  filter (λ e, crashes e = true) (ex_main inl (ex_flags_ttl Second (-1))).1 = [Go SyncLoop true] ∧
  filter (λ e, crashes e = true) (ex_main inl ex_flags).1 = [].
Proof. vm_compute. done. Qed.

Lemma main_runs_witness :
  ∃ up down,
    process (ex_main inl ex_flags) (up ++ SignalReceived :: down ++ (RunDeferred <$> reverse (omap deferred_of up))) 0 ∧
    omap printed (up ++ down) =
      ["RELAY_ADDR=/ip4/10.0.0.1/tcp/4001/p2p/12D3"; "REGISTRY_ADDR=:50052"; "MCP_ADDR=:8080"; "METRICS_ADDR=:9090"] ∧
    omap opened up = [SvcGrpc; SvcFederation; SvcMcp; SvcHealth] ∧ omap closed down ≡ₚ omap opened up.
Proof.
  destruct (main_runs (K := unit) (Exporter := unit) (Resource := unit) "dev" (λ _ _, inl tt) (λ _, inl tt) (Some tt)
    (λ _, Some "raw") (λ _, Some tt) (λ _, ReadNotExist) (λ _, true)
    (λ _ _ _, inl ("12D3", ["/ip4/10.0.0.1/tcp/4001"])) (λ _, inl tt) (inl tt) inl (λ _, true) 5 ex_flags
    ltac:(reflexivity) ltac:(vm_compute; reflexivity) ltac:(vm_compute; reflexivity))
    as (k & hostID & addrs & _ & Hl & _ & up & down & Hp & Hpr & Hop & _ & _ & Hcl & _).
  injection Hl as <- <-. exists up, down. split; [by apply Hp|].
  split; [rewrite Hpr; vm_compute; reflexivity|]. split; [rewrite Hop; vm_compute; reflexivity|exact Hcl].
Defined.
